(** * Partial.js: the interaction engine of [src/partial.htmx.js]

    A shallow embedding of the request pipeline and of the response
    reconciler of class [Partial], and the properties of the engine that
    are established (or refuted) on it.

    Conventions of the embedding.
    - A JavaScript string is a [string]; every character is one code unit
      below 256.  Case mapping is exact on ASCII.
    - A JavaScript number that the engine handles is an integer or [NaN]
      ([Number]); doubles are idealised as unbounded integers, exact for
      magnitudes below 2^53.
    - [null] and [undefined] of a string-valued expression are [None].
    - A plain object used as a map from header names to values is a
      [gmap string string].
    - Code that throws returns [Throw e]; effects are threaded through a
      state and exception monad over the record [World]. *)

From Stdlib Require Import ZArith Ascii String.
From stdpp Require Import base option list strings pretty gmap.
From Equations Require Import Equations.

Set Warnings "-register-all".

Local Open Scope string_scope.
Local Open Scope Z_scope.

(** ** JavaScript values used by the engine *)

Module Js.

(** An [Error] object, or any thrown value: its [name] and [message]. *)
Record Error := mkErr { err_name : string; err_message : string }.

(** [new Error(message)] *)
Definition newError (message : string) : Error := mkErr "Error" message.

(** The numbers that the engine computes with: [NaN], and the integers
    that [parseInt] reads and the counters of its loops.  An integer is
    the number itself up to 2^53; beyond, it stands for the number that
    the texts and the sums of the engine round to. *)
Inductive Number := NaN | Int (z : Z).

(** Truthiness of a string-valued expression ([null] and the empty string
    are falsy). *)
Definition truthy (v : option string) : bool :=
  match v with
  | None => false
  | Some s => negb (String.eqb s "")
  end.

(** [a || b] on strings *)
Definition orElse (v : option string) (d : string) : string :=
  match v with
  | Some s => if String.eqb s "" then d else s
  | None => d
  end.

(** [a || b] on numbers: [NaN], [0] and [-0] are falsy. *)
Definition numOr (v : Number) (d : Z) : Z :=
  match v with
  | NaN => d
  | Int z => if z =? 0 then d else z
  end.

(** Truthiness of a number. *)
Definition numTruthy (v : Number) : bool :=
  match v with
  | NaN => false
  | Int z => negb (z =? 0)
  end.

(** [a + b]; [a < b]; [a >= b] on numbers ([NaN] compares false). *)
Definition add (a : Number) (b : Z) : Number :=
  match a with NaN => NaN | Int z => Int (z + b) end.

Definition lt (a : Z) (b : Number) : bool :=
  match b with NaN => false | Int z => a <? z end.

Definition ge (a : Z) (b : Number) : bool :=
  match b with NaN => false | Int z => z <=? a end.

(** [ToString] of a string-or-null value. *)
Definition toString (v : option string) : string :=
  match v with Some s => s | None => "null" end.

(** WhiteSpace and LineTerminator code units below 256:
    TAB, LF, VT, FF, CR, SP, NBSP. *)
Definition isWhiteSpace (c : ascii) : bool :=
  let n := nat_of_ascii c in
  bool_decide (n = 9 \/ n = 10 \/ n = 11 \/ n = 12 \/ n = 13 \/ n = 32 \/ n = 160)%nat.

(** ASCII whitespace of the DOM standard: TAB, LF, FF, CR, SP. *)
Definition isAsciiWhitespace (c : ascii) : bool :=
  let n := nat_of_ascii c in
  bool_decide (n = 9 \/ n = 10 \/ n = 12 \/ n = 13 \/ n = 32)%nat.

Fixpoint hasAsciiWhitespace (s : string) : bool :=
  match s with
  | String c r => isAsciiWhitespace c || hasAsciiWhitespace r
  | EmptyString => false
  end.

Fixpoint trimStart (s : string) : string :=
  match s with
  | String c r => if isWhiteSpace c then trimStart r else s
  | EmptyString => EmptyString
  end.

Definition rev (s : string) : string :=
  string_of_list_ascii (List.rev (list_ascii_of_string s)).

(** [String.prototype.trim] *)
Definition trim (s : string) : string := rev (trimStart (rev (trimStart s))).

Definition digitValue (c : ascii) : option Z :=
  let n := nat_of_ascii c in
  if bool_decide (48 <= n <= 57)%nat then Some (Z.of_nat (n - 48)) else None.

(** The value of the longest prefix of decimal digits; [None] when that
    prefix is empty. *)
Fixpoint digits (s : string) (acc : option Z) : option Z :=
  match s with
  | String c r =>
      match digitValue c with
      | Some d => digits r (Some (10 * default 0 acc + d))
      | None => acc
      end
  | EmptyString => acc
  end.

(** [parseInt(string, 10)] (ECMA-262, 19.2.5): leading white space is
    skipped, one sign is read, and the longest prefix of digits is the
    value; no digit gives [NaN].  [-0] is [Int 0]. *)
Definition parseInt (v : option string) : Number :=
  let s := trimStart (toString v) in
  let '(sign, s) :=
    match s with
    | String "-" r => (-1, r)
    | String "+" r => (1, r)
    | _ => (1, s)
    end in
  match digits s None with
  | None => NaN
  | Some m => Int (sign * m)
  end.

(** ASCII upper case of one code unit. *)
Definition upper (c : ascii) : ascii :=
  let n := nat_of_ascii c in
  if bool_decide (97 <= n <= 122)%nat then ascii_of_nat (n - 32) else c.

Fixpoint toUpperCase (s : string) : string :=
  match s with
  | String c r => String (upper c) (toUpperCase r)
  | EmptyString => EmptyString
  end.

Definition lower (c : ascii) : ascii :=
  let n := nat_of_ascii c in
  if bool_decide (65 <= n <= 90)%nat then ascii_of_nat (n + 32) else c.

Fixpoint toLowerCase (s : string) : string :=
  match s with
  | String c r => String (lower c) (toLowerCase r)
  | EmptyString => EmptyString
  end.

(** [s.startsWith(p)] *)
Definition startsWith (p s : string) : bool := String.prefix p s.

(** [s.substring(n)] *)
Fixpoint substring (n : nat) (s : string) : string :=
  match n, s with
  | O, _ => s
  | S m, String _ r => substring m r
  | S _, EmptyString => EmptyString
  end.

(** [s.replace(p, r)] with a string pattern: the first occurrence only. *)
Fixpoint replace (p r s : string) : string :=
  if String.prefix p s then r +:+ substring (String.length p) s
  else match s with
       | String c t => String c (replace p r t)
       | EmptyString => EmptyString
       end.

(** [s.split(",")] *)
Fixpoint splitComma (s : string) : list string :=
  match s with
  | EmptyString => [EmptyString]
  | String c r =>
      if Ascii.eqb c ","
      then EmptyString :: splitComma r
      else match splitComma r with
           | x :: l => String c x :: l
           | [] => [String c EmptyString]
           end
  end.

(** The double quote, as a string. *)
Definition quote : string := String (ascii_of_nat 34) EmptyString.

(** [s.includes(p)] *)
Fixpoint includes (p s : string) : bool :=
  String.prefix p s ||
  match s with
  | String _ t => includes p t
  | EmptyString => false
  end.

End Js.

(** ** The attribute schema (constructor of [Partial]) *)

Module Attr.

(** [Object.values(this.ATTRIBUTES.ACTIONS)], in property order. *)
Definition ACTIONS : list string :=
  ["x-get"; "x-post"; "x-put"; "x-delete"; "x-patch"].

Definition TARGET := "x-target".
Definition TRIGGER := "x-trigger".
Definition SERIALIZE := "x-serialize".
Definition JSON := "x-json".
Definition PARAMS := "x-params".
Definition SWAP_OOB := "x-swap-oob".
Definition PUSH_STATE := "x-push-state".
Definition FOCUS := "x-focus".
Definition DEBOUNCE := "x-debounce".
Definition BEFORE := "x-before".
Definition AFTER := "x-after".
Definition SSE := "x-sse".
Definition INDICATOR := "x-indicator".
Definition CONFIRM := "x-confirm".
Definition TIMEOUT := "x-timeout".
Definition RETRY := "x-retry".
Definition ON_ERROR := "x-on-error".
Definition LOADING_CLASS := "x-loading-class".
Definition SWAP := "x-swap".
Definition INFINITE_SCROLL := "x-infinite-scroll".

Definition INHERITABLE_ATTRIBUTES : list string :=
  [TARGET; SWAP; SERIALIZE; TRIGGER; LOADING_CLASS; INDICATOR; RETRY;
   TIMEOUT; FOCUS; DEBOUNCE].

(** [array.includes(name)] *)
Definition includes (l : list string) (name : string) : bool :=
  existsb (String.eqb name) l.

End Attr.

(** ** Elements and attribute lookup *)

(** The attributes of an element, in document order of the attribute list;
    a name occurs at most once in a real element, and lookup takes the
    first. *)
Definition Attrs := list (string * string).

Fixpoint getAttr (attrs : Attrs) (name : string) : option string :=
  match attrs with
  | [] => None
  | (k, v) :: r => if String.eqb k name then Some v else getAttr r name
  end.

Definition hasAttr (attrs : Attrs) (name : string) : bool :=
  bool_decide (is_Some (getAttr attrs name)).

(** An element as the configuration resolver sees it: its identity, its
    tag, its own attributes, and its chain of ancestors through
    [parentElement]. *)
Inductive Element := mkElement {
  nodeId : nat;
  tagName : string;
  attributes : Attrs;
  parentElement : option Element
}.

Definition getAttribute (e : Element) (name : string) : option string :=
  getAttr (attributes e) name.

Definition hasAttribute (e : Element) (name : string) : bool :=
  hasAttr (attributes e) name.

(** [element.id]: the value of the [id] attribute, or the empty string. *)
Definition elementId (e : Element) : string :=
  default "" (getAttribute e "id").

(** The [while (currentElement)] loop of [getAttributeWithInheritance]. *)
Fixpoint walkUp (currentElement : Element) (attributeName : string) : option string :=
  if hasAttribute currentElement attributeName
  then getAttribute currentElement attributeName
  else match parentElement currentElement with
       | Some p => walkUp p attributeName
       | None => None
       end.

Definition getAttributeWithInheritance (element : Element) (attributeName : string)
  : option string :=
  if negb (Attr.includes Attr.INHERITABLE_ATTRIBUTES attributeName)
  then getAttribute element attributeName
  else walkUp element attributeName.

Definition hasAttributeWithInheritance (element : Element) (attributeName : string) : bool :=
  bool_decide (getAttributeWithInheritance element attributeName <> None).

(** The [for (const attr of ...)] loop of [getMethod], over the remaining
    action attributes. *)
Fixpoint getMethodFrom (actions : list string) (element : Element) : string :=
  match actions with
  | [] => "GET"
  | attr :: rest =>
      if hasAttributeWithInheritance element attr
      then Js.toUpperCase (Js.replace "x-" "" attr)
      else getMethodFrom rest element
  end.

Definition getMethod (element : Element) : string :=
  getMethodFrom Attr.ACTIONS element.

(** ** Results, the document and the world *)

(** The outcome of code that may throw. *)
Inductive Result (A : Type) :=
| Ok (a : A)
| Throw (e : Js.Error).
Arguments Ok {A} a.
Arguments Throw {A} e.

(** A listener registered by [addEventListener(trigger, handler)], with the
    delay of its debounced action. *)
Record Listener := mkListener { l_type : string; l_debounce : Z }.

(** The ad hoc properties that the engine attaches to a live element. *)
Record Marks := mkMarks {
  initialized : bool;      (* __xRequestHandlerInitialized *)
  listeners : list Listener;
  sseInitialized : bool;   (* __xSSEInitialized, with its EventSource *)
  sentinelElement : option nat;  (* __sentinelElement *)
  scrollObserver : bool;   (* __infiniteScrollObserver *)
  scrollStopped : bool     (* __infiniteScrollStopped *)
}.

Definition noMarks : Marks := mkMarks false [] false None false false.

(** What an HTML parser produces from text: markup without identity. *)
Inductive Markup :=
| MElem (tag : string) (attrs : Attrs) (children : list Markup)
| MText (data : string).

(** A DOM node.  [nid] is the identity of the JavaScript object: two
    references denote the same node exactly when their [nid] agree. *)
Inductive Node :=
| Elem (nid : nat) (tag : string) (attrs : Attrs) (marks : Marks) (children : list Node)
| Text (data : string).

(** A [Response]: [text] is the outcome of [await response.text()];
    header names are compared without case by [Headers.get]. *)
Record Response := mkResponse {
  ok : bool;
  status : Z;
  resHeaders : list (string * string);
  text : Result string
}.

Fixpoint headersGet (hs : list (string * string)) (name : string) : option string :=
  match hs with
  | [] => None
  | (k, v) :: r =>
      if String.eqb (Js.toLowerCase k) (Js.toLowerCase name) then Some v
      else headersGet r name
  end.

(** Additional parameters, a parsed JSON object: keys in insertion order,
    values already converted to text. *)
Definition Params := list (string * string).

Inductive Body :=
| BodyNone                              (* undefined or null *)
| BodyText (s : string)
| BodyForm (entries : list (string * string)).   (* FormData *)

(** The target of a swap: an element, or the [window] object that
    [processResponse] selects for the token [root]. *)
Inductive Target :=
| TNode (nid : nat)
| TWindow.

(** What the engine does to the outside, in the order it does it. *)
Inductive Event :=
| EvFetch (url method : string) (headers : gmap string string) (body : Body)
| EvSetTimeout (delay : Z)
| EvClearTimeout
| EvConsoleError (message : string)
| EvConsoleWarn (message : string)
| EvOnError (error : Js.Error) (element : option nat)          (* this.onError(error, element) *)
| EvWindowHandler (name : string) (error : Js.Error) (element : nat) (* window[name](error, element) *)
| EvHook (hookName : string) (index : nat)
| EvMiddleware (index : nat)
| EvDispatch (eventName : string)
| EvConfirm (message : string)
| EvParse (content : string)
| EvSwap (target : Target) (content : string) (swapOption : string)
| EvPushState (url : string)
| EvIndicator (selector : string) (shown : bool)
| EvLoadingClass (target : nat) (className : string) (added : bool)
| EvFocus (target : nat)
| EvEventSource (url : string)
| EvObserve (element : nat).

(** The state that the code of the engine runs on.  A computation is the
    run of one interaction from its first step to its last: the slot
    [lastResponse] is written and read by that run alone, and a property
    that would not survive another interaction writing it between two
    [await] is not stated on it. *)
Record World := mkWorld {
  document : list Node;          (* the children of the live Document *)
  lastResponse : option Response;  (* this.lastResponse *)
  nextId : nat;                  (* identity of the next node created *)
  netCalls : nat;                (* calls of fetch so far *)
  trace : list Event
}.

(** ** The monad of engine code *)

Definition M (A : Type) : Type := World -> Result A * World.

Definition ret {A} (a : A) : M A := fun w => (Ok a, w).

Definition bind {A B} (m : M A) (k : A -> M B) : M B :=
  fun w => match m w with
           | (Ok a, w') => k a w'
           | (Throw e, w') => (Throw e, w')
           end.

Notation "'do' x <- m ; k" := (bind m (fun x => k))
  (at level 10, x name, m at level 100, k at level 200).
Notation "'do' ' p <- m ; k" := (bind m (fun x => match x with p => k end))
  (at level 10, p pattern, m at level 100, k at level 200).
Notation "m ;;; k" := (bind m (fun _ => k))
  (at level 100, k at level 200, right associativity).

(** [throw e] *)
Definition throw {A} (e : Js.Error) : M A := fun w => (Throw e, w).

(** [try { m } catch (error) { h error }] *)
Definition tryCatch {A} (m : M A) (h : Js.Error -> M A) : M A :=
  fun w => match m w with
           | (Ok a, w') => (Ok a, w')
           | (Throw e, w') => h e w'
           end.

(** [try { m } finally { f }] where [f] does not throw. *)
Definition tryFinally {A} (m : M A) (f : World -> World) : M A :=
  fun w => let '(r, w') := m w in (r, f w').

Definition emit (e : Event) : M unit :=
  fun w => (Ok tt, mkWorld (document w) (lastResponse w) (nextId w) (netCalls w)
                           (trace w ++ [e])).

Definition getWorld : M World := fun w => (Ok w, w).

Definition setDocument (d : list Node) : M unit :=
  fun w => (Ok tt, mkWorld d (lastResponse w) (nextId w) (netCalls w) (trace w)).

Definition setLastResponse (r : Response) : M unit :=
  fun w => (Ok tt, mkWorld (document w) (Some r) (nextId w) (netCalls w) (trace w)).

(** [await r.text()] *)
Definition liftResult {A} (r : Result A) : M A := fun w => (r, w).

(** ** The engine instance and its environment *)

(** A callback supplied by the embedding page, by what the engine can
    observe of one call: it returns, or it throws.  These are the
    callbacks that leave what they are given as it is: a callback that
    changes the descriptor, the document or the engine is not one of
    them, and a property that depends on it names the hooks that it
    excludes. *)
Inductive Callback :=
| Returns
| Throws (e : Js.Error).

(** [options.csrfToken]: a literal, or a zero-argument provider. *)
Inductive CsrfToken :=
| CsrfLiteral (value : string)
| CsrfProvider (provider : unit -> string).

(** A middleware [(requestParams, next) => ...], by what it does with
    [next]: awaits it once and returns its result, returns a value of its
    own without calling it, or throws.  These are the middleware that
    leave the descriptor as it is. *)
Inductive Middleware :=
| MwNext
| MwShortCircuit (value : string)
| MwThrows (e : Js.Error).

Record PartialOptions := mkOptions {
  optOnError : option Callback;
  optCsrfToken : option CsrfToken;
  optDefaultSwapOption : option string;
  optAutoFocus : option bool;
  optDebounceTime : option Z
}.

(** The fields of a [Partial] instance. *)
Record Partial := mkPartial {
  onError : option Callback;
  csrfToken : option CsrfToken;
  defaultSwapOption : string;
  autoFocus : bool;
  debounceTime : Z;
  hooks : string -> list Callback;
  middleware : list Middleware
}.

(** [new Partial(options)], before any [addHook] or [use]. *)
Definition newPartial (options : PartialOptions) : Partial :=
  {| onError := optOnError options;
     csrfToken :=
       match optCsrfToken options with
       | Some (CsrfLiteral "") => None          (* options.csrfToken || null *)
       | t => t
       end;
     defaultSwapOption := Js.orElse (optDefaultSwapOption options) "innerHTML";
     autoFocus := default false (optAutoFocus options);
     debounceTime := Js.numOr (from_option Js.Int Js.NaN (optDebounceTime options)) 0;
     hooks := fun _ => [];
     middleware := [] |}.

(** The outcome of one call of [fetch]. *)
Inductive FetchOutcome :=
| Resolved (r : Response)
| Rejected (e : Js.Error).

(** The browser and the network, as far as the engine depends on them. *)
Record Browser := mkBrowser {
  net : nat -> FetchOutcome;                      (* the n-th call of fetch *)
  confirm : string -> bool;                       (* window.confirm *)
  querySelector : list Node -> string -> Result (option nat);
  windowFunction : string -> option Callback;     (* window[name], when a function *)
  jsonParse : string -> option Params;            (* None: SyntaxError *)
  jsonStringify : Params -> string;
  urlSearchParams : Params -> string;             (* new URLSearchParams(o).toString() *)
  newURL : string -> Result string;               (* new URL(url, origin).href *)
  parseHTML : string -> list Markup;              (* the fragment parser *)
  parseDocument : string -> list Markup;          (* DOMParser, text/html *)
  serialize : list Markup -> string;              (* innerHTML and outerHTML *)
  formData : nat -> list (string * string);       (* new FormData(form) *)
  serializeForm : string -> nat -> string         (* Serializer, by kind *)
}.

(** The request descriptor, with the fields that [performRequest] and
    [handleAction] add to it. *)
Record RequestParams := mkRequestParams {
  method : string;
  url : option string;
  headers : gmap string string;
  targetSelector : string;
  partialId : option string;
  paramsObject : Params;
  element : option Element;
  body : Body;
  timeout : Js.Number;      (* undefined is NaN *)
  maxRetries : Js.Number    (* undefined is NaN *)
}.

(** [{ ...requestParams, timeout, maxRetries }] *)
Definition withTimeoutAndRetries (rp : RequestParams) (t r : Js.Number) : RequestParams :=
  mkRequestParams (method rp) (url rp) (headers rp) (targetSelector rp) (partialId rp)
                  (paramsObject rp) (element rp) (body rp) t r.

(** [{ ...requestParams, url, body, headers }] *)
Definition withUrlBodyHeaders (rp : RequestParams) (u : option string) (b : Body)
    (h : gmap string string) : RequestParams :=
  mkRequestParams (method rp) u h (targetSelector rp) (partialId rp)
                  (paramsObject rp) (element rp) b (timeout rp) (maxRetries rp).

Section RequestCore.

Context (B : Browser).

(** [await fetch(url, options)] *)
Definition fetch (url method : string) (headers : gmap string string) (body : Body)
  : M Response :=
  fun w =>
    let w' := mkWorld (document w) (lastResponse w) (nextId w) (S (netCalls w))
                      (trace w ++ [EvFetch url method headers body]) in
    match net B (netCalls w) with
    | Resolved r => (Ok r, w')
    | Rejected e => (Throw e, w')
    end.

(** The body of the [try] block of one attempt. *)
Definition attempt (rp : RequestParams) : M Response :=
  do timeoutId <-
    (if Js.numTruthy (timeout rp)
     then emit (EvSetTimeout (match timeout rp with Js.Int t => t | Js.NaN => 0 end));;;
          ret true
     else ret false);
  do response <- fetch (Js.toString (url rp)) (method rp) (headers rp) (body rp);
  (if timeoutId then emit EvClearTimeout else ret tt);;;
  if negb (ok response)
  then do text <- liftResult (text response);
       throw (Js.newError ("HTTP error " +:+ pretty (status response) +:+ ": " +:+ text))
  else ret response.

(** What is left of the loop to run: [maxAttempts - attempts]. *)
Definition remaining (maxAttempts : Js.Number) (attempts : Z) : nat :=
  match maxAttempts with
  | Js.Int m => Z.to_nat (m - attempts)
  | Js.NaN => 0
  end.

(** The loop [while (attempts < maxAttempts)]: [Ok (Some r)] is
    [return response], [Throw e] is a [throw] from the [catch] block, and
    [Ok None] is the exit of the loop by its condition. *)
Equations? attemptLoop (rp : RequestParams) (maxAttempts : Js.Number)
    (attempts : Z) (w : World) : Result (option Response) * World
    by wf (remaining maxAttempts attempts) lt :=
  attemptLoop rp maxAttempts attempts w with Logic.inspect (Js.lt attempts maxAttempts) := {
    | exist _ false _ => (Ok None, w)
    | exist _ true Hlt =>
        match attempt rp w with
        | (Ok response, w') => (Ok (Some response), w')
        | (Throw error, w') =>
            if String.eqb (Js.err_name error) "AbortError"
            then (Throw (Js.newError "Request timed out"), w')
            else if Js.ge (attempts + 1) maxAttempts
                 then (Throw error, w')
                 else attemptLoop rp maxAttempts (attempts + 1) w'
        end }.
Proof.
  destruct maxAttempts as [|m]; simpl in *; [discriminate|].
  apply Z.ltb_lt in Hlt. lia.
Qed.

Definition performRequestCore (rp : RequestParams) : M Response :=
  fun w =>
    let maxAttempts := Js.add (maxRetries rp) 1 in
    match attemptLoop rp maxAttempts 0 w with
    | (Ok (Some response), w') => (Ok response, w')
    | (Throw e, w') => (Throw e, w')
    | (Ok None, w') =>
        (Throw (Js.newError "No response returned from performRequestCore (all attempts failed without producing a response)."), w')
    end.

End RequestCore.

(** ** Operations of the DOM *)

Module Dom.

Definition nodeIdOf (n : Node) : option nat :=
  match n with Elem i _ _ _ _ => Some i | Text _ => None end.

Definition attrsOf (n : Node) : Attrs :=
  match n with Elem _ _ a _ _ => a | Text _ => [] end.

Definition marksOf (n : Node) : Marks :=
  match n with Elem _ _ _ m _ => m | Text _ => noMarks end.

Definition childrenOf (n : Node) : list Node :=
  match n with Elem _ _ _ _ cs => cs | Text _ => [] end.

Definition setChildren (cs : list Node) (n : Node) : Node :=
  match n with Elem i t a m _ => Elem i t a m cs | Text d => Text d end.

Definition setMarks (m : Marks) (n : Node) : Node :=
  match n with Elem i t a _ cs => Elem i t a m cs | Text d => Text d end.

Definition isNode (i : nat) (n : Node) : bool :=
  match n with Elem j _ _ _ _ => Nat.eqb i j | Text _ => false end.

(** The node of identity [i] in a forest, in tree order. *)
Fixpoint findNode (i : nat) (n : Node) : option Node :=
  match n with
  | Text _ => None
  | Elem j _ _ _ cs =>
      if Nat.eqb i j then Some n
      else (fix findIn (l : list Node) : option Node :=
              match l with
              | [] => None
              | c :: r => match findNode i c with
                          | Some x => Some x
                          | None => findIn r
                          end
              end) cs
  end.

Fixpoint findInForest (i : nat) (l : list Node) : option Node :=
  match l with
  | [] => None
  | c :: r => match findNode i c with
              | Some x => Some x
              | None => findInForest i r
              end
  end.

(** Replaces the node of identity [i] by the nodes [f n] among its
    siblings; the nodes put in its place are not searched. *)
Fixpoint rewriteNode (i : nat) (f : Node -> list Node) (n : Node) : list Node :=
  match n with
  | Text d => [Text d]
  | Elem j t a m cs =>
      if Nat.eqb i j then f n
      else [Elem j t a m
              ((fix rewriteIn (l : list Node) : list Node :=
                  match l with
                  | [] => []
                  | c :: r => (rewriteNode i f c ++ rewriteIn r)%list
                  end) cs)]
  end.

Fixpoint rewriteForest (i : nat) (f : Node -> list Node) (l : list Node) : list Node :=
  match l with
  | [] => []
  | c :: r => (rewriteNode i f c ++ rewriteForest i f r)%list
  end.

(** The element of identity [i] with its chain of ancestors, below the
    ancestor [parent]. *)
Fixpoint elementIn (i : nat) (parent : option Element) (n : Node) : option Element :=
  match n with
  | Text _ => None
  | Elem j t a _ cs =>
      let self := mkElement j t a parent in
      if Nat.eqb i j then Some self
      else (fix elementAmong (l : list Node) : option Element :=
              match l with
              | [] => None
              | c :: r => match elementIn i (Some self) c with
                          | Some x => Some x
                          | None => elementAmong r
                          end
              end) cs
  end.

Fixpoint elementOf (i : nat) (l : list Node) : option Element :=
  match l with
  | [] => None
  | c :: r => match elementIn i None c with
              | Some x => Some x
              | None => elementOf i r
              end
  end.

(** A reference to an element sees the element as it is.  When the
    children of a node are replaced, the nodes below it leave the document
    together: an element that the document [d] no longer holds has kept
    the ancestors that left with it, which are those that [d] does not
    hold either. *)
Fixpoint detached (d : list Node) (e : Element) : Element :=
  match e with
  | mkElement i t a p =>
      mkElement i t a
        (match p with
         | Some q =>
             if bool_decide (is_Some (findInForest (nodeId q) d)) then None
             else Some (detached d q)
         | None => None
         end)
  end.

(** The element [e] as it is in the document [d]: with its ancestors in
    [d] when [d] holds it. *)
Definition current (d : list Node) (e : Element) : Element :=
  match elementOf (nodeId e) d with
  | Some x => x
  | None => detached d e
  end.

(** A [template] element: the nodes of its content are not its children,
    though its serialisation shows them.  They are the children of the
    node here, and selectors and [getElementById] do not enter them. *)
Definition isTemplate (t : string) : bool :=
  String.eqb (Js.toUpperCase t) "TEMPLATE".

(** [document.getElementById(value)]: the first element in tree order
    whose [id] attribute is [value]. *)
Fixpoint byId (value : string) (n : Node) : option nat :=
  match n with
  | Text _ => None
  | Elem j t a _ cs =>
      if bool_decide (getAttr a "id" = Some value) then Some j
      else if isTemplate t then None
      else (fix byIdIn (l : list Node) : option nat :=
              match l with
              | [] => None
              | c :: r => match byId value c with
                          | Some x => Some x
                          | None => byIdIn r
                          end
              end) cs
  end.

Fixpoint getElementById (value : string) (l : list Node) : option nat :=
  match l with
  | [] => None
  | c :: r => match byId value c with
              | Some x => Some x
              | None => getElementById value r
              end
  end.

(** Nodes for markup, with fresh identities from [next] on, in tree
    order. *)
Fixpoint instantiate (m : Markup) (next : nat) : Node * nat :=
  match m with
  | MText d => (Text d, next)
  | MElem t a cs =>
      let '(cs', next') :=
        (fix instantiateAll (l : list Markup) (k : nat) : list Node * nat :=
           match l with
           | [] => ([], k)
           | c :: r =>
               let '(c', k1) := instantiate c k in
               let '(r', k2) := instantiateAll r k1 in
               (c' :: r', k2)
           end) cs (S next) in
      (Elem next t a noMarks cs', next')
  end.

Fixpoint instantiateAll (l : list Markup) (k : nat) : list Node * nat :=
  match l with
  | [] => ([], k)
  | c :: r =>
      let '(c', k1) := instantiate c k in
      let '(r', k2) := instantiateAll r k1 in
      (c' :: r', k2)
  end.

(** The markup of a node: what serialisation sees of it. *)
Fixpoint erase (n : Node) : Markup :=
  match n with
  | Text d => MText d
  | Elem _ t a _ cs => MElem t a (map erase cs)
  end.

End Dom.

(** ** Discovery and activation of declarative elements *)

Section Activation.

Context (P : Partial).

(** The elements that [scanForElements] selects: an action attribute or
    [x-sse]. *)
Definition isDeclarative (a : Attrs) : bool :=
  existsb (hasAttr a) Attr.ACTIONS || hasAttr a Attr.SSE.

Definition sentinelNode (i : nat) : Node :=
  Elem i "DIV" [("class", "infinite-scroll-sentinel")] noMarks [].

(** The result of setting one element up: its marks, the siblings
    inserted after it, the next fresh identity, and the events. *)
Definition Setup : Type := Marks * list Node * nat * list Event.

Definition setupSSEElement (self : Element) (m : Marks) (next : nat) : Setup :=
  if sseInitialized m then (m, [], next, [])
  else
    let sseUrl := getAttribute self Attr.SSE in
    if negb (Js.truthy sseUrl)
    then (m, [], next, [EvConsoleError "No URL specified in x-sse attribute on element:"])
    else (mkMarks (initialized m) (listeners m) true (sentinelElement m)
                  (scrollObserver m) (scrollStopped m),
          [], next, [EvEventSource (Js.toString sseUrl)]).

Definition setupInfiniteScroll (self : Element) (m : Marks) (next : nat) : Setup :=
  if scrollStopped m then (m, [], next, [])
  else
    let '(sentinel, inserted, next') :=
      match sentinelElement m with
      | Some s => (s, [], next)
      | None => (next, [sentinelNode next], S next)
      end in
    (mkMarks (initialized m) (listeners m) (sseInitialized m) (Some sentinel) true
             (scrollStopped m),
     inserted, next', [EvObserve (nodeId self)]).

Definition setupElement (self : Element) (m : Marks) (next : nat) : Setup :=
  if initialized m then (m, [], next, [])
  else if hasAttribute self Attr.INFINITE_SCROLL then
    let '(m', sentinel, next', evs) := setupInfiniteScroll self m next in
    (mkMarks true (listeners m') (sseInitialized m') (sentinelElement m')
             (scrollObserver m') (scrollStopped m'),
     sentinel, next', evs)
  else
    let trigger :=
      if String.eqb (tagName self) "FORM"
      then Js.orElse (getAttribute self Attr.TRIGGER) "submit"
      else Js.orElse (getAttributeWithInheritance self Attr.TRIGGER) "click" in
    let xDebounce := getAttributeWithInheritance self Attr.DEBOUNCE in
    let '(elementDebounceTime, evs) :=
      match xDebounce with
      | None => (debounceTime P, [])
      | Some v =>
          match Js.parseInt (Some v) with
          | Js.Int parsedDebounce =>
              if 0 <=? parsedDebounce then (parsedDebounce, [])
              else (debounceTime P, [EvConsoleWarn ("Invalid x-debounce value '" +:+ v +:+ "' on element:")])
          | Js.NaN =>
              (debounceTime P, [EvConsoleWarn ("Invalid x-debounce value '" +:+ v +:+ "' on element:")])
          end
      end in
    (mkMarks true (listeners m ++ [mkListener trigger elementDebounceTime])
             (sseInitialized m) (sentinelElement m) (scrollObserver m) (scrollStopped m),
     [], next, evs).

(** [scanForElements] on one node and its descendants, below the ancestor
    [parent]: the node, followed by the sentinel its set-up inserts.  The
    selector does not enter the content of a [template]. *)
Fixpoint scanNode (parent : option Element) (n : Node) (next : nat)
  : list Node * nat * list Event :=
  match n with
  | Text d => ([Text d], next, [])
  | Elem i t a m cs =>
      let self := mkElement i t a parent in
      let '(m', sentinel, next1, evs1) :=
        if isDeclarative a
        then (if hasAttr a Attr.SSE
              then setupSSEElement self m next
              else setupElement self m next)
        else (m, [], next, []) in
      let '(cs', next2, evs2) :=
        if Dom.isTemplate t then (cs, next1, [])
        else
          (fix scanAll (l : list Node) (k : nat) : list Node * nat * list Event :=
             match l with
             | [] => ([], k, [])
             | c :: r =>
                 let '(c', k1, e1) := scanNode (Some self) c k in
                 let '(r', k2, e2) := scanAll r k1 in
                 ((c' ++ r')%list, k2, (e1 ++ e2)%list)
             end) cs next1 in
      ((Elem i t a m' cs' :: sentinel)%list, next2, (evs1 ++ evs2)%list)
  end.

Fixpoint scanAll (parent : option Element) (l : list Node) (k : nat)
  : list Node * nat * list Event :=
  match l with
  | [] => ([], k, [])
  | c :: r =>
      let '(c', k1, e1) := scanNode parent c k in
      let '(r', k2, e2) := scanAll parent r k1 in
      ((c' ++ r')%list, k2, (e1 ++ e2)%list)
  end.

(** The containers that the engine scans: the document, an element of
    the document, an element that has left the document, which is given
    with the nodes below it, or [window]. *)
Inductive Container :=
| CDocument
| CElement (i : nat)
| CDetached (n : Node)
| CWindow.

Definition emitAll (evs : list Event) : M unit :=
  fun w => (Ok tt, mkWorld (document w) (lastResponse w) (nextId w) (netCalls w)
                           (trace w ++ evs)).

Definition setNextId (k : nat) : M unit :=
  fun w => (Ok tt, mkWorld (document w) (lastResponse w) k (netCalls w) (trace w)).

(** [scanForElements(container)].  An element that has left the document
    is scanned outside of it, with no ancestor: its elements are set up,
    and the document is left as it is. *)
Definition scanForElements (container : Container) : M unit :=
  do w <- getWorld;
  match container with
  | CWindow => throw (Js.mkErr "TypeError" "container.querySelectorAll is not a function")
  | CDocument =>
      let '(d, k, evs) := scanAll None (document w) (nextId w) in
      setDocument d;;; setNextId k;;; emitAll evs
  | CElement i =>
      match Dom.elementOf i (document w), Dom.findInForest i (document w) with
      | Some self, Some n =>
          let '(cs, k, evs) := scanAll (Some self) (Dom.childrenOf n) (nextId w) in
          setDocument (Dom.rewriteForest i (fun x => [Dom.setChildren cs x]) (document w));;;
          setNextId k;;; emitAll evs
      | _, _ => ret tt
      end
  | CDetached n =>
      match n with
      | Elem i t a _ cs =>
          let '(_, k, evs) := scanAll (Some (mkElement i t a None)) cs (nextId w) in
          setNextId k;;; emitAll evs
      | Text _ => ret tt
      end
  end.

(** [scanForElements(fragment)] on the content of a template. *)
Definition scanFragment (fragment : list Node) : M (list Node) :=
  do w <- getWorld;
  let '(fragment', k, evs) := scanAll None fragment (nextId w) in
  setNextId k;;; emitAll evs;;; ret fragment'.

End Activation.

(** ** The swap primitive *)

Section Swap.

Context (B : Browser) (P : Partial).

(** Parsing markup text into new nodes of the current realm. *)
Definition parseFragment (content : string) : M (list Node) :=
  do w <- getWorld;
  let '(nodes, k) := Dom.instantiateAll (parseHTML B content) (nextId w) in
  emit (EvParse content);;; setNextId k;;; ret nodes.

Definition isTopLevel (i : nat) (d : list Node) : bool :=
  existsb (Dom.isNode i) d.

Definition notAFunction (what : string) : Js.Error :=
  Js.mkErr "TypeError" (what +:+ " is not a function").

Definition rewriteTarget (i : nat) (f : Node -> list Node) : M unit :=
  do w <- getWorld;
  setDocument (Dom.rewriteForest i f (document w)).

(** [targetElement.insertAdjacentHTML(position, text)] *)
Definition insertAdjacentHTML (i : nat) (position content : string) : M unit :=
  do w <- getWorld;
  if (String.eqb position "beforebegin" || String.eqb position "afterend")
     && isTopLevel i (document w)
  then throw (Js.mkErr "NoModificationAllowedError" "The element has no parent.")
  else
    do nodes <- parseFragment content;
    rewriteTarget i (fun n =>
      if String.eqb position "beforebegin" then (nodes ++ [n])%list
      else if String.eqb position "afterbegin"
           then [Dom.setChildren (nodes ++ Dom.childrenOf n)%list n]
      else if String.eqb position "beforeend"
           then [Dom.setChildren (Dom.childrenOf n ++ nodes)%list n]
      else ([n] ++ nodes)%list).

(** [targetElement.innerHTML = text] *)
Definition setInnerHTML (i : nat) (content : string) : M unit :=
  do nodes <- parseFragment content;
  rewriteTarget i (fun n => [Dom.setChildren nodes n]).

Definition performSwap (targetElement : Target) (newContent swapOption : string) : M unit :=
  emit (EvSwap targetElement newContent swapOption);;;
  do fragment <- parseFragment (Js.trim newContent);
  do fragment <- scanFragment P fragment;
  if String.eqb swapOption "outerHTML" then
    match targetElement with
    | TNode i => rewriteTarget i (fun _ => fragment)
    | TWindow => throw (notAFunction "targetElement.replaceWith")
    end
  else if String.eqb swapOption "innerHTML" then
    match targetElement with
    | TNode i => rewriteTarget i (fun n => [Dom.setChildren fragment n])
    | TWindow => throw (notAFunction "targetElement.appendChild")
    end
  else if Attr.includes ["beforebegin"; "afterbegin"; "beforeend"; "afterend"] swapOption then
    match targetElement with
    | TNode i => insertAdjacentHTML i swapOption newContent
    | TWindow => throw (notAFunction "targetElement.insertAdjacentHTML")
    end
  else
    emit (EvConsoleError ("Invalid swap option '" +:+ swapOption +:+ "'. Using 'innerHTML' as default."));;;
    match targetElement with
    | TNode i => setInnerHTML i newContent
    | TWindow => ret tt
    end.

End Swap.

(** ** The parsed response document *)

Module Parsed.

(** Removes every node of identity [i] from below [n]. *)
Fixpoint pruneNode (i : nat) (n : Node) : Node :=
  match n with
  | Text d => Text d
  | Elem j t a m cs =>
      Elem j t a m
        ((fix pruneIn (l : list Node) : list Node :=
            match l with
            | [] => []
            | c :: r => if Dom.isNode i c then pruneIn r
                        else pruneNode i c :: pruneIn r
            end) cs)
  end.

Fixpoint pruneForest (i : nat) (l : list Node) : list Node :=
  match l with
  | [] => []
  | c :: r => if Dom.isNode i c then pruneForest i r
              else pruneNode i c :: pruneForest i r
  end.

(** [querySelectorAll('[name]')]: the elements that carry the attribute,
    in tree order; the content of a [template] is not searched. *)
Fixpoint selectNode (name : string) (n : Node) : list nat :=
  match n with
  | Text _ => []
  | Elem j t a _ cs =>
      ((if hasAttr a name then [j] else []) ++
       (if Dom.isTemplate t then []
        else (fix selectIn (l : list Node) : list nat :=
                match l with
                | [] => []
                | c :: r => selectNode name c ++ selectIn r
                end) cs))%list
  end.

Fixpoint selectAll (name : string) (l : list Node) : list nat :=
  match l with
  | [] => []
  | c :: r => (selectNode name c ++ selectAll name r)%list
  end.

(** [el.parentNode.removeChild(el)] for the node [el] of identity [i],
    on the document and the nodes already detached from it; the node
    joins the detached ones. *)
Definition removeChild (i : nat) (st : list Node * list Node) : list Node * list Node :=
  let '(doc, detached) := st in
  match Dom.findInForest i (doc ++ detached) with
  | Some el => (pruneForest i doc, (map (pruneNode i) detached ++ [el])%list)
  | None => st
  end.

(** Lines 1081-1082 of [processResponse]: the document without its
    out-of-band elements, and these elements as the array
    [oobElements] refers to them afterwards. *)
Definition extractOob (doc : list Node) : list Node * list Node :=
  fold_left (fun st i => removeChild i st) (selectAll Attr.SWAP_OOB doc) (doc, []).

Definition isElement (n : Node) : bool :=
  match n with Elem _ _ _ _ _ => true | Text _ => false end.

Definition hasTag (t : string) (n : Node) : bool :=
  match n with
  | Elem _ t' _ _ _ => String.eqb (Js.toUpperCase t') t
  | Text _ => false
  end.

(** [doc.body] *)
Definition body (doc : list Node) : option Node :=
  match List.find isElement doc with
  | Some html =>
      if hasTag "HTML" html
      then List.find (fun n => hasTag "BODY" n || hasTag "FRAMESET" n) (Dom.childrenOf html)
      else None
  | None => None
  end.

(** An element of the markup carries the attribute [name]. *)
Fixpoint carries (name : string) (m : Markup) : bool :=
  match m with
  | MText _ => false
  | MElem _ a cs => hasAttr a name || existsb (carries name) cs
  end.

(** An element of the markup that is not in the content of a [template]
    carries the attribute [name]. *)
Fixpoint exposes (name : string) (m : Markup) : bool :=
  match m with
  | MText _ => false
  | MElem t a cs =>
      hasAttr a name || (negb (Dom.isTemplate t) && existsb (exposes name) cs)
  end.

End Parsed.

(** ** The engine *)

Section Engine.

Context (B : Browser) (P : Partial).

(** A call of a callback of the page. *)
Definition call (cb : Callback) : M unit :=
  match cb with
  | Returns => ret tt
  | Throws e => throw e
  end.

Definition errorNotice (error : Js.Error) : string :=
  "<div class=" +:+ Js.quote +:+ "error" +:+ Js.quote +:+ ">An error occurred: "
    +:+ Js.err_message error +:+ "</div>".

(** [target.innerHTML = text] for a target that may be [window], where
    the assignment sets a plain property. *)
Definition assignInnerHTML (target : Target) (content : string) : M unit :=
  match target with
  | TNode i => setInnerHTML B i content
  | TWindow => ret tt
  end.

Definition handleError (error : Js.Error) (element : option nat)
    (targetElement : option Target) : M unit :=
  match onError P with
  | Some cb => emit (EvOnError error element);;; call cb
  | None =>
      emit (EvConsoleError ("Error: " +:+ Js.err_message error));;;
      match targetElement with
      | Some t => assignInnerHTML t (errorNotice error)
      | None => ret tt
      end
  end.

(** The [catch] block of [handleAction] (lines 649-659). *)
Definition handleActionCatch (error : Js.Error) (element : Element) (targetElement : nat)
  : M unit :=
  let onErrorAttr := getAttribute element Attr.ON_ERROR in
  match (if Js.truthy onErrorAttr then windowFunction B (Js.toString onErrorAttr) else None) with
  | Some handler =>
      emit (EvWindowHandler (Js.toString onErrorAttr) error (nodeId element));;;
      call handler
  | None =>
      match onError P with
      | Some cb => emit (EvOnError error (Some (nodeId element)));;; call cb
      | None =>
          emit (EvConsoleError ("Request failed: " +:+ Js.err_message error));;;
          setInnerHTML B targetElement (errorNotice error)
      end
  end.

(** The loop of [runHooks] over the callbacks left. *)
Fixpoint runCallbacks (hookName : string) (callbacks : list Callback) (index : nat)
    (element : option nat) (targetElement : option Target) : M unit :=
  match callbacks with
  | [] => ret tt
  | callback :: rest =>
      tryCatch (emit (EvHook hookName index);;; call callback)
               (fun error => handleError error element targetElement);;;
      runCallbacks hookName rest (S index) element targetElement
  end.

(** [runHooks(hookName, context)], with [context.element] and
    [context.targetElement]. *)
Definition runHooks (hookName : string) (element : option nat)
    (targetElement : option Target) : M unit :=
  runCallbacks hookName (hooks P hookName) 0 element targetElement.

(** The [runner] of [runMiddleware] on the rest of the stack. *)
Fixpoint runner (stack : list Middleware) (index : nat) (finalHandler : M string)
  : M string :=
  match stack with
  | [] => finalHandler
  | currentMiddleware :: rest =>
      emit (EvMiddleware index);;;
      match currentMiddleware with
      | MwNext => runner rest (S index) finalHandler
      | MwShortCircuit value => ret value
      | MwThrows e => throw e
      end
  end.

Definition runMiddleware (finalHandler : M string) : M string :=
  runner (middleware P) 0 finalHandler.

(** *** Headers *)

(** The token, when [this.csrfToken] is truthy. *)
Definition csrfValue : option string :=
  match csrfToken P with
  | None => None
  | Some (CsrfLiteral value) => if String.eqb value "" then None else Some value
  | Some (CsrfProvider provider) => Some (provider tt)
  end.

Definition withCsrf (headers : gmap string string) : gmap string string :=
  match csrfValue with
  | Some token => <["X-CSRF-Token" := token]> headers
  | None => headers
  end.

Definition capitalize (str : string) : string :=
  match str with
  | String c r => String (Js.upper c) r
  | EmptyString => EmptyString
  end.

Definition excludedAttributes : list string :=
  (Attr.ACTIONS ++
   [Attr.TARGET; Attr.TRIGGER; Attr.SWAP; Attr.SWAP_OOB; Attr.PUSH_STATE;
    Attr.INFINITE_SCROLL; Attr.DEBOUNCE])%list.

Definition getHeaders (element : Element) : gmap string string :=
  fold_left
    (fun headers '(name, value) =>
       if Js.startsWith "x-" name && negb (Attr.includes excludedAttributes name)
       then <["X-" +:+ capitalize (Js.substring 2 name) := value]> headers
       else headers)
    (attributes element)
    (withCsrf ∅).

(** [Object.assign(headers, o)] *)
Definition assign (headers : gmap string string) (o : Params) : gmap string string :=
  fold_left (fun h '(k, v) => <[k := v]> h) o headers.

Definition prepareRequestHeaders (element : option Element)
    (defaultHeaders : gmap string string) : Result (gmap string string) :=
  let headers := withCsrf defaultHeaders in
  match element with
  | Some el =>
      let additionalHeaders := getAttribute el "x-headers" in
      if Js.truthy additionalHeaders
      then match jsonParse B (Js.toString additionalHeaders) with
           | Some o => Ok (assign headers o)
           | None => Throw (Js.mkErr "SyntaxError" "Unexpected token in JSON")
           end
      else Ok headers
  | None => Ok headers
  end.

(** *** URL and body *)

Definition prepareRequestUrl (url : option string) (paramsObject : Params)
  : Result (option string) :=
  match paramsObject with
  | [] => Ok url
  | _ =>
      match url with
      | Some u =>
          let queryString := urlSearchParams B paramsObject in
          Ok (Some (if Js.includes "?" u then u +:+ "&" +:+ queryString
                    else u +:+ "?" +:+ queryString))
      | None => Throw (Js.mkErr "TypeError" "Cannot read properties of null (reading 'includes')")
      end
  end.

(** [{ ...a, ...b }] *)
Definition spread (a b : Params) : Params :=
  (map (fun '(k, v) => (k, default v (getAttr b k))) a ++
   filter (fun '(k, _) => getAttr a k = None) b)%list.

(** [element.tagName === 'FORM' ? element : element.closest('form')] *)
Fixpoint closestForm (e : Element) : option Element :=
  if String.eqb (tagName e) "FORM" then Some e
  else match parentElement e with
       | Some p => closestForm p
       | None => None
       end.

Definition prepareRequestBody (element : option Element) (serializeType : string)
    (paramsObject : Params) : M Body :=
  let method := match element with Some el => getMethod el | None => "GET" end in
  let isWriteMethod := Attr.includes ["POST"; "PUT"; "PATCH"; "DELETE"] method in
  let xJson := match element with Some el => getAttribute el Attr.JSON | None => None end in
  if Js.truthy xJson then
    match jsonParse B (Js.toString xJson) with
    | None =>
        emit (EvConsoleError "Invalid JSON in x-json attribute:");;;
        throw (Js.newError "Invalid JSON in x-json attribute")
    | Some bodyData =>
        ret (BodyText (jsonStringify B
               (match paramsObject with
                | [] => bodyData
                | _ => spread bodyData paramsObject
                end)))
    end
  else
    let form := match element with Some el => closestForm el | None => None end in
    if Attr.includes ["json"; "nested-json"; "xml"] serializeType then
      match form with
      | None =>
          if isWriteMethod
          then throw (Js.newError "Expected an HTMLFormElement for body serialization, but none found.")
          else ret BodyNone
      | Some f =>
          let body := serializeForm B serializeType (nodeId f) in
          match paramsObject with
          | [] => ret (BodyText body)
          | _ =>
              match jsonParse B body with
              | Some o => ret (BodyText (jsonStringify B (spread o paramsObject)))
              | None => throw (Js.mkErr "SyntaxError" "Unexpected token in JSON")
              end
          end
      end
    else
      match form with
      | None =>
          if isWriteMethod
          then throw (Js.newError "Expected an HTMLFormElement for FormData, but none found.")
          else ret BodyNone
      | Some f => ret (BodyForm (formData B (nodeId f) ++ paramsObject))
      end.

End Engine.

Section Pipeline.

Context (B : Browser) (P : Partial).

(** [document.querySelector(selector)] *)
Definition query (selector : string) : M (option nat) :=
  fun w => (querySelector B (document w) selector, w).

(** [node.getAttribute(name)] on a node of the live document. *)
Definition liveAttribute (i : nat) (name : string) : M (option string) :=
  fun w => (Ok (match Dom.findInForest i (document w) with
                | Some n => getAttr (Dom.attrsOf n) name
                | None => None
                end), w).

Definition extractRequestParams (element : Element) : M RequestParams :=
  let method := getMethod element in
  let actionAttr := "x-" +:+ Js.toLowerCase method in
  let url := getAttributeWithInheritance element actionAttr in
  let headers := getHeaders P element in
  let targetSelector :=
    let declared := getAttributeWithInheritance element Attr.TARGET in
    if Js.truthy declared then Js.toString declared
    else if String.eqb (elementId element) "" then "body"
         else "#" +:+ elementId element in
  do targetElement <- query targetSelector;
  do partialId <-
    match targetElement with
    | Some t => liveAttribute t "id"
    | None => ret None
    end;
  let xParams := getAttributeWithInheritance element Attr.PARAMS in
  do paramsObject <-
    (if Js.truthy xParams then
       match jsonParse B (Js.toString xParams) with
       | Some o => ret o
       | None =>
           handleError B P (Js.newError "Invalid JSON in x-params attribute")
                       (Some (nodeId element)) (option_map TNode targetElement);;;
           ret []
       end
     else ret []);
  ret (mkRequestParams method url headers targetSelector partialId paramsObject
                       None BodyNone Js.NaN Js.NaN).

(** [prepareRequestParams(element, { maxRetries })] *)
Definition prepareRequestParams (element : Element) (maxRetries : Js.Number)
  : M RequestParams :=
  do rp <- extractRequestParams element;
  if negb (Js.truthy (url rp))
  then throw (Js.newError ("No URL specified for method " +:+ method rp +:+ " on element."))
  else
    do targetElement <- query (targetSelector rp);
    match targetElement with
    | None =>
        throw (Js.newError ("No element found with selector '" +:+ targetSelector rp
                            +:+ "' for 'x-target' targeting."))
    | Some _ =>
        if negb (Js.truthy (partialId rp))
        then throw (Js.newError "Target element does not have an 'id' attribute.")
        else ret (mkRequestParams (method rp) (url rp)
                    (<["X-Target" := Js.toString (partialId rp)]> (headers rp))
                    (targetSelector rp) (partialId rp) (paramsObject rp)
                    (Some element) (body rp) (timeout rp) maxRetries)
    end.

(** The final handler that [performRequest] gives to the middleware. *)
Definition finalHandler (rp : RequestParams) : M string :=
  let serializeType :=
    Js.orElse (match element rp with
               | Some el => getAttribute el Attr.SERIALIZE
               | None => None
               end) "json" in
  do body <- prepareRequestBody B (element rp) serializeType (paramsObject rp);
  do url <- liftResult (prepareRequestUrl B (url rp) (paramsObject rp));
  do headers <- liftResult (prepareRequestHeaders B P (element rp) (headers rp));
  do response <-
    tryCatch
      (performRequestCore B (withUrlBodyHeaders rp url body headers))
      (fun error =>
         emit (EvConsoleError ("performRequestCore failed: " +:+ Js.err_message error));;;
         throw error);
  setLastResponse response;;;
  runHooks B P "afterResponse" None None;;;
  liftResult (text response).

Definition performRequest (rp : RequestParams) : M string :=
  runHooks B P "beforeRequest" None None;;;
  runMiddleware P (finalHandler rp).

(** *** The response reconciler *)

(** One turn of the [forEach] of [handleOobSwapping]. *)
Definition oobSwap (oobElement : Node) : M unit :=
  let targetId := getAttr (Dom.attrsOf oobElement) "id" in
  if negb (Js.truthy targetId)
  then emit (EvConsoleError "OOB element does not have an ID:")
  else
    let swapOption :=
      Js.orElse (getAttr (Dom.attrsOf oobElement) Attr.SWAP_OOB) (defaultSwapOption P) in
    do w <- getWorld;
    match Dom.getElementById (Js.toString targetId) (document w) with
    | None =>
        emit (EvConsoleError ("No existing element found with ID '" +:+ Js.toString targetId
                              +:+ "' for OOB swapping."))
    | Some existingElement =>
        let newContent := serialize B [Dom.erase oobElement] in
        performSwap B P (TNode existingElement) newContent swapOption;;;
        do w' <- getWorld;
        match Dom.getElementById (Js.toString targetId) (document w') with
        | Some newElement => scanForElements P (CElement newElement)
        | None => ret tt
        end
    end.

Fixpoint handleOobSwapping (oobElements : list Node) : M unit :=
  match oobElements with
  | [] => ret tt
  | oobElement :: rest => oobSwap oobElement;;; handleOobSwapping rest
  end.

(** The names that [Headers.forEach] visits: in lower case, sorted by
    code units, each name once (the values of a name are joined). *)
Fixpoint insertName (name : string) (names : list string) : list string :=
  match names with
  | [] => [name]
  | n :: r =>
      match String.compare name n with
      | Lt => name :: names
      | Eq => names
      | Gt => n :: insertName name r
      end
  end.

Definition headerNames (hs : list (string * string)) : list string :=
  fold_right (fun '(name, _) names => insertName (Js.toLowerCase name) names) [] hs.

(** [handleResponseEvents] *)
Definition handleResponseEvents : M unit :=
  do w <- getWorld;
  match lastResponse w with
  | None => ret tt
  | Some r =>
      emitAll
        (flat_map (fun name =>
                     let lowerName := Js.toLowerCase name in
                     if Js.startsWith "x-event-" lowerName
                     then [EvDispatch (Js.substring 8 name)]
                     else [])
                  (headerNames (resHeaders r)))
  end.

Definition stopInfiniteScroll (i : nat) : M unit :=
  do w <- getWorld;
  match Dom.findInForest i (document w) with
  | None => ret tt
  | Some n =>
      let m := Dom.marksOf n in
      let d :=
        match sentinelElement m with
        | Some s => Parsed.pruneForest s (document w)
        | None => document w
        end in
      setDocument
        (Dom.rewriteForest i
           (fun x => [Dom.setMarks (mkMarks (initialized m) (listeners m) (sseInitialized m)
                                            None false true) x]) d)
  end.

(** [new DOMParser().parseFromString(responseText, 'text/html')] *)
Definition parseFromString (responseText : string) : M (list Node) :=
  do w <- getWorld;
  let '(nodes, k) := Dom.instantiateAll (parseDocument B responseText) (nextId w) in
  setNextId k;;; ret nodes.

(** Lines 1089-1101: the target of the primary swap. *)
Definition determineTarget (backendTargetSelector : option string) (targetElement : nat)
  : M Target :=
  if Js.truthy backendTargetSelector then
    let selector := Js.toString backendTargetSelector in
    do found <- query selector;
    do w <- getWorld;
    match (match found with
           | Some el => Some el
           | None => Dom.getElementById selector (document w)
           end) with
    | Some backendTargetElement => ret (TNode backendTargetElement)
    | None =>
        if String.eqb selector "root" then ret TWindow
        else
          emit (EvConsoleError ("No element found with selector '" +:+ selector
                                +:+ "' specified in X-Target header."));;;
          ret (TNode targetElement)
    end
  else ret (TNode targetElement).

(** Lines 1103-1107: the swap option of the primary swap. *)
Definition determineSwapOption (backendSwapOption : option string) (element : Element)
  : string :=
  let swapOption :=
    Js.orElse (getAttributeWithInheritance element Attr.SWAP) (defaultSwapOption P) in
  if Js.truthy backendSwapOption then Js.toString backendSwapOption else swapOption.

(** The target of a swap as a container, in the document [d] that the
    swap has left: when the swap has taken the target out of the document
    [before], the reference to it holds the node as it was. *)
Definition containerOf (before d : list Node) (t : Target) : Container :=
  match t with
  | TNode i =>
      match Dom.findInForest i d, Dom.findInForest i before with
      | None, Some n => CDetached n
      | _, _ => CElement i
      end
  | TWindow => CWindow
  end.

(** Lines 1115-1134 of [processResponse]: what follows the primary swap
    of the document [before]. *)
Definition settle (before : list Node) (finalTargetElement : Target)
    (oobElements : list Node)
    (infiniteScrollAction : option string) (targetElement : nat) (element : Element)
  : M unit :=
  emit (EvDispatch "afterUpdate");;;
  do w <- getWorld;
  scanForElements P (containerOf before (document w) finalTargetElement);;;
  handleOobSwapping oobElements;;;
  handleResponseEvents;;;
  (if bool_decide (infiniteScrollAction = Some "stop")
      && hasAttribute element Attr.INFINITE_SCROLL
   then stopInfiniteScroll (nodeId element)
   else ret tt);;;
  runHooks B P "afterSettle" (Some (nodeId element)) (Some (TNode targetElement)).

Definition processResponse (responseText : string) (targetElement : nat)
    (element : Element) : M unit :=
  emit (EvDispatch "beforeUpdate");;;
  do doc <- parseFromString responseText;
  let '(doc, oobElements) := Parsed.extractOob doc in
  do w <- getWorld;
  match lastResponse w with
  | None => throw (Js.mkErr "TypeError" "Cannot read properties of undefined (reading 'headers')")
  | Some response =>
      let backendTargetSelector := headersGet (resHeaders response) "X-Target" in
      let backendSwapOption := headersGet (resHeaders response) "X-Swap" in
      let infiniteScrollAction := headersGet (resHeaders response) "X-Infinite-Scroll" in
      do finalTargetElement <- determineTarget backendTargetSelector targetElement;
      let swapOption := determineSwapOption backendSwapOption element in
      do newContent <-
        match Parsed.body doc with
        | Some b => ret (serialize B (map Dom.erase (Dom.childrenOf b)))
        | None => throw (Js.mkErr "TypeError" "Cannot read properties of null (reading 'innerHTML')")
        end;
      do before <- getWorld;
      performSwap B P finalTargetElement newContent swapOption;;;
      settle (document before) finalTargetElement oobElements infiniteScrollAction
             targetElement element
  end.

(** *** The triggered action *)

Definition dispatchCustomEvents (events : string) : M unit :=
  emitAll (map (fun e => EvDispatch (Js.trim e)) (Js.splitComma events)).

(** The [try] block of [handleAction] (lines 588-647). *)
(** [attributes] after [setAttribute(name, value)]. *)
Fixpoint setAttr (attrs : Attrs) (name value : string) : Attrs :=
  match attrs with
  | [] => [(name, value)]
  | (k, v) :: r =>
      if String.eqb k name then (k, value) :: r else (k, v) :: setAttr r name value
  end.

Definition withAttribute (name value : string) (n : Node) : Node :=
  match n with
  | Elem i t a m cs => Elem i t (setAttr a name value) m cs
  | Text d => Text d
  end.

(** [node.setAttribute(name, value)] on the node [i] of the document. *)
Definition setAttribute (i : nat) (name value : string) : M unit :=
  rewriteTarget i (fun n => [withAttribute name value n]).

(** The statements by which the engine gives the focus to an element:
    [if (el.getAttribute('tabindex') === null) el.setAttribute('tabindex', '-1');
     el.focus()]. *)
Definition focusElement (i : nat) : M unit :=
  do tabindex <- liveAttribute i "tabindex";
  (match tabindex with
   | None => setAttribute i "tabindex" "-1"
   | Some _ => ret tt
   end);;;
  emit (EvFocus i).

(** The first steps of [classList.add(token)] and of
    [classList.remove(token)] (DOM, interface DOMTokenList): the empty
    string is a [SyntaxError], and a token with ASCII whitespace an
    [InvalidCharacterError]. *)
Definition validateToken (token : string) : M unit :=
  if String.eqb token ""
  then throw (Js.mkErr "SyntaxError" "The token provided must not be empty.")
  else if Js.hasAsciiWhitespace token
       then throw (Js.mkErr "InvalidCharacterError"
                            "The token provided contains HTML space characters.")
       else ret tt.

(** [targetElement.classList.add(token)] *)
Definition classListAdd (target : nat) (token : string) : M unit :=
  validateToken token;;; emit (EvLoadingClass target token true).

(** [targetElement.classList.remove(token)] *)
Definition classListRemove (target : nat) (token : string) : M unit :=
  validateToken token;;; emit (EvLoadingClass target token false).

(** The element that a reference denotes, as the document has it now. *)
Definition currentElement (e : Element) : M Element :=
  fun w => (Ok (Dom.current (document w) e), w).

(** The descriptor refers to its element ([requestParams.element =
    element], line 684): [withElement] gives its field the element as
    it is. *)
Definition withElement (rp : RequestParams) (e : Element) : RequestParams :=
  mkRequestParams (method rp) (url rp) (headers rp) (targetSelector rp) (partialId rp)
                  (paramsObject rp) (Some e) (body rp) (timeout rp) (maxRetries rp).

Definition handleActionTry (element : Element) (requestParams : RequestParams)
    (targetElement : nat) (indicatorSelector loadingClass : option string)
    (focusEnabled shouldPushState : bool) (timeout : Js.Number) (maxRetries : Z)
    (indicatorElement : option nat) : M unit :=
  (if bool_decide (is_Some indicatorElement)
   then emit (EvIndicator (Js.toString indicatorSelector) true) else ret tt);;;
  (if Js.truthy loadingClass
   then classListAdd targetElement (Js.toString loadingClass) else ret tt);;;
  (let beforeEvents := getAttribute element Attr.BEFORE in
   if Js.truthy beforeEvents then dispatchCustomEvents (Js.toString beforeEvents) else ret tt);;;
  emit (EvDispatch "beforeSend");;;
  do responseText <-
    performRequest (withTimeoutAndRetries requestParams timeout (Js.Int maxRetries));
  emit (EvDispatch "afterReceive");;;
  processResponse responseText targetElement element;;;
  (if shouldPushState
   then do href <- liftResult (newURL B (Js.toString (url requestParams)));
        emit (EvPushState href)
   else ret tt);;;
  (let afterEvents := getAttribute element Attr.AFTER in
   if Js.truthy afterEvents then dispatchCustomEvents (Js.toString afterEvents) else ret tt);;;
  (if autoFocus P && focusEnabled then focusElement targetElement else ret tt).

(** The [finally] block of [handleAction]. *)
Definition handleActionFinally (targetElement : nat)
    (indicatorSelector loadingClass : option string) (indicatorElement : option nat)
  : M unit :=
  (if bool_decide (is_Some indicatorElement)
   then emit (EvIndicator (Js.toString indicatorSelector) false) else ret tt);;;
  (if Js.truthy loadingClass
   then classListRemove targetElement (Js.toString loadingClass) else ret tt).

(** [try { m } finally { f }] *)
Definition tryFinallyM {A} (m : M A) (f : M unit) : M A :=
  fun w =>
    let '(r, w') := m w in
    match f w' with
    | (Ok _, w'') => (r, w'')
    | (Throw e, w'') => (Throw e, w'')
    end.

(** The maximal number of retries of a triggered action (lines 572-574). *)
Definition resolveMaxRetries (element : Element) : Z :=
  let retryValue := getAttributeWithInheritance element Attr.RETRY in
  Js.numOr (Js.parseInt retryValue) 1.

Definition handleAction (element : Element) : M unit :=
  let confirmMessage := getAttribute element Attr.CONFIRM in
  do confirmed <-
    (if Js.truthy confirmMessage
     then emit (EvConfirm (Js.toString confirmMessage));;;
          ret (confirm B (Js.toString confirmMessage))
     else ret true);
  if negb confirmed then ret tt
  else
    let indicatorSelector := getAttributeWithInheritance element Attr.INDICATOR in
    do indicatorElement <-
      (if Js.truthy indicatorSelector then query (Js.toString indicatorSelector)
       else ret None);
    let loadingClass := getAttributeWithInheritance element Attr.LOADING_CLASS in
    let focusEnabled :=
      negb (bool_decide (getAttributeWithInheritance element Attr.FOCUS = Some "false")) in
    let shouldPushState :=
      negb (bool_decide (getAttributeWithInheritance element Attr.PUSH_STATE = Some "false")) in
    let timeoutValue := getAttributeWithInheritance element Attr.TIMEOUT in
    let timeout := Js.parseInt timeoutValue in
    let maxRetries := resolveMaxRetries element in
    do requestParams <- prepareRequestParams element (Js.Int maxRetries);
    do targetElement <- query (targetSelector requestParams);
    match targetElement with
    | None =>
        handleError B P
          (Js.newError ("No element found with selector '" +:+ targetSelector requestParams
                        +:+ "' for 'x-target' targeting."))
          (Some (nodeId element)) None
    | Some targetElement =>
        runHooks B P "onAction" (Some (nodeId element)) (Some (TNode targetElement));;;
        do element <- currentElement element;
        tryFinallyM
          (tryCatch
             (handleActionTry element (withElement requestParams element) targetElement
                indicatorSelector loadingClass focusEnabled shouldPushState timeout
                maxRetries indicatorElement)
             (fun error => handleActionCatch B P error element targetElement))
          (handleActionFinally targetElement indicatorSelector loadingClass indicatorElement)
    end.

(** The debounced listener that [setupElement] attaches to an element:
    [this.handleAction(event, element).catch(error => this.handleError(error, element))]. *)
Definition triggerAction (element : Element) : M unit :=
  tryCatch (handleAction element)
           (fun error => handleError B P error (Some (nodeId element)) None).

(** The other places where the engine handles a failure. *)

(** [eventSource.onerror] and the [catch] of [handleSSEMessage]
    (lines 267-274 and 344-346). *)
Definition sseFailure (error : Js.Error) (element : nat) : M unit :=
  handleError B P error (Some element) None.

(** The [catch] of [handleInfiniteScrollAction] (line 507). *)
Definition infiniteScrollFailure (error : Js.Error) (parentElement : nat) : M unit :=
  handleError B P error (Some parentElement) (Some (TNode parentElement)).

End Pipeline.

(** ** Notions in which the properties are stated *)

(** The error with which one attempt of [performRequestCore] ends, by the
    outcome of its call of [fetch]; [None] when the attempt returns the
    response. *)
Definition attemptError (o : FetchOutcome) : option Js.Error :=
  match o with
  | Rejected e => Some e
  | Resolved r =>
      if ok r then None
      else match text r with
           | Ok t => Some (Js.newError ("HTTP error " +:+ pretty (status r) +:+ ": " +:+ t))
           | Throw e => Some e
           end
  end.

(** The error of a cancelled call: [error.name === 'AbortError']. *)
Definition isAbort (e : Js.Error) : bool := String.eqb (Js.err_name e) "AbortError".

(** An attempt fails. *)
Definition fails (o : FetchOutcome) : Prop := is_Some (attemptError o).

(** An attempt fails, and not by cancellation. *)
Definition failsWithoutAbort (o : FetchOutcome) : Prop :=
  exists e, attemptError o = Some e /\ isAbort e = false.

(** An attempt is cancelled by the timer. *)
Definition timesOut (o : FetchOutcome) : Prop :=
  exists e, attemptError o = Some e /\ isAbort e = true.

(** The events of a run from [w] to [w']. *)
Definition newEvents (w w' : World) : list Event :=
  drop (length (trace w)) (trace w').

(** The swaps among events: target, content and swap option. *)
Definition swapsOf (evs : list Event) : list (Target * string * string) :=
  omap (fun e => match e with
                 | EvSwap t c o => Some (t, c, o)
                 | _ => None
                 end) evs.

(** The calls of [fetch] among events. *)
Definition fetchesOf (evs : list Event) : list string :=
  omap (fun e => match e with
                 | EvFetch u _ _ _ => Some u
                 | _ => None
                 end) evs.

(** The texts parsed into nodes among events. *)
Definition parsesOf (evs : list Event) : list string :=
  omap (fun e => match e with
                 | EvParse c => Some c
                 | _ => None
                 end) evs.

(** An attribute is found for an element as section 4.1 says it: on the
    element, or on one of its ancestors when the attribute is inheritable. *)
Fixpoint onChain (e : Element) (name : string) : bool :=
  hasAttribute e name ||
  match parentElement e with
  | Some p => onChain p name
  | None => false
  end.

Definition foundFor (e : Element) (name : string) : bool :=
  if Attr.includes Attr.INHERITABLE_ATTRIBUTES name
  then onChain e name
  else hasAttribute e name.

(** The method that an action attribute names. *)
Definition methodOf (attr : string) : string :=
  if String.eqb attr "x-get" then "GET"
  else if String.eqb attr "x-post" then "POST"
  else if String.eqb attr "x-put" then "PUT"
  else if String.eqb attr "x-delete" then "DELETE"
  else if String.eqb attr "x-patch" then "PATCH"
  else "".

(** A text is not numeric: after its leading white space and one sign, it
    does not begin with a decimal digit. *)
Definition dropSign (s : string) : string :=
  match s with
  | String "-" r => r
  | String "+" r => r
  | _ => s
  end.

Definition beginsWithDigit (s : string) : bool :=
  match s with
  | String c _ => bool_decide (is_Some (Js.digitValue c))
  | EmptyString => false
  end.

Definition nonNumeric (s : string) : Prop :=
  beginsWithDigit (dropSign (Js.trimStart s)) = false.

(** The handler to which a failure goes. *)
Inductive Handler :=
| ElementHandler (name : string)   (* the function that x-on-error names *)
| GlobalHandler                    (* the onError callback of the engine *)
| Fallback.                        (* the log and the notice *)

(** The handler of the engine: its callback, else the log and the
    notice. *)
Definition engineHandler (P : Partial) : Handler :=
  match onError P with
  | Some _ => GlobalHandler
  | None => Fallback
  end.

(** The order of resolution as section 7 states it: the function that
    x-on-error names when there is one, else the handler of the engine. *)
Definition claimedHandler (B : Browser) (P : Partial) (element : Element) : Handler :=
  match getAttribute element Attr.ON_ERROR with
  | Some name =>
      if String.eqb name "" then engineHandler P
      else match windowFunction B name with
           | Some _ => ElementHandler name
           | None => engineHandler P
           end
  | None => engineHandler P
  end.

(** The handler that a run has used, by the first event that one of the
    three leaves. *)
Fixpoint handlerUsed (evs : list Event) : option Handler :=
  match evs with
  | [] => None
  | EvWindowHandler name _ _ :: _ => Some (ElementHandler name)
  | EvOnError _ _ :: _ => Some GlobalHandler
  | EvConsoleError _ :: _ => Some Fallback
  | _ :: r => handlerUsed r
  end.

(** The swap option as section 4.3 states it: the value of the response
    header when the header is present, else the attribute of the element
    when it is declared or inherited, else the default of the engine. *)
Definition claimedSwapOption (P : Partial) (response : Response) (element : Element)
  : string :=
  match headersGet (resHeaders response) "X-Swap" with
  | Some v => v
  | None =>
      match getAttributeWithInheritance element Attr.SWAP with
      | Some v => v
      | None => defaultSwapOption P
      end
  end.

(** A node and its descendants carry no listener and no mark. *)
Fixpoint inactive (n : Node) : bool :=
  match n with
  | Text _ => true
  | Elem _ _ _ m cs =>
      negb (initialized m) && bool_decide (length (listeners m) = 0%nat)
      && forallb inactive cs
  end.

(** The listeners of the node of identity [i] in the document. *)
Definition listenersOf (i : nat) (d : list Node) : list Listener :=
  match Dom.findInForest i d with
  | Some n => listeners (Dom.marksOf n)
  | None => []
  end.

(** The last value that a list of entries gives to a name. *)
Definition lastBinding (o : Params) (name : string) : option string :=
  getAttr (rev o) name.

(** The header that [getHeaders] makes of one attribute, if any. *)
Definition attributeHeader (attr : string * string) : option (string * string) :=
  let '(name, value) := attr in
  if Js.startsWith "x-" name && negb (Attr.includes excludedAttributes name)
  then Some ("X-" +:+ capitalize (Js.substring 2 name), value)
  else None.

(** The entries of the x-headers attribute of an element, when the
    attribute is there and is JSON. *)
Definition xHeaders (B : Browser) (element : option Element) : Params :=
  match element with
  | Some el =>
      if Js.truthy (getAttribute el "x-headers")
      then default [] (jsonParse B (Js.toString (getAttribute el "x-headers")))
      else []
  | None => []
  end.

(** The headers of the calls of [fetch] among events. *)
Definition fetchHeadersOf (evs : list Event) : list (gmap string string) :=
  omap (fun e => match e with
                 | EvFetch _ _ h _ => Some h
                 | _ => None
                 end) evs.

(** Where [insertAdjacentHTML] places nodes with respect to a node. *)
Definition placed (position : string) (nodes : list Node) (n : Node) : list Node :=
  if String.eqb position "beforebegin" then (nodes ++ [n])%list
  else if String.eqb position "afterbegin"
       then [Dom.setChildren (nodes ++ Dom.childrenOf n)%list n]
  else if String.eqb position "beforeend"
       then [Dom.setChildren (Dom.childrenOf n ++ nodes)%list n]
  else ([n] ++ nodes)%list.

(** A value that is there and is not the empty text. *)
Definition nonEmpty (v : option string) : option string :=
  match v with
  | Some s => if String.eqb s "" then None else Some s
  | None => None
  end.

(** The swap option of section 4.3, for values that are not empty: the
    response header, else the attribute of the element, declared or
    inherited, else the default of the engine. *)
Definition resolvedSwapOption (P : Partial) (response : Response) (element : Element)
  : string :=
  match nonEmpty (headersGet (resHeaders response) "X-Swap") with
  | Some v => v
  | None =>
      match nonEmpty (getAttributeWithInheritance element Attr.SWAP) with
      | Some v => v
      | None => defaultSwapOption P
      end
  end.

(** The selector of the header X-Target resolves to the element [t] of the
    document: by [querySelector], else by [getElementById]. *)
Definition resolves (B : Browser) (d : list Node) (selector : option string) (t : nat)
  : Prop :=
  exists s, nonEmpty selector = Some s
            /\ (querySelector B d s = Ok (Some t)
                \/ (querySelector B d s = Ok None /\ Dom.getElementById s d = Some t)).

(** The response document after the removal of its out-of-band elements,
    these elements, and the content of the primary swap, [doc.body.innerHTML],
    for a response parsed when the next identity is [k]. *)
Definition parsedResponse (B : Browser) (responseText : string) (k : nat)
  : list Node * list Node :=
  Parsed.extractOob (fst (Dom.instantiateAll (parseDocument B responseText) k)).

Definition primaryContent (B : Browser) (responseText : string) (k : nat)
  : option (list Markup) :=
  match Parsed.body (fst (parsedResponse B responseText k)) with
  | Some b => Some (map Dom.erase (Dom.childrenOf b))
  | None => None
  end.

(** The run from [w] to [w'] has only added events. *)
Definition extends (w w' : World) : Prop :=
  exists evs, trace w' = (trace w ++ evs)%list.

(** A computation only adds events. *)
Definition grows {A} (m : M A) : Prop := forall w, extends w (snd (m w)).

(** An event that is neither a swap nor a call of [fetch]. *)
Definition local (e : Event) : bool :=
  match e with
  | EvSwap _ _ _ => false
  | EvFetch _ _ _ _ => false
  | _ => true
  end.

(** A computation only adds events, and neither a swap nor a call of
    [fetch] among them. *)
Definition quiet {A} (m : M A) : Prop :=
  forall w, exists evs,
    trace (snd (m w)) = (trace w ++ evs)%list /\ forallb local evs = true.

(** The world [w] after [console.error(message)]. *)
Definition logged (w : World) (message : string) : World :=
  mkWorld (document w) (lastResponse w) (nextId w) (netCalls w)
          (trace w ++ [EvConsoleError message]).

(** The swap that one out-of-band element calls for in a document: on the
    element of the document that has its [id], if there is one, with its
    own markup and its own swap option. *)
Definition oobSwapOf (B : Browser) (P : Partial) (oobElement : Node) (d : list Node)
  : list (Target * string * string) :=
  match nonEmpty (getAttr (Dom.attrsOf oobElement) "id") with
  | Some targetId =>
      match Dom.getElementById targetId d with
      | Some existingElement =>
          [(TNode existingElement, serialize B [Dom.erase oobElement],
            match nonEmpty (getAttr (Dom.attrsOf oobElement) Attr.SWAP_OOB) with
            | Some option => option
            | None => defaultSwapOption P
            end)]
      | None => []
      end
  | None => []
  end.

(** The target selector of an element as section 4.1 states it: the
    declared or inherited x-target, else [#id] for an element with an
    identifier, else the body of the document. *)
Definition targetSelectorOf (element : Element) : string :=
  match nonEmpty (getAttributeWithInheritance element Attr.TARGET) with
  | Some s => s
  | None =>
      match nonEmpty (getAttribute element "id") with
      | Some i => "#" +:+ i
      | None => "body"
      end
  end.

(** A computation returns, having added neither a swap nor a call of
    [fetch]. *)
Definition quietOk {A} (m : M A) : Prop :=
  forall w, exists a w' evs,
    m w = (Ok a, w') /\ trace w' = (trace w ++ evs)%list /\ forallb local evs = true.

(** A computation adds events of which the first call of [fetch] is for
    the address [u]. *)
Definition fetchesFirst (u : string) {A} (m : M A) : Prop :=
  forall w, exists evs,
    trace (snd (m w)) = (trace w ++ evs)%list /\ head (fetchesOf evs) = Some u.

(** The document of [w] once the notice of an error is written into the
    element [t]. *)
Definition noticeWritten (B : Browser) (w : World) (t : nat) (error : Js.Error)
  : list Node :=
  Dom.rewriteForest t
    (fun n => [Dom.setChildren
                 (fst (Dom.instantiateAll (parseHTML B (errorNotice error)) (nextId w))) n])
    (document w).

(** The [id] attribute of the element [t] of a document. *)
Definition idOf (t : nat) (d : list Node) : option string :=
  match Dom.findInForest t d with
  | Some n => getAttr (Dom.attrsOf n) "id"
  | None => None
  end.

(** The body and the headers of the request of a descriptor can be built. *)
Definition sendable (B : Browser) (P : Partial) (rp : RequestParams) : Prop :=
  (forall w, exists b,
      prepareRequestBody B (element rp)
        (Js.orElse (match element rp with
                    | Some el => getAttribute el Attr.SERIALIZE
                    | None => None
                    end) "json") (paramsObject rp) w = (Ok b, w))
  /\ (exists h, prepareRequestHeaders B P (element rp) (headers rp) = Ok h).

(** A loading class that [classList] accepts: none, or a token without
    white space. *)
Definition usableClass (loadingClass : option string) : bool :=
  negb (Js.truthy loadingClass && Js.hasAsciiWhitespace (Js.toString loadingClass)).

(** The outcome of the call of a callback of the page. *)
Definition returned (cb : option Callback) : Result unit :=
  match cb with
  | Some (Throws e) => Throw e
  | _ => Ok tt
  end.

(** The world [w] after the fallback of the engine: the error is logged
    with [console.error], under the [message], and its notice is written
    into the element [target], when there is one: the children of the
    element are the nodes of the notice. *)
Definition fallback (B : Browser) (w : World) (message : string) (target : option nat)
    (error : Js.Error) : World :=
  match target with
  | Some t =>
      let '(nodes, k) := Dom.instantiateAll (parseHTML B (errorNotice error)) (nextId w) in
      mkWorld (Dom.rewriteForest t (fun n => [Dom.setChildren nodes n]) (document w))
              (lastResponse w) k (netCalls w)
              (trace w ++ [EvConsoleError message; EvParse (errorNotice error)])
  | None => logged w message
  end.

(** The element of a target, when the target is one. *)
Definition targetNode (target : option Target) : option nat :=
  match target with
  | Some (TNode t) => Some t
  | _ => None
  end.

(** ** A page, a browser and a server to run the engine on *)

Module Example.

(** Serialisation of markup, attribute values unquoted. *)
Fixpoint serializeMarkup (m : Markup) : string :=
  match m with
  | MText d => d
  | MElem t a cs =>
      "<" +:+ Js.toLowerCase t
      +:+ String.concat "" (map (fun '(k, v) => " " +:+ k +:+ "=" +:+ v) a)
      +:+ ">"
      +:+ String.concat "" (map serializeMarkup cs)
      +:+ "</" +:+ Js.toLowerCase t +:+ ">"
  end.

Definition print (ms : list Markup) : string :=
  String.concat "" (map serializeMarkup ms).

Definition button : list Markup :=
  [MElem "BUTTON" [("x-get", "/more")] [MText "More"]].

Definition paragraph : list Markup :=
  [MElem "P" [] [MText "new"]].

Definition aside : Markup :=
  MElem "DIV" [("id", "side"); ("x-swap-oob", "innerHTML")] [MText "aside"].

Definition orphan : Markup :=
  MElem "DIV" [("id", "nowhere"); ("x-swap-oob", "innerHTML")] [MText "lost"].

(** A response body with two out-of-band fragments around its content. *)
Definition mixed : list Markup := orphan :: paragraph ++ [aside].

(** A response body that holds a template after its paragraph, with an
    out-of-band element in the content of the template. *)
Definition stencil : list Markup := paragraph ++ [MElem "TEMPLATE" [] [aside]].

Definition known : list (list Markup) :=
  [button; paragraph; [aside]; [orphan]; mixed; stencil].

(** The parser: the inverse of [print] on the markup that the
    examples use; any other text is a text node. *)
Definition parse (s : string) : list Markup :=
  match List.find (fun ms => String.eqb (print ms) s) known with
  | Some ms => ms
  | None => if String.eqb s "" then [] else [MText s]
  end.

Definition parseDoc (s : string) : list Markup :=
  [MElem "HTML" [] [MElem "HEAD" [] []; MElem "BODY" [] (parse s)]].

(** The first element of a tag, in tree order. *)
Fixpoint byTag (t : string) (n : Node) : option nat :=
  match n with
  | Text _ => None
  | Elem j t' _ _ cs =>
      if String.eqb t t' then Some j
      else (fix byTagIn (l : list Node) : option nat :=
              match l with
              | [] => None
              | c :: r => match byTag t c with
                          | Some x => Some x
                          | None => byTagIn r
                          end
              end) cs
  end.

Fixpoint byTagAll (t : string) (l : list Node) : option nat :=
  match l with
  | [] => None
  | c :: r => match byTag t c with
              | Some x => Some x
              | None => byTagAll t r
              end
  end.

(** Selectors [#id] and tag names. *)
Definition select (d : list Node) (selector : string) : Result (option nat) :=
  match selector with
  | String "#" value => Ok (Dom.getElementById value d)
  | _ => Ok (byTagAll (Js.toUpperCase selector) d)
  end.

(** [JSON.parse] on the texts that the examples use: the empty object,
    and texts that are not JSON. *)
Definition json (s : string) : option Params :=
  if String.eqb s "{}" then Some [] else None.

(** The page declares the function [notify] on [window]. *)
Definition globals (name : string) : option Callback :=
  if String.eqb name "notify" then Some Returns else None.

Definition browser (net : nat -> FetchOutcome) : Browser :=
  mkBrowser net (fun _ => true) select globals json (fun _ => "{}") (fun _ => "")
            (fun u => Ok u) parse parseDoc print (fun _ => []) (fun _ _ => "{}").

(** The engine with its default options. *)
Definition engine : Partial := newPartial (mkOptions None None None None None).

(** The engine configured with a literal token. *)
Definition secured : Partial :=
  newPartial (mkOptions None (Some (CsrfLiteral "secret")) None None None).

(** Headers of a descriptor that set the token themselves. *)
Definition descriptor : gmap string string :=
  <["Accept" := "text/html"]> (<["X-CSRF-Token" := "mine"]> ∅).

(** The engine with a hook on [onAction] that throws. *)
Definition hooked : Partial :=
  mkPartial None None "innerHTML" false 0
            (fun hookName => if String.eqb hookName "onAction"
                             then [Throws (Js.newError "hook failed")]
                             else [])
            [].

(** What a server may answer. *)
Definition respond (hs : list (string * string)) (content : string) : FetchOutcome :=
  Resolved (mkResponse true 200 hs (Ok content)).

Definition aborted : FetchOutcome :=
  Rejected (Js.mkErr "AbortError" "The operation was aborted.").

Definition unreachable : FetchOutcome :=
  Rejected (Js.mkErr "TypeError" "Failed to fetch").

(** A request for [/a]. *)
Definition request (t r : Js.Number) : RequestParams :=
  mkRequestParams "GET" (Some "/a") ∅ "#x" (Some "x") [] None BodyNone t r.

(** The chain of an element [div#x] below [body] and [html]. *)
Definition ancestors : Element :=
  mkElement 1 "BODY" [] (Some (mkElement 0 "HTML" [] None)).

Definition trigger (attrs : Attrs) : Element :=
  mkElement 2 "DIV" (("id", "x") :: attrs) (Some ancestors).

Definition active : Marks :=
  mkMarks true [mkListener "click" 0] false None false false.

(** The live document: [div#x] is set up, [div#side] is plain. *)
Definition page (attrs : Attrs) : list Node :=
  [Elem 0 "HTML" [] noMarks
     [Elem 1 "BODY" [] noMarks
        [Elem 2 "DIV" (("id", "x") :: attrs) active [Text "old"];
         Elem 3 "DIV" [("id", "side")] noMarks [Text "margin"]]]].

Definition world (attrs : Attrs) (last : option Response) : World :=
  mkWorld (page attrs) last 10 0 [].

End Example.

(** The answer of a server that overrides the target and the swap. *)
Definition override : Response :=
  mkResponse true 200 [("X-Target", "#side"); ("X-Swap", "outerHTML")] (Ok (Example.print Example.paragraph)).

(** The answer of a server with an empty X-Swap header. *)
Definition emptySwap : Response :=
  mkResponse true 200 [("X-Swap", "")] (Ok (Example.print Example.paragraph)).

(** The out-of-band elements of the response [mixed], parsed when the next
    identity is 10. *)
Definition orphanNode : Node :=
  Elem 13 "DIV" [("id", "nowhere"); ("x-swap-oob", "innerHTML")] noMarks [Text "lost"].

Definition asideNode : Node :=
  Elem 15 "DIV" [("id", "side"); ("x-swap-oob", "innerHTML")] noMarks [Text "aside"].

(** ** Further parts of the engine *)

(** *** Notions for the runs of the engine *)

(** The world [w] with the events [evs] added to its trace, and nothing
    else changed. *)
Definition traced (w : World) (evs : list Event) : World :=
  mkWorld (document w) (lastResponse w) (nextId w) (netCalls w) (trace w ++ evs).

(** A computation only adds events, and all of them satisfy [p]. *)
Definition only (p : Event -> bool) {A} (m : M A) : Prop :=
  forall w, exists evs,
    trace (snd (m w)) = (trace w ++ evs)%list /\ forallb p evs = true.

(** A computation returns, having only added events that satisfy [p]. *)
Definition okOnly (p : Event -> bool) {A} (m : M A) : Prop :=
  forall w, exists a w' evs,
    m w = (Ok a, w') /\ trace w' = (trace w ++ evs)%list /\ forallb p evs = true.

(** A computation changes nothing of the world but its trace, to which it
    adds events that satisfy [p]. *)
Definition effectless (p : Event -> bool) {A} (m : M A) : Prop :=
  forall w, exists evs, snd (m w) = traced w evs /\ forallb p evs = true.

(** The calls of hooks among events: the name of the hook and the index
    of the callback. *)
Definition hookCalls (evs : list Event) : list (string * nat) :=
  omap (fun e => match e with
                 | EvHook hookName index => Some (hookName, index)
                 | _ => None
                 end) evs.

(** An event that is not the call of a hook. *)
Definition notHook (e : Event) : bool :=
  match e with
  | EvHook _ _ => false
  | _ => true
  end.

(** The calls of middleware among events. *)
Definition middlewareCalls (evs : list Event) : list nat :=
  omap (fun e => match e with
                 | EvMiddleware index => Some index
                 | _ => None
                 end) evs.

(** An event by which a failure is reported, or the call of a hook. *)
Definition reporting (e : Event) : bool :=
  match e with
  | EvHook _ _ => true
  | EvOnError _ _ => true
  | EvConsoleError _ => true
  | _ => false
  end.

(** An event that neither shows nor hides an indicator, and neither adds
    nor removes a loading class. *)
Definition calm (e : Event) : bool :=
  match e with
  | EvIndicator _ _ => false
  | EvLoadingClass _ _ _ => false
  | _ => true
  end.

(** An event that is calm and is neither a swap nor a call of [fetch]. *)
Definition still (e : Event) : bool := calm e && local e.

(** The events by which [handleAction] marks an action as running
    ([busy] is [true]) or as over: on the indicator, when the selector of
    the element has found one, and on the target [targetElement], when the
    element has a loading class that [classList] accepts. *)
Definition indicatorEvents (element : Element) (targetElement : nat) (found busy : bool)
  : list Event :=
  ((if found
    then [EvIndicator (Js.toString (getAttributeWithInheritance element Attr.INDICATOR)) busy]
    else []) ++
   (if Js.truthy (getAttributeWithInheritance element Attr.LOADING_CLASS)
       && usableClass (getAttributeWithInheritance element Attr.LOADING_CLASS)
    then [EvLoadingClass targetElement
            (Js.toString (getAttributeWithInheritance element Attr.LOADING_CLASS)) busy]
    else []))%list.

(** A computation marks an action of [element] as running at most once,
    and then marks it as over at its end: the events it adds either are
    all still, or are the marks of a running action, calm events, and at
    the end the marks of the action that is over, after calm events.  With
    a loading class that [classList] refuses, a computation that marks the
    action neither swaps nor calls [fetch], and it throws the error of
    [classList]. *)
Definition marksAction (element : Element) {A} (m : M A) : Prop :=
  forall w, exists evs,
    trace (snd (m w)) = (trace w ++ evs)%list
    /\ (forallb still evs = true
        \/ exists t found before between,
             evs = (before ++ indicatorEvents element t found true
                    ++ between ++ indicatorEvents element t found false)%list
             /\ forallb calm before = true /\ forallb calm between = true
             /\ (usableClass (getAttributeWithInheritance element Attr.LOADING_CLASS) = false ->
                 forallb local evs = true
                 /\ exists e, fst (m w) = Throw e
                              /\ Js.err_name e = "InvalidCharacterError")).

(** *** Notions for activation *)

(** Every element of a tree that [scanForElements] selects is set up: an
    element with x-sse and an address has its event source, and an element
    with an action attribute and no x-sse is initialized.  The content of
    a [template] is not selected. *)
Fixpoint activated (n : Node) : bool :=
  match n with
  | Text _ => true
  | Elem _ t a m cs =>
      (if hasAttr a Attr.SSE
       then implb (Js.truthy (getAttr a Attr.SSE)) (sseInitialized m)
       else if existsb (hasAttr a) Attr.ACTIONS then initialized m else true)
      && (Dom.isTemplate t || forallb activated cs)
  end.

(** A report on the console. *)
Definition isConsoleError (e : Event) : bool :=
  match e with
  | EvConsoleError _ => true
  | _ => false
  end.

(** The events that setting an element up can leave: a report or a warning
    on the console, the opening of an event source, the observation of a
    sentinel. *)
Definition setupEvent (e : Event) : bool :=
  match e with
  | EvConsoleError _ => true
  | EvConsoleWarn _ => true
  | EvEventSource _ => true
  | EvObserve _ => true
  | _ => false
  end.

(** *** The class [Serializer] *)

Module Serializer.

(** The value of an entry of a [FormData]: a string, or the [File] of a
    file input. *)
Inductive FormDataEntryValue :=
| FString (s : string)
| FFile (name : string).

(** The replacement of one character by [escapeXml]. *)
Definition escapeChar (c : ascii) : string :=
  if Ascii.eqb c "<" then "&lt;"
  else if Ascii.eqb c ">" then "&gt;"
  else if Ascii.eqb c "&" then "&amp;"
  else if Ascii.eqb c "'" then "&apos;"
  else if Ascii.eqb c (ascii_of_nat 34) then "&quot;"
  else String c EmptyString.

(** [escapeXml(unsafe)]: every character of the class is replaced. *)
Fixpoint escapeXml (unsafe : string) : string :=
  match unsafe with
  | EmptyString => EmptyString
  | String c r => escapeChar c +:+ escapeXml r
  end.

(** The declaration that opens the document. *)
Definition declaration : string :=
  "<?xml version=" +:+ Js.quote +:+ "1.0" +:+ Js.quote
  +:+ " encoding=" +:+ Js.quote +:+ "UTF-8" +:+ Js.quote +:+ "?>".

(** The turns of [formData.forEach] in [serializeFormToXml], on the text
    built so far; the value of a file input has no method [replace]. *)
Fixpoint appendEntries (xmlString : string)
    (formData : list (string * FormDataEntryValue)) : Result string :=
  match formData with
  | [] => Ok xmlString
  | (key, FString value) :: rest =>
      appendEntries
        (xmlString +:+ "<" +:+ key +:+ ">" +:+ escapeXml value +:+ "</" +:+ key +:+ ">")
        rest
  | (key, FFile _) :: _ =>
      Throw (Js.mkErr "TypeError" "unsafe.replace is not a function")
  end.

Definition serializeFormToXml (formData : list (string * FormDataEntryValue))
  : Result string :=
  match appendEntries (declaration +:+ "<form>") formData with
  | Ok xmlString => Ok (xmlString +:+ "</form>")
  | Throw e => Throw e
  end.

(** A character that [escapeXml] replaces. *)
Definition special (c : ascii) : bool :=
  Ascii.eqb c "<" || Ascii.eqb c ">" || Ascii.eqb c "&" || Ascii.eqb c "'"
  || Ascii.eqb c (ascii_of_nat 34).

(** A character that delimits markup or an attribute value. *)
Definition delimiter (c : ascii) : bool :=
  Ascii.eqb c "<" || Ascii.eqb c ">" || Ascii.eqb c "'" || Ascii.eqb c (ascii_of_nat 34).

(** Every character of a text satisfies [p]. *)
Fixpoint every (p : ascii -> bool) (s : string) : bool :=
  match s with
  | EmptyString => true
  | String c r => p c && every p r
  end.

Definition isFile (v : FormDataEntryValue) : bool :=
  match v with
  | FFile _ => true
  | FString _ => false
  end.

End Serializer.

(** The element that [serializeFormToXml] writes for one entry whose value
    is a string. *)
Definition entryXml (entry : string * Serializer.FormDataEntryValue) : string :=
  match entry with
  | (key, Serializer.FString value) =>
      "<" +:+ key +:+ ">" +:+ Serializer.escapeXml value +:+ "</" +:+ key +:+ ">"
  | (_, Serializer.FFile _) => ""
  end.

(** *** The registry of custom events (lines 1311-1355) *)

Module Events.

(** The names of the properties that every plain object inherits from
    [Object.prototype]: [this.eventListeners[name]] is truthy for them,
    and is not an array. *)
Definition objectPrototype : list string :=
  ["constructor"; "__defineGetter__"; "__defineSetter__"; "hasOwnProperty";
   "__lookupGetter__"; "__lookupSetter__"; "isPrototypeOf"; "propertyIsEnumerable";
   "toString"; "valueOf"; "__proto__"; "toLocaleString"].

Definition notAFunction (what : string) : Js.Error :=
  Js.mkErr "TypeError" ("this.eventListeners[eventName]." +:+ what +:+ " is not a function").

Section Events.

(** The third argument of [addEventListener], a boolean, a dictionary or
    [undefined], by what the engine and the event target make of it:
    [JSON.stringify(options)], where [None] is [undefined]; its capture
    flag; and whether it carries a signal that is aborted. *)
Context {Options : Type}.
Context (stringify : Options -> option string).
Context (capture : Options -> bool).
Context (aborted : Options -> bool).

(** An entry [{ callback, options }] of the registry; a callback is a
    function, known by its identity. *)
Record Registered := mkRegistered { callback : nat; options : Options }.

(** The registry [this.eventListeners] and the listeners of
    [this.eventTarget]: type, callback and capture flag. *)
Record State := mkState {
  eventListeners : gmap string (list Registered);
  eventTarget : list (string * nat * bool)
}.

Definition initial : State := mkState ∅ [].

Definition sameListener (type : string) (cb : nat) (cap : bool) (l : string * nat * bool)
  : bool :=
  let '(t, c, p) := l in String.eqb t type && Nat.eqb c cb && Bool.eqb p cap.

(** [eventTarget.addEventListener(type, callback, options)] *)
Definition addEventListener (type : string) (cb : nat) (o : Options)
    (target : list (string * nat * bool)) : list (string * nat * bool) :=
  if aborted o || existsb (sameListener type cb (capture o)) target
  then target
  else (target ++ [(type, cb, capture o)])%list.

(** [eventTarget.removeEventListener(type, callback, options)] *)
Definition removeEventListener (type : string) (cb : nat) (o : Options)
    (target : list (string * nat * bool)) : list (string * nat * bool) :=
  List.filter (fun l => negb (sameListener type cb (capture o) l)) target.

(** [event(eventName, callback, options)] *)
Definition event (eventName : string) (cb : nat) (o : Options) (st : State)
  : Result State :=
  if Attr.includes objectPrototype eventName
  then Throw (notAFunction "push")
  else
    Ok (mkState
          (<[eventName := (default [] (eventListeners st !! eventName)
                           ++ [mkRegistered cb o])%list]> (eventListeners st))
          (addEventListener eventName cb o (eventTarget st))).

(** The test of [findIndex] in [removeEvent]. *)
Definition matches (cb : nat) (o : Options) (listener : Registered) : bool :=
  Nat.eqb (callback listener) cb
  && bool_decide (stringify (options listener) = stringify o).

Fixpoint findIndex (p : Registered -> bool) (l : list Registered) : option nat :=
  match l with
  | [] => None
  | x :: r => if p x then Some O else option_map S (findIndex p r)
  end.

(** [array.splice(index, 1)] *)
Fixpoint splice (index : nat) (l : list Registered) : list Registered :=
  match l, index with
  | [], _ => []
  | _ :: r, O => r
  | x :: r, S i => x :: splice i r
  end.

(** [removeEvent(eventName, callback, options)] *)
Definition removeEvent (eventName : string) (cb : nat) (o : Options) (st : State)
  : Result State :=
  if Attr.includes objectPrototype eventName
  then Throw (notAFunction "findIndex")
  else
    let registry :=
      match eventListeners st !! eventName with
      | Some l =>
          match findIndex (matches cb o) l with
          | Some index =>
              match splice index l with
              | [] => delete eventName (eventListeners st)
              | l' => <[eventName := l']> (eventListeners st)
              end
          | None => eventListeners st
          end
      | None => eventListeners st
      end in
    Ok (mkState registry (removeEventListener eventName cb o (eventTarget st))).

(** [removeAllEvents(eventName)] *)
Definition removeAllEvents (eventName : string) (st : State) : Result State :=
  if Attr.includes objectPrototype eventName
  then Throw (notAFunction "forEach")
  else
    match eventListeners st !! eventName with
    | Some l =>
        Ok (mkState
              (delete eventName (eventListeners st))
              (fold_left (fun target listener =>
                            removeEventListener eventName (callback listener)
                                                (options listener) target)
                         l (eventTarget st)))
    | None => Ok st
    end.

(** The callbacks of the listeners of [eventName] that have the capture
    flag [phase], in the order of their registration. *)
Definition heard (eventName : string) (phase : bool) (target : list (string * nat * bool))
  : list nat :=
  omap (fun '(t, c, p) =>
          if String.eqb t eventName && Bool.eqb p phase then Some c else None)
       target.

(** The callbacks that [dispatchEvent(eventName, eventData)] reaches, in
    the order of their calls.  The event is dispatched on the event target
    itself: its listeners for the capture are called first, then the
    others. *)
Definition listenersFor (eventName : string) (st : State) : list nat :=
  (heard eventName true (eventTarget st) ++ heard eventName false (eventTarget st))%list.

(** Every listener of the event target is recorded in the registry. *)
Definition recorded (st : State) : Prop :=
  forall type cb cap,
    In (type, cb, cap) (eventTarget st) ->
    exists l listener,
      eventListeners st !! type = Some l /\ In listener l
      /\ callback listener = cb /\ capture (options listener) = cap.

(** The registry has no entry without listener. *)
Definition compact (st : State) : Prop :=
  forall name l, eventListeners st !! name = Some l -> l <> [].

End Events.

End Events.

(** *** Registration of hooks and of middleware (lines 184-206) *)

(** The engine with other hooks and middleware. *)
Definition withHooks (P : Partial) (hooks : string -> list Callback)
    (middleware : list Middleware) : Partial :=
  mkPartial (onError P) (csrfToken P) (defaultSwapOption P) (autoFocus P) (debounceTime P)
            hooks middleware.

(** [addHook(hookName, callback)]: the engine afterwards, and what is
    written on the console.  [callback] is [None] when it is not a
    function.  For the name of a property that objects inherit,
    [this.hooks[hookName]] is there and has no method [push]. *)
Definition addHook (hookName : string) (callback : option Callback) (P : Partial)
  : Result Partial * list Event :=
  match callback with
  | Some cb =>
      if Attr.includes Events.objectPrototype hookName
      then (Throw (Js.mkErr "TypeError" "this.hooks[hookName].push is not a function"), [])
      else (Ok (withHooks P
                  (fun name => if String.eqb name hookName
                               then (hooks P name ++ [cb])%list
                               else hooks P name)
                  (middleware P)), [])
  | None =>
      (Ok P, [EvConsoleError ("addHook expects a function for hook '" +:+ hookName +:+ "'")])
  end.

(** [use(middleware)] *)
Definition use (mw : option Middleware) (P : Partial) : Partial * list Event :=
  match mw with
  | Some m => (withHooks P (hooks P) (middleware P ++ [m])%list, [])
  | None => (P, [EvConsoleError "Middleware must be a function."])
  end.

(** *** [debounce(func, wait)] (lines 846-856) *)

Module Debounce.

Section Debounce.

(** The arguments of one call. *)
Context {Args : Type}.

(** The closure of a debounced function: its variable [timeout]; the
    timers that it has set and that are pending, each with the arguments
    that its callback [later] holds; and the identity that [setTimeout]
    returns next. *)
Record State := mkState {
  timeout : option nat;
  pending : list (nat * Args);
  nextTimer : nat
}.

Definition initial : State := mkState None [] 0.

(** [clearTimeout(id)] *)
Definition clearTimeout (id : option nat) (timers : list (nat * Args)) : list (nat * Args) :=
  match id with
  | Some i => List.filter (fun t => negb (Nat.eqb (fst t) i)) timers
  | None => timers
  end.

(** A call of the debounced function with [args]. *)
Definition invoke (args : Args) (st : State) : State :=
  let timers := clearTimeout (timeout st) (pending st) in
  mkState (Some (nextTimer st)) (timers ++ [(nextTimer st, args)])%list (S (nextTimer st)).

(** The delay of the timer [id] is over: the timer runs [later] if it is
    pending.  The result holds the arguments with which [later] calls
    [func]. *)
Definition elapse (id : nat) (st : State) : State * list Args :=
  match List.find (fun t => Nat.eqb (fst t) id) (pending st) with
  | Some (_, args) =>
      let timers := List.filter (fun t => negb (Nat.eqb (fst t) id)) (pending st) in
      (mkState (timeout st) (clearTimeout (timeout st) timers) (nextTimer st), [args])
  | None => (st, [])
  end.

(** What happens to a debounced function. *)
Inductive Step :=
| Call (args : Args)
| Elapse (id : nat).

Fixpoint run (steps : list Step) (st : State) : State * list Args :=
  match steps with
  | [] => (st, [])
  | Call args :: rest => run rest (invoke args st)
  | Elapse id :: rest =>
      let '(st1, out1) := elapse id st in
      let '(st2, out2) := run rest st1 in
      (st2, (out1 ++ out2)%list)
  end.

(** The arguments of the calls among steps. *)
Definition calls (steps : list Step) : list Args :=
  omap (fun s => match s with Call args => Some args | Elapse _ => None end) steps.

(** At most one timer is pending, and it is the one that [timeout]
    names. *)
Definition single (st : State) : Prop :=
  pending st = [] \/ exists id args, pending st = [(id, args)] /\ timeout st = Some id.

(** The arguments that wait for a timer. *)
Definition waiting (st : State) : list Args := map snd (pending st).

End Debounce.

End Debounce.

(** *** Values of messages and the body of the document *)

(** [String(v)] of a value that is a string or [undefined]. *)
Definition textOf (v : option string) : string :=
  match v with
  | Some s => s
  | None => "undefined"
  end.

(** [document.body.contains(node)] *)
Definition bodyContains (i : nat) : M bool :=
  do w <- getWorld;
  match Parsed.body (document w) with
  | Some b => ret (bool_decide (is_Some (Dom.findNode i b)))
  | None => throw (Js.mkErr "TypeError" "Cannot read properties of null (reading 'contains')")
  end.

(** *** Messages of an event source (lines 303-347) *)

(** The data of a message as the typedef [SseMessage] declares it; a
    property that is absent is [None]. *)
Record SseMessage := mkSseMessage {
  content : option string;
  xTarget : option string;
  xFocus : option string;
  xSwap : option string;
  xEvent : option string
}.

(** [JSON.parse(event.data)]: a [SyntaxError], [null], or a value with
    the properties of a message. *)
Inductive MessageData :=
| NotJson
| JsonNull
| Json (data : SseMessage).

Section Sse.

Context (B : Browser) (P : Partial).
Context (parseMessage : string -> MessageData).

(** [performSwap] with a content that may be [undefined]: it throws when
    it calls [trim], before anything else. *)
Definition swapContent (target : Target) (newContent : option string) (swapOption : string)
  : M unit :=
  match newContent with
  | Some c => performSwap B P target c swapOption
  | None => throw (Js.mkErr "TypeError" "Cannot read properties of undefined (reading 'trim')")
  end.

(** The [try] block of [handleSSEMessage]. *)
Definition handleSSEMessageTry (eventData : string) (element : nat) : M unit :=
  match parseMessage eventData with
  | NotJson => throw (Js.mkErr "SyntaxError" "Unexpected token in JSON")
  | JsonNull =>
      throw (Js.mkErr "TypeError" "Cannot read properties of null (reading 'xTarget')")
  | Json data =>
      let targetSelector := xTarget data in
      do found <- query B (textOf targetSelector);
      let targetElement := match found with Some t => t | None => element end in
      do inBody <- bodyContains targetElement;
      if negb inBody
      then emit (EvConsoleError ("No element found with selector '" +:+ textOf targetSelector
                                 +:+ "' for SSE message or it is not in the DOM."))
      else
        let swapOption := Js.orElse (xSwap data) (defaultSwapOption P) in
        swapContent (TNode targetElement) (content data) swapOption;;;
        (let focusEnabled := negb (bool_decide (xFocus data = Some "false")) in
         if autoFocus P && focusEnabled
         then do found' <- query B (textOf targetSelector);
              focusElement (match found' with Some t => t | None => element end)
         else ret tt);;;
        scanForElements P CDocument;;;
        (if Js.truthy (xEvent data)
         then dispatchCustomEvents (Js.toString (xEvent data))
         else ret tt);;;
        emit (EvDispatch "sseContentReplaced")
  end.

(** [handleSSEMessage(event, element)] *)
Definition handleSSEMessage (eventData : string) (element : nat) : M unit :=
  tryCatch (handleSSEMessageTry eventData element)
           (fun error => handleError B P error (Some element) None).

End Sse.


(** *** Navigation in the history (lines 1253-1302) *)

Module History.

(** [event.state] as [handlePopState] reads it: the state that
    [handleAction] pushes (lines 626-632).  A property that is absent is
    [None], or [NaN] for the number. *)
Record State := mkState {
  xPartial : bool;
  partialId : option string;
  url : option string;
  swapOption : option string;
  maxRetries : Js.Number
}.

End History.

(** How [handlePopState] leaves the page: with
    [window.location.reload(); return], or without a reload. *)
Inductive Navigation :=
| Reload
| Stay.

(** The element of identity [i] as the document has it: its tag, its
    attributes and its ancestors.  A node that the document does not
    hold has neither attributes nor ancestors, as for [liveAttribute]. *)
Definition elementAt (i : nat) (d : list Node) : Element :=
  default (mkElement i "" [] None) (Dom.elementOf i d).

Definition liveElement (i : nat) : M Element :=
  fun w => (Ok (elementAt i (document w)), w).

Section PopState.

Context (B : Browser) (P : Partial).

(** The [try] block of [handlePopState]. *)
Definition handlePopStateTry (state : History.State) (requestParams : RequestParams)
  : M unit :=
  do responseText <- performRequest B P requestParams;
  do found <- query B (targetSelector requestParams);
  match found with
  | None =>
      emit (EvConsoleError ("No element found with selector '"
                            +:+ targetSelector requestParams +:+ "' for infinite scroll."))
  | Some targetElement =>
      (if Js.truthy (History.swapOption state)
       then setAttribute targetElement "x-swap" (Js.toString (History.swapOption state))
       else ret tt);;;
      do self <- liveElement targetElement;
      processResponse B P responseText targetElement self;;;
      (if autoFocus P then emit (EvFocus targetElement) else ret tt)
  end.

(** The descriptor of the request that restores a state. *)
Definition restoring (state : History.State) (targetElement : Element)
    (requestParams : RequestParams) : RequestParams :=
  mkRequestParams (method requestParams) (History.url state)
    (<["X-Target" := Js.toString (History.partialId state)]> (headers requestParams))
    (targetSelector requestParams) (partialId requestParams) (paramsObject requestParams)
    (Some targetElement) (body requestParams) (timeout requestParams)
    (History.maxRetries state).

(** [handlePopState(event)], from [event.state]. *)
Definition handlePopState (state : option History.State) : M Navigation :=
  match state with
  | Some s =>
      if History.xPartial s then
        if negb (Js.truthy (History.partialId s)) || negb (Js.truthy (History.url s))
        then emit (EvConsoleWarn
                     "No partialId or url found in history.state, falling back to full reload.");;;
             ret Reload
        else
          let partialId := Js.toString (History.partialId s) in
          do w <- getWorld;
          match Dom.getElementById partialId (document w) with
          | None =>
              emit (EvConsoleWarn ("No element found with ID '" +:+ partialId
                                   +:+ "'. Falling back to full reload."));;;
              ret Reload
          | Some targetElement =>
              do self <- liveElement targetElement;
              do requestParams <- extractRequestParams B P self;
              do self <- currentElement self;
              tryCatch (handlePopStateTry s (restoring s self requestParams))
                       (fun error => handleError B P error (Some targetElement) None);;;
              ret Stay
          end
      else ret Reload
  | None => ret Reload
  end.

End PopState.

(** The element that a state of the history names, when [handlePopState]
    can restore it in the document [d]. *)
Definition restorable (d : list Node) (state : option History.State) : option nat :=
  match state with
  | Some s =>
      if History.xPartial s && Js.truthy (History.partialId s) && Js.truthy (History.url s)
      then Dom.getElementById (Js.toString (History.partialId s)) d
      else None
  | None => None
  end.

(** A warning on the console. *)
Definition isConsoleWarn (e : Event) : bool :=
  match e with
  | EvConsoleWarn _ => true
  | _ => false
  end.

(** * Properties *)

(** ** The retry loop *)

Section CoreFacts.

Context (B : Browser).

Lemma attemptLoop_step rp ma a w :
  attemptLoop B rp ma a w =
  if Js.lt a ma then
    match attempt B rp w with
    | (Ok response, w') => (Ok (Some response), w')
    | (Throw error, w') =>
        if String.eqb (Js.err_name error) "AbortError"
        then (Throw (Js.newError "Request timed out"), w')
        else if Js.ge (a + 1) ma then (Throw error, w')
             else attemptLoop B rp ma (a + 1) w'
    end
  else (Ok None, w).
Proof.
  simp attemptLoop.
  destruct (Logic.inspect (Js.lt a ma)) as [[] Hb]; simp attemptLoop;
    rewrite Hb; reflexivity.
Qed.

(** One attempt is one call of [fetch], whatever comes of it. *)
Lemma attempt_calls rp w : netCalls (snd (attempt B rp w)) = S (netCalls w).
Proof.
  unfold attempt, bind, fetch, emit, ret, throw, liftResult.
  destruct (Js.numTruthy (timeout rp)); simpl;
    destruct (net B (netCalls w)) as [r|e]; simpl; try reflexivity;
    destruct (ok r); simpl; try reflexivity;
    destruct (text r); reflexivity.
Qed.

Lemma attempt_fails rp w e :
  attemptError (net B (netCalls w)) = Some e ->
  exists w', attempt B rp w = (Throw e, w') /\ netCalls w' = S (netCalls w).
Proof.
  intros H. pose proof (attempt_calls rp w) as Hc.
  destruct (attempt B rp w) as [res w'] eqn:Ha. exists w'. split; [|exact Hc].
  f_equal. revert Ha.
  unfold attempt, bind, fetch, emit, ret, throw, liftResult.
  destruct (Js.numTruthy (timeout rp)); simpl;
    destruct (net B (netCalls w)) as [r|e']; simpl in *;
    try (intros [= <- _]; congruence);
    destruct (ok r); simpl; try discriminate;
    destruct (text r); simpl; intros [= <- _]; congruence.
Qed.

Lemma attempt_succeeds rp w r :
  net B (netCalls w) = Resolved r -> ok r = true ->
  exists w', attempt B rp w = (Ok r, w') /\ netCalls w' = S (netCalls w).
Proof.
  intros H Hok. pose proof (attempt_calls rp w) as Hc.
  destruct (attempt B rp w) as [res w'] eqn:Ha. exists w'. split; [|exact Hc].
  f_equal. revert Ha.
  unfold attempt, bind, fetch, emit, ret, throw, liftResult.
  destruct (Js.numTruthy (timeout rp)); simpl; rewrite H; simpl; rewrite Hok; simpl;
    intros [= <- _]; reflexivity.
Qed.

(** After [k] failures that are not cancellations, with attempts left,
    the loop is at its attempt [k + 1]. *)
Lemma attemptLoop_retries rp m (k : nat) : forall a w,
  (forall j, (j < k)%nat -> failsWithoutAbort (net B (netCalls w + j)%nat)) ->
  a + Z.of_nat k < m ->
  exists w', netCalls w' = (netCalls w + k)%nat /\
             attemptLoop B rp (Js.Int m) a w
             = attemptLoop B rp (Js.Int m) (a + Z.of_nat k) w'.
Proof.
  induction k as [|k IH]; intros a w Hf Hlt.
  - exists w. split; [lia|]. f_equal. lia.
  - destruct (Hf 0%nat ltac:(lia)) as (e & He & Hab).
    rewrite Nat.add_0_r in He.
    destruct (attempt_fails rp w e He) as (w1 & Hatt & Hc).
    destruct (IH (a + 1) w1) as (w' & Hc' & Hloop).
    + intros j Hj. rewrite Hc.
      replace (S (netCalls w) + j)%nat with (netCalls w + S j)%nat by lia.
      apply Hf. lia.
    + lia.
    + exists w'. split; [lia|].
      rewrite attemptLoop_step. simpl.
      replace (a <? m) with true by (symmetry; apply Z.ltb_lt; lia).
      rewrite Hatt. unfold isAbort in Hab. rewrite Hab.
      replace (m <=? a + 1) with false by (symmetry; apply Z.leb_gt; lia).
      rewrite Hloop. f_equal. lia.
Qed.

(** With an attempt left, the loop ends by [return] or by [throw], not
    by its condition. *)
Lemma attemptLoop_no_exit rp m (k : nat) : forall a w,
  Z.to_nat (m - a) = S k ->
  fst (attemptLoop B rp (Js.Int m) a w) <> Ok None.
Proof.
  induction k as [|k IH]; intros a w Hk; rewrite attemptLoop_step; simpl;
    (replace (a <? m) with true by (symmetry; apply Z.ltb_lt; lia));
    destruct (attempt B rp w) as [[r|e] w']; simpl; try discriminate;
    destruct (String.eqb (Js.err_name e) "AbortError"); simpl; try discriminate.
  - replace (m <=? a + 1) with true by (symmetry; apply Z.leb_le; lia). discriminate.
  - replace (m <=? a + 1) with false by (symmetry; apply Z.leb_gt; lia).
    apply IH. lia.
Qed.

(** The loop makes at most [maxAttempts - attempts] calls. *)
Lemma attemptLoop_calls_bound rp m (k : nat) : forall a w,
  Z.to_nat (m - a) = k ->
  (netCalls (snd (attemptLoop B rp (Js.Int m) a w)) <= netCalls w + k)%nat.
Proof.
  induction k as [|k IH]; intros a w Hk; rewrite attemptLoop_step; simpl.
  - replace (a <? m) with false by (symmetry; apply Z.ltb_ge; lia). simpl. lia.
  - replace (a <? m) with true by (symmetry; apply Z.ltb_lt; lia).
    pose proof (attempt_calls rp w) as Hc.
    destruct (attempt B rp w) as [[r|e] w']; simpl in *; [lia|].
    destruct (String.eqb (Js.err_name e) "AbortError"); simpl; [lia|].
    destruct (m <=? a + 1) eqn:Hge; simpl; [lia|].
    apply Z.leb_gt in Hge.
    specialize (IH (a + 1) w' ltac:(lia)). lia.
Qed.

Lemma performRequestCore_fst rp w :
  fst (performRequestCore B rp w)
  = match fst (attemptLoop B rp (Js.add (maxRetries rp) 1) 0 w) with
    | Ok (Some r) => Ok r
    | Throw e => Throw e
    | Ok None =>
        Throw (Js.newError "No response returned from performRequestCore (all attempts failed without producing a response).")
    end.
Proof.
  unfold performRequestCore.
  destruct (attemptLoop B rp (Js.add (maxRetries rp) 1) 0 w) as [[[r|]|e] w']; reflexivity.
Qed.

Lemma performRequestCore_snd rp w :
  snd (performRequestCore B rp w) = snd (attemptLoop B rp (Js.add (maxRetries rp) 1) 0 w).
Proof.
  unfold performRequestCore.
  destruct (attemptLoop B rp (Js.add (maxRetries rp) 1) 0 w) as [[[r|]|e] w']; reflexivity.
Qed.

End CoreFacts.

(** C1, as it holds.  With [maxRetries = n >= 0], [performRequestCore]
    never leaves its loop by the loop condition: it returns a response or
    throws.  When every attempt fails with an error that is not a
    cancellation, it makes exactly [n + 1] calls of [fetch] and throws the
    error of the last one.  When the first attempt succeeds with an
    HTTP-success status, it makes exactly one call and returns that
    response. *)
Theorem performRequestCore_attempts (B : Browser) (rp : RequestParams) (n : Z) (w : World)
    (Hn : maxRetries rp = Js.Int n) (Hpos : 0 <= n) :
  fst (attemptLoop B rp (Js.Int (n + 1)) 0 w) <> Ok None
  /\ ((forall k, failsWithoutAbort (net B (netCalls w + k)%nat)) ->
      exists e, fst (performRequestCore B rp w) = Throw e
                /\ attemptError (net B (netCalls w + Z.to_nat n)%nat) = Some e
                /\ netCalls (snd (performRequestCore B rp w))
                   = (netCalls w + Z.to_nat (n + 1))%nat)
  /\ (forall r, net B (netCalls w) = Resolved r -> ok r = true ->
      fst (performRequestCore B rp w) = Ok r
      /\ netCalls (snd (performRequestCore B rp w)) = (netCalls w + 1)%nat).
Proof.
  split; [|split].
  - apply attemptLoop_no_exit with (k := Z.to_nat n). lia.
  - intros Hall.
    destruct (attemptLoop_retries B rp (n + 1) (Z.to_nat n) 0 w) as (w1 & Hc1 & Hloop);
      [intros j _; apply Hall | lia |].
    destruct (Hall (Z.to_nat n)) as (e & He & Hab).
    rewrite <- Hc1 in He.
    destruct (attempt_fails B rp w1 e He) as (w2 & Hatt & Hc2).
    assert (Hrun : attemptLoop B rp (Js.Int (n + 1)) 0 w = (Throw e, w2)).
    { rewrite Hloop, attemptLoop_step. simpl.
      replace (0 + Z.of_nat (Z.to_nat n) <? n + 1) with true
        by (symmetry; apply Z.ltb_lt; lia).
      rewrite Hatt. unfold isAbort in Hab. rewrite Hab.
      replace (n + 1 <=? 0 + Z.of_nat (Z.to_nat n) + 1) with true
        by (symmetry; apply Z.leb_le; lia).
      reflexivity. }
    exists e. rewrite performRequestCore_fst, performRequestCore_snd, Hn. simpl.
    rewrite Hrun. simpl. rewrite Hc1 in He. repeat split; [exact He | lia].
  - intros r Hr Hok.
    destruct (attempt_succeeds B rp w r Hr Hok) as (w1 & Hatt & Hc).
    rewrite performRequestCore_fst, performRequestCore_snd, Hn. simpl.
    rewrite attemptLoop_step. simpl.
    replace (0 <? n + 1) with true by (symmetry; apply Z.ltb_lt; lia).
    rewrite Hatt. simpl. split; [reflexivity | lia].
Qed.

(** The engine on a server that cannot be reached, with two retries: three
    calls. *)
Lemma performRequestCore_attempts_witness :
  netCalls (snd (performRequestCore (Example.browser (fun _ => Example.unreachable))
                                    (Example.request Js.NaN (Js.Int 2))
                                    (Example.world [] None))) = 3%nat.
Proof.
  destruct (performRequestCore_attempts
              (Example.browser (fun _ => Example.unreachable))
              (Example.request Js.NaN (Js.Int 2)) 2 (Example.world [] None)
              eq_refl ltac:(lia)) as (_ & Hfail & _).
  destruct Hfail as (e & _ & _ & Hcalls).
  - intros k. eexists. split; reflexivity.
  - exact Hcalls.
Defined.

(** C1, as it is stated, fails: with [maxRetries = 1] and a timeout, every
    attempt that is made fails, by cancellation, and there is one call of
    [fetch], not two. *)
Lemma performRequestCore_attempts_counterexample :
  let B := Example.browser (fun _ => Example.aborted) in
  let rp := Example.request (Js.Int 100) (Js.Int 1) in
  maxRetries rp = Js.Int 1
  /\ (forall k, fails (net B k))
  /\ netCalls (snd (performRequestCore B rp (Example.world [] None))) = 1%nat
  /\ netCalls (snd (performRequestCore B rp (Example.world [] None))) <> Z.to_nat (1 + 1).
Proof.
  repeat split; try (intros k; eexists; reflexivity); vm_compute; congruence.
Qed.

(** C2, as it holds.  A cancellation by the timer during an attempt ends
    the loop at that attempt: no further attempt runs, whatever number of
    retries is left, and the error that [performRequestCore] throws is
    [Request timed out]. *)
Theorem performRequestCore_timeout (B : Browser) (rp : RequestParams) (n : Z) (k : nat)
    (w : World)
    (Hn : maxRetries rp = Js.Int n) (Hk : Z.of_nat k <= n)
    (Hbefore : forall j, (j < k)%nat -> failsWithoutAbort (net B (netCalls w + j)%nat))
    (Habort : timesOut (net B (netCalls w + k)%nat)) :
  fst (performRequestCore B rp w) = Throw (Js.newError "Request timed out")
  /\ netCalls (snd (performRequestCore B rp w)) = (netCalls w + k + 1)%nat.
Proof.
  destruct (attemptLoop_retries B rp (n + 1) k 0 w Hbefore ltac:(lia)) as (w1 & Hc1 & Hloop).
  destruct Habort as (e & He & Hab). rewrite <- Hc1 in He.
  destruct (attempt_fails B rp w1 e He) as (w2 & Hatt & Hc2).
  rewrite performRequestCore_fst, performRequestCore_snd, Hn. simpl.
  rewrite Hloop, attemptLoop_step. simpl.
  replace (0 + Z.of_nat k <? n + 1) with true by (symmetry; apply Z.ltb_lt; lia).
  rewrite Hatt. unfold isAbort in Hab. rewrite Hab. simpl. split; [reflexivity | lia].
Qed.

(** A first failure of the network, then a cancellation, with five retries
    left: two calls. *)
Lemma performRequestCore_timeout_witness :
  netCalls (snd (performRequestCore
                   (Example.browser (fun k => match k with
                                              | O => Example.unreachable
                                              | _ => Example.aborted
                                              end))
                   (Example.request (Js.Int 100) (Js.Int 5))
                   (Example.world [] None))) = 2%nat.
Proof.
  refine (proj2 (performRequestCore_timeout
                   (Example.browser (fun k => match k with
                                              | O => Example.unreachable
                                              | _ => Example.aborted
                                              end))
                   (Example.request (Js.Int 100) (Js.Int 5)) 5 1 (Example.world [] None)
                   eq_refl ltac:(lia) _ _)).
  - intros j Hj. replace j with 0%nat by lia. eexists. split; reflexivity.
  - eexists. split; reflexivity.
Defined.

(** C2, as it is stated, fails: with [maxRetries = 2], the first attempt
    is cancelled by the timer, two more attempts are allowed, and no second
    attempt runs. *)
Lemma performRequestCore_timeout_counterexample :
  let B := Example.browser (fun _ => Example.aborted) in
  let rp := Example.request (Js.Int 50) (Js.Int 2) in
  let w' := snd (performRequestCore B rp (Example.world [] None)) in
  maxRetries rp = Js.Int 2
  /\ timesOut (net B 0)
  /\ 1 < 2 + 1
  /\ fetchesOf (trace w') = ["/a"]
  /\ ~ (2 <= netCalls w')%nat.
Proof.
  repeat split; try (eexists; split; reflexivity); vm_compute; lia.
Qed.

(** ** The configuration resolver *)

Lemma Element_chain_ind (Q : Element -> Prop) :
  (forall i t a, Q (mkElement i t a None)) ->
  (forall i t a p, Q p -> Q (mkElement i t a (Some p))) ->
  forall e, Q e.
Proof.
  intros Hroot Hstep. fix IH 1. intros [i t a [p|]].
  - apply Hstep, IH.
  - apply Hroot.
Qed.

Lemma hasAttr_getAttr attrs name :
  hasAttr attrs name = true <-> getAttr attrs name <> None.
Proof.
  unfold hasAttr. rewrite bool_decide_eq_true.
  destruct (getAttr attrs name); split; intros H; try congruence; eauto.
  destruct H as [x Hx]. discriminate.
Qed.

Lemma walkUp_onChain e name : walkUp e name <> None <-> onChain e name = true.
Proof.
  induction e as [i t a|i t a p IH] using Element_chain_ind; simpl;
    unfold hasAttribute, getAttribute; simpl;
    destruct (hasAttr a name) eqn:Hh; simpl.
  - apply hasAttr_getAttr in Hh. tauto.
  - split; [congruence | discriminate].
  - apply hasAttr_getAttr in Hh. tauto.
  - exact IH.
Qed.

(** The test of [getMethod] on an attribute is the search that section 4.1
    describes. *)
Lemma hasAttributeWithInheritance_foundFor e name :
  hasAttributeWithInheritance e name = foundFor e name.
Proof.
  unfold hasAttributeWithInheritance, getAttributeWithInheritance, foundFor.
  destruct (Attr.includes Attr.INHERITABLE_ATTRIBUTES name); simpl.
  - destruct (onChain e name) eqn:Hc.
    + apply bool_decide_eq_true, walkUp_onChain, Hc.
    + apply bool_decide_eq_false. rewrite walkUp_onChain. congruence.
  - unfold hasAttribute, getAttribute.
    destruct (hasAttr (attributes e) name) eqn:Hh.
    + apply bool_decide_eq_true, hasAttr_getAttr, Hh.
    + apply bool_decide_eq_false. rewrite <- hasAttr_getAttr. congruence.
Qed.

Lemma getMethodFrom_first e pre attr post :
  (forall a, In a pre -> foundFor e a = false) ->
  foundFor e attr = true ->
  getMethodFrom (pre ++ attr :: post) e = Js.toUpperCase (Js.replace "x-" "" attr).
Proof.
  induction pre as [|b pre IH]; intros Hpre Hattr; simpl.
  - rewrite hasAttributeWithInheritance_foundFor, Hattr. reflexivity.
  - rewrite hasAttributeWithInheritance_foundFor, (Hpre b) by (left; reflexivity).
    apply IH; [|exact Hattr]. intros a Ha. apply Hpre. right. exact Ha.
Qed.

Lemma getMethodFrom_none e actions :
  (forall a, In a actions -> foundFor e a = false) ->
  getMethodFrom actions e = "GET".
Proof.
  induction actions as [|b actions IH]; intros Hall; simpl; [reflexivity|].
  rewrite hasAttributeWithInheritance_foundFor, (Hall b) by (left; reflexivity).
  apply IH. intros a Ha. apply Hall. right. exact Ha.
Qed.

(** C8.  The method of an element is the one that the first action
    attribute names, in the order x-get, x-post, x-put, x-delete, x-patch,
    among those found on the element, or on its ancestors when the
    attribute is inheritable; it is GET when none is found.  (No action
    attribute is inheritable, so that the search is on the element.) *)
Theorem getMethod_first_action (element : Element) :
  Attr.ACTIONS = ["x-get"; "x-post"; "x-put"; "x-delete"; "x-patch"]
  /\ (forall pre attr post,
        Attr.ACTIONS = (pre ++ attr :: post)%list ->
        (forall a, In a pre -> foundFor element a = false) ->
        foundFor element attr = true ->
        getMethod element = methodOf attr)
  /\ ((forall a, In a Attr.ACTIONS -> foundFor element a = false) ->
      getMethod element = "GET")
  /\ (forall a, In a Attr.ACTIONS -> foundFor element a = hasAttribute element a).
Proof.
  split; [reflexivity|]. split; [|split].
  - intros pre attr post Hsplit Hpre Hattr.
    unfold getMethod. rewrite Hsplit.
    rewrite (getMethodFrom_first element pre attr post Hpre Hattr).
    assert (Hin : In attr Attr.ACTIONS) by (rewrite Hsplit; apply in_elt).
    simpl in Hin.
    destruct Hin as [<-|[<-|[<-|[<-|[<-|[]]]]]]; reflexivity.
  - apply getMethodFrom_none.
  - intros a Ha. simpl in Ha.
    destruct Ha as [<-|[<-|[<-|[<-|[<-|[]]]]]]; reflexivity.
Qed.

(** An element with [x-post] and [x-delete], below an ancestor with
    [x-get]: the method is POST. *)
Lemma getMethod_first_action_witness :
  getMethod (mkElement 2 "BUTTON" [("x-delete", "/d"); ("x-post", "/p")]
               (Some (mkElement 1 "BODY" [("x-get", "/g")] None))) = "POST".
Proof.
  refine (proj1 (proj2 (getMethod_first_action
                          (mkElement 2 "BUTTON" [("x-delete", "/d"); ("x-post", "/p")]
                             (Some (mkElement 1 "BODY" [("x-get", "/g")] None)))))
                ["x-get"] "x-post" ["x-put"; "x-delete"; "x-patch"] eq_refl _ eq_refl).
  intros a [<-|[]]. reflexivity.
Defined.

(** *** The number of retries *)

Lemma digits_some s : forall z, Js.digits s (Some z) <> None.
Proof.
  induction s as [|c s IH]; intros z; simpl; [discriminate|].
  destruct (Js.digitValue c); [apply IH | discriminate].
Qed.

(** [parseInt] gives [NaN] exactly on the texts that are not numeric. *)
Lemma parseInt_nonNumeric v : Js.parseInt (Some v) = Js.NaN <-> nonNumeric v.
Proof.
  unfold Js.parseInt, nonNumeric. simpl.
  assert (Hd : forall s, Js.digits s None = None <-> beginsWithDigit s = false).
  { intros [|c s]; simpl; [tauto|].
    destruct (Js.digitValue c) as [d|] eqn:Hc.
    - split; intros H.
      + exfalso. exact (digits_some s _ H).
      + apply bool_decide_eq_false in H. exfalso. apply H. eauto.
    - split; intros _; [|reflexivity].
      apply bool_decide_eq_false. intros [x Hx]. discriminate. }
  assert (Hs : forall sign s, match Js.digits s None with
                              | Some m => Js.Int (sign * m)
                              | None => Js.NaN
                              end = Js.NaN <-> Js.digits s None = None).
  { intros sign s. destruct (Js.digits s None); split; congruence. }
  destruct (Js.trimStart v) as [|c s]; simpl.
  - tauto.
  - destruct (Ascii.ascii_dec c "-") as [->|Hm]; [rewrite Hs; apply Hd|].
    destruct (Ascii.ascii_dec c "+") as [->|Hp]; [rewrite Hs; apply Hd|].
    assert (Hsame : forall (A : Type) (x y z : A),
               match c with
               | "-"%char => x
               | "+"%char => y
               | _ => z
               end = z).
    { intros A x y z.
      destruct c as [[] [] [] [] [] [] [] []]; try reflexivity; congruence. }
    rewrite (Hsame _ (-1, s) (1, s) (1, String c s)).
    rewrite (Hsame _ s s (String c s)).
    rewrite Hs. apply Hd.
Qed.



(** ** The headers of a request *)

Lemma assign_lookup (o : Params) : forall (h : gmap string string) (name : string),
  assign h o !! name = match lastBinding o name with
                       | Some v => Some v
                       | None => h !! name
                       end.
Proof.
  unfold assign, lastBinding.
  induction o as [|[k v] o IH] using rev_ind; intros h name; [reflexivity|].
  rewrite fold_left_app, rev_app_distr. simpl.
  destruct (String.eqb_spec k name) as [->|Hne].
  - apply lookup_insert_eq.
  - rewrite lookup_insert_ne by exact Hne. apply IH.
Qed.

Lemma getHeaders_assign (P : Partial) (element : Element) :
  getHeaders P element = assign (withCsrf P ∅) (omap attributeHeader (attributes element)).
Proof.
  unfold getHeaders, assign. generalize (withCsrf P ∅).
  induction (attributes element) as [|[name value] l IH]; intros h; [reflexivity|].
  cbn [fold_left].
  change (omap attributeHeader ((name, value) :: l))
    with (match attributeHeader (name, value) with
          | Some y => y :: omap attributeHeader l
          | None => omap attributeHeader l
          end).
  unfold attributeHeader at 1.
  destruct (Js.startsWith "x-" name && negb (Attr.includes excludedAttributes name));
    cbn [fold_left]; apply IH.
Qed.

Lemma withCsrf_lookup (P : Partial) (h : gmap string string) (name : string) :
  withCsrf P h !! name
  = if String.eqb name "X-CSRF-Token"
    then match csrfValue P with
         | Some token => Some token
         | None => h !! name
         end
    else h !! name.
Proof.
  unfold withCsrf. destruct (String.eqb_spec name "X-CSRF-Token") as [->|Hne].
  - destruct (csrfValue P); [apply lookup_insert_eq | reflexivity].
  - destruct (csrfValue P); [|reflexivity].
    apply lookup_insert_ne. congruence.
Qed.

(** C6, as it holds.  [getHeaders] injects the token first and lays the
    headers of the attributes of the element over it.  When the final
    headers are assembled, [prepareRequestHeaders] takes the headers of the
    descriptor first, writes the token over X-CSRF-Token after them, and
    lays the entries of x-headers on top: on a name that x-headers does not
    set, the value of the descriptor is kept, except on X-CSRF-Token, where
    the configured token wins over the value of the descriptor. *)
Theorem prepareRequestHeaders_layers (B : Browser) (P : Partial) (element : option Element)
    (defaultHeaders headers : gmap string string)
    (Hok : prepareRequestHeaders B P element defaultHeaders = Ok headers) :
  (forall el name,
      getHeaders P el !! name
      = match lastBinding (omap attributeHeader (attributes el)) name with
        | Some v => Some v
        | None => if String.eqb name "X-CSRF-Token" then csrfValue P else None
        end)
  /\ (forall name v, lastBinding (xHeaders B element) name = Some v ->
                     headers !! name = Some v)
  /\ (forall name, lastBinding (xHeaders B element) name = None ->
                   name <> "X-CSRF-Token" ->
                   headers !! name = defaultHeaders !! name)
  /\ (forall token, lastBinding (xHeaders B element) "X-CSRF-Token" = None ->
                    csrfValue P = Some token ->
                    headers !! "X-CSRF-Token" = Some token)
  /\ (lastBinding (xHeaders B element) "X-CSRF-Token" = None ->
      csrfValue P = None ->
      headers !! "X-CSRF-Token" = defaultHeaders !! "X-CSRF-Token").
Proof.
  assert (Hh : headers = assign (withCsrf P defaultHeaders) (xHeaders B element)).
  { revert Hok. unfold prepareRequestHeaders, xHeaders.
    destruct element as [el|]; [|intros [= <-]; reflexivity].
    destruct (Js.truthy (getAttribute el "x-headers")); [|intros [= <-]; reflexivity].
    destruct (jsonParse B _); [intros [= <-]; reflexivity | discriminate]. }
  subst headers. split; [|repeat split].
  - intros el name. rewrite getHeaders_assign, assign_lookup, withCsrf_lookup.
    destruct (lastBinding _ name); [reflexivity|].
    destruct (String.eqb name "X-CSRF-Token"); [|apply lookup_empty].
    destruct (csrfValue P); [reflexivity | apply lookup_empty].
  - intros name v Hb. rewrite assign_lookup, Hb. reflexivity.
  - intros name Hb Hne. rewrite assign_lookup, Hb, withCsrf_lookup.
    destruct (String.eqb_spec name "X-CSRF-Token"); [contradiction | reflexivity].
  - intros token Hb Ht. rewrite assign_lookup, Hb, withCsrf_lookup, Ht. reflexivity.
  - intros Hb Ht. rewrite assign_lookup, Hb, withCsrf_lookup, Ht. reflexivity.
Qed.

(** A descriptor with an [Accept] header and a token of its own, on an
    engine configured with the token [secret]: [Accept] is kept. *)
Lemma prepareRequestHeaders_layers_witness :
  (<["X-CSRF-Token" := "secret"]> Example.descriptor : gmap string string) !! "Accept"
  = Example.descriptor !! "Accept".
Proof.
  refine (proj1 (proj2 (proj2 (prepareRequestHeaders_layers
            (Example.browser (fun _ => Example.unreachable)) Example.secured None
            Example.descriptor (<["X-CSRF-Token" := "secret"]> Example.descriptor)
            eq_refl))) "Accept" eq_refl _).
  discriminate.
Defined.

(** C6, as it is stated, fails: the descriptor gives X-CSRF-Token the
    value [mine], the engine is configured with the token [secret], and the
    request leaves with [secret]. *)
Lemma prepareRequestHeaders_layers_counterexample :
  let B := Example.browser (fun _ => Example.respond [] "") in
  let rp := mkRequestParams "GET" (Some "/a") Example.descriptor "#x" (Some "x") []
                            None BodyNone Js.NaN (Js.Int 1) in
  headers rp !! "X-CSRF-Token" = Some "mine"
  /\ (exists final, prepareRequestHeaders B Example.secured None (headers rp) = Ok final
                    /\ final !! "X-CSRF-Token" = Some "secret"
                    /\ final !! "X-CSRF-Token" <> headers rp !! "X-CSRF-Token")
  /\ map (fun h : gmap string string => h !! "X-CSRF-Token")
         (fetchHeadersOf (trace (snd (performRequest B Example.secured rp
                                        (Example.world [] None)))))
     = [Some "secret"].
Proof.
  split; [reflexivity|]. split.
  - eexists. split; [reflexivity|]. split; [reflexivity|]. vm_compute. congruence.
  - vm_compute. reflexivity.
Qed.

(** ** The handlers of a failure *)

(** Runs the primitive steps of the monad in the goal. *)
Ltac run_steps :=
  cbv beta iota zeta delta
    [bind ret throw emit emitAll getWorld setDocument setNextId setLastResponse
     liftResult tryCatch call parseFragment rewriteTarget setInnerHTML assignInnerHTML];
  cbn [document lastResponse nextId netCalls trace fst snd
       method url headers targetSelector partialId paramsObject element body timeout
       maxRetries].

Lemma newEvents_app (w w' : World) (evs : list Event) :
  trace w' = (trace w ++ evs)%list -> newEvents w w' = evs.
Proof. intros H. unfold newEvents. rewrite H. apply drop_app_length. Qed.

(** [handleError] appends its events to the trace, and the first is the
    call of the callback of the engine, or the log. *)
Lemma handleError_events (B : Browser) (P : Partial) error element target w :
  exists evs,
    trace (snd (handleError B P error element target w))
    = (trace w ++ match onError P with
                  | Some _ => EvOnError error element
                  | None => EvConsoleError ("Error: " +:+ Js.err_message error)
                  end :: evs)%list.
Proof.
  unfold handleError. destruct (onError P) as [cb|].
  - exists []. destruct cb; reflexivity.
  - destruct target as [[i|]|]; try (exists []; reflexivity).
    run_steps. destruct (Dom.instantiateAll _ _) as [nodes k]. run_steps.
    eexists. rewrite <- app_assoc. reflexivity.
Qed.

Lemma handleError_handler (B : Browser) (P : Partial) error element target w :
  handlerUsed (newEvents w (snd (handleError B P error element target w)))
  = Some (engineHandler P).
Proof.
  destruct (handleError_events B P error element target w) as [evs Hevs].
  rewrite (newEvents_app _ _ _ Hevs). unfold engineHandler.
  destruct (onError P); reflexivity.
Qed.


(** ** The swap primitive and activation *)

Lemma Markup_tree_ind (Q : Markup -> Prop) :
  (forall d, Q (MText d)) ->
  (forall t a cs, Forall Q cs -> Q (MElem t a cs)) ->
  forall m, Q m.
Proof.
  intros Htext Helem. fix IH 1. intros [t a cs|d]; [|apply Htext].
  apply Helem. induction cs as [|c cs IHcs]; constructor; [apply IH | exact IHcs].
Qed.

Lemma Node_tree_ind (Q : Node -> Prop) :
  (forall d, Q (Text d)) ->
  (forall i t a m cs, Forall Q cs -> Q (Elem i t a m cs)) ->
  forall n, Q n.
Proof.
  intros Htext Helem. fix IH 1. intros [i t a m cs|d]; [|apply Htext].
  apply Helem. induction cs as [|c cs IHcs]; constructor; [apply IH | exact IHcs].
Qed.

(** The inner loop of [Dom.instantiate] is [Dom.instantiateAll]. *)
Lemma instantiate_elem t a cs k :
  Dom.instantiate (MElem t a cs) k
  = let '(cs', k') := Dom.instantiateAll cs (S k) in (Elem k t a noMarks cs', k').
Proof.
  simpl. replace (Dom.instantiateAll cs (S k)) with
    ((fix instantiateAll (l : list Markup) (k0 : nat) {struct l} : list Node * nat :=
        match l with
        | [] => ([], k0)
        | c :: r =>
            let '(c', k1) := Dom.instantiate c k0 in
            let '(r', k2) := instantiateAll r k1 in (c' :: r', k2)
        end) cs (S k)); [reflexivity|].
  generalize (S k). induction cs as [|c cs IH]; intros k0; simpl; [reflexivity|].
  destruct (Dom.instantiate c k0) as [c' k1]. rewrite IH. reflexivity.
Qed.

(** New nodes carry the markup they are made of, and neither a mark nor a
    listener. *)
Lemma instantiate_fresh m : forall k,
  Dom.erase (fst (Dom.instantiate m k)) = m /\ inactive (fst (Dom.instantiate m k)) = true.
Proof.
  induction m as [d|t a cs IH] using Markup_tree_ind; intros k; [split; reflexivity|].
  rewrite instantiate_elem.
  assert (Hall : forall k0,
             map Dom.erase (fst (Dom.instantiateAll cs k0)) = cs
             /\ forallb inactive (fst (Dom.instantiateAll cs k0)) = true).
  { induction IH as [|c cs Hc _ IHcs]; intros k0; simpl; [split; reflexivity|].
    destruct (Hc k0) as [He Hi]. destruct (Dom.instantiate c k0) as [c' k1].
    destruct (IHcs k1) as [Hes His]. destruct (Dom.instantiateAll cs k1) as [r' k2].
    simpl in *. rewrite He, Hes, Hi, His. split; reflexivity. }
  destruct (Hall (S k)) as [He Hi]. destruct (Dom.instantiateAll cs (S k)) as [cs' k'].
  simpl in *. rewrite He, Hi. split; reflexivity.
Qed.

Lemma instantiateAll_fresh ms : forall k,
  map Dom.erase (fst (Dom.instantiateAll ms k)) = ms
  /\ forallb inactive (fst (Dom.instantiateAll ms k)) = true.
Proof.
  induction ms as [|c cs IH]; intros k; simpl; [split; reflexivity|].
  destruct (instantiate_fresh c k) as [He Hi]. destruct (Dom.instantiate c k) as [c' k1].
  destruct (IH k1) as [Hes His]. destruct (Dom.instantiateAll cs k1) as [r' k2].
  simpl in *. rewrite He, Hes, Hi, His. split; reflexivity.
Qed.

(** Setting up an element that is set up already does nothing: a listener
    is attached at most once. *)
Lemma setupElement_once (P : Partial) self m k :
  initialized m = true -> setupElement P self m k = (m, [], k, []).
Proof. intros H. unfold setupElement. rewrite H. reflexivity. Qed.

(** Setting up a new action element that is not a scroll container
    attaches one listener. *)
Lemma setupElement_fresh (P : Partial) self k :
  hasAttribute self Attr.INFINITE_SCROLL = false ->
  let '(m, _, _, _) := setupElement P self noMarks k in
  initialized m = true /\ length (listeners m) = 1%nat.
Proof.
  intros H. unfold setupElement. simpl. rewrite H.
  destruct (String.eqb (tagName self) "FORM");
    destruct (getAttributeWithInheritance self Attr.DEBOUNCE) as [v|]; simpl;
    try (split; reflexivity);
    destruct (Js.parseInt (Some v)) as [|z]; simpl; try (split; reflexivity);
    destruct (0 <=? z); split; reflexivity.
Qed.

(** With one of the four positions, what [performSwap] puts into the
    document are the nodes of a second parse of the content: new nodes,
    none of which is set up or carries a listener; the fragment that was
    scanned is dropped. *)
Lemma performSwap_adjacent_inactive (B : Browser) (P : Partial) (i : nat)
    (content position : string) (w : World) :
  In position ["beforebegin"; "afterbegin"; "beforeend"; "afterend"] ->
  exists nodes,
    map Dom.erase nodes = parseHTML B content
    /\ forallb inactive nodes = true
    /\ (fst (performSwap B P (TNode i) content position w) = Ok tt ->
        document (snd (performSwap B P (TNode i) content position w))
        = Dom.rewriteForest i (placed position nodes) (document w)).
Proof.
  intros Hpos. unfold performSwap, scanFragment. run_steps.
  destruct (Dom.instantiateAll (parseHTML B (Js.trim content)) (nextId w)) as [fragment k1].
  run_steps. destruct (scanAll P None fragment k1) as [[fragment' k2] evs]. run_steps.
  destruct (instantiateAll_fresh (parseHTML B content) k2) as [He Hi].
  exists (fst (Dom.instantiateAll (parseHTML B content) k2)).
  split; [exact He|]. split; [exact Hi|].
  assert (Hsel : String.eqb position "outerHTML" = false
                 /\ String.eqb position "innerHTML" = false
                 /\ Attr.includes ["beforebegin"; "afterbegin"; "beforeend"; "afterend"]
                      position = true).
  { simpl in Hpos. destruct Hpos as [<-|[<-|[<-|[<-|[]]]]]; repeat split. }
  destruct Hsel as (-> & -> & ->).
  unfold insertAdjacentHTML. run_steps.
  destruct ((String.eqb position "beforebegin" || String.eqb position "afterend")
            && isTopLevel i (document w)); [discriminate|].
  run_steps. destruct (Dom.instantiateAll (parseHTML B content) k2) as [nodes k3].
  run_steps. intros _. reflexivity.
Qed.

(** C5, at an input where it fails.  The same content, a button with an
    action attribute, is swapped at [div#side] of the page.  With
    [innerHTML], the content is parsed once and the button is in the
    document with its one listener, which a later scan leaves alone.  With
    [afterend], the content is parsed twice and the button that is in the
    document is a new node without a listener, not set up; it stays so at
    the end of a triggered action whose element declares
    [x-swap="afterend"], since the scan that follows the swap is below the
    target. *)
Theorem performSwap_afterend_inserts_inactive :
  let B := Example.browser (fun _ => Example.respond [] (Example.print Example.button)) in
  let content := Example.print Example.button in
  let w := Example.world [] None in
  let inner := snd (performSwap B Example.engine (TNode 3) content "innerHTML" w) in
  let inner' := snd (scanForElements Example.engine (CElement 3) inner) in
  let adjacent := snd (performSwap B Example.engine (TNode 3) content "afterend" w) in
  let attrs := [("x-get", "/a"); ("x-swap", "afterend")] in
  let settled := snd (handleAction B Example.engine (Example.trigger attrs)
                                   (Example.world attrs None)) in
  (parsesOf (trace inner) = [content]
   /\ Dom.findInForest 10 (document inner)
      = Some (Elem 10 "BUTTON" [("x-get", "/more")] Example.active [Text "More"])
   /\ listenersOf 10 (document inner') = [mkListener "click" 0])
  /\ (parsesOf (trace adjacent) = [content; content]
      /\ Example.byTagAll "BUTTON" (document adjacent) = Some 11%nat
      /\ Dom.findInForest 11 (document adjacent)
         = Some (Elem 11 "BUTTON" [("x-get", "/more")] noMarks [Text "More"])
      /\ listenersOf 11 (document adjacent) = [])
  /\ (swapsOf (trace settled) = [(TNode 2, content, "afterend")]
      /\ Example.byTagAll "BUTTON" (document settled) = Some 15%nat
      /\ Dom.findInForest 15 (document settled)
         = Some (Elem 15 "BUTTON" [("x-get", "/more")] noMarks [Text "More"])
      /\ listenersOf 15 (document settled) = []).
Proof.
  vm_compute. repeat split.
Qed.

(** ** The response reconciler *)

(** *** Computations only add events *)

Lemma extends_refl w : extends w w.
Proof. exists []. symmetry. apply app_nil_r. Qed.

Lemma extends_trans w1 w2 w3 : extends w1 w2 -> extends w2 w3 -> extends w1 w3.
Proof.
  intros [e1 H1] [e2 H2]. exists (e1 ++ e2)%list. rewrite H2, H1. symmetry. apply app_assoc.
Qed.

Lemma grows_ret {A} (a : A) : grows (ret a).
Proof. intros w. apply extends_refl. Qed.

Lemma grows_throw {A} e : grows (@throw A e).
Proof. intros w. apply extends_refl. Qed.

Lemma grows_liftResult {A} (r : Result A) : grows (liftResult r).
Proof. intros w. apply extends_refl. Qed.

Lemma grows_getWorld : grows getWorld.
Proof. intros w. apply extends_refl. Qed.

Lemma grows_emit e : grows (emit e).
Proof. intros w. exists [e]. reflexivity. Qed.

Lemma grows_emitAll evs : grows (emitAll evs).
Proof. intros w. exists evs. reflexivity. Qed.

Lemma grows_setDocument d : grows (setDocument d).
Proof. intros w. exists []. symmetry. apply app_nil_r. Qed.

Lemma grows_setNextId k : grows (setNextId k).
Proof. intros w. exists []. symmetry. apply app_nil_r. Qed.

Lemma grows_setLastResponse r : grows (setLastResponse r).
Proof. intros w. exists []. symmetry. apply app_nil_r. Qed.

Lemma grows_bind {A C} (m : M A) (k : A -> M C) :
  grows m -> (forall a, grows (k a)) -> grows (bind m k).
Proof.
  intros Hm Hk w. unfold bind. specialize (Hm w).
  destruct (m w) as [[a|e] w1]; simpl in *; [|exact Hm].
  eapply extends_trans; [exact Hm | apply Hk].
Qed.

Lemma grows_tryCatch {A} (m : M A) (h : Js.Error -> M A) :
  grows m -> (forall e, grows (h e)) -> grows (tryCatch m h).
Proof.
  intros Hm Hh w. unfold tryCatch. specialize (Hm w).
  destruct (m w) as [[a|e] w1]; simpl in *; [exact Hm|].
  eapply extends_trans; [exact Hm | apply Hh].
Qed.

Lemma grows_query B selector : grows (query B selector).
Proof. intros w. apply extends_refl. Qed.

(** Takes a goal [grows m] apart along the structure of [m]. *)
Ltac grows_tac :=
  repeat first
    [ apply grows_ret | apply grows_throw | apply grows_emit | apply grows_emitAll
    | apply grows_getWorld | apply grows_setDocument | apply grows_setNextId
    | apply grows_setLastResponse | apply grows_liftResult | apply grows_query
    | assumption
    | apply grows_bind; [|intros ?]
    | apply grows_tryCatch; [|intros ?]
    | match goal with
      | |- grows (match ?x with _ => _ end) => destruct x
      end ].

Section Growth.

Context (B : Browser) (P : Partial).

Lemma grows_parseFragment content : grows (parseFragment B content).
Proof. unfold parseFragment. grows_tac. Qed.

Lemma grows_scanFragment fragment : grows (scanFragment P fragment).
Proof. unfold scanFragment. grows_tac. Qed.

Lemma grows_scanForElements container : grows (scanForElements P container).
Proof. unfold scanForElements. grows_tac. Qed.

Lemma grows_rewriteTarget i f : grows (rewriteTarget i f).
Proof. unfold rewriteTarget. grows_tac. Qed.

Lemma grows_liveAttribute i name : grows (liveAttribute i name).
Proof. intros w. apply extends_refl. Qed.

Lemma grows_currentElement e : grows (currentElement e).
Proof. intros w. apply extends_refl. Qed.

Lemma grows_focusElement i : grows (focusElement i).
Proof.
  unfold focusElement, setAttribute.
  apply grows_bind; [apply grows_liveAttribute|]. intros tabindex.
  apply grows_bind; [|intros _; apply grows_emit].
  destruct tabindex; [apply grows_ret | apply grows_rewriteTarget].
Qed.

Lemma grows_validateToken token : grows (validateToken token).
Proof. unfold validateToken. grows_tac. Qed.

Lemma grows_classListAdd target token : grows (classListAdd target token).
Proof.
  unfold classListAdd. apply grows_bind; [apply grows_validateToken|].
  intros _. apply grows_emit.
Qed.

Lemma grows_classListRemove target token : grows (classListRemove target token).
Proof.
  unfold classListRemove. apply grows_bind; [apply grows_validateToken|].
  intros _. apply grows_emit.
Qed.

Lemma grows_setInnerHTML i content : grows (setInnerHTML B i content).
Proof.
  unfold setInnerHTML. apply grows_bind; [apply grows_parseFragment|].
  intros nodes. apply grows_rewriteTarget.
Qed.

Lemma grows_insertAdjacentHTML i position content :
  grows (insertAdjacentHTML B i position content).
Proof.
  unfold insertAdjacentHTML. apply grows_bind; [apply grows_getWorld|]. intros w.
  destruct (_ && _); [apply grows_throw|].
  apply grows_bind; [apply grows_parseFragment|]. intros nodes. apply grows_rewriteTarget.
Qed.

(** [performSwap] leaves the event of its swap first. *)
Lemma performSwap_trace target content option w :
  exists evs,
    trace (snd (performSwap B P target content option w))
    = (trace w ++ EvSwap target content option :: evs)%list.
Proof.
  unfold performSwap.
  match goal with
  | |- context [bind (emit ?e) ?k] =>
      assert (Hk : grows (k tt))
  end.
  { apply grows_bind; [apply grows_parseFragment|]. intros fragment.
    apply grows_bind; [apply grows_scanFragment|]. intros fragment'.
    destruct (String.eqb option "outerHTML");
      [destruct target; [apply grows_rewriteTarget | apply grows_throw]|].
    destruct (String.eqb option "innerHTML");
      [destruct target; [apply grows_rewriteTarget | apply grows_throw]|].
    destruct (Attr.includes _ option);
      [destruct target; [apply grows_insertAdjacentHTML | apply grows_throw]|].
    apply grows_bind; [apply grows_emit|]. intros _.
    destruct target; [apply grows_setInnerHTML | apply grows_ret]. }
  unfold bind at 1. unfold emit at 1.
  match goal with
  | |- context [snd (?m ?w1)] => destruct (Hk w1) as [evs Hevs]
  end.
  exists evs. rewrite Hevs. simpl. rewrite <- app_assoc. reflexivity.
Qed.

Lemma grows_performSwap target content option : grows (performSwap B P target content option).
Proof.
  intros w. destruct (performSwap_trace target content option w) as [evs H].
  eexists. exact H.
Qed.

Lemma grows_handleError error element target : grows (handleError B P error element target).
Proof.
  intros w. destruct (handleError_events B P error element target w) as [evs H].
  eexists. exact H.
Qed.

Lemma grows_runCallbacks hookName callbacks : forall index element target,
  grows (runCallbacks B P hookName callbacks index element target).
Proof.
  induction callbacks as [|cb rest IH]; intros index element target; simpl.
  - apply grows_ret.
  - apply grows_bind; [|intros _; apply IH].
    apply grows_tryCatch; [|intros e; apply grows_handleError].
    apply grows_bind; [apply grows_emit|]. intros _. destruct cb; grows_tac.
Qed.

Lemma grows_runHooks hookName element target : grows (runHooks B P hookName element target).
Proof. apply grows_runCallbacks. Qed.

Lemma grows_oobSwap oobElement : grows (oobSwap B P oobElement).
Proof.
  unfold oobSwap. destruct (negb _); [apply grows_emit|].
  apply grows_bind; [apply grows_getWorld|]. intros w.
  destruct (Dom.getElementById _ (document w)); [|apply grows_emit].
  apply grows_bind; [apply grows_performSwap|]. intros _.
  apply grows_bind; [apply grows_getWorld|]. intros w'.
  destruct (Dom.getElementById _ (document w')); [apply grows_scanForElements | apply grows_ret].
Qed.

Lemma grows_handleOobSwapping oobElements : grows (handleOobSwapping B P oobElements).
Proof.
  induction oobElements as [|e rest IH]; simpl; [apply grows_ret|].
  apply grows_bind; [apply grows_oobSwap | intros _; exact IH].
Qed.

Lemma grows_handleResponseEvents : grows handleResponseEvents.
Proof. unfold handleResponseEvents. grows_tac. Qed.

Lemma grows_stopInfiniteScroll i : grows (stopInfiniteScroll i).
Proof. unfold stopInfiniteScroll. grows_tac. Qed.

End Growth.

Section Reconciler.

Context (B : Browser) (P : Partial).

Lemma grows_settle before final oobElements action targetElement element :
  grows (settle B P before final oobElements action targetElement element).
Proof.
  unfold settle.
  apply grows_bind; [apply grows_emit|]. intros _.
  apply grows_bind; [apply grows_getWorld|]. intros w.
  apply grows_bind; [apply grows_scanForElements|]. intros _.
  apply grows_bind; [apply grows_handleOobSwapping|]. intros _.
  apply grows_bind; [apply grows_handleResponseEvents|]. intros _.
  apply grows_bind; [|intros _; apply grows_runHooks].
  destruct (_ && _); [apply grows_stopInfiniteScroll | apply grows_ret].
Qed.

(** The swap option that [processResponse] determines. *)
Lemma determineSwapOption_resolved response element :
  determineSwapOption P (headersGet (resHeaders response) "X-Swap") element
  = resolvedSwapOption P response element.
Proof.
  unfold determineSwapOption, resolvedSwapOption, nonEmpty, Js.truthy, Js.orElse, Js.toString.
  destruct (headersGet (resHeaders response) "X-Swap") as [v|];
    [destruct (String.eqb v ""); simpl|];
    destruct (getAttributeWithInheritance element Attr.SWAP) as [a|];
    try destruct (String.eqb a ""); reflexivity.
Qed.

(** The first swap of a run that leaves the event of [before], then swaps,
    then settles. *)
Lemma first_swap w w2 w' target content option evs :
  trace w2 = (trace w ++ evs)%list ->
  swapsOf evs = [] ->
  extends (snd (performSwap B P target content option w2)) w' ->
  head (swapsOf (newEvents w w')) = Some (target, content, option).
Proof.
  intros H2 Hevs [evs' H'].
  destruct (performSwap_trace B P target content option w2) as [evs1 H1].
  rewrite H1, H2 in H'.
  erewrite newEvents_app; [|rewrite H'; rewrite <- !app_assoc; reflexivity].
  unfold swapsOf in *. rewrite omap_app, Hevs. reflexivity.
Qed.

End Reconciler.

(** C3, as it holds.  In [processResponse], the swap option applied is the
    value of the response header X-Swap when that header is there and is
    not empty; otherwise the x-swap attribute of the element, declared or
    inherited, when it is not empty; otherwise the default of the engine.
    When the header X-Target resolves to an element, the swap is applied
    to that element, and to the target of the caller when the header is
    absent or empty. *)
Theorem processResponse_swap (B : Browser) (P : Partial) (responseText : string)
    (targetElement : nat) (element : Element) (w : World) (response : Response)
    (content : list Markup)
    (Hlast : lastResponse w = Some response)
    (Hbody : primaryContent B responseText (nextId w) = Some content) :
  let w' := snd (processResponse B P responseText targetElement element w) in
  let backendTarget := headersGet (resHeaders response) "X-Target" in
  (forall t, resolves B (document w) backendTarget t ->
             head (swapsOf (newEvents w w'))
             = Some (TNode t, serialize B content, resolvedSwapOption P response element))
  /\ (nonEmpty backendTarget = None ->
      head (swapsOf (newEvents w w'))
      = Some (TNode targetElement, serialize B content,
              resolvedSwapOption P response element)).
Proof.
  intros w' backendTarget. subst w'.
  unfold primaryContent, parsedResponse in Hbody.
  unfold processResponse, parseFromString. run_steps.
  destruct (Dom.instantiateAll (parseDocument B responseText) (nextId w)) as [nodes k].
  run_steps. simpl in Hbody.
  destruct (Parsed.extractOob nodes) as [doc oobElements]. run_steps.
  rewrite Hlast. rewrite determineSwapOption_resolved.
  simpl in Hbody. destruct (Parsed.body doc) as [b|]; [|discriminate].
  injection Hbody as <-.
  fold backendTarget. unfold determineTarget.
  split.
  - intros t (s & Hs & Hq).
    assert (Htruthy : Js.truthy backendTarget = true /\ Js.toString backendTarget = s).
    { unfold nonEmpty in Hs. destruct backendTarget as [v|]; [|discriminate]. simpl.
      destruct (String.eqb v ""); [discriminate|]. injection Hs as ->. split; reflexivity. }
    destruct Htruthy as [-> ->]. unfold query. run_steps.
    assert (Hfound : exists r,
               querySelector B (document w) s = Ok r
               /\ match r with
                  | Some el => Some el
                  | None => Dom.getElementById s (document w)
                  end = Some t).
    { destruct Hq as [Hq|[Hq Hid]]; [exists (Some t) | exists None]; split;
        try assumption; reflexivity. }
    destruct Hfound as (r & -> & ->). run_steps.
    match goal with
    | |- context [performSwap B P ?tg ?c ?o ?w2] =>
        apply (first_swap B P w w2 _ tg c o [EvDispatch "beforeUpdate"]);
          [reflexivity | reflexivity |]
    end.
    match goal with
    | |- context [performSwap B P ?tg ?c ?o ?w2] =>
        destruct (performSwap B P tg c o w2) as [[[]|e] w3]; simpl;
          [apply grows_settle | apply extends_refl]
    end.
  - intros Hnone.
    assert (Hfalsy : Js.truthy backendTarget = false).
    { unfold nonEmpty in Hnone. destruct backendTarget as [v|]; [|reflexivity]. simpl.
      destruct (String.eqb v ""); [reflexivity | discriminate]. }
    rewrite Hfalsy. run_steps.
    match goal with
    | |- context [performSwap B P ?tg ?c ?o ?w2] =>
        apply (first_swap B P w w2 _ tg c o [EvDispatch "beforeUpdate"]);
          [reflexivity | reflexivity |]
    end.
    match goal with
    | |- context [performSwap B P ?tg ?c ?o ?w2] =>
        destruct (performSwap B P tg c o w2) as [[[]|e] w3]; simpl;
          [apply grows_settle | apply extends_refl]
    end.
Qed.

(** The scenario of section 8: the element declares the target [#x], the
    response carries X-Target [#side] and X-Swap [outerHTML], and the swap
    replaces [div#side]. *)
Lemma processResponse_swap_witness :
  let attrs := [("x-get", "/a"); ("x-target", "#x")] in
  head (swapsOf (trace (snd (processResponse
                               (Example.browser (fun _ => Resolved override))
                               Example.engine (Example.print Example.paragraph) 2
                               (Example.trigger attrs)
                               (Example.world attrs (Some override))))))
  = Some (TNode 3, Example.print Example.paragraph, "outerHTML").
Proof.
  refine (proj1 (processResponse_swap
                   (Example.browser (fun _ => Resolved override)) Example.engine
                   (Example.print Example.paragraph) 2
                   (Example.trigger [("x-get", "/a"); ("x-target", "#x")])
                   (Example.world [("x-get", "/a"); ("x-target", "#x")] (Some override))
                   override Example.paragraph eq_refl eq_refl) 3%nat _).
  exists "#side". split; [reflexivity|]. left. reflexivity.
Defined.

(** C3, as it is stated, fails: the response carries the header X-Swap
    with an empty value and the element declares [x-swap="outerHTML"]; the
    header is present, and the swap is applied with [outerHTML], not with
    the value of the header. *)
Lemma processResponse_swap_counterexample :
  let attrs := [("x-get", "/a"); ("x-swap", "outerHTML")] in
  let element := Example.trigger attrs in
  let w := Example.world attrs (Some emptySwap) in
  let w' := snd (processResponse (Example.browser (fun _ => Resolved emptySwap))
                                 Example.engine (Example.print Example.paragraph) 2
                                 element w) in
  headersGet (resHeaders emptySwap) "X-Swap" = Some ""
  /\ claimedSwapOption Example.engine emptySwap element = ""
  /\ swapsOf (trace w') = [(TNode 2, Example.print Example.paragraph, "outerHTML")].
Proof.
  vm_compute. repeat split.
Qed.

(** ** Out-of-band fragments *)

(** *** Their removal from the response document *)

Lemma pruneNode_elem i j t a m cs :
  Parsed.pruneNode i (Elem j t a m cs) = Elem j t a m (Parsed.pruneForest i cs).
Proof.
  simpl. f_equal. induction cs as [|c cs IH]; [reflexivity|].
  simpl. rewrite IH. reflexivity.
Qed.

Lemma selectNode_elem name j t a m cs :
  Parsed.selectNode name (Elem j t a m cs)
  = ((if hasAttr a name then [j] else []) ++
     (if Dom.isTemplate t then [] else Parsed.selectAll name cs))%list.
Proof.
  simpl. f_equal. destruct (Dom.isTemplate t); [reflexivity|].
  induction cs as [|c cs IH]; [reflexivity|].
  simpl. rewrite IH. reflexivity.
Qed.

Lemma findNode_elem i j t a m cs :
  Dom.findNode i (Elem j t a m cs)
  = if Nat.eqb i j then Some (Elem j t a m cs) else Dom.findInForest i cs.
Proof.
  simpl. destruct (Nat.eqb i j); [reflexivity|].
  induction cs as [|c cs IH]; [reflexivity|].
  simpl. rewrite IH. reflexivity.
Qed.

(** Pruning adds no selected element, and leaves none of the pruned
    identity. *)
Lemma prune_select name i n :
  incl (Parsed.selectNode name (Parsed.pruneNode i n)) (Parsed.selectNode name n)
  /\ (Dom.isNode i n = false -> ~ In i (Parsed.selectNode name (Parsed.pruneNode i n))).
Proof.
  induction n as [d|j t a m cs IH] using Node_tree_ind.
  - split; [apply incl_refl | intros _ []].
  - rewrite pruneNode_elem, !selectNode_elem.
    assert (Hcs : incl (Parsed.selectAll name (Parsed.pruneForest i cs))
                       (Parsed.selectAll name cs)
                  /\ ~ In i (Parsed.selectAll name (Parsed.pruneForest i cs))).
    { induction IH as [|c cs [Hinc Hnot] _ [IHinc IHnot]]; simpl.
      - split; [apply incl_refl | intros []].
      - destruct (Dom.isNode i c) eqn:Hc; simpl.
        + split; [apply incl_appr, IHinc | exact IHnot].
        + split.
          * apply incl_app; [apply incl_appl, Hinc | apply incl_appr, IHinc].
          * intros Hin. apply in_app_or in Hin. destruct Hin as [Hin|Hin];
              [exact (Hnot eq_refl Hin) | exact (IHnot Hin)]. }
    destruct Hcs as [Hinc Hnot]. split.
    + apply incl_app; [apply incl_appl, incl_refl|].
      destruct (Dom.isTemplate t); [intros x [] | apply incl_appr, Hinc].
    + simpl. intros Hj Hin. apply in_app_or in Hin. destruct Hin as [Hin|Hin].
      * destruct (hasAttr a name); [|destruct Hin].
        destruct Hin as [->|[]]. rewrite Nat.eqb_refl in Hj. discriminate.
      * destruct (Dom.isTemplate t); [destruct Hin | exact (Hnot Hin)].
Qed.

Lemma pruneForest_select name i l :
  incl (Parsed.selectAll name (Parsed.pruneForest i l)) (Parsed.selectAll name l)
  /\ ~ In i (Parsed.selectAll name (Parsed.pruneForest i l)).
Proof.
  induction l as [|c l [IHinc IHnot]]; simpl.
  - split; [apply incl_refl | intros []].
  - destruct (prune_select name i c) as [Hinc Hnot].
    destruct (Dom.isNode i c) eqn:Hc; simpl.
    + split; [apply incl_appr, IHinc | exact IHnot].
    + split.
      * apply incl_app; [apply incl_appl, Hinc | apply incl_appr, IHinc].
      * intros Hin. apply in_app_or in Hin. destruct Hin as [Hin|Hin];
          [exact (Hnot eq_refl Hin) | exact (IHnot Hin)].
Qed.

(** A selected element is found by its identity. *)
Lemma select_found name i n :
  In i (Parsed.selectNode name n) -> Dom.findNode i n <> None.
Proof.
  induction n as [d|j t a m cs IH] using Node_tree_ind; [intros []|].
  rewrite selectNode_elem, findNode_elem. intros Hin.
  destruct (Nat.eqb i j) eqn:Hij; [discriminate|].
  apply in_app_or in Hin. destruct Hin as [Hin|Hin].
  - destruct (hasAttr a name); [|destruct Hin]. destruct Hin as [->|[]].
    rewrite Nat.eqb_refl in Hij. discriminate.
  - destruct (Dom.isTemplate t); [destruct Hin|].
    clear Hij. induction IH as [|c cs Hc _ IHcs]; simpl in *; [destruct Hin|].
    apply in_app_or in Hin. destruct Hin as [Hin|Hin].
    + specialize (Hc Hin). destruct (Dom.findNode i c); [discriminate | contradiction].
    + destruct (Dom.findNode i c); [discriminate | exact (IHcs Hin)].
Qed.

Lemma selectAll_found name i l :
  In i (Parsed.selectAll name l) -> Dom.findInForest i l <> None.
Proof.
  induction l as [|c l IH]; simpl; [intros []|]. intros Hin.
  apply in_app_or in Hin. destruct Hin as [Hin|Hin].
  - apply (select_found name) in Hin. destruct (Dom.findNode i c); [discriminate | contradiction].
  - destruct (Dom.findNode i c); [discriminate | exact (IH Hin)].
Qed.

Lemma findInForest_app_none i l1 l2 :
  Dom.findInForest i (l1 ++ l2) = None -> Dom.findInForest i l1 = None.
Proof.
  induction l1 as [|c l1 IH]; simpl; [reflexivity|].
  destruct (Dom.findNode i c); [discriminate | exact IH].
Qed.

Lemma removeChild_select name i st :
  incl (Parsed.selectAll name (fst (Parsed.removeChild i st))) (Parsed.selectAll name (fst st))
  /\ ~ In i (Parsed.selectAll name (fst (Parsed.removeChild i st))).
Proof.
  destruct st as [doc detached]. unfold Parsed.removeChild.
  destruct (Dom.findInForest i (doc ++ detached)) as [el|] eqn:Hfind; simpl.
  - apply pruneForest_select.
  - split; [apply incl_refl|]. intros Hin.
    apply (selectAll_found name) in Hin. apply findInForest_app_none in Hfind. contradiction.
Qed.

Lemma removeAll_select name ids : forall st,
  let st' := fold_left (fun st i => Parsed.removeChild i st) ids st in
  incl (Parsed.selectAll name (fst st')) (Parsed.selectAll name (fst st))
  /\ (forall i, In i ids -> ~ In i (Parsed.selectAll name (fst st'))).
Proof.
  induction ids as [|j ids IH]; intros st; simpl.
  - split; [apply incl_refl | intros i []].
  - destruct (IH (Parsed.removeChild j st)) as [Hinc Hnot].
    destruct (removeChild_select name j st) as [Hinc1 Hnot1]. split.
    + eapply incl_tran; [exact Hinc | exact Hinc1].
    + intros i [<-|Hi]; [|exact (Hnot i Hi)].
      intros Hin. apply Hnot1. apply Hinc. exact Hin.
Qed.

(** After the loop of [processResponse], no element of the response
    document carries the marker. *)
Lemma extractOob_none doc :
  Parsed.selectAll Attr.SWAP_OOB (fst (Parsed.extractOob doc)) = [].
Proof.
  unfold Parsed.extractOob.
  destruct (removeAll_select Attr.SWAP_OOB (Parsed.selectAll Attr.SWAP_OOB doc) (doc, []))
    as [Hinc Hnot]. simpl in Hinc.
  destruct (Parsed.selectAll Attr.SWAP_OOB (fst _)) as [|i l] eqn:Hsel; [reflexivity|].
  exfalso. apply (Hnot i); [apply Hinc; left; reflexivity | left; reflexivity].
Qed.

(** Without a selected element, the markup carries no marker outside of
    the content of templates. *)
Lemma select_none_exposes name n :
  Parsed.selectNode name n = [] -> Parsed.exposes name (Dom.erase n) = false.
Proof.
  induction n as [d|j t a m cs IH] using Node_tree_ind; [reflexivity|].
  rewrite selectNode_elem. intros Hsel. apply app_eq_nil in Hsel. destruct Hsel as [Ha Hcs].
  simpl. destruct (hasAttr a name); [discriminate|]. simpl.
  destruct (Dom.isTemplate t); [reflexivity|]. simpl.
  induction IH as [|c cs Hc _ IHcs]; simpl in *; [reflexivity|].
  apply app_eq_nil in Hcs. destruct Hcs as [Hc1 Hcs].
  rewrite (Hc Hc1). simpl. exact (IHcs Hcs).
Qed.

Lemma selectAll_none_exposes name l :
  Parsed.selectAll name l = [] -> existsb (Parsed.exposes name) (map Dom.erase l) = false.
Proof.
  induction l as [|c l IH]; simpl; [reflexivity|]. intros Hsel.
  apply app_eq_nil in Hsel. destruct Hsel as [Hc Hl].
  rewrite (select_none_exposes name c Hc). simpl. exact (IH Hl).
Qed.

Lemma hasTag_not_template t n :
  Parsed.hasTag t n = true -> t <> "TEMPLATE" ->
  exists j t' a m cs, n = Elem j t' a m cs /\ Dom.isTemplate t' = false.
Proof.
  destruct n as [j t' a m cs|d]; [|discriminate]. simpl. intros Ht Hne.
  exists j, t', a, m, cs. split; [reflexivity|]. unfold Dom.isTemplate.
  apply String.eqb_eq in Ht. rewrite Ht. apply String.eqb_neq. exact Hne.
Qed.

Lemma selectAll_none_in name l n t :
  Parsed.selectAll name l = [] -> In n l ->
  Parsed.hasTag t n = true -> t <> "TEMPLATE" ->
  Parsed.selectAll name (Dom.childrenOf n) = [].
Proof.
  intros Hsel Hin Ht Hne.
  destruct (hasTag_not_template t n Ht Hne) as (j & t' & a & m & cs & -> & Htpl).
  induction l as [|c l IH]; simpl in *; [destruct Hin|].
  apply app_eq_nil in Hsel. destruct Hsel as [Hc Hl].
  destruct Hin as [->|Hin]; [|exact (IH Hl Hin)].
  rewrite selectNode_elem, Htpl in Hc. apply app_eq_nil in Hc. apply Hc.
Qed.

(** The content of the primary swap carries no out-of-band marker outside
    of the content of templates. *)
Lemma primaryContent_clean B responseText k content :
  primaryContent B responseText k = Some content ->
  existsb (Parsed.exposes Attr.SWAP_OOB) content = false.
Proof.
  unfold primaryContent, parsedResponse.
  pose proof (extractOob_none (fst (Dom.instantiateAll (parseDocument B responseText) k)))
    as Hnone.
  destruct (Parsed.extractOob _) as [doc oobElements]. simpl in *.
  unfold Parsed.body. destruct (List.find Parsed.isElement doc) as [html|] eqn:Hhtml;
    [|discriminate].
  destruct (Parsed.hasTag "HTML" html) eqn:Htag; [|discriminate].
  destruct (List.find _ (Dom.childrenOf html)) as [b|] eqn:Hb; [|discriminate].
  intros [= <-]. apply selectAll_none_exposes.
  apply find_some in Hhtml. apply find_some in Hb. destruct Hb as [Hb Hbody].
  assert (Hhtml' : Parsed.selectAll Attr.SWAP_OOB (Dom.childrenOf html) = []).
  { apply (selectAll_none_in _ doc html "HTML");
      [exact Hnone | apply Hhtml | exact Htag | discriminate]. }
  apply orb_prop in Hbody. destruct Hbody as [Hbody|Hbody].
  - apply (selectAll_none_in _ (Dom.childrenOf html) b "BODY");
      [exact Hhtml' | exact Hb | exact Hbody | discriminate].
  - apply (selectAll_none_in _ (Dom.childrenOf html) b "FRAMESET");
      [exact Hhtml' | exact Hb | exact Hbody | discriminate].
Qed.

(** *** Their application to the document *)

Lemma local_no_swaps evs : forallb local evs = true -> swapsOf evs = [].
Proof.
  induction evs as [|e evs IH]; [reflexivity|]. simpl. intros H.
  apply andb_prop in H. destruct H as [He Hevs].
  change (swapsOf (e :: evs)) with (match e with
                                    | EvSwap t c o => (t, c, o) :: swapsOf evs
                                    | _ => swapsOf evs
                                    end).
  destruct e; try discriminate; exact (IH Hevs).
Qed.

Lemma local_no_fetches evs : forallb local evs = true -> fetchesOf evs = [].
Proof.
  induction evs as [|e evs IH]; [reflexivity|]. simpl. intros H.
  apply andb_prop in H. destruct H as [He Hevs].
  change (fetchesOf (e :: evs)) with (match e with
                                      | EvFetch u _ _ _ => u :: fetchesOf evs
                                      | _ => fetchesOf evs
                                      end).
  destruct e; try discriminate; exact (IH Hevs).
Qed.

Lemma quiet_ret {A} (a : A) : quiet (ret a).
Proof. intros w. exists []. split; [symmetry; apply app_nil_r | reflexivity]. Qed.

Lemma quiet_throw {A} e : quiet (@throw A e).
Proof. intros w. exists []. split; [symmetry; apply app_nil_r | reflexivity]. Qed.

Lemma quiet_liftResult {A} (r : Result A) : quiet (liftResult r).
Proof. intros w. exists []. split; [symmetry; apply app_nil_r | reflexivity]. Qed.

Lemma quiet_getWorld : quiet getWorld.
Proof. intros w. exists []. split; [symmetry; apply app_nil_r | reflexivity]. Qed.

Lemma quiet_setDocument d : quiet (setDocument d).
Proof. intros w. exists []. split; [symmetry; apply app_nil_r | reflexivity]. Qed.

Lemma quiet_setNextId k : quiet (setNextId k).
Proof. intros w. exists []. split; [symmetry; apply app_nil_r | reflexivity]. Qed.

Lemma quiet_query B selector : quiet (query B selector).
Proof. intros w. exists []. split; [symmetry; apply app_nil_r | reflexivity]. Qed.

Lemma quiet_emitAll evs : forallb local evs = true -> quiet (emitAll evs).
Proof. intros H w. exists evs. split; [reflexivity | exact H]. Qed.

Lemma quiet_emit e : local e = true -> quiet (emit e).
Proof. intros H w. exists [e]. split; [reflexivity | simpl; rewrite H; reflexivity]. Qed.

Lemma quiet_bind {A C} (m : M A) (k : A -> M C) :
  quiet m -> (forall a, quiet (k a)) -> quiet (bind m k).
Proof.
  intros Hm Hk w. unfold bind. destruct (Hm w) as (e1 & H1 & Hs1).
  destruct (m w) as [[a|e] w1]; simpl in *; [|exists e1; split; assumption].
  destruct (Hk a w1) as (e2 & H2 & Hs2). exists (e1 ++ e2)%list. split.
  - rewrite H2, H1. symmetry. apply app_assoc.
  - rewrite forallb_app, Hs1, Hs2. reflexivity.
Qed.

Lemma quiet_tryCatch {A} (m : M A) (h : Js.Error -> M A) :
  quiet m -> (forall e, quiet (h e)) -> quiet (tryCatch m h).
Proof.
  intros Hm Hh w. unfold tryCatch. destruct (Hm w) as (e1 & H1 & Hs1).
  destruct (m w) as [[a|e] w1]; simpl in *; [exists e1; split; assumption|].
  destruct (Hh e w1) as (e2 & H2 & Hs2). exists (e1 ++ e2)%list. split.
  - rewrite H2, H1. symmetry. apply app_assoc.
  - rewrite forallb_app, Hs1, Hs2. reflexivity.
Qed.

Lemma scanNode_elem (P : Partial) parent i t a m cs k :
  scanNode P parent (Elem i t a m cs) k
  = let self := mkElement i t a parent in
    let '(m', sentinel, next1, evs1) :=
      if isDeclarative a
      then (if hasAttr a Attr.SSE
            then setupSSEElement self m k
            else setupElement P self m k)
      else (m, [], k, []) in
    let '(cs', next2, evs2) :=
      if Dom.isTemplate t then (cs, next1, [])
      else scanAll P (Some self) cs next1 in
    ((Elem i t a m' cs' :: sentinel)%list, next2, (evs1 ++ evs2)%list).
Proof.
  cbn [scanNode]. cbv zeta.
  destruct (if isDeclarative a then _ else _) as [[[m' sentinel] next1] evs1].
  destruct (Dom.isTemplate t); [reflexivity|].
  replace (scanAll P (Some (mkElement i t a parent)) cs next1) with
    ((fix scanAll (l : list Node) (k0 : nat) {struct l} : list Node * nat * list Event :=
        match l with
        | [] => ([], k0, [])
        | c :: r =>
            let '(c', k1, e1) := scanNode P (Some (mkElement i t a parent)) c k0 in
            let '(r', k2, e2) := scanAll r k1 in ((c' ++ r')%list, k2, (e1 ++ e2)%list)
        end) cs next1); [reflexivity|].
  generalize next1. induction cs as [|c cs IH]; intros k0; [reflexivity|].
  cbn [scanAll]. destruct (scanNode P _ c k0) as [[c' k1] e1]. rewrite IH. reflexivity.
Qed.

(** Setting an element up leaves neither a swap nor a call of [fetch]. *)
Lemma setup_quiet (P : Partial) self m k :
  forallb local (snd (setupSSEElement self m k)) = true
  /\ forallb local (snd (setupElement P self m k)) = true.
Proof.
  split.
  - unfold setupSSEElement. destruct (sseInitialized m); [reflexivity|].
    destruct (negb _); reflexivity.
  - unfold setupElement, setupInfiniteScroll. destruct (initialized m); [reflexivity|].
    destruct (hasAttribute self Attr.INFINITE_SCROLL).
    + destruct (scrollStopped m); [reflexivity|]. destruct (sentinelElement m); reflexivity.
    + destruct (getAttributeWithInheritance self Attr.DEBOUNCE) as [v|]; [|reflexivity].
      destruct (Js.parseInt (Some v)) as [|z]; [reflexivity|].
      destruct (0 <=? z); reflexivity.
Qed.

Lemma scanNode_quiet (P : Partial) n : forall parent k,
  forallb local (snd (scanNode P parent n k)) = true.
Proof.
  induction n as [d|i t a m cs IH] using Node_tree_ind; intros parent k; [reflexivity|].
  rewrite scanNode_elem. cbv zeta.
  assert (Hsetup : forallb local
                     (snd (if isDeclarative a
                           then (if hasAttr a Attr.SSE
                                 then setupSSEElement (mkElement i t a parent) m k
                                 else setupElement P (mkElement i t a parent) m k)
                           else (m, [], k, []))) = true).
  { destruct (setup_quiet P (mkElement i t a parent) m k) as [H1 H2].
    destruct (isDeclarative a); [|reflexivity]. destruct (hasAttr a Attr.SSE); assumption. }
  destruct (if isDeclarative a then _ else _) as [[[m' sentinel] next1] evs1].
  simpl in Hsetup.
  assert (Hall : forall k0,
             forallb local (snd (scanAll P (Some (mkElement i t a parent)) cs k0)) = true).
  { induction IH as [|c cs Hc _ IHcs]; intros k0; [reflexivity|].
    cbn [scanAll]. specialize (Hc (Some (mkElement i t a parent)) k0).
    destruct (scanNode P _ c k0) as [[c' k1] e1]. specialize (IHcs k1).
    destruct (scanAll P _ cs k1) as [[r' k2] e2]. simpl in *.
    rewrite forallb_app, Hc, IHcs. reflexivity. }
  specialize (Hall next1). destruct (scanAll P _ cs next1) as [[cs' next2] evs2].
  destruct (Dom.isTemplate t); simpl in *; rewrite forallb_app, Hsetup;
    [reflexivity | rewrite Hall; reflexivity].
Qed.

Lemma scanAll_quiet (P : Partial) parent l : forall k,
  forallb local (snd (scanAll P parent l k)) = true.
Proof.
  induction l as [|c l IH]; intros k; [reflexivity|].
  cbn [scanAll]. pose proof (scanNode_quiet P c parent k) as Hc.
  destruct (scanNode P parent c k) as [[c' k1] e1]. specialize (IH k1).
  destruct (scanAll P parent l k1) as [[r' k2] e2]. simpl in *.
  rewrite forallb_app, Hc, IH. reflexivity.
Qed.

Section Quiet.

Context (B : Browser) (P : Partial).

Lemma quiet_parseFragment content : quiet (parseFragment B content).
Proof.
  unfold parseFragment. apply quiet_bind; [apply quiet_getWorld|]. intros w.
  destruct (Dom.instantiateAll _ _) as [nodes k].
  apply quiet_bind; [apply quiet_emit; reflexivity|]. intros _.
  apply quiet_bind; [apply quiet_setNextId|]. intros _. apply quiet_ret.
Qed.

Lemma quiet_scanFragment fragment : quiet (scanFragment P fragment).
Proof.
  unfold scanFragment. apply quiet_bind; [apply quiet_getWorld|]. intros w.
  pose proof (scanAll_quiet P None fragment (nextId w)) as Hq.
  destruct (scanAll P None fragment (nextId w)) as [[fragment' k] evs].
  apply quiet_bind; [apply quiet_setNextId|]. intros _.
  apply quiet_bind; [apply quiet_emitAll; exact Hq|]. intros _. apply quiet_ret.
Qed.

Lemma quiet_scanForElements container : quiet (scanForElements P container).
Proof.
  unfold scanForElements. apply quiet_bind; [apply quiet_getWorld|]. intros w.
  destruct container as [|i|n|]; [| | |apply quiet_throw].
  - pose proof (scanAll_quiet P None (document w) (nextId w)) as Hq.
    destruct (scanAll P None (document w) (nextId w)) as [[d k] evs].
    apply quiet_bind; [apply quiet_setDocument|]. intros _.
    apply quiet_bind; [apply quiet_setNextId|]. intros _. apply quiet_emitAll, Hq.
  - destruct (Dom.elementOf i (document w)) as [self|]; [|apply quiet_ret].
    destruct (Dom.findInForest i (document w)) as [n|]; [|apply quiet_ret].
    pose proof (scanAll_quiet P (Some self) (Dom.childrenOf n) (nextId w)) as Hq.
    destruct (scanAll P (Some self) (Dom.childrenOf n) (nextId w)) as [[cs k] evs].
    apply quiet_bind; [apply quiet_setDocument|]. intros _.
    apply quiet_bind; [apply quiet_setNextId|]. intros _. apply quiet_emitAll, Hq.
  - destruct n as [i t a m cs|d]; [|apply quiet_ret].
    pose proof (scanAll_quiet P (Some (mkElement i t a None)) cs (nextId w)) as Hq.
    destruct (scanAll P (Some (mkElement i t a None)) cs (nextId w)) as [[cs' k] evs].
    apply quiet_bind; [apply quiet_setNextId|]. intros _. apply quiet_emitAll, Hq.
Qed.

Lemma quiet_rewriteTarget i f : quiet (rewriteTarget i f).
Proof.
  unfold rewriteTarget. apply quiet_bind; [apply quiet_getWorld|]. intros w.
  apply quiet_setDocument.
Qed.

Lemma quiet_setInnerHTML i content : quiet (setInnerHTML B i content).
Proof.
  unfold setInnerHTML. apply quiet_bind; [apply quiet_parseFragment|]. intros nodes.
  apply quiet_rewriteTarget.
Qed.

Lemma quiet_insertAdjacentHTML i position content :
  quiet (insertAdjacentHTML B i position content).
Proof.
  unfold insertAdjacentHTML. apply quiet_bind; [apply quiet_getWorld|]. intros w.
  destruct (_ && _); [apply quiet_throw|].
  apply quiet_bind; [apply quiet_parseFragment|]. intros nodes. apply quiet_rewriteTarget.
Qed.

(** [performSwap] leaves one swap, its own. *)
Lemma performSwap_one_swap target content option w :
  exists evs,
    trace (snd (performSwap B P target content option w)) = (trace w ++ evs)%list
    /\ swapsOf evs = [(target, content, option)].
Proof.
  unfold performSwap.
  match goal with
  | |- context [bind (emit ?e) ?k] => assert (Hk : quiet (k tt))
  end.
  { apply quiet_bind; [apply quiet_parseFragment|]. intros fragment.
    apply quiet_bind; [apply quiet_scanFragment|]. intros fragment'.
    destruct (String.eqb option "outerHTML");
      [destruct target; [apply quiet_rewriteTarget | apply quiet_throw]|].
    destruct (String.eqb option "innerHTML");
      [destruct target; [apply quiet_rewriteTarget | apply quiet_throw]|].
    destruct (Attr.includes _ option);
      [destruct target; [apply quiet_insertAdjacentHTML | apply quiet_throw]|].
    apply quiet_bind; [apply quiet_emit; reflexivity|]. intros _.
    destruct target; [apply quiet_setInnerHTML | apply quiet_ret]. }
  unfold bind at 1. unfold emit at 1.
  match goal with
  | |- context [snd (?m ?w1)] => destruct (Hk w1) as (evs & Hevs & Hs)
  end.
  exists (EvSwap target content option :: evs). split.
  - rewrite Hevs. simpl. rewrite <- app_assoc. reflexivity.
  - change (swapsOf (EvSwap target content option :: evs))
      with ((target, content, option) :: swapsOf evs).
    rewrite (local_no_swaps evs Hs). reflexivity.
Qed.

Lemma orElse_nonEmpty v d :
  Js.orElse v d = match nonEmpty v with Some s => s | None => d end.
Proof.
  unfold Js.orElse, nonEmpty. destruct v as [s|]; [|reflexivity].
  destruct (String.eqb s ""); reflexivity.
Qed.

Lemma truthy_nonEmpty v :
  Js.truthy v = true /\ nonEmpty v = Some (Js.toString v)
  \/ Js.truthy v = false /\ nonEmpty v = None.
Proof.
  unfold Js.truthy, nonEmpty. destruct v as [s|]; [|right; split; reflexivity].
  destruct (String.eqb s ""); [right | left]; split; reflexivity.
Qed.

(** One out-of-band element leaves the swap that [oobSwapOf] describes:
    none when no element of the document has its [id], one otherwise. *)
Lemma oobSwap_swaps oobElement w :
  exists evs,
    trace (snd (oobSwap B P oobElement w)) = (trace w ++ evs)%list
    /\ swapsOf evs = oobSwapOf B P oobElement (document w).
Proof.
  unfold oobSwap, oobSwapOf.
  destruct (truthy_nonEmpty (getAttr (Dom.attrsOf oobElement) "id")) as [[-> ->]|[-> ->]];
    cbn [negb]; cbv iota.
  - unfold bind at 1. unfold getWorld at 1. cbv beta iota.
    destruct (Dom.getElementById _ (document w)) as [existingElement|].
    + rewrite orElse_nonEmpty.
      match goal with
      | |- context [bind (performSwap B P ?tg ?c ?o) ?k] =>
          destruct (performSwap_one_swap tg c o w) as (e1 & H1 & Hs1);
          assert (Hk : quiet (k tt))
      end.
      { apply quiet_bind; [apply quiet_getWorld|]. intros w'.
        destruct (Dom.getElementById _ (document w'));
          [apply quiet_scanForElements | apply quiet_ret]. }
      unfold bind at 1.
      destruct (performSwap B P _ _ _ w) as [[[]|e] w1]; simpl in *;
        [|exists e1; split; assumption].
      destruct (Hk w1) as (e2 & H2 & Hs2). exists (e1 ++ e2)%list. split.
      * rewrite H2, H1. symmetry. apply app_assoc.
      * apply local_no_swaps in Hs2. unfold swapsOf in *.
        rewrite omap_app, Hs1, Hs2. reflexivity.
    + eexists. split; reflexivity.
  - eexists. split; reflexivity.
Qed.

Lemma handleOobSwapping_swaps oobElements : forall w,
  exists evs,
    trace (snd (handleOobSwapping B P oobElements w)) = (trace w ++ evs)%list
    /\ (length (swapsOf evs) <= length oobElements)%nat.
Proof.
  induction oobElements as [|f rest IH]; intros w; simpl.
  - exists []. split; [symmetry; apply app_nil_r | simpl; lia].
  - unfold bind. destruct (oobSwap_swaps f w) as (e1 & H1 & Hs1).
    assert (Hone : (length (swapsOf e1) <= 1)%nat).
    { rewrite Hs1. unfold oobSwapOf. destruct (nonEmpty _); [|simpl; lia].
      destruct (Dom.getElementById _ _); simpl; lia. }
    destruct (oobSwap B P f w) as [[[]|e] w1]; simpl in *.
    + destruct (IH w1) as (e2 & H2 & Hs2). exists (e1 ++ e2)%list. split.
      * rewrite H2, H1. symmetry. apply app_assoc.
      * unfold swapsOf in *. rewrite omap_app, length_app. lia.
    + exists e1. split; [exact H1 | lia].
Qed.

End Quiet.


(** ** Malformed parameters *)

Lemma targetSelector_agrees (element : Element) :
  (let declared := getAttributeWithInheritance element Attr.TARGET in
   if Js.truthy declared then Js.toString declared
   else if String.eqb (elementId element) "" then "body"
        else "#" +:+ elementId element)
  = targetSelectorOf element.
Proof.
  unfold targetSelectorOf, elementId. cbv zeta.
  destruct (truthy_nonEmpty (getAttributeWithInheritance element Attr.TARGET))
    as [[-> ->]|[-> ->]]; [reflexivity|].
  unfold nonEmpty. destruct (getAttribute element "id") as [i|]; simpl; [|reflexivity].
  destruct (String.eqb i ""); reflexivity.
Qed.

(** *** A triggered action reaches the network *)

Lemma fetchesOf_app (e1 e2 : list Event) :
  fetchesOf (e1 ++ e2) = (fetchesOf e1 ++ fetchesOf e2)%list.
Proof. unfold fetchesOf. apply omap_app. Qed.

Lemma head_fetches_app (e1 e2 : list Event) u :
  head (fetchesOf e1) = Some u -> head (fetchesOf (e1 ++ e2)) = Some u.
Proof.
  rewrite fetchesOf_app. destruct (fetchesOf e1); [discriminate|]. intros H. exact H.
Qed.

Lemma head_fetches_local (e1 e2 : list Event) u :
  forallb local e1 = true -> head (fetchesOf e2) = Some u ->
  head (fetchesOf (e1 ++ e2)) = Some u.
Proof.
  intros H1 H2. rewrite fetchesOf_app, (local_no_fetches e1 H1). exact H2.
Qed.

Lemma fetchesFirst_bind {A C} u (m : M A) (k : A -> M C) :
  fetchesFirst u m -> (forall a, grows (k a)) -> fetchesFirst u (bind m k).
Proof.
  intros Hm Hk w. unfold bind. destruct (Hm w) as (e1 & H1 & Hu).
  destruct (m w) as [[a|e] w1]; simpl in *; [|exists e1; split; assumption].
  destruct (Hk a w1) as (e2 & H2). exists (e1 ++ e2)%list. split.
  - rewrite H2, H1. symmetry. apply app_assoc.
  - apply head_fetches_app, Hu.
Qed.

Lemma fetchesFirst_after {A C} u (m : M A) (k : A -> M C) :
  quietOk m -> (forall a, fetchesFirst u (k a)) -> fetchesFirst u (bind m k).
Proof.
  intros Hm Hk w. unfold bind. destruct (Hm w) as (a & w1 & e1 & -> & H1 & Hl).
  destruct (Hk a w1) as (e2 & H2 & Hu). exists (e1 ++ e2)%list. split.
  - rewrite H2, H1. symmetry. apply app_assoc.
  - apply head_fetches_local; assumption.
Qed.

Lemma fetchesFirst_tryCatch {A} u (m : M A) (h : Js.Error -> M A) :
  fetchesFirst u m -> (forall e, grows (h e)) -> fetchesFirst u (tryCatch m h).
Proof.
  intros Hm Hh w. unfold tryCatch. destruct (Hm w) as (e1 & H1 & Hu).
  destruct (m w) as [[a|e] w1]; simpl in *; [exists e1; split; assumption|].
  destruct (Hh e w1) as (e2 & H2). exists (e1 ++ e2)%list. split.
  - rewrite H2, H1. symmetry. apply app_assoc.
  - apply head_fetches_app, Hu.
Qed.

Lemma fetchesFirst_tryFinally {A} u (m : M A) (f : M unit) :
  fetchesFirst u m -> grows f -> fetchesFirst u (tryFinallyM m f).
Proof.
  intros Hm Hf w. unfold tryFinallyM. destruct (Hm w) as (e1 & H1 & Hu).
  destruct (m w) as [r w1]; simpl in *. destruct (Hf w1) as (e2 & H2).
  exists (e1 ++ e2)%list. split.
  - destruct (f w1) as [[[]|e] w2]; simpl in *; rewrite H2, H1; symmetry; apply app_assoc.
  - apply head_fetches_app, Hu.
Qed.

Lemma quietOk_ret {A} (a : A) : quietOk (ret a).
Proof.
  intros w. exists a, w, []. repeat split. symmetry. apply app_nil_r.
Qed.

Lemma quietOk_emit e : local e = true -> quietOk (emit e).
Proof.
  intros H w. eexists tt, _, [e]. repeat split. simpl. rewrite H. reflexivity.
Qed.

Lemma quietOk_emitAll evs : forallb local evs = true -> quietOk (emitAll evs).
Proof. intros H w. eexists tt, _, evs. repeat split. exact H. Qed.

Lemma quietOk_bind {A C} (m : M A) (k : A -> M C) :
  quietOk m -> (forall a, quietOk (k a)) -> quietOk (bind m k).
Proof.
  intros Hm Hk w. unfold bind. destruct (Hm w) as (a & w1 & e1 & -> & H1 & Hl1).
  destruct (Hk a w1) as (c & w2 & e2 & -> & H2 & Hl2).
  exists c, w2, (e1 ++ e2)%list. repeat split.
  - rewrite H2, H1. symmetry. apply app_assoc.
  - rewrite forallb_app, Hl1, Hl2. reflexivity.
Qed.

Section Reaching.

Context (B : Browser) (P : Partial).

Lemma quietOk_setInnerHTML i content : quietOk (setInnerHTML B i content).
Proof.
  intros w. unfold setInnerHTML. run_steps.
  destruct (Dom.instantiateAll _ _) as [nodes k]. run_steps.
  eexists tt, _, [EvParse content]. repeat split.
Qed.

(** Without a callback [onError], [handleError] returns. *)
Lemma quietOk_handleError error element target :
  onError P = None -> quietOk (handleError B P error element target).
Proof.
  intros Hnone. unfold handleError. rewrite Hnone.
  apply quietOk_bind; [apply quietOk_emit; reflexivity|]. intros _.
  destruct target as [[i|]|]; [apply quietOk_setInnerHTML | apply quietOk_ret..].
Qed.

(** Without a callback [onError], hooks cannot abort what runs them. *)
Lemma quietOk_runCallbacks hookName callbacks :
  onError P = None ->
  forall index element target,
    quietOk (runCallbacks B P hookName callbacks index element target).
Proof.
  intros Hnone. induction callbacks as [|cb rest IH]; intros index element target; simpl.
  - apply quietOk_ret.
  - apply quietOk_bind; [|intros _; apply IH].
    intros w. unfold tryCatch, bind. destruct cb as [|e]; run_steps.
    + eexists tt, _, [EvHook hookName index]. repeat split.
    + match goal with
      | |- context [handleError B P e element target ?w1] =>
          destruct (quietOk_handleError e element target Hnone w1)
            as ([] & w2 & evs & -> & H2 & Hl)
      end.
      exists tt, w2, (EvHook hookName index :: evs). repeat split.
      * rewrite H2. simpl. rewrite <- app_assoc. reflexivity.
      * simpl. exact Hl.
Qed.

Lemma quietOk_runHooks hookName element target :
  onError P = None -> quietOk (runHooks B P hookName element target).
Proof. intros Hnone. apply quietOk_runCallbacks, Hnone. Qed.

(** One attempt leaves its call of [fetch]. *)
Lemma fetchesFirst_attempt rp : fetchesFirst (Js.toString (url rp)) (attempt B rp).
Proof.
  intros w. unfold attempt, fetch. run_steps.
  destruct (Js.numTruthy (timeout rp)); run_steps;
    destruct (net B (netCalls w)) as [r|e]; run_steps;
    try (destruct (ok r); run_steps; try destruct (text r); run_steps);
    eexists; (split; [repeat rewrite <- app_assoc; reflexivity | reflexivity]).
Qed.

Lemma grows_attempt rp : grows (attempt B rp).
Proof. intros w. destruct (fetchesFirst_attempt rp w) as (evs & H & _). exists evs. exact H. Qed.

Lemma grows_attemptLoop rp m (k : nat) : forall a w,
  remaining m a = k -> extends w (snd (attemptLoop B rp m a w)).
Proof.
  induction k as [|k IH]; intros a w Hk; rewrite attemptLoop_step;
    destruct m as [|z]; simpl in *; try apply extends_refl.
  - replace (a <? z) with false by (symmetry; apply Z.ltb_ge; lia). apply extends_refl.
  - destruct (a <? z) eqn:Hlt; [|apply extends_refl]. apply Z.ltb_lt in Hlt.
    pose proof (grows_attempt rp w) as Ha.
    destruct (attempt B rp w) as [[r|e] w1]; simpl in *; [exact Ha|].
    destruct (String.eqb (Js.err_name e) "AbortError"); [exact Ha|].
    destruct (z <=? a + 1); [exact Ha|].
    eapply extends_trans; [exact Ha|]. apply IH. simpl. lia.
Qed.

(** With a number of retries that is not negative, [performRequestCore]
    calls [fetch], and first for the address of the descriptor. *)
Lemma fetchesFirst_performRequestCore rp n :
  maxRetries rp = Js.Int n -> 0 <= n ->
  fetchesFirst (Js.toString (url rp)) (performRequestCore B rp).
Proof.
  intros Hn Hpos w. rewrite performRequestCore_snd, Hn. simpl.
  rewrite attemptLoop_step. simpl.
  replace (0 <? n + 1) with true by (symmetry; apply Z.ltb_lt; lia).
  destruct (fetchesFirst_attempt rp w) as (e1 & H1 & Hu).
  destruct (attempt B rp w) as [[r|e] w1]; simpl in *; [exists e1; split; assumption|].
  destruct (String.eqb (Js.err_name e) "AbortError"); [exists e1; split; assumption|].
  destruct (n + 1 <=? 0 + 1); [exists e1; split; assumption|].
  destruct (grows_attemptLoop rp (Js.Int (n + 1)) _ (0 + 1) w1 eq_refl) as (e2 & H2).
  exists (e1 ++ e2)%list. split.
  - rewrite H2, H1. symmetry. apply app_assoc.
  - apply head_fetches_app, Hu.
Qed.

Lemma grows_parseFromString responseText : grows (parseFromString B responseText).
Proof. unfold parseFromString. grows_tac. Qed.

Lemma grows_determineTarget selector targetElement :
  grows (determineTarget B selector targetElement).
Proof. unfold determineTarget. destruct (Js.truthy selector); grows_tac. Qed.

Lemma grows_processResponse responseText targetElement element :
  grows (processResponse B P responseText targetElement element).
Proof.
  unfold processResponse.
  apply grows_bind; [apply grows_emit|]. intros _.
  apply grows_bind; [apply grows_parseFromString|]. intros doc.
  destruct (Parsed.extractOob doc) as [doc' oobElements].
  apply grows_bind; [apply grows_getWorld|]. intros w.
  destruct (lastResponse w) as [response|]; [|apply grows_throw].
  apply grows_bind; [apply grows_determineTarget|]. intros final.
  apply grows_bind; [destruct (Parsed.body doc'); grows_tac|]. intros newContent.
  apply grows_bind; [apply grows_getWorld|]. intros before.
  apply grows_bind; [apply grows_performSwap|]. intros _. apply grows_settle.
Qed.

Lemma grows_handleActionCatch error element targetElement :
  grows (handleActionCatch B P error element targetElement).
Proof.
  unfold handleActionCatch.
  destruct (if Js.truthy _ then _ else _) as [handler|].
  - apply grows_bind; [apply grows_emit|]. intros _. destruct handler; grows_tac.
  - destruct (onError P) as [cb|].
    + apply grows_bind; [apply grows_emit|]. intros _. destruct cb; grows_tac.
    + apply grows_bind; [apply grows_emit|]. intros _. apply grows_setInnerHTML.
Qed.

Lemma grows_handleActionFinally targetElement indicatorSelector loadingClass indicator :
  grows (handleActionFinally targetElement indicatorSelector loadingClass indicator).
Proof.
  unfold handleActionFinally.
  apply grows_bind; [destruct (bool_decide _); grows_tac|]. intros _.
  destruct (Js.truthy loadingClass); [apply grows_classListRemove | apply grows_ret].
Qed.

Lemma fetchesFirst_finalHandler rp u n :
  sendable B P rp -> url rp = Some u -> paramsObject rp = [] ->
  maxRetries rp = Js.Int n -> 0 <= n ->
  fetchesFirst u (finalHandler B P rp).
Proof.
  intros [Hbody [h Hh]] Hurl Hparams Hn Hpos w. unfold finalHandler.
  unfold bind at 1. destruct (Hbody w) as [b ->].
  rewrite Hurl, Hparams, Hh. cbn [prepareRequestUrl].
  unfold bind at 1. unfold liftResult at 1.
  unfold bind at 1. unfold liftResult at 1.
  apply fetchesFirst_bind.
  - apply fetchesFirst_tryCatch.
    + apply (fetchesFirst_performRequestCore (withUrlBodyHeaders rp (Some u) b h) n);
        assumption.
    + intros e. grows_tac.
  - intros response. apply grows_bind; [apply grows_setLastResponse|]. intros _.
    apply grows_bind; [apply grows_runHooks|]. intros _. apply grows_liftResult.
Qed.

Lemma fetchesFirst_runner rp u n stack :
  Forall (fun mw => mw = MwNext) stack ->
  sendable B P rp -> url rp = Some u -> paramsObject rp = [] ->
  maxRetries rp = Js.Int n -> 0 <= n ->
  forall index, fetchesFirst u (runner stack index (finalHandler B P rp)).
Proof.
  intros Hstack Hs Hurl Hparams Hn Hpos.
  induction Hstack as [|mw stack -> _ IH]; intros index; simpl.
  - apply (fetchesFirst_finalHandler rp u n); assumption.
  - apply fetchesFirst_after; [apply quietOk_emit; reflexivity|]. intros _. apply IH.
Qed.

Lemma fetchesFirst_performRequest rp u n :
  onError P = None ->
  Forall (fun mw => mw = MwNext) (middleware P) ->
  sendable B P rp -> url rp = Some u -> paramsObject rp = [] ->
  maxRetries rp = Js.Int n -> 0 <= n ->
  fetchesFirst u (performRequest B P rp).
Proof.
  intros Hnone Hmw Hs Hurl Hparams Hn Hpos. unfold performRequest.
  apply fetchesFirst_after; [apply quietOk_runHooks, Hnone|]. intros _.
  apply (fetchesFirst_runner rp u n); assumption.
Qed.

Lemma fetchesFirst_handleActionTry element rp targetElement indicatorSelector
    loadingClass focusEnabled shouldPushState t n indicatorElement u :
  onError P = None ->
  Forall (fun mw => mw = MwNext) (middleware P) ->
  sendable B P (withTimeoutAndRetries rp t (Js.Int n)) ->
  url rp = Some u -> paramsObject rp = [] -> 0 <= n ->
  usableClass loadingClass = true ->
  fetchesFirst u (handleActionTry B P element rp targetElement indicatorSelector
                    loadingClass focusEnabled shouldPushState t n indicatorElement).
Proof.
  intros Hnone Hmw Hs Hurl Hparams Hpos Hclass. unfold handleActionTry.
  apply fetchesFirst_after;
    [destruct (bool_decide _); [apply quietOk_emit; reflexivity | apply quietOk_ret]|].
  intros _.
  apply fetchesFirst_after.
  { unfold usableClass in Hclass.
    destruct (Js.truthy loadingClass) eqn:Htruthy; [|apply quietOk_ret].
    cbn [andb negb] in Hclass. apply negb_true_iff in Hclass.
    unfold classListAdd, validateToken. rewrite Hclass.
    assert (Hne : String.eqb (Js.toString loadingClass) "" = false).
    { destruct loadingClass as [c|]; [|discriminate]. simpl in Htruthy.
      apply negb_true_iff in Htruthy. exact Htruthy. }
    rewrite Hne. apply quietOk_bind; [apply quietOk_ret|].
    intros _. apply quietOk_emit. reflexivity. }
  intros _.
  apply fetchesFirst_after.
  { destruct (Js.truthy (getAttribute element Attr.BEFORE)); [|apply quietOk_ret].
    unfold dispatchCustomEvents. apply quietOk_emitAll.
    induction (Js.splitComma _) as [|x l IH]; [reflexivity | exact IH]. }
  intros _.
  apply fetchesFirst_after; [apply quietOk_emit; reflexivity|]. intros _.
  apply fetchesFirst_bind.
  - apply (fetchesFirst_performRequest (withTimeoutAndRetries rp t (Js.Int n)) u n);
      try assumption; reflexivity.
  - intros responseText.
    apply grows_bind; [apply grows_emit|]. intros _.
    apply grows_bind; [apply grows_processResponse|]. intros _.
    apply grows_bind; [destruct shouldPushState; grows_tac|]. intros _.
    apply grows_bind.
    + destruct (Js.truthy (getAttribute element Attr.AFTER)); [|apply grows_ret].
      unfold dispatchCustomEvents. apply grows_emitAll.
    + intros _. destruct (autoFocus P && focusEnabled);
        [apply grows_focusElement | apply grows_ret].
Qed.

End Reaching.

(** When the x-params attribute of an element is malformed JSON,
    [extractRequestParams] reports the error through [handleError] and goes
    on with an empty object of parameters: it returns the descriptor of the
    element.  It throws only when the callback [onError] of the engine
    throws. *)
Lemma extractRequestParams_malformed (B : Browser) (P : Partial) (element : Element)
    (w : World) (xParams : string) (target : option nat)
    (Hattr : getAttribute element Attr.PARAMS = Some xParams)
    (Hne : xParams <> "")
    (Hbad : jsonParse B xParams = None)
    (Hsel : querySelector B (document w) (targetSelectorOf element) = Ok target) :
  let r := extractRequestParams B P element w in
  handlerUsed (newEvents w (snd r)) = Some (engineHandler P)
  /\ match onError P with
     | Some (Throws e) => fst r = Throw e
     | _ =>
         exists rp,
           fst r = Ok rp
           /\ paramsObject rp = []
           /\ method rp = getMethod element
           /\ url rp = getAttributeWithInheritance element
                         ("x-" +:+ Js.toLowerCase (getMethod element))
           /\ targetSelector rp = targetSelectorOf element
     end.
Proof.
  intros r. subst r. unfold extractRequestParams.
  rewrite targetSelector_agrees.
  assert (Hp : getAttributeWithInheritance element Attr.PARAMS = Some xParams)
    by exact Hattr.
  rewrite Hp.
  assert (Ht : Js.truthy (Some xParams) = true).
  { simpl. destruct (String.eqb_spec xParams ""); [contradiction | reflexivity]. }
  rewrite Ht. cbn [Js.toString]. rewrite Hbad.
  unfold query, liveAttribute. run_steps. rewrite Hsel.
  unfold handleError, engineHandler.
  destruct target as [t|]; cbn [option_map]; run_steps;
    destruct (onError P) as [[|e]|]; run_steps;
    try destruct (Dom.instantiateAll _ _) as [nodes k]; run_steps.
  all: split;
    [ erewrite newEvents_app;
      [|cbn [trace]; try rewrite <- app_assoc; reflexivity]; reflexivity
    | try reflexivity; eexists; repeat split ].
Qed.

Lemma nonEmpty_some v u : nonEmpty v = Some u -> v = Some u /\ Js.truthy v = true.
Proof.
  unfold nonEmpty, Js.truthy. destruct v as [s|]; [|discriminate].
  destruct (String.eqb s ""); [discriminate|]. intros [= ->]. split; reflexivity.
Qed.

(** With a malformed x-params, and without a callback [onError],
    [prepareRequestParams] returns the descriptor of the element, without
    parameters, after the error is logged and its notice written into the
    target. *)
Lemma prepareRequestParams_malformed (B : Browser) (P : Partial) (el : Element)
    (w : World) (xParams u : string) (t t' : nat) (mr : Js.Number) :
  getAttribute el Attr.PARAMS = Some xParams ->
  xParams <> "" ->
  jsonParse B xParams = None ->
  onError P = None ->
  nonEmpty (getAttributeWithInheritance el
              ("x-" +:+ Js.toLowerCase (getMethod el))) = Some u ->
  querySelector B (document w) (targetSelectorOf el) = Ok (Some t) ->
  Js.truthy (idOf t (document w)) = true ->
  querySelector B (noticeWritten B w t (Js.newError "Invalid JSON in x-params attribute"))
                (targetSelectorOf el) = Ok (Some t') ->
  exists rp w1 evs,
    prepareRequestParams B P el mr w = (Ok rp, w1)
    /\ url rp = Some u
    /\ paramsObject rp = []
    /\ element rp = Some el
    /\ targetSelector rp = targetSelectorOf el
    /\ document w1
       = noticeWritten B w t (Js.newError "Invalid JSON in x-params attribute")
    /\ trace w1
       = (trace w ++ EvConsoleError "Error: Invalid JSON in x-params attribute" :: evs)%list
    /\ forallb local evs = true.
Proof.
  intros Hattr Hne Hbad Hnone Hurl Hsel Hid Hsel'.
  unfold prepareRequestParams, extractRequestParams.
  rewrite targetSelector_agrees.
  assert (Hp : getAttributeWithInheritance el Attr.PARAMS = Some xParams)
    by exact Hattr.
  rewrite Hp.
  assert (Ht : Js.truthy (Some xParams) = true).
  { simpl. destruct (String.eqb_spec xParams ""); [contradiction | reflexivity]. }
  rewrite Ht. cbn [Js.toString]. rewrite Hbad.
  unfold noticeWritten in *. unfold idOf in Hid.
  unfold query, liveAttribute, handleError. rewrite Hnone. run_steps.
  rewrite Hsel. cbn [option_map]. run_steps.
  destruct (Dom.instantiateAll _ _) as [nodes k]. cbn [fst] in Hsel'. run_steps.
  destruct (nonEmpty_some _ _ Hurl) as [Hv Htu].
  rewrite Htu. cbn [negb]. run_steps. rewrite Hsel'. run_steps.
  rewrite Hid. cbn [negb]. run_steps.
  eexists _, _, [EvParse _]. split; [reflexivity|]. run_steps.
  split; [exact Hv|]. repeat split. rewrite <- app_assoc. reflexivity.
Qed.

(** C7, as it holds.  When the x-params attribute of an element is
    malformed JSON and the engine has no callback [onError], the error is
    reported through the error path, first of all, and the triggered
    action is not aborted.  For an element that asks no confirmation, has
    no indicator and no loading class that [classList] refuses, in an
    engine without hooks on [onAction] and [beforeRequest] and whose
    middleware call on and leave the descriptor as it is, and whose
    configuration is valid otherwise (an
    address, a target with an identifier before and after the notice is
    written, a number of retries that is not negative, a body and headers
    that can be built for the element as the notice leaves it), the
    request is issued, for the address of the element without a query. *)
Theorem malformed_params_not_aborted (B : Browser) (P : Partial) (el : Element)
    (w : World) (xParams u : string) (t t' : nat)
    (Hattr : getAttribute el Attr.PARAMS = Some xParams)
    (Hne : xParams <> "")
    (Hbad : jsonParse B xParams = None)
    (Hnone : onError P = None)
    (Hmw : Forall (fun mw => mw = MwNext) (middleware P))
    (Hhooks : hooks P "onAction" = [] /\ hooks P "beforeRequest" = [])
    (Hconfirm : Js.truthy (getAttribute el Attr.CONFIRM) = false)
    (Hind : Js.truthy (getAttributeWithInheritance el Attr.INDICATOR) = false)
    (Hclass : usableClass (getAttributeWithInheritance el Attr.LOADING_CLASS) = true)
    (Hurl : nonEmpty (getAttributeWithInheritance el
                        ("x-" +:+ Js.toLowerCase (getMethod el))) = Some u)
    (Hretry : 0 <= resolveMaxRetries el)
    (Hsel : querySelector B (document w) (targetSelectorOf el) = Ok (Some t))
    (Hid : Js.truthy (idOf t (document w)) = true)
    (Hsel' : querySelector B
               (noticeWritten B w t (Js.newError "Invalid JSON in x-params attribute"))
               (targetSelectorOf el) = Ok (Some t'))
    (Hsend : forall rp,
        element rp
        = Some (Dom.current
                  (noticeWritten B w t (Js.newError "Invalid JSON in x-params attribute"))
                  el) ->
        paramsObject rp = [] -> sendable B P rp) :
  let w' := snd (handleAction B P el w) in
  head (newEvents w w') = Some (EvConsoleError "Error: Invalid JSON in x-params attribute")
  /\ head (fetchesOf (newEvents w w')) = Some u.
Proof.
  intros w'. subst w'.
  destruct (prepareRequestParams_malformed B P el w xParams u t t'
              (Js.Int (resolveMaxRetries el))
              Hattr Hne Hbad Hnone Hurl Hsel Hid Hsel')
    as (rp & w1 & evs1 & Hprep & Hu & Hparams & Hel & Hts & Hdoc & Htrace & Hlocal).
  assert (Hall : exists evs3,
             newEvents w (snd (handleAction B P el w))
             = (EvConsoleError "Error: Invalid JSON in x-params attribute" :: evs1
                ++ evs3)%list
             /\ head (fetchesOf evs3) = Some u).
  { unfold handleAction. rewrite Hconfirm, Hind.
    unfold bind at 1. unfold ret at 1. cbn [negb].
    unfold bind at 1. unfold ret at 1.
    unfold bind at 1. rewrite Hprep.
    unfold bind at 1. unfold query at 1. rewrite Hts, Hdoc, Hsel'.
    unfold bind at 1. unfold runHooks at 1. rewrite (proj1 Hhooks).
    cbn [runCallbacks]. unfold ret at 1.
    unfold bind at 1. unfold currentElement at 1. rewrite Hdoc.
    set (el' := Dom.current _ el).
    set (run := tryFinallyM _ _).
    assert (Hff : fetchesFirst u run).
    { subst run. apply fetchesFirst_tryFinally; [|apply grows_handleActionFinally].
      apply fetchesFirst_tryCatch; [|intros e; apply grows_handleActionCatch].
      apply fetchesFirst_handleActionTry; try assumption.
      apply Hsend; [reflexivity | exact Hparams]. }
    destruct (Hff w1) as (evs3 & Htrace3 & Hfirst).
    exists evs3. split; [|assumption].
    apply newEvents_app. rewrite Htrace3, Htrace.
    rewrite <- !app_assoc. reflexivity. }
  destruct Hall as (evs3 & Hall & Hfirst).
  rewrite Hall. split; [reflexivity|].
  change (EvConsoleError "Error: Invalid JSON in x-params attribute" :: evs1 ++ evs3)%list
    with (([EvConsoleError "Error: Invalid JSON in x-params attribute"] ++ evs1)
          ++ evs3)%list.
  apply head_fetches_local; [simpl; exact Hlocal | exact Hfirst].
Qed.

(** The theorem applies to an element of the example page that declares
    [x-get="/a"] and [x-params="{oops"]. *)
Lemma malformed_params_not_aborted_witness :
  let B := Example.browser (fun _ => Example.respond [] (Example.print Example.paragraph)) in
  let attrs := [("x-get", "/a"); ("x-params", "{oops")] in
  let w' := snd (handleAction B Example.engine (Example.trigger attrs)
                   (Example.world attrs None)) in
  head (newEvents (Example.world attrs None) w')
  = Some (EvConsoleError "Error: Invalid JSON in x-params attribute")
  /\ head (fetchesOf (newEvents (Example.world attrs None) w')) = Some "/a".
Proof.
  intros B attrs.
  refine (malformed_params_not_aborted B Example.engine (Example.trigger attrs)
            (Example.world attrs None) "{oops" "/a" 2%nat 2%nat
            eq_refl _ eq_refl eq_refl (List.Forall_nil _) (conj eq_refl eq_refl)
            eq_refl eq_refl eq_refl eq_refl _ eq_refl eq_refl eq_refl _).
  - discriminate.
  - vm_compute. discriminate.
  - intros rp Hel Hparams. unfold sendable. rewrite Hel, Hparams. split.
    + intros w. exists BodyNone. reflexivity.
    + eexists. reflexivity.
Defined.


(** C7, as it is stated, fails: the element declares [x-params="{oops"],
    which is not JSON, the engine has its default options, and the action
    is triggered; the error is reported, the action goes on, and the
    request for [/a] is issued. *)
Lemma malformed_params_counterexample :
  let B := Example.browser (fun _ => Example.respond [] (Example.print Example.paragraph)) in
  let attrs := [("x-get", "/a"); ("x-params", "{oops")] in
  let r := handleAction B Example.engine (Example.trigger attrs) (Example.world attrs None) in
  jsonParse B "{oops" = None
  /\ head (trace (snd r)) = Some (EvConsoleError "Error: Invalid JSON in x-params attribute")
  /\ fetchesOf (trace (snd r)) = ["/a"]
  /\ netCalls (snd r) = 1%nat
  /\ fetchesOf (trace (snd r)) <> [].
Proof.
  vm_compute. repeat split; congruence.
Qed.

(** * Further properties of the engine *)

(** ** The retry loop, continued *)

Section CoreReturns.

Context (B : Browser).

(** An attempt that returns a response returns the answer of its call of
    [fetch], and that answer has an HTTP-success status. *)
Lemma attempt_returns rp w r w' :
  attempt B rp w = (Ok r, w') ->
  ok r = true /\ net B (netCalls w) = Resolved r /\ netCalls w' = S (netCalls w).
Proof.
  unfold attempt, bind, fetch, emit, ret, throw, liftResult.
  destruct (Js.numTruthy (timeout rp)); simpl;
    destruct (net B (netCalls w)) as [r0|e]; simpl; try discriminate;
    destruct (ok r0) eqn:Hok; simpl;
    try (destruct (text r0); discriminate);
    intros [= <- <-]; simpl; auto.
Qed.

Lemma attemptLoop_returns rp m (k : nat) : forall a w r,
  remaining m a = k ->
  fst (attemptLoop B rp m a w) = Ok (Some r) ->
  ok r = true
  /\ exists c, (netCalls w <= c)%nat /\ net B c = Resolved r
               /\ netCalls (snd (attemptLoop B rp m a w)) = S c.
Proof.
  induction k as [|k IH]; intros a w r Hk; rewrite attemptLoop_step;
    destruct m as [|m]; simpl in *; try discriminate.
  - replace (a <? m) with false by (symmetry; apply Z.ltb_ge; lia). discriminate.
  - destruct (a <? m) eqn:Hlt; [|discriminate].
    destruct (attempt B rp w) as [[r0|e] w'] eqn:Hatt; simpl.
    + intros [= <-]. destruct (attempt_returns _ _ _ _ Hatt) as (Hok & Hnet & Hc).
      split; [exact Hok|]. exists (netCalls w). auto.
    + pose proof (attempt_calls B rp w) as Hc. rewrite Hatt in Hc. simpl in Hc.
      destruct (String.eqb (Js.err_name e) "AbortError"); [discriminate|].
      destruct (m <=? a + 1) eqn:Hge; [discriminate|].
      intros Hr. apply Z.ltb_lt in Hlt. apply Z.leb_gt in Hge.
      destruct (IH (a + 1) w' r ltac:(lia) Hr) as (Hok & c & Hle & Hnet & Hcalls).
      split; [exact Hok|]. exists c. repeat split; [lia | exact Hnet | exact Hcalls].
Qed.

End CoreReturns.

(** X1.  A response that [performRequestCore] returns has an HTTP-success
    status, and it is the answer of the last call of [fetch] that the
    function has made. *)
Theorem performRequestCore_returns_success (B : Browser) (rp : RequestParams)
    (w : World) (r : Response)
    (Hret : fst (performRequestCore B rp w) = Ok r) :
  ok r = true
  /\ exists c, (netCalls w <= c)%nat
               /\ net B c = Resolved r
               /\ netCalls (snd (performRequestCore B rp w)) = S c.
Proof.
  rewrite performRequestCore_fst in Hret. rewrite performRequestCore_snd.
  destruct (fst (attemptLoop B rp (Js.add (maxRetries rp) 1) 0 w)) as [[r0|]|e] eqn:Hloop;
    try discriminate.
  injection Hret as ->.
  exact (attemptLoop_returns B rp _ _ 0 w r eq_refl Hloop).
Qed.

(** A server that fails once and then answers: the response returned is
    the second answer. *)
Lemma performRequestCore_returns_success_witness :
  let B := Example.browser (fun k => match k with
                                     | O => Example.unreachable
                                     | _ => Example.respond [] "new"
                                     end) in
  exists c, (0 <= c)%nat
            /\ net B c = Example.respond [] "new"
            /\ netCalls (snd (performRequestCore B (Example.request Js.NaN (Js.Int 1))
                                (Example.world [] None))) = S c.
Proof.
  intros B.
  exact (proj2 (performRequestCore_returns_success B (Example.request Js.NaN (Js.Int 1))
                  (Example.world [] None)
                  (mkResponse true 200 [] (Ok "new")) eq_refl)).
Defined.

(** X2.  With a number of retries that is negative, or that is not a
    number, [performRequestCore] makes no call of [fetch]: its loop is
    left by its condition before the first attempt, and the function throws
    the error of line 1025, leaving the world as it is.  The attribute
    x-retry gives such a number: a negative value is truthy, and
    [handleAction] keeps it. *)
Theorem performRequestCore_no_attempt (B : Browser) (rp : RequestParams) (w : World)
    (Hneg : maxRetries rp = Js.NaN \/ exists n, maxRetries rp = Js.Int n /\ n < 0) :
  performRequestCore B rp w
  = (Throw (Js.newError "No response returned from performRequestCore (all attempts failed without producing a response)."), w)
  /\ (forall element v n,
        getAttributeWithInheritance element Attr.RETRY = Some v ->
        Js.parseInt (Some v) = Js.Int n -> n < 0 ->
        resolveMaxRetries element = n).
Proof.
  split.
  - unfold performRequestCore. rewrite attemptLoop_step.
    destruct Hneg as [-> | (n & -> & Hn)]; simpl; [reflexivity|].
    replace (0 <? n + 1) with false by (symmetry; apply Z.ltb_ge; lia). reflexivity.
  - intros element v n Hv Hp Hn. unfold resolveMaxRetries. rewrite Hv, Hp. simpl.
    replace (n =? 0) with false by (symmetry; apply Z.eqb_neq; lia). reflexivity.
Qed.

(** An element that declares [x-retry="-1"]: no call is made. *)
Lemma performRequestCore_no_attempt_witness :
  let B := Example.browser (fun _ => Example.respond [] "new") in
  let element := Example.trigger [("x-get", "/a"); ("x-retry", "-1")] in
  resolveMaxRetries element = -1
  /\ netCalls (snd (performRequestCore B
                      (Example.request Js.NaN (Js.Int (resolveMaxRetries element)))
                      (Example.world [] None))) = 0%nat.
Proof.
  intros B element.
  destruct (performRequestCore_no_attempt B
              (Example.request Js.NaN (Js.Int (resolveMaxRetries element)))
              (Example.world [] None)) as [Hrun Hretry].
  - right. exists (-1). split; [reflexivity | lia].
  - split.
    + apply (Hretry element "-1" (-1)); [reflexivity | reflexivity | lia].
    + rewrite Hrun. reflexivity.
Defined.

(** ** The request descriptor *)

Section Descriptor.

Context (B : Browser) (P : Partial).

(** What [extractRequestParams] reads off an element, when it returns. *)
Lemma extractRequestParams_fields (el : Element) (w w1 : World) (rp : RequestParams) :
  extractRequestParams B P el w = (Ok rp, w1) ->
  method rp = getMethod el
  /\ url rp = getAttributeWithInheritance el ("x-" +:+ Js.toLowerCase (getMethod el))
  /\ headers rp = getHeaders P el
  /\ targetSelector rp = targetSelectorOf el
  /\ (exists target,
        querySelector B (document w) (targetSelectorOf el) = Ok target
        /\ partialId rp = match target with
                          | Some t => idOf t (document w)
                          | None => None
                          end).
Proof.
  unfold extractRequestParams. rewrite targetSelector_agrees.
  unfold bind at 1. unfold query at 1.
  destruct (querySelector B (document w) (targetSelectorOf el)) as [target|e] eqn:Hq;
    [|discriminate].
  unfold bind at 1.
  assert (Hid : (match target with
                 | Some t => liveAttribute t "id"
                 | None => ret None
                 end) w
                = (Ok (match target with
                       | Some t => idOf t (document w)
                       | None => None
                       end), w)) by (destruct target; reflexivity).
  rewrite Hid. unfold bind at 1.
  match goal with
  | |- (match ?m w with _ => _ end) = _ -> _ => destruct (m w) as [[o|e] w2]
  end; [|discriminate].
  unfold ret. intros [= <- <-]. cbn [method url headers targetSelector partialId].
  repeat split. exists target. split; reflexivity.
Qed.

End Descriptor.

(** X3.  A descriptor that [prepareRequestParams] returns is complete: it
    names the element and the number of retries it was given; its address
    is the value, not empty, of the action attribute of the method; its
    target selector finds an element; and the identifier of the target, not
    empty, is the header X-Target.  An element without address, without
    target or whose target has no identifier gets no descriptor. *)
Theorem prepareRequestParams_descriptor (B : Browser) (P : Partial) (el : Element)
    (mr : Js.Number) (w w' : World) (rp : RequestParams)
    (Hret : prepareRequestParams B P el mr w = (Ok rp, w')) :
  element rp = Some el
  /\ maxRetries rp = mr
  /\ method rp = getMethod el
  /\ targetSelector rp = targetSelectorOf el
  /\ (exists u, url rp = Some u /\ u <> ""
                /\ getAttributeWithInheritance el ("x-" +:+ Js.toLowerCase (getMethod el))
                   = Some u)
  /\ (exists t i, querySelector B (document w) (targetSelectorOf el) = Ok (Some t)
                  /\ idOf t (document w) = Some i /\ i <> ""
                  /\ partialId rp = Some i
                  /\ headers rp !! "X-Target" = Some i)
  /\ (exists t', querySelector B (document w') (targetSelectorOf el) = Ok (Some t')).
Proof.
  revert Hret. unfold prepareRequestParams. unfold bind at 1.
  destruct (extractRequestParams B P el w) as [[rp0|e] w1] eqn:Hex; [|discriminate].
  destruct (extractRequestParams_fields B P el w w1 rp0 Hex)
    as (Hm & Hu & Hh & Hts & target & Hq & Hid).
  destruct (Js.truthy (url rp0)) eqn:Htu; cbn [negb]; [|discriminate].
  unfold bind at 1. unfold query at 1.
  destruct (querySelector B (document w1) (targetSelector rp0)) as [[t'|]|e] eqn:Hq';
    try discriminate.
  destruct (Js.truthy (partialId rp0)) eqn:Htp; cbn [negb]; [|discriminate].
  unfold ret. intros [= <- <-].
  cbn [method url headers targetSelector partialId element maxRetries].
  destruct (url rp0) as [u|] eqn:Hurl; [|discriminate].
  destruct (partialId rp0) as [i|] eqn:Hpid; [|discriminate].
  assert (Hne : forall s, Js.truthy (Some s) = true -> s <> "").
  { intros s Hs ->. discriminate. }
  repeat split; try assumption.
  - exists u. repeat split; [apply Hne; exact Htu | congruence].
  - destruct target as [t|]; [|discriminate].
    exists t, i. repeat split; try congruence.
    + apply Hne; exact Htp.
    + cbn [Js.toString]. apply lookup_insert_eq.
  - exists t'. rewrite <- Hts. exact Hq'.
Qed.

(** The element [div#x] of the example page with [x-get="/a"]: its
    descriptor names [/a] and the target [x]. *)
Lemma prepareRequestParams_descriptor_witness :
  let B := Example.browser (fun _ => Example.unreachable) in
  let attrs := [("x-get", "/a")] in
  exists rp w',
    prepareRequestParams B Example.engine (Example.trigger attrs) (Js.Int 1)
                         (Example.world attrs None) = (Ok rp, w')
    /\ element rp = Some (Example.trigger attrs)
    /\ maxRetries rp = Js.Int 1.
Proof.
  intros B attrs. eexists _, _. split; [reflexivity|].
  pose proof (prepareRequestParams_descriptor B Example.engine (Example.trigger attrs)
                (Js.Int 1) (Example.world attrs None) _ _ eq_refl) as H.
  split; [exact (proj1 H) | exact (proj1 (proj2 H))].
Defined.

(** ** Headers from attributes *)

Lemma getAttr_In (l : Attrs) (name v : string) :
  getAttr l name = Some v -> In (name, v) l.
Proof.
  induction l as [|[k x] l IH]; simpl; [discriminate|].
  destruct (String.eqb k name) eqn:Hk.
  - apply String.eqb_eq in Hk. intros [= ->]. left. congruence.
  - intros H. right. exact (IH H).
Qed.

Lemma getAttr_absent (l : Attrs) (name : string) :
  (forall v, ~ In (name, v) l) -> getAttr l name = None.
Proof.
  intros H. destruct (getAttr l name) as [v|] eqn:Hg; [|reflexivity].
  exfalso. exact (H v (getAttr_In _ _ _ Hg)).
Qed.

(** The header of an attribute is named [X-...]. *)
Lemma attributeHeader_name (attr : string * string) (k v : string) :
  attributeHeader attr = Some (k, v) -> Js.startsWith "X-" k = true.
Proof.
  destruct attr as [name value]. unfold attributeHeader.
  destruct (Js.startsWith "x-" name && negb (Attr.includes excludedAttributes name));
    [|discriminate].
  intros [= <- _]. unfold Js.startsWith. simpl.
  match goal with |- String.prefix _ ?s = true => destruct s; reflexivity end.
Qed.

(** An attribute whose name is in lower case does not make the header
    X-CSRF-Token. *)
Lemma attributeHeader_token (name value v : string) :
  Js.toLowerCase name = name ->
  attributeHeader (name, value) <> Some ("X-CSRF-Token", v).
Proof.
  intros Hlow. unfold attributeHeader.
  destruct (Js.startsWith "x-" name) eqn:Hx; [|discriminate].
  destruct (negb (Attr.includes excludedAttributes name)); [|discriminate].
  cbn [andb]. intros [= Hk _].
  destruct name as [|c0 [|c1 [|c2 [|c3 rest]]]]; cbn in Hk; try discriminate Hk.
  injection Hk as Hc Hrest. subst c3.
  cbn in Hlow. injection Hlow as _ _ _ H3 _. discriminate H3.
Qed.

(** X4.  Every header that [getHeaders] builds is named [X-...]; and for
    an element whose attribute names are in lower case, as the names of an
    HTML document are, the header X-CSRF-Token is the token of the engine:
    no attribute of the element replaces it, and without a token there is
    no such header. *)
Theorem getHeaders_token (P : Partial) (el : Element) :
  (forall name v, getHeaders P el !! name = Some v -> Js.startsWith "X-" name = true)
  /\ ((forall name value, In (name, value) (attributes el) ->
                          Js.toLowerCase name = name) ->
      getHeaders P el !! "X-CSRF-Token" = csrfValue P).
Proof.
  split.
  - intros name v. rewrite getHeaders_assign, assign_lookup.
    destruct (lastBinding (omap attributeHeader (attributes el)) name) as [x|] eqn:Hl.
    + intros _. unfold lastBinding in Hl. apply getAttr_In in Hl.
      apply in_rev in Hl. apply list_elem_of_In, list_elem_of_omap in Hl.
      destruct Hl as (attr & _ & Ha). exact (attributeHeader_name _ _ _ Ha).
    + rewrite withCsrf_lookup.
      destruct (String.eqb name "X-CSRF-Token") eqn:Hn.
      * apply String.eqb_eq in Hn. subst name. reflexivity.
      * rewrite lookup_empty. discriminate.
  - intros Hlow. rewrite getHeaders_assign, assign_lookup.
    assert (Hnone : lastBinding (omap attributeHeader (attributes el)) "X-CSRF-Token" = None).
    { apply getAttr_absent. intros v Hin. apply in_rev in Hin.
      apply list_elem_of_In, list_elem_of_omap in Hin.
      destruct Hin as ([name value] & Hel & Ha). apply list_elem_of_In in Hel.
      exact (attributeHeader_token name value v (Hlow _ _ Hel) Ha). }
    rewrite Hnone, withCsrf_lookup. simpl.
    destruct (csrfValue P); [reflexivity | apply lookup_empty].
Qed.

(** An element that declares an attribute [x-csrf-token] of its own, on
    the engine configured with a token: the header is the token of the
    engine. *)
Lemma getHeaders_token_witness :
  getHeaders Example.secured
    (Example.trigger [("x-get", "/a"); ("x-csrf-token", "forged")]) !! "X-CSRF-Token"
  = Some "secret".
Proof.
  apply (proj2 (getHeaders_token Example.secured
                  (Example.trigger [("x-get", "/a"); ("x-csrf-token", "forged")]))).
  intros name value Hin. simpl in Hin.
  destruct Hin as [H|[H|[H|[]]]]; injection H as <- _; reflexivity.
Defined.

(** ** Runs that only add events *)

Lemma traced_nil w : traced w [] = w.
Proof. destruct w. unfold traced. simpl. rewrite app_nil_r. reflexivity. Qed.

Lemma traced_traced w e1 e2 : traced (traced w e1) e2 = traced w (e1 ++ e2).
Proof. unfold traced. simpl. rewrite app_assoc. reflexivity. Qed.

Lemma effectless_only p {A} (m : M A) : effectless p m -> only p m.
Proof.
  intros H w. destruct (H w) as (evs & Hw & Hp). exists evs. rewrite Hw. auto.
Qed.

Lemma only_weaken (p q : Event -> bool) {A} (m : M A) :
  (forall e, p e = true -> q e = true) -> only p m -> only q m.
Proof.
  intros Hpq H w. destruct (H w) as (evs & Hw & Hp). exists evs. split; [exact Hw|].
  apply forallb_forall. intros e He. apply Hpq.
  exact (proj1 (forallb_forall p evs) Hp e He).
Qed.

Lemma effectless_ret p {A} (a : A) : effectless p (ret a).
Proof. intros w. exists []. rewrite traced_nil. auto. Qed.

Lemma effectless_throw p {A} e : effectless p (@throw A e).
Proof. intros w. exists []. rewrite traced_nil. auto. Qed.

Lemma effectless_liftResult p {A} (r : Result A) : effectless p (liftResult r).
Proof. intros w. exists []. rewrite traced_nil. auto. Qed.

Lemma effectless_getWorld p : effectless p getWorld.
Proof. intros w. exists []. rewrite traced_nil. auto. Qed.

Lemma effectless_query p B selector : effectless p (query B selector).
Proof. intros w. exists []. rewrite traced_nil. auto. Qed.

Lemma effectless_emit (p : Event -> bool) e : p e = true -> effectless p (emit e).
Proof. intros He w. exists [e]. simpl. rewrite He. auto. Qed.

Lemma effectless_emitAll (p : Event -> bool) evs :
  forallb p evs = true -> effectless p (emitAll evs).
Proof. intros He w. exists evs. auto. Qed.

Lemma effectless_bind p {A C} (m : M A) (k : A -> M C) :
  effectless p m -> (forall a, effectless p (k a)) -> effectless p (bind m k).
Proof.
  intros Hm Hk w. unfold bind. destruct (Hm w) as (e1 & Hw1 & Hp1).
  destruct (m w) as [[a|e] w1]; simpl in Hw1; subst w1.
  - destruct (Hk a (traced w e1)) as (e2 & Hw2 & Hp2).
    exists (e1 ++ e2)%list. rewrite Hw2, traced_traced, forallb_app, Hp1, Hp2. auto.
  - exists e1. auto.
Qed.

Lemma effectless_tryCatch p {A} (m : M A) (h : Js.Error -> M A) :
  effectless p m -> (forall e, effectless p (h e)) -> effectless p (tryCatch m h).
Proof.
  intros Hm Hh w. unfold tryCatch. destruct (Hm w) as (e1 & Hw1 & Hp1).
  destruct (m w) as [[a|e] w1]; simpl in Hw1; subst w1.
  - exists e1. auto.
  - destruct (Hh e (traced w e1)) as (e2 & Hw2 & Hp2).
    exists (e1 ++ e2)%list. rewrite Hw2, traced_traced, forallb_app, Hp1, Hp2. auto.
Qed.

Lemma okOnly_ret p {A} (a : A) : okOnly p (ret a).
Proof. intros w. exists a, w, []. rewrite app_nil_r. auto. Qed.

Lemma okOnly_emit (p : Event -> bool) e : p e = true -> okOnly p (emit e).
Proof. intros He w. eexists tt, _, [e]. simpl. rewrite He. auto. Qed.

Lemma okOnly_emitAll (p : Event -> bool) evs : forallb p evs = true -> okOnly p (emitAll evs).
Proof. intros He w. eexists tt, _, evs. simpl. auto. Qed.

Lemma okOnly_bind p {A C} (m : M A) (k : A -> M C) :
  okOnly p m -> (forall a, okOnly p (k a)) -> okOnly p (bind m k).
Proof.
  intros Hm Hk w. unfold bind.
  destruct (Hm w) as (a & w1 & e1 & -> & Ht1 & Hp1).
  destruct (Hk a w1) as (c & w2 & e2 & -> & Ht2 & Hp2).
  exists c, w2, (e1 ++ e2)%list. rewrite Ht2, Ht1, app_assoc, forallb_app, Hp1, Hp2. auto.
Qed.

(** A computation that returns is not affected by a [catch]. *)
Lemma okOnly_tryCatch p {A} (m : M A) (h : Js.Error -> M A) :
  okOnly p m -> okOnly p (tryCatch m h).
Proof.
  intros Hm w. unfold tryCatch. destruct (Hm w) as (a & w1 & e1 & -> & Ht1 & Hp1).
  exists a, w1, e1. auto.
Qed.

Ltac effectless_tac :=
  repeat first
    [ apply effectless_ret | apply effectless_throw | apply effectless_getWorld
    | apply effectless_liftResult | apply effectless_query
    | apply effectless_emit; reflexivity
    | assumption
    | apply effectless_bind; [|intros ?]
    | apply effectless_tryCatch; [|intros ?]
    | match goal with
      | |- effectless _ (match ?x with _ => _ end) => destruct x
      | |- effectless _ (if ?x then _ else _) => destruct x
      end ].

(** ** Hooks and middleware *)

Lemma hookCalls_app (e1 e2 : list Event) :
  hookCalls (e1 ++ e2) = (hookCalls e1 ++ hookCalls e2)%list.
Proof. apply omap_app. Qed.

Lemma notHook_calls (evs : list Event) : forallb notHook evs = true -> hookCalls evs = [].
Proof.
  induction evs as [|e evs IH]; [reflexivity|]. simpl. intros H.
  apply andb_true_iff in H. destruct H as [He H].
  destruct e; try discriminate; exact (IH H).
Qed.

Section Hooks.

Context (B : Browser) (P : Partial).

Lemma effectless_call p (cb : Callback) : effectless p (call cb).
Proof. destruct cb; [apply effectless_ret | apply effectless_throw]. Qed.

Lemma okOnly_setInnerHTML (p : Event -> bool) i content :
  p (EvParse content) = true -> okOnly p (setInnerHTML B i content).
Proof.
  intros Hp w. unfold setInnerHTML. run_steps.
  destruct (Dom.instantiateAll _ _) as [nodes k]. run_steps.
  eexists tt, _, [EvParse content]. simpl. rewrite Hp. repeat split.
Qed.

(** With a callback [onError] that returns, or without one, [handleError]
    returns; it calls no hook. *)
Lemma okOnly_handleError error element target :
  (forall e, onError P <> Some (Throws e)) ->
  okOnly notHook (handleError B P error element target).
Proof.
  intros Hcb. unfold handleError. destruct (onError P) as [[|e]|].
  - apply okOnly_bind; [apply okOnly_emit; reflexivity|]. intros _. apply okOnly_ret.
  - exfalso. exact (Hcb e eq_refl).
  - apply okOnly_bind; [apply okOnly_emit; reflexivity|]. intros _.
    destruct target as [[i|]|];
      [apply okOnly_setInnerHTML; reflexivity | apply okOnly_ret..].
Qed.

Lemma runCallbacks_calls hookName callbacks :
  (forall e, onError P <> Some (Throws e)) ->
  forall index element target w,
    exists w' evs,
      runCallbacks B P hookName callbacks index element target w = (Ok tt, w')
      /\ trace w' = (trace w ++ evs)%list
      /\ hookCalls evs = map (pair hookName) (seq index (length callbacks)).
Proof.
  intros Hcb. induction callbacks as [|cb rest IH]; intros index element target w.
  - exists w, []. rewrite app_nil_r. repeat split.
  - cbn [runCallbacks length seq map]. unfold bind at 1.
    assert (Hstep : exists w1 evs1,
               tryCatch (emit (EvHook hookName index);;; call cb)
                        (fun error => handleError B P error element target) w
               = (Ok tt, w1)
               /\ trace w1 = (trace w ++ evs1)%list
               /\ hookCalls evs1 = [(hookName, index)]).
    { unfold tryCatch, bind. destruct cb as [|e]; run_steps.
      - eexists _, [EvHook hookName index]. repeat split.
      - match goal with
        | |- context [handleError B P e element target ?w1] =>
            destruct (okOnly_handleError e element target Hcb w1)
              as ([] & w2 & evs & -> & H2 & Hl)
        end.
        exists w2, (EvHook hookName index :: evs). repeat split.
        + rewrite H2. simpl. rewrite <- app_assoc. reflexivity.
        + simpl. rewrite (notHook_calls _ Hl). reflexivity. }
    destruct Hstep as (w1 & evs1 & -> & Ht1 & Hc1).
    destruct (IH (S index) element target w1) as (w2 & evs2 & -> & Ht2 & Hc2).
    exists w2, (evs1 ++ evs2)%list. repeat split.
    + rewrite Ht2, Ht1, app_assoc. reflexivity.
    + rewrite hookCalls_app, Hc1, Hc2. reflexivity.
Qed.

End Hooks.

(** X5.  When the callback [onError] of the engine does not throw,
    [runHooks] returns, and it has called every callback registered for
    the hook, once each and in the order of registration: a callback that
    throws does not keep the later ones from running.  The name of the
    hook is one for which [this.hooks[hookName]] is an array or is
    [undefined]: not the name of a property that objects inherit. *)
Theorem runHooks_calls_all (B : Browser) (P : Partial) (hookName : string)
    (element : option nat) (targetElement : option Target) (w : World)
    (Hname : ~ In hookName Events.objectPrototype)
    (Hhandler : forall e, onError P <> Some (Throws e)) :
  fst (runHooks B P hookName element targetElement w) = Ok tt
  /\ hookCalls (newEvents w (snd (runHooks B P hookName element targetElement w)))
     = map (pair hookName) (seq 0 (length (hooks P hookName))).
Proof.
  destruct (runCallbacks_calls B P hookName (hooks P hookName) Hhandler 0 element
              targetElement w) as (w' & evs & Hrun & Ht & Hc).
  unfold runHooks. rewrite Hrun. simpl. split; [reflexivity|].
  rewrite (newEvents_app _ _ _ Ht). exact Hc.
Qed.

(** An engine with three hooks on [onAction], of which the first two
    throw: the three are called. *)
Lemma runHooks_calls_all_witness :
  let P := mkPartial None None "innerHTML" false 0
             (fun _ => [Throws (Js.newError "first"); Throws (Js.newError "second"); Returns])
             [] in
  let B := Example.browser (fun _ => Example.unreachable) in
  hookCalls (newEvents (Example.world [] None)
               (snd (runHooks B P "onAction" (Some 2%nat) (Some (TNode 3))
                       (Example.world [] None))))
  = [("onAction", 0%nat); ("onAction", 1%nat); ("onAction", 2%nat)].
Proof.
  intros P B.
  refine (proj2 (runHooks_calls_all B P "onAction" (Some 2%nat) (Some (TNode 3))
                   (Example.world [] None) _ _)).
  - intros Hin. repeat (destruct Hin as [Hin|Hin]; [discriminate Hin|]). exact Hin.
  - intros e. discriminate.
Defined.

Section Middleware.

Context (B : Browser) (P : Partial).

(** Middleware that calls on hands over to what follows it. *)
Lemma runner_next (stack rest : list Middleware) (finalHandler : M string) :
  Forall (fun mw => mw = MwNext) stack ->
  forall index w,
    runner (stack ++ rest) index finalHandler w
    = runner rest (index + length stack) finalHandler
        (traced w (map EvMiddleware (seq index (length stack)))).
Proof.
  induction 1 as [|mw stack -> _ IH]; intros index w.
  - simpl. rewrite traced_nil, Nat.add_0_r. reflexivity.
  - cbn [app runner length seq map]. unfold bind at 1, emit at 1.
    rewrite IH. change (mkWorld _ _ _ _ (trace w ++ [EvMiddleware index]))
      with (traced w [EvMiddleware index]).
    rewrite traced_traced. f_equal. lia.
Qed.

Lemma effectless_handleError_detached error element :
  effectless reporting (handleError B P error element None).
Proof.
  unfold handleError. destruct (onError P).
  - apply effectless_bind; [apply effectless_emit; reflexivity|].
    intros _. apply effectless_call.
  - effectless_tac.
Qed.

Lemma effectless_runCallbacks_detached hookName callbacks : forall index element,
  effectless reporting (runCallbacks B P hookName callbacks index element None).
Proof.
  induction callbacks as [|cb rest IH]; intros index element; simpl.
  - apply effectless_ret.
  - apply effectless_bind; [|intros _; apply IH].
    apply effectless_tryCatch.
    + apply effectless_bind; [apply effectless_emit; reflexivity|].
      intros _. apply effectless_call.
    + intros e. apply effectless_handleError_detached.
Qed.

End Middleware.

Lemma reporting_fetches (evs : list Event) :
  forallb reporting evs = true -> fetchesOf evs = [] /\ middlewareCalls evs = [].
Proof.
  induction evs as [|e evs IH]; [split; reflexivity|]. simpl. intros H.
  apply andb_true_iff in H. destruct H as [He H].
  destruct e; try discriminate; exact (IH H).
Qed.

Lemma middlewareCalls_indices (l : list nat) : middlewareCalls (map EvMiddleware l) = l.
Proof. induction l as [|i l IH]; [reflexivity|]. simpl. f_equal. exact IH. Qed.

Lemma fetchesOf_middleware (l : list nat) : fetchesOf (map EvMiddleware l) = [].
Proof. induction l as [|i l IH]; [reflexivity | exact IH]. Qed.

(** X6.  A middleware that returns without calling [next] ends the chain:
    when the middleware before it call on, [runMiddleware] returns its
    value, and the middleware after it and the final handler do not run;
    [performRequest] then makes no call of [fetch] and changes nothing of
    the world but its trace, and when the callback [onError] does not
    throw it returns the value of the middleware. *)
Theorem runMiddleware_short_circuit (B : Browser) (P : Partial) (rp : RequestParams)
    (pre post : list Middleware) (value : string) (w : World)
    (Hstack : middleware P = (pre ++ MwShortCircuit value :: post)%list)
    (Hpre : Forall (fun mw => mw = MwNext) pre) :
  (forall finalHandler,
      runMiddleware P finalHandler w
      = (Ok value, traced w (map EvMiddleware (seq 0 (S (length pre))))))
  /\ (exists evs, snd (performRequest B P rp w) = traced w evs /\ fetchesOf evs = [])
  /\ ((forall e, onError P <> Some (Throws e)) ->
      fst (performRequest B P rp w) = Ok value
      /\ middlewareCalls (newEvents w (snd (performRequest B P rp w)))
         = seq 0 (S (length pre))).
Proof.
  assert (Hrun : forall finalHandler w0,
             runMiddleware P finalHandler w0
             = (Ok value, traced w0 (map EvMiddleware (seq 0 (S (length pre)))))).
  { intros fh w0. unfold runMiddleware. rewrite Hstack, (runner_next pre _ fh Hpre).
    cbn [runner]. unfold bind, emit, ret. cbn [trace document lastResponse nextId netCalls].
    change (mkWorld ?d ?l ?n ?c (trace ?x ++ ?e)) with (traced (mkWorld d l n c (trace x)) e).
    rewrite seq_S, map_app. simpl. unfold traced. simpl.
    rewrite <- app_assoc. reflexivity. }
  destruct (effectless_runCallbacks_detached B P "beforeRequest"
              (hooks P "beforeRequest") 0 None w) as (e1 & Hw1 & Hl1).
  destruct (reporting_fetches e1 Hl1) as [Hf1 Hm1].
  split; [intros fh; apply Hrun|]. split.
  - unfold performRequest, bind, runHooks.
    destruct (runCallbacks B P "beforeRequest" (hooks P "beforeRequest") 0 None None w)
      as [[[]|e] w1]; simpl in Hw1; subst w1.
    + rewrite Hrun. simpl. rewrite traced_traced. eexists. split; [reflexivity|].
      rewrite fetchesOf_app, Hf1. apply fetchesOf_middleware.
    + exists e1. auto.
  - intros Hcb.
    destruct (runCallbacks_calls B P "beforeRequest" (hooks P "beforeRequest") Hcb 0 None
                None w) as (w1 & evs & Hok & _ & _).
    unfold performRequest, bind, runHooks. rewrite Hok in *. simpl in Hw1. subst w1.
    rewrite Hrun. cbn [fst snd]. split; [reflexivity|].
    rewrite traced_traced.
    rewrite (newEvents_app w (traced w (e1 ++ map EvMiddleware (seq 0 (S (length pre)))))
               (e1 ++ map EvMiddleware (seq 0 (S (length pre))))%list eq_refl).
    unfold middlewareCalls at 1. rewrite omap_app. fold (middlewareCalls e1).
    rewrite Hm1. apply middlewareCalls_indices.
Qed.

(** An engine whose second middleware answers from a cache: the third
    middleware and the network are not reached. *)
Lemma runMiddleware_short_circuit_witness :
  let P := mkPartial None None "innerHTML" false 0 (fun _ => [])
             [MwNext; MwShortCircuit "cached"; MwNext] in
  let B := Example.browser (fun _ => Example.respond [] "new") in
  let r := performRequest B P (Example.request Js.NaN (Js.Int 1)) (Example.world [] None) in
  fst r = Ok "cached"
  /\ middlewareCalls (newEvents (Example.world [] None) (snd r)) = [0%nat; 1%nat].
Proof.
  intros P B.
  refine (proj2 (proj2 (runMiddleware_short_circuit B P (Example.request Js.NaN (Js.Int 1))
                          [MwNext] [MwNext] "cached" (Example.world [] None) eq_refl _)) _).
  - repeat constructor.
  - intros e. discriminate.
Defined.

(** *** Registration *)

Section Registration.

Context (B : Browser).

Lemma handleError_onError (P P' : Partial) error element target :
  onError P' = onError P ->
  handleError B P' error element target = handleError B P error element target.
Proof. intros H. unfold handleError. rewrite H. reflexivity. Qed.

Lemma runCallbacks_onError (P P' : Partial) hookName callbacks :
  onError P' = onError P ->
  forall index element target w,
    runCallbacks B P' hookName callbacks index element target w
    = runCallbacks B P hookName callbacks index element target w.
Proof.
  intros H. induction callbacks as [|cb rest IH]; intros index element target w;
    [reflexivity|].
  cbn [runCallbacks]. unfold bind, tryCatch, emit.
  match goal with
  | |- context [call cb ?w0] => destruct (call cb w0) as [[[]|e] w1]
  end; [apply IH|].
  rewrite (handleError_onError P P' e element target H).
  destruct (handleError B P e element target w1) as [[[]|e1] w2]; [apply IH | reflexivity].
Qed.

Lemma bind_assoc {A C D} (m : M A) (k : A -> M C) (h : C -> M D) (w : World) :
  bind (bind m k) h w = bind m (fun a => bind (k a) h) w.
Proof. unfold bind. destruct (m w) as [[a|e] w1]; reflexivity. Qed.

Lemma bind_ext {A C} (m : M A) (k k' : A -> M C) (w : World) :
  (forall a w1, k a w1 = k' a w1) -> bind m k w = bind m k' w.
Proof. intros H. unfold bind. destruct (m w) as [[a|e] w1]; [apply H | reflexivity]. Qed.

Lemma runCallbacks_app (P : Partial) hookName l1 l2 : forall index element target w,
  runCallbacks B P hookName (l1 ++ l2) index element target w
  = bind (runCallbacks B P hookName l1 index element target)
         (fun _ => runCallbacks B P hookName l2 (index + length l1) element target) w.
Proof.
  induction l1 as [|cb l1 IH]; intros index element target w.
  - cbn [app runCallbacks length]. unfold bind, ret. rewrite Nat.add_0_r. reflexivity.
  - cbn [app runCallbacks length]. rewrite bind_assoc. apply bind_ext. intros _ w1.
    rewrite IH. replace (S index + length l1)%nat with (index + S (length l1))%nat by lia.
    reflexivity.
Qed.

Lemma runner_app (finalHandler : M string) s1 s2 : forall index w,
  runner (s1 ++ s2) index finalHandler w
  = runner s1 index (runner s2 (index + length s1) finalHandler) w.
Proof.
  induction s1 as [|mw s1 IH]; intros index w.
  - cbn [app runner length]. rewrite Nat.add_0_r. reflexivity.
  - cbn [app runner length]. unfold bind, emit.
    destruct mw; [|reflexivity..].
    rewrite IH. replace (S index + length s1)%nat with (index + S (length s1))%nat by lia.
    reflexivity.
Qed.

End Registration.

(** X23.  Hooks and middleware run in the order of their registration.
    After [addHook] the new callback is the last of its hook: [runHooks]
    runs the callbacks that were there, then the new one, and the other
    hooks are as before.  After [use] the new middleware is the innermost:
    it runs when the earlier middleware have called [next], just before
    the final handler. *)
Theorem registration_order (B : Browser) (P P' : Partial) (hookName : string)
    (cb : Callback) (mw : Middleware)
    (Hadd : addHook hookName (Some cb) P = (Ok P', [])) :
  (forall other, other <> hookName -> hooks P' other = hooks P other)
  /\ (forall element targetElement w,
        runHooks B P' hookName element targetElement w
        = bind (runHooks B P hookName element targetElement)
               (fun _ =>
                  tryCatch (emit (EvHook hookName (length (hooks P hookName)));;; call cb)
                           (fun error => handleError B P error element targetElement)) w)
  /\ (forall finalHandler w,
        runMiddleware (fst (use (Some mw) P)) finalHandler w
        = runner (middleware P) 0
            (runner [mw] (length (middleware P)) finalHandler) w).
Proof.
  revert Hadd. unfold addHook.
  destruct (Attr.includes Events.objectPrototype hookName); [discriminate|].
  intros [= <-]. split; [|split].
  - intros other Hne. cbn [withHooks hooks].
    destruct (String.eqb other hookName) eqn:He; [|reflexivity].
    apply String.eqb_eq in He. contradiction.
  - intros element targetElement w. unfold runHooks. cbn [withHooks hooks].
    rewrite String.eqb_refl.
    rewrite (runCallbacks_onError B P (withHooks P _ _) hookName _ eq_refl), runCallbacks_app.
    apply bind_ext. intros _ w1. cbn [runCallbacks Nat.add]. unfold bind at 1.
    match goal with
    | |- match ?m w1 with _ => _ end = _ => destruct (m w1) as [[[]|e] w2]
    end; reflexivity.
  - intros finalHandler w. unfold runMiddleware, use. cbn [fst withHooks middleware].
    apply runner_app.
Qed.

(** A second hook on [onAction]: it keeps its place after the first. *)
Lemma registration_order_witness :
  let B := Example.browser (fun _ => Example.unreachable) in
  exists P',
    addHook "onAction" (Some Returns) Example.hooked = (Ok P', [])
    /\ hookCalls (trace (snd (runHooks B P' "onAction" (Some 2%nat) None
                                (Example.world [] None))))
       = [("onAction", 0%nat); ("onAction", 1%nat)].
Proof.
  intros B. eexists. split; [reflexivity|].
  rewrite (proj1 (proj2 (registration_order B Example.hooked _ "onAction" Returns MwNext
                           eq_refl))).
  reflexivity.
Defined.

(** ** The indicator and the loading class *)

Lemma only_ret p {A} (a : A) : only p (ret a).
Proof. intros w. exists []. split; [symmetry; apply app_nil_r | reflexivity]. Qed.

Lemma only_throw p {A} e : only p (@throw A e).
Proof. intros w. exists []. split; [symmetry; apply app_nil_r | reflexivity]. Qed.

Lemma only_liftResult p {A} (r : Result A) : only p (liftResult r).
Proof. intros w. exists []. split; [symmetry; apply app_nil_r | reflexivity]. Qed.

Lemma only_getWorld p : only p getWorld.
Proof. intros w. exists []. split; [symmetry; apply app_nil_r | reflexivity]. Qed.

Lemma only_setDocument p d : only p (setDocument d).
Proof. intros w. exists []. split; [symmetry; apply app_nil_r | reflexivity]. Qed.

Lemma only_setNextId p k : only p (setNextId k).
Proof. intros w. exists []. split; [symmetry; apply app_nil_r | reflexivity]. Qed.

Lemma only_setLastResponse p r : only p (setLastResponse r).
Proof. intros w. exists []. split; [symmetry; apply app_nil_r | reflexivity]. Qed.

Lemma only_query p B selector : only p (query B selector).
Proof. intros w. exists []. split; [symmetry; apply app_nil_r | reflexivity]. Qed.

Lemma only_liveAttribute p i name : only p (liveAttribute i name).
Proof. intros w. exists []. split; [symmetry; apply app_nil_r | reflexivity]. Qed.

Lemma only_emitAll (p : Event -> bool) evs : forallb p evs = true -> only p (emitAll evs).
Proof. intros H w. exists evs. split; [reflexivity | exact H]. Qed.

Lemma only_emit (p : Event -> bool) e : p e = true -> only p (emit e).
Proof. intros H w. exists [e]. split; [reflexivity | simpl; rewrite H; reflexivity]. Qed.

Lemma only_bind p {A C} (m : M A) (k : A -> M C) :
  only p m -> (forall a, only p (k a)) -> only p (bind m k).
Proof.
  intros Hm Hk w. unfold bind. destruct (Hm w) as (e1 & H1 & Hs1).
  destruct (m w) as [[a|e] w1]; simpl in *; [|exists e1; split; assumption].
  destruct (Hk a w1) as (e2 & H2 & Hs2). exists (e1 ++ e2)%list. split.
  - rewrite H2, H1. symmetry. apply app_assoc.
  - rewrite forallb_app, Hs1, Hs2. reflexivity.
Qed.

Lemma only_tryCatch p {A} (m : M A) (h : Js.Error -> M A) :
  only p m -> (forall e, only p (h e)) -> only p (tryCatch m h).
Proof.
  intros Hm Hh w. unfold tryCatch. destruct (Hm w) as (e1 & H1 & Hs1).
  destruct (m w) as [[a|e] w1]; simpl in *; [exists e1; split; assumption|].
  destruct (Hh e w1) as (e2 & H2 & Hs2). exists (e1 ++ e2)%list. split.
  - rewrite H2, H1. symmetry. apply app_assoc.
  - rewrite forallb_app, Hs1, Hs2. reflexivity.
Qed.

Lemma only_call p (cb : Callback) : only p (call cb).
Proof. destruct cb; [apply only_ret | apply only_throw]. Qed.

Lemma only_currentElement p e : only p (currentElement e).
Proof. intros w. exists []. split; [symmetry; apply app_nil_r | reflexivity]. Qed.

Lemma only_validateToken p token : only p (validateToken token).
Proof.
  unfold validateToken. destruct (String.eqb token ""); [apply only_throw|].
  destruct (Js.hasAsciiWhitespace token); [apply only_throw | apply only_ret].
Qed.

Ltac only_tac :=
  repeat first
    [ apply only_ret | apply only_throw | apply only_getWorld | apply only_setDocument
    | apply only_setNextId | apply only_setLastResponse | apply only_liftResult
    | apply only_query | apply only_liveAttribute | apply only_call
    | apply only_emit; reflexivity
    | assumption
    | apply only_bind; [|intros ?]
    | apply only_tryCatch; [|intros ?]
    | match goal with
      | |- only _ (match ?x with _ => _ end) => destruct x
      | |- only _ (if ?x then _ else _) => destruct x
      | |- only _ (let '(_, _) := ?x in _) => destruct x
      end ].

(** Setting elements up shows no indicator and adds no loading class. *)
Lemma setup_calm (P : Partial) self m k :
  forallb calm (snd (setupSSEElement self m k)) = true
  /\ forallb calm (snd (setupElement P self m k)) = true.
Proof.
  split.
  - unfold setupSSEElement. destruct (sseInitialized m); [reflexivity|].
    destruct (negb _); reflexivity.
  - unfold setupElement, setupInfiniteScroll. destruct (initialized m); [reflexivity|].
    destruct (hasAttribute self Attr.INFINITE_SCROLL).
    + destruct (scrollStopped m); [reflexivity|]. destruct (sentinelElement m); reflexivity.
    + destruct (getAttributeWithInheritance self Attr.DEBOUNCE) as [v|]; [|reflexivity].
      destruct (Js.parseInt (Some v)) as [|z]; [reflexivity|].
      destruct (0 <=? z); reflexivity.
Qed.

Lemma scanNode_calm (P : Partial) n : forall parent k,
  forallb calm (snd (scanNode P parent n k)) = true.
Proof.
  induction n as [d|i t a m cs IH] using Node_tree_ind; intros parent k; [reflexivity|].
  rewrite scanNode_elem. cbv zeta.
  assert (Hsetup : forallb calm
                     (snd (if isDeclarative a
                           then (if hasAttr a Attr.SSE
                                 then setupSSEElement (mkElement i t a parent) m k
                                 else setupElement P (mkElement i t a parent) m k)
                           else (m, [], k, []))) = true).
  { destruct (setup_calm P (mkElement i t a parent) m k) as [H1 H2].
    destruct (isDeclarative a); [|reflexivity]. destruct (hasAttr a Attr.SSE); assumption. }
  destruct (if isDeclarative a then _ else _) as [[[m' sentinel] next1] evs1].
  simpl in Hsetup.
  assert (Hall : forall k0,
             forallb calm (snd (scanAll P (Some (mkElement i t a parent)) cs k0)) = true).
  { induction IH as [|c cs Hc _ IHcs]; intros k0; [reflexivity|].
    cbn [scanAll]. specialize (Hc (Some (mkElement i t a parent)) k0).
    destruct (scanNode P _ c k0) as [[c' k1] e1]. specialize (IHcs k1).
    destruct (scanAll P _ cs k1) as [[r' k2] e2]. simpl in *.
    rewrite forallb_app, Hc, IHcs. reflexivity. }
  specialize (Hall next1). destruct (scanAll P _ cs next1) as [[cs' next2] evs2].
  destruct (Dom.isTemplate t); simpl in *; rewrite forallb_app, Hsetup;
    [reflexivity | rewrite Hall; reflexivity].
Qed.

Lemma scanAll_calm (P : Partial) parent l : forall k,
  forallb calm (snd (scanAll P parent l k)) = true.
Proof.
  induction l as [|c l IH]; intros k; [reflexivity|].
  cbn [scanAll]. pose proof (scanNode_calm P c parent k) as Hc.
  destruct (scanNode P parent c k) as [[c' k1] e1]. specialize (IH k1).
  destruct (scanAll P parent l k1) as [[r' k2] e2]. simpl in *.
  rewrite forallb_app, Hc, IH. reflexivity.
Qed.

Section Calm.

Context (B : Browser) (P : Partial).

Lemma calm_parseFragment content : only calm (parseFragment B content).
Proof. unfold parseFragment. only_tac. Qed.

Lemma calm_scanFragment fragment : only calm (scanFragment P fragment).
Proof.
  unfold scanFragment. apply only_bind; [apply only_getWorld|]. intros w.
  pose proof (scanAll_calm P None fragment (nextId w)) as Hq.
  destruct (scanAll P None fragment (nextId w)) as [[fragment' k] evs].
  apply only_bind; [apply only_setNextId|]. intros _.
  apply only_bind; [apply only_emitAll; exact Hq|]. intros _. apply only_ret.
Qed.

Lemma calm_scanForElements container : only calm (scanForElements P container).
Proof.
  unfold scanForElements. apply only_bind; [apply only_getWorld|]. intros w.
  destruct container as [|i|n|]; [| | |apply only_throw].
  - pose proof (scanAll_calm P None (document w) (nextId w)) as Hq.
    destruct (scanAll P None (document w) (nextId w)) as [[d k] evs].
    apply only_bind; [apply only_setDocument|]. intros _.
    apply only_bind; [apply only_setNextId|]. intros _. apply only_emitAll, Hq.
  - destruct (Dom.elementOf i (document w)) as [self|]; [|apply only_ret].
    destruct (Dom.findInForest i (document w)) as [n|]; [|apply only_ret].
    pose proof (scanAll_calm P (Some self) (Dom.childrenOf n) (nextId w)) as Hq.
    destruct (scanAll P (Some self) (Dom.childrenOf n) (nextId w)) as [[cs k] evs].
    apply only_bind; [apply only_setDocument|]. intros _.
    apply only_bind; [apply only_setNextId|]. intros _. apply only_emitAll, Hq.
  - destruct n as [i t a m cs|d]; [|apply only_ret].
    pose proof (scanAll_calm P (Some (mkElement i t a None)) cs (nextId w)) as Hq.
    destruct (scanAll P (Some (mkElement i t a None)) cs (nextId w)) as [[cs' k] evs].
    apply only_bind; [apply only_setNextId|]. intros _. apply only_emitAll, Hq.
Qed.

Lemma calm_rewriteTarget i f : only calm (rewriteTarget i f).
Proof. unfold rewriteTarget. only_tac. Qed.

Lemma calm_focusElement i : only calm (focusElement i).
Proof.
  unfold focusElement, setAttribute.
  apply only_bind; [apply only_liveAttribute|]. intros tabindex.
  apply only_bind; [|intros _; apply only_emit; reflexivity].
  destruct tabindex; [apply only_ret | apply calm_rewriteTarget].
Qed.

Lemma calm_setInnerHTML i content : only calm (setInnerHTML B i content).
Proof.
  unfold setInnerHTML. apply only_bind; [apply calm_parseFragment|]. intros nodes.
  apply calm_rewriteTarget.
Qed.

Lemma calm_insertAdjacentHTML i position content :
  only calm (insertAdjacentHTML B i position content).
Proof.
  unfold insertAdjacentHTML. apply only_bind; [apply only_getWorld|]. intros w.
  destruct (_ && _); [apply only_throw|].
  apply only_bind; [apply calm_parseFragment|]. intros nodes. apply calm_rewriteTarget.
Qed.

Lemma calm_performSwap target content option :
  only calm (performSwap B P target content option).
Proof.
  unfold performSwap.
  apply only_bind; [apply only_emit; reflexivity|]. intros _.
  apply only_bind; [apply calm_parseFragment|]. intros fragment.
  apply only_bind; [apply calm_scanFragment|]. intros fragment'.
  destruct (String.eqb option "outerHTML");
    [destruct target; [apply calm_rewriteTarget | apply only_throw]|].
  destruct (String.eqb option "innerHTML");
    [destruct target; [apply calm_rewriteTarget | apply only_throw]|].
  destruct (Attr.includes _ option);
    [destruct target; [apply calm_insertAdjacentHTML | apply only_throw]|].
  apply only_bind; [apply only_emit; reflexivity|]. intros _.
  destruct target; [apply calm_setInnerHTML | apply only_ret].
Qed.

Lemma calm_handleError error element target :
  only calm (handleError B P error element target).
Proof.
  unfold handleError. destruct (onError P); [only_tac|].
  apply only_bind; [apply only_emit; reflexivity|]. intros _.
  destruct target as [[i|]|]; [apply calm_setInnerHTML | apply only_ret..].
Qed.

Lemma calm_runCallbacks hookName callbacks : forall index element target,
  only calm (runCallbacks B P hookName callbacks index element target).
Proof.
  induction callbacks as [|cb rest IH]; intros index element target; simpl.
  - apply only_ret.
  - apply only_bind; [|intros _; apply IH].
    apply only_tryCatch; [only_tac | intros e; apply calm_handleError].
Qed.

Lemma calm_runHooks hookName element target :
  only calm (runHooks B P hookName element target).
Proof. apply calm_runCallbacks. Qed.

Lemma calm_oobSwap oobElement : only calm (oobSwap B P oobElement).
Proof.
  unfold oobSwap. destruct (negb _); [apply only_emit; reflexivity|].
  apply only_bind; [apply only_getWorld|]. intros w.
  destruct (Dom.getElementById _ (document w)); [|apply only_emit; reflexivity].
  apply only_bind; [apply calm_performSwap|]. intros _.
  apply only_bind; [apply only_getWorld|]. intros w'.
  destruct (Dom.getElementById _ (document w')); [apply calm_scanForElements | apply only_ret].
Qed.

Lemma calm_handleOobSwapping oobElements : only calm (handleOobSwapping B P oobElements).
Proof.
  induction oobElements as [|e rest IH]; simpl; [apply only_ret|].
  apply only_bind; [apply calm_oobSwap | intros _; exact IH].
Qed.

Lemma calm_handleResponseEvents : only calm handleResponseEvents.
Proof.
  unfold handleResponseEvents. apply only_bind; [apply only_getWorld|]. intros w.
  destruct (lastResponse w) as [r|]; [|apply only_ret].
  apply only_emitAll.
  induction (headerNames (resHeaders r)) as [|name hs IH]; [reflexivity|].
  cbn [flat_map]. rewrite forallb_app, IH.
  destruct (Js.startsWith "x-event-" (Js.toLowerCase name)); reflexivity.
Qed.

Lemma calm_stopInfiniteScroll i : only calm (stopInfiniteScroll i).
Proof. unfold stopInfiniteScroll. only_tac. Qed.

Lemma calm_settle before final oobElements action targetElement element :
  only calm (settle B P before final oobElements action targetElement element).
Proof.
  unfold settle.
  apply only_bind; [apply only_emit; reflexivity|]. intros _.
  apply only_bind; [apply only_getWorld|]. intros w.
  apply only_bind; [apply calm_scanForElements|]. intros _.
  apply only_bind; [apply calm_handleOobSwapping|]. intros _.
  apply only_bind; [apply calm_handleResponseEvents|]. intros _.
  apply only_bind; [|intros _; apply calm_runHooks].
  destruct (_ && _); [apply calm_stopInfiniteScroll | apply only_ret].
Qed.

Lemma calm_parseFromString responseText : only calm (parseFromString B responseText).
Proof. unfold parseFromString. only_tac. Qed.

Lemma calm_determineTarget selector targetElement :
  only calm (determineTarget B selector targetElement).
Proof. unfold determineTarget. only_tac. Qed.

Lemma calm_processResponse responseText targetElement element :
  only calm (processResponse B P responseText targetElement element).
Proof.
  unfold processResponse.
  apply only_bind; [apply only_emit; reflexivity|]. intros _.
  apply only_bind; [apply calm_parseFromString|]. intros doc.
  destruct (Parsed.extractOob doc) as [doc' oob].
  apply only_bind; [apply only_getWorld|]. intros w.
  destruct (lastResponse w) as [r|]; [|apply only_throw].
  apply only_bind; [apply calm_determineTarget|]. intros final.
  apply only_bind; [destruct (Parsed.body doc'); only_tac|]. intros content.
  apply only_bind; [apply only_getWorld|]. intros before.
  apply only_bind; [apply calm_performSwap|]. intros _. apply calm_settle.
Qed.

Lemma calm_attempt rp : only calm (attempt B rp).
Proof.
  unfold attempt.
  apply only_bind; [destruct (Js.numTruthy (timeout rp)); only_tac|]. intros timeoutId.
  apply only_bind.
  - intros w. unfold fetch. eexists [_].
    destruct (net B (netCalls w)); simpl; split; reflexivity.
  - intros response. only_tac.
Qed.

Lemma calm_attemptLoop rp m (k : nat) : forall a w,
  remaining m a = k ->
  exists evs, trace (snd (attemptLoop B rp m a w)) = (trace w ++ evs)%list
              /\ forallb calm evs = true.
Proof.
  induction k as [|k IH]; intros a w Hk; rewrite attemptLoop_step;
    destruct m as [|m]; simpl in *;
    try (exists []; split; [symmetry; apply app_nil_r | reflexivity]).
  - replace (a <? m) with false by (symmetry; apply Z.ltb_ge; lia).
    exists []. split; [symmetry; apply app_nil_r | reflexivity].
  - destruct (a <? m) eqn:Hlt;
      [|exists []; split; [symmetry; apply app_nil_r | reflexivity]].
    destruct (calm_attempt rp w) as (e1 & H1 & Hc1).
    destruct (attempt B rp w) as [[r|e] w']; simpl in *; [exists e1; auto|].
    destruct (String.eqb (Js.err_name e) "AbortError"); [exists e1; auto|].
    destruct (m <=? a + 1) eqn:Hge; [exists e1; auto|].
    apply Z.ltb_lt in Hlt. apply Z.leb_gt in Hge.
    destruct (IH (a + 1) w' ltac:(lia)) as (e2 & H2 & Hc2).
    exists (e1 ++ e2)%list. rewrite H2, H1, app_assoc, forallb_app, Hc1, Hc2. auto.
Qed.

Lemma calm_performRequestCore rp : only calm (performRequestCore B rp).
Proof.
  intros w. rewrite performRequestCore_snd.
  exact (calm_attemptLoop rp _ _ 0 w eq_refl).
Qed.

Lemma calm_prepareRequestBody element serializeType paramsObject :
  only calm (prepareRequestBody B element serializeType paramsObject).
Proof. unfold prepareRequestBody. only_tac. Qed.

Lemma calm_finalHandler rp : only calm (finalHandler B P rp).
Proof.
  unfold finalHandler.
  apply only_bind; [apply calm_prepareRequestBody|]. intros body.
  apply only_bind; [apply only_liftResult|]. intros url.
  apply only_bind; [apply only_liftResult|]. intros headers.
  apply only_bind.
  - apply only_tryCatch; [apply calm_performRequestCore | intros e; only_tac].
  - intros response.
    apply only_bind; [apply only_setLastResponse|]. intros _.
    apply only_bind; [apply calm_runHooks|]. intros _. apply only_liftResult.
Qed.

Lemma calm_runner rp stack : forall index,
  only calm (runner stack index (finalHandler B P rp)).
Proof.
  induction stack as [|mw stack IH]; intros index; simpl; [apply calm_finalHandler|].
  apply only_bind; [apply only_emit; reflexivity|]. intros _.
  destruct mw; [apply IH | apply only_ret | apply only_throw].
Qed.

Lemma calm_performRequest rp : only calm (performRequest B P rp).
Proof.
  unfold performRequest. apply only_bind; [apply calm_runHooks|]. intros _.
  apply calm_runner.
Qed.

Lemma calm_extractRequestParams element : only calm (extractRequestParams B P element).
Proof.
  unfold extractRequestParams.
  apply only_bind; [apply only_query|]. intros target.
  apply only_bind; [destruct target; only_tac|]. intros partialId.
  apply only_bind; [|intros o; apply only_ret].
  destruct (Js.truthy _); [|apply only_ret].
  destruct (jsonParse B _); [apply only_ret|].
  apply only_bind; [apply calm_handleError | intros _; apply only_ret].
Qed.

Lemma calm_prepareRequestParams element mr :
  only calm (prepareRequestParams B P element mr).
Proof.
  unfold prepareRequestParams.
  apply only_bind; [apply calm_extractRequestParams|]. intros rp. only_tac.
Qed.

Lemma calm_handleActionCatch error element targetElement :
  only calm (handleActionCatch B P error element targetElement).
Proof.
  unfold handleActionCatch.
  destruct (if Js.truthy _ then _ else _); [only_tac|].
  destruct (onError P); [only_tac|].
  apply only_bind; [apply only_emit; reflexivity|]. intros _. apply calm_setInnerHTML.
Qed.

Lemma calm_dispatchCustomEvents events : only calm (dispatchCustomEvents events).
Proof.
  unfold dispatchCustomEvents. apply only_emitAll.
  induction (Js.splitComma events) as [|e l IH]; [reflexivity | exact IH].
Qed.

End Calm.

(** What reports a failure, and what reads the descriptor of an element,
    is still: it shows no indicator, adds no class, swaps nothing and
    calls no [fetch]. *)
Section Still.

Context (B : Browser) (P : Partial).

Lemma still_setInnerHTML i content : only still (setInnerHTML B i content).
Proof. unfold setInnerHTML, parseFragment, rewriteTarget. only_tac. Qed.

Lemma still_handleError error element target :
  only still (handleError B P error element target).
Proof.
  unfold handleError. destruct (onError P); [only_tac|].
  apply only_bind; [apply only_emit; reflexivity|]. intros _.
  destruct target as [[i|]|]; [apply still_setInnerHTML | apply only_ret..].
Qed.

Lemma still_runCallbacks hookName callbacks : forall index element target,
  only still (runCallbacks B P hookName callbacks index element target).
Proof.
  induction callbacks as [|cb rest IH]; intros index element target; simpl.
  - apply only_ret.
  - apply only_bind; [|intros _; apply IH].
    apply only_tryCatch; [only_tac | intros e; apply still_handleError].
Qed.

Lemma still_runHooks hookName element target :
  only still (runHooks B P hookName element target).
Proof. apply still_runCallbacks. Qed.

Lemma still_extractRequestParams element : only still (extractRequestParams B P element).
Proof.
  unfold extractRequestParams.
  apply only_bind; [apply only_query|]. intros target.
  apply only_bind; [destruct target; only_tac|]. intros partialId.
  apply only_bind; [|intros o; apply only_ret].
  destruct (Js.truthy _); [|apply only_ret].
  destruct (jsonParse B _); [apply only_ret|].
  apply only_bind; [apply still_handleError | intros _; apply only_ret].
Qed.

Lemma still_prepareRequestParams element mr :
  only still (prepareRequestParams B P element mr).
Proof.
  unfold prepareRequestParams.
  apply only_bind; [apply still_extractRequestParams|]. intros rp. only_tac.
Qed.

Lemma still_handleActionCatch error element targetElement :
  only still (handleActionCatch B P error element targetElement).
Proof.
  unfold handleActionCatch.
  destruct (if Js.truthy _ then _ else _); [only_tac|].
  destruct (onError P); [only_tac|].
  apply only_bind; [apply only_emit; reflexivity|]. intros _. apply still_setInnerHTML.
Qed.

End Still.

Lemma still_calm evs : forallb still evs = true -> forallb calm evs = true.
Proof.
  intros H. apply forallb_forall. intros e He.
  apply (proj1 (forallb_forall _ _) H) in He. apply andb_prop in He. apply He.
Qed.

Lemma still_local evs : forallb still evs = true -> forallb local evs = true.
Proof.
  intros H. apply forallb_forall. intros e He.
  apply (proj1 (forallb_forall _ _) H) in He. apply andb_prop in He. apply He.
Qed.

Lemma indicatorEvents_local element t found busy :
  forallb local (indicatorEvents element t found busy) = true.
Proof.
  unfold indicatorEvents. destruct found; destruct (_ && _); reflexivity.
Qed.

Lemma marksAction_still (element : Element) {A} (m : M A) :
  only still m -> marksAction element m.
Proof.
  intros H w. destruct (H w) as (evs & Ht & Hc). exists evs. auto.
Qed.

Lemma marksAction_bind (element : Element) {A C} (m : M A) (k : A -> M C) :
  only still m -> (forall a, marksAction element (k a)) -> marksAction element (bind m k).
Proof.
  intros Hm Hk w. unfold bind. destruct (Hm w) as (e1 & H1 & Hs1).
  destruct (m w) as [[a|e] w1]; simpl in *;
    [|exists e1; split; [exact H1 | left; exact Hs1]].
  destruct (Hk a w1) as (e2 & H2 & Hshape). exists (e1 ++ e2)%list. split.
  - rewrite H2, H1. symmetry. apply app_assoc.
  - destruct Hshape as [Hc2 | (t & found & before & between & -> & Hb & Hm2 & Hbad)].
    + left. rewrite forallb_app, Hs1, Hc2. reflexivity.
    + right. exists t, found, (e1 ++ before)%list, between. repeat split.
      * rewrite <- app_assoc. reflexivity.
      * rewrite forallb_app, (still_calm _ Hs1), Hb. reflexivity.
      * exact Hm2.
      * rewrite forallb_app, (still_local _ Hs1). apply (Hbad H).
      * apply (Hbad H).
Qed.

Section Marks.

Context (B : Browser) (P : Partial).

(** The error of [classList] for a token with white space. *)
Lemma validateToken_refuses (cls : option string) (w : World) :
  Js.truthy cls = true -> usableClass cls = false ->
  exists e, validateToken (Js.toString cls) w = (Throw e, w)
            /\ Js.err_name e = "InvalidCharacterError".
Proof.
  intros Ht Hu. unfold usableClass in Hu. rewrite Ht in Hu. cbn [andb] in Hu.
  apply negb_false_iff in Hu. unfold validateToken. rewrite Hu.
  destruct cls as [c|]; [|discriminate]. simpl in Ht. apply negb_true_iff in Ht.
  cbn [Js.toString]. rewrite Ht. eexists. split; reflexivity.
Qed.

Lemma validateToken_accepts (cls : option string) (w : World) :
  Js.truthy cls = true -> usableClass cls = true ->
  validateToken (Js.toString cls) w = (Ok tt, w).
Proof.
  intros Ht Hu. unfold usableClass in Hu. rewrite Ht in Hu. cbn [andb] in Hu.
  apply negb_true_iff in Hu. unfold validateToken. rewrite Hu.
  destruct cls as [c|]; [|discriminate]. simpl in Ht. apply negb_true_iff in Ht.
  cbn [Js.toString]. rewrite Ht. reflexivity.
Qed.

Lemma usableClass_falsy (cls : option string) :
  Js.truthy cls = false -> usableClass cls = true.
Proof. intros H. unfold usableClass. rewrite H. reflexivity. Qed.

(** The first two statements of the [try] block of [handleAction], with a
    loading class that [classList] accepts. *)
Lemma handleAction_shows (element : Element) (t : nat) (indicatorElement : option nat)
    {A} (k : M A) (w : World) :
  usableClass (getAttributeWithInheritance element Attr.LOADING_CLASS) = true ->
  bind (if bool_decide (is_Some indicatorElement)
        then emit (EvIndicator
                     (Js.toString (getAttributeWithInheritance element Attr.INDICATOR)) true)
        else ret tt)
    (fun _ =>
       bind (if Js.truthy (getAttributeWithInheritance element Attr.LOADING_CLASS)
             then classListAdd t (Js.toString (getAttributeWithInheritance element
                                                 Attr.LOADING_CLASS))
             else ret tt)
         (fun _ => k)) w
  = k (traced w (indicatorEvents element t (bool_decide (is_Some indicatorElement)) true)).
Proof.
  intros Hu. unfold indicatorEvents, classListAdd. rewrite Hu.
  destruct (Js.truthy (getAttributeWithInheritance element Attr.LOADING_CLASS)) eqn:Ht;
    cbn [andb];
    destruct (bool_decide (is_Some indicatorElement));
    unfold bind at 1; cbn [emit ret];
    unfold bind at 1;
    try (unfold bind at 1; rewrite (validateToken_accepts _ _ Ht Hu));
    cbn [emit ret]; unfold traced; cbn [document lastResponse nextId netCalls trace];
    rewrite <- ?app_assoc, ?app_nil_r; try reflexivity.
  destruct w; reflexivity.
Qed.

(** The same statements with a loading class that [classList] refuses. *)
Lemma handleAction_refuses (element : Element) (t : nat) (indicatorElement : option nat)
    {A} (k : M A) (w : World) :
  usableClass (getAttributeWithInheritance element Attr.LOADING_CLASS) = false ->
  exists e,
    bind (if bool_decide (is_Some indicatorElement)
          then emit (EvIndicator
                       (Js.toString (getAttributeWithInheritance element Attr.INDICATOR))
                       true)
          else ret tt)
      (fun _ =>
         bind (if Js.truthy (getAttributeWithInheritance element Attr.LOADING_CLASS)
               then classListAdd t (Js.toString (getAttributeWithInheritance element
                                                   Attr.LOADING_CLASS))
               else ret tt)
           (fun _ => k)) w
    = (Throw e,
       traced w (indicatorEvents element t (bool_decide (is_Some indicatorElement)) true))
    /\ Js.err_name e = "InvalidCharacterError".
Proof.
  intros Hu.
  destruct (Js.truthy (getAttributeWithInheritance element Attr.LOADING_CLASS)) eqn:Ht;
    [|rewrite (usableClass_falsy _ Ht) in Hu; discriminate].
  unfold indicatorEvents, classListAdd. rewrite Hu, Ht. cbn [andb].
  destruct (bool_decide (is_Some indicatorElement)).
  - unfold bind at 1. cbn [emit].
    match goal with
    | |- exists e, _ ?w1 = _ /\ _ =>
        destruct (validateToken_refuses _ w1 Ht Hu) as (e & He & Hname)
    end.
    exists e. split; [|exact Hname]. unfold bind. rewrite He. reflexivity.
  - unfold bind at 1. cbn [ret].
    destruct (validateToken_refuses _ w Ht Hu) as (e & He & Hname).
    exists e. split; [|exact Hname]. unfold bind. rewrite He.
    unfold traced. cbn [app]. rewrite app_nil_r. destruct w; reflexivity.
Qed.

(** The [finally] block of [handleAction]: it returns, or it throws the
    error of [classList]. *)
Lemma handleAction_hides (element : Element) (t : nat) (indicatorElement : option nat)
    (w : World) :
  exists r,
    handleActionFinally t (getAttributeWithInheritance element Attr.INDICATOR)
      (getAttributeWithInheritance element Attr.LOADING_CLASS) indicatorElement w
    = (r, traced w (indicatorEvents element t (bool_decide (is_Some indicatorElement)) false))
    /\ (usableClass (getAttributeWithInheritance element Attr.LOADING_CLASS) = false ->
        exists e, r = Throw e /\ Js.err_name e = "InvalidCharacterError").
Proof.
  unfold handleActionFinally, indicatorEvents, classListRemove.
  destruct (usableClass (getAttributeWithInheritance element Attr.LOADING_CLASS)) eqn:Hu.
  - exists (Ok tt). split; [|discriminate].
    destruct (Js.truthy (getAttributeWithInheritance element Attr.LOADING_CLASS)) eqn:Ht;
      cbn [andb];
      destruct (bool_decide (is_Some indicatorElement));
      unfold bind, emit, ret;
      try rewrite (validateToken_accepts _ _ Ht Hu);
      unfold traced; cbn [document lastResponse nextId netCalls trace];
      rewrite <- ?app_assoc, ?app_nil_r; try reflexivity;
      destruct w; reflexivity.
  - destruct (Js.truthy (getAttributeWithInheritance element Attr.LOADING_CLASS)) eqn:Ht;
      [|rewrite (usableClass_falsy _ Ht) in Hu; discriminate].
    cbn [andb].
    destruct (bool_decide (is_Some indicatorElement)).
    + unfold bind at 1. cbn [emit].
      destruct (validateToken_refuses _
                  (traced w [EvIndicator
                               (Js.toString (getAttributeWithInheritance element
                                               Attr.INDICATOR)) false]) Ht Hu)
        as (e & He & Hname).
      exists (Throw e). split; [|intros _; exists e; auto].
      unfold bind. unfold traced in He. rewrite He. reflexivity.
    + unfold bind at 1. cbn [ret].
      destruct (validateToken_refuses _ w Ht Hu) as (e & He & Hname).
      exists (Throw e). split; [|intros _; exists e; auto].
      unfold bind. rewrite He. unfold traced. cbn [app]. rewrite app_nil_r.
      destruct w; reflexivity.
Qed.

(** The statement [try ... catch ... finally] of [handleAction]; [current]
    is the element as the [try] block finds it. *)
Lemma marksAction_block (element current : Element) (rp : RequestParams) (t : nat)
    (focusEnabled shouldPushState : bool) (timeout : Js.Number) (maxRetries : Z)
    (indicatorElement : option nat) :
  marksAction element
    (tryFinallyM
       (tryCatch
          (handleActionTry B P current rp t
             (getAttributeWithInheritance element Attr.INDICATOR)
             (getAttributeWithInheritance element Attr.LOADING_CLASS)
             focusEnabled shouldPushState timeout maxRetries indicatorElement)
          (fun error => handleActionCatch B P error current t))
       (handleActionFinally t (getAttributeWithInheritance element Attr.INDICATOR)
          (getAttributeWithInheritance element Attr.LOADING_CLASS) indicatorElement)).
Proof.
  intros w. unfold tryFinallyM, tryCatch, handleActionTry.
  set (shown := indicatorEvents element t (bool_decide (is_Some indicatorElement)) true).
  set (hidden := indicatorEvents element t (bool_decide (is_Some indicatorElement)) false).
  destruct (usableClass (getAttributeWithInheritance element Attr.LOADING_CLASS)) eqn:Hu.
  - rewrite (handleAction_shows element t indicatorElement _ w Hu). fold shown.
    match goal with
    | |- context [?k (traced w shown)] =>
        match type of k with
        | M unit => assert (Hrest : only calm k)
        end
    end.
    { apply only_bind.
      - destruct (Js.truthy (getAttribute current Attr.BEFORE));
          [apply calm_dispatchCustomEvents | apply only_ret].
      - intros _. apply only_bind; [apply only_emit; reflexivity|]. intros _.
        apply only_bind; [apply calm_performRequest|]. intros responseText.
        apply only_bind; [apply only_emit; reflexivity|]. intros _.
        apply only_bind; [apply calm_processResponse|]. intros _.
        apply only_bind; [destruct shouldPushState; only_tac|]. intros _.
        apply only_bind.
        + destruct (Js.truthy (getAttribute current Attr.AFTER));
            [apply calm_dispatchCustomEvents | apply only_ret].
        + intros _. destruct (autoFocus P && focusEnabled);
            [apply calm_focusElement | apply only_ret]. }
    match goal with
    | Hrest : only calm ?k |- _ =>
        destruct (Hrest (traced w shown)) as (e2 & H2 & Hc2);
        destruct (k (traced w shown)) as [[[]|e] w2]
    end; simpl in H2.
    + destruct (handleAction_hides element t indicatorElement w2) as (r & -> & _).
      fold hidden. exists (shown ++ e2 ++ hidden)%list. split.
      * destruct r; cbn [snd traced trace]; rewrite H2; cbn [traced trace];
          rewrite <- !app_assoc; reflexivity.
      * right. exists t, (bool_decide (is_Some indicatorElement)), [], e2.
        repeat split; try assumption; discriminate.
    + destruct (calm_handleActionCatch B P e current t w2) as (e3 & H3 & Hc3).
      destruct (handleActionCatch B P e current t w2) as [r3 w3]. simpl in H3.
      destruct (handleAction_hides element t indicatorElement w3) as (r & -> & _).
      fold hidden. exists (shown ++ (e2 ++ e3) ++ hidden)%list. split.
      * destruct r; cbn [snd traced trace]; rewrite H3, H2; cbn [traced trace];
          rewrite <- !app_assoc; reflexivity.
      * right. exists t, (bool_decide (is_Some indicatorElement)), [], (e2 ++ e3)%list.
        rewrite forallb_app, Hc2, Hc3. repeat split; discriminate.
  - match goal with
    | |- context [bind _ (fun _ => bind _ (fun _ => ?k))] =>
        destruct (handleAction_refuses element t indicatorElement k w Hu)
          as (e & -> & Hname)
    end.
    fold shown.
    destruct (still_handleActionCatch B P e current t (traced w shown)) as (e3 & H3 & Hs3).
    destruct (handleActionCatch B P e current t (traced w shown)) as [r3 w3]. simpl in H3.
    destruct (handleAction_hides element t indicatorElement w3) as (r & -> & Hr).
    fold hidden. destruct (Hr Hu) as (e' & -> & Hname').
    exists (shown ++ e3 ++ hidden)%list. split.
    + cbn [snd traced trace]. rewrite H3. cbn [traced trace].
      rewrite <- !app_assoc. reflexivity.
    + right. exists t, (bool_decide (is_Some indicatorElement)), [], e3.
      split; [reflexivity|]. split; [reflexivity|].
      split; [apply still_calm, Hs3|]. intros _. split.
      * rewrite !forallb_app, (still_local _ Hs3).
        unfold shown, hidden. rewrite !indicatorEvents_local. reflexivity.
      * exists e'. split; [|exact Hname']. destruct r3; reflexivity.
Qed.

Lemma marksAction_handleAction (element : Element) :
  marksAction element (handleAction B P element).
Proof.
  unfold handleAction. cbv zeta.
  apply marksAction_bind; [only_tac|]. intros confirmed.
  destruct (negb confirmed); [apply marksAction_still, only_ret|].
  apply marksAction_bind; [only_tac|]. intros indicatorElement.
  apply marksAction_bind; [apply still_prepareRequestParams|]. intros rp.
  apply marksAction_bind; [apply only_query|]. intros [t|];
    [|apply marksAction_still, still_handleError].
  apply marksAction_bind; [apply still_runHooks|]. intros _.
  apply marksAction_bind; [apply only_currentElement|]. intros current.
  apply marksAction_block.
Qed.

End Marks.

(** X7.  When the element asks for a confirmation and the user declines,
    [handleAction] does nothing more: it returns, and the question is its
    only trace; there is no request, no hook, and the document is as it
    was. *)
Theorem handleAction_declined (B : Browser) (P : Partial) (element : Element)
    (w : World) (message : string)
    (Hattr : getAttribute element Attr.CONFIRM = Some message)
    (Hne : message <> "")
    (Hno : confirm B message = false) :
  handleAction B P element w = (Ok tt, traced w [EvConfirm message]).
Proof.
  unfold handleAction. rewrite Hattr.
  assert (Ht : Js.truthy (Some message) = true).
  { simpl. destruct (String.eqb message "") eqn:He; [|reflexivity].
    apply String.eqb_eq in He. contradiction. }
  rewrite Ht. unfold bind, emit, ret. simpl. rewrite Hno. reflexivity.
Qed.

(** A page on which the user declines every question. *)
Lemma handleAction_declined_witness :
  let B := mkBrowser (fun _ => Example.respond [] "new") (fun _ => false) Example.select
             Example.globals Example.json (fun _ => "{}") (fun _ => "")
             (fun u => Ok u) Example.parse Example.parseDoc Example.print
             (fun _ => []) (fun _ _ => "{}") in
  let attrs := [("x-delete", "/item/1"); ("x-confirm", "Delete the item?")] in
  handleAction B Example.engine (Example.trigger attrs) (Example.world attrs None)
  = (Ok tt, traced (Example.world attrs None) [EvConfirm "Delete the item?"]).
Proof.
  intros B attrs.
  apply (handleAction_declined B Example.engine (Example.trigger attrs)
           (Example.world attrs None) "Delete the item?" eq_refl);
    [discriminate | reflexivity].
Defined.



(** ** Activation of declarative elements *)

Lemma activated_elem i t a m cs :
  activated (Elem i t a m cs)
  = (if hasAttr a Attr.SSE
     then implb (Js.truthy (getAttr a Attr.SSE)) (sseInitialized m)
     else if existsb (hasAttr a) Attr.ACTIONS then initialized m else true)
    && (Dom.isTemplate t || forallb activated cs).
Proof. reflexivity. Qed.

(** What setting one element up leaves: the marks that [activated] asks
    for, and sentinels that are plain elements. *)
Lemma setup_activates (P : Partial) i t a parent m k :
  let r := if isDeclarative a
           then (if hasAttr a Attr.SSE
                 then setupSSEElement (mkElement i t a parent) m k
                 else setupElement P (mkElement i t a parent) m k)
           else (m, [], k, []) in
  (if hasAttr a Attr.SSE
   then implb (Js.truthy (getAttr a Attr.SSE)) (sseInitialized (fst (fst (fst r))))
   else if existsb (hasAttr a) Attr.ACTIONS then initialized (fst (fst (fst r))) else true)
  = true
  /\ forallb activated (snd (fst (fst r))) = true.
Proof.
  unfold isDeclarative.
  destruct (hasAttr a Attr.SSE) eqn:Hsse.
  - rewrite orb_true_r. cbv zeta. unfold setupSSEElement, getAttribute. cbn [attributes].
    destruct (sseInitialized m) eqn:Hi; cbn [fst snd].
    + rewrite Hi. destruct (Js.truthy _); auto.
    + destruct (Js.truthy (getAttr a Attr.SSE)); cbn [negb fst snd sseInitialized]; auto.
  - rewrite orb_false_r. cbv zeta.
    destruct (existsb (hasAttr a) Attr.ACTIONS); [|auto].
    unfold setupElement. destruct (initialized m) eqn:Hi; cbn [fst snd]; [auto|].
    destruct (hasAttribute _ Attr.INFINITE_SCROLL).
    + unfold setupInfiniteScroll. destruct (scrollStopped m); [auto|].
      destruct (sentinelElement m); auto.
    + destruct (getAttributeWithInheritance _ Attr.DEBOUNCE) as [v|]; [|auto].
      destruct (Js.parseInt (Some v)) as [|z]; [auto|]. destruct (0 <=? z); auto.
Qed.

Lemma scanNode_activates (P : Partial) n : forall parent k,
  forallb activated (fst (fst (scanNode P parent n k))) = true.
Proof.
  induction n as [d|i t a m cs IH] using Node_tree_ind; intros parent k; [reflexivity|].
  rewrite scanNode_elem. cbv zeta.
  pose proof (setup_activates P i t a parent m k) as Hsetup. cbv zeta in Hsetup.
  destruct (if isDeclarative a then _ else _) as [[[m' sentinel] next1] evs1].
  cbn [fst snd] in Hsetup. destruct Hsetup as [Hm Hs].
  assert (Hall : forall k0,
             forallb activated
               (fst (fst (scanAll P (Some (mkElement i t a parent)) cs k0))) = true).
  { induction IH as [|c cs Hc _ IHcs]; intros k0; [reflexivity|].
    cbn [scanAll]. specialize (Hc (Some (mkElement i t a parent)) k0).
    destruct (scanNode P _ c k0) as [[c' k1] e1]. specialize (IHcs k1).
    destruct (scanAll P _ cs k1) as [[r' k2] e2]. cbn [fst snd] in *.
    rewrite forallb_app, Hc, IHcs. reflexivity. }
  specialize (Hall next1). destruct (scanAll P _ cs next1) as [[cs' next2] evs2].
  destruct (Dom.isTemplate t) eqn:Ht; cbn [fst snd] in *; cbn [forallb];
    rewrite activated_elem, Hm, Ht, ?Hall, Hs; reflexivity.
Qed.

Lemma scanAll_activates (P : Partial) parent l : forall k,
  forallb activated (fst (fst (scanAll P parent l k))) = true.
Proof.
  induction l as [|c l IH]; intros k; [reflexivity|].
  cbn [scanAll]. pose proof (scanNode_activates P c parent k) as Hc.
  destruct (scanNode P parent c k) as [[c' k1] e1]. specialize (IH k1).
  destruct (scanAll P parent l k1) as [[r' k2] e2]. cbn [fst snd] in *.
  rewrite forallb_app, Hc, IH. reflexivity.
Qed.

(** Setting up again an element that has been set up changes nothing; at
    most it reports again that an element with x-sse has no address. *)
Lemma setup_again (P : Partial) i t a parent m k k' :
  let setup := fun m0 k0 =>
    if isDeclarative a
    then (if hasAttr a Attr.SSE
          then setupSSEElement (mkElement i t a parent) m0 k0
          else setupElement P (mkElement i t a parent) m0 k0)
    else (m0, [], k0, []) in
  let m' := fst (fst (fst (setup m k))) in
  (exists evs, setup m' k' = (m', [], k', evs) /\ forallb isConsoleError evs = true)
  /\ (snd (fst (fst (setup m k))) = []
      \/ exists s, snd (fst (fst (setup m k))) = [sentinelNode s]).
Proof.
  cbv zeta. destruct (isDeclarative a); [|split; [exists []|]; auto].
  destruct (hasAttr a Attr.SSE).
  - unfold setupSSEElement. destruct (sseInitialized m) eqn:Hi; cbn [fst snd].
    + rewrite Hi. split; [exists []|]; auto.
    + destruct (negb (Js.truthy _)) eqn:Hu; cbn [fst snd sseInitialized].
      * rewrite Hi. split; [eexists; split; [reflexivity|]|]; auto.
      * split; [exists []|]; auto.
  - unfold setupElement. destruct (initialized m) eqn:Hi; cbn [fst snd].
    + rewrite Hi. split; [exists []|]; auto.
    + destruct (hasAttribute _ Attr.INFINITE_SCROLL).
      * unfold setupInfiniteScroll. destruct (scrollStopped m); cbn [fst snd initialized].
        -- split; [exists []|]; auto.
        -- destruct (sentinelElement m) as [s|]; cbn [fst snd initialized];
             (split; [exists []|]; eauto).
      * destruct (getAttributeWithInheritance _ Attr.DEBOUNCE) as [v|].
        -- destruct (Js.parseInt (Some v)) as [|z]; [|destruct (0 <=? z)];
             cbn [fst snd initialized]; (split; [exists []|]; auto).
        -- cbn [fst snd initialized]. split; [exists []|]; auto.
Qed.

Lemma scanAll_app (P : Partial) parent l1 l2 k :
  scanAll P parent (l1 ++ l2) k
  = let '(r1, k1, e1) := scanAll P parent l1 k in
    let '(r2, k2, e2) := scanAll P parent l2 k1 in
    ((r1 ++ r2)%list, k2, (e1 ++ e2)%list).
Proof.
  revert k. induction l1 as [|c l1 IH]; intros k.
  - simpl. destruct (scanAll P parent l2 k) as [[r2 k2] e2]. reflexivity.
  - cbn [app scanAll]. destruct (scanNode P parent c k) as [[c' k1] e1].
    rewrite IH. destruct (scanAll P parent l1 k1) as [[r1 k2] e2].
    destruct (scanAll P parent l2 k2) as [[r2 k3] e3].
    rewrite !app_assoc. reflexivity.
Qed.

Lemma scanNode_again (P : Partial) n : forall parent k k',
  exists evs,
    scanAll P parent (fst (fst (scanNode P parent n k))) k'
    = (fst (fst (scanNode P parent n k)), k', evs)
    /\ forallb isConsoleError evs = true.
Proof.
  induction n as [d|i t a m cs IH] using Node_tree_ind; intros parent k k'.
  - exists []. split; reflexivity.
  - rewrite scanNode_elem. cbv zeta.
    destruct (setup_again P i t a parent m k k') as [(e0 & Hsetup & He0) Hsent].
    cbv zeta in Hsetup, Hsent.
    set (first := if isDeclarative a
                  then (if hasAttr a Attr.SSE
                        then setupSSEElement (mkElement i t a parent) m k
                        else setupElement P (mkElement i t a parent) m k)
                  else (m, [], k, [])) in *.
    destruct first as [[[m' sentinel] next1] evs1].
    cbn [fst snd] in Hsetup, Hsent.
    assert (Hall : forall k0 k0',
               exists evs,
                 scanAll P (Some (mkElement i t a parent))
                   (fst (fst (scanAll P (Some (mkElement i t a parent)) cs k0))) k0'
                 = (fst (fst (scanAll P (Some (mkElement i t a parent)) cs k0)), k0', evs)
                 /\ forallb isConsoleError evs = true).
    { induction IH as [|c cs Hc _ IHcs]; intros k0 k0'; [exists []; split; reflexivity|].
      cbn [scanAll].
      destruct (Hc (Some (mkElement i t a parent)) k0 k0') as (e1' & H1 & Hc1).
      destruct (scanNode P _ c k0) as [[c' k1] e1]. cbn [fst snd] in H1.
      destruct (IHcs k1 k0') as (e2' & H2 & Hc2).
      destruct (scanAll P _ cs k1) as [[r' k2] e2]. cbn [fst snd] in *.
      rewrite scanAll_app, H1, H2. exists (e1' ++ e2')%list.
      rewrite forallb_app, Hc1, Hc2. split; reflexivity. }
    destruct (Hall next1 k') as (e2 & Hcs & He2).
    destruct (scanAll P _ cs next1) as [[cs' next2] evs2]. cbn [fst snd] in *.
    assert (Hs : scanAll P parent sentinel k' = (sentinel, k', [])).
    { destruct Hsent as [-> | [s ->]]; reflexivity. }
    destruct (Dom.isTemplate t) eqn:Ht; cbn [fst snd];
      cbn [scanAll]; rewrite scanNode_elem; cbv zeta; rewrite Hsetup, Ht, ?Hcs, Hs.
    + exists ((e0 ++ []) ++ [])%list. split; [reflexivity|].
      rewrite !forallb_app, He0. reflexivity.
    + exists ((e0 ++ e2) ++ [])%list. split; [reflexivity|].
      rewrite !forallb_app, He0, He2. reflexivity.
Qed.

Lemma scanAll_again (P : Partial) parent l : forall k k',
  exists evs,
    scanAll P parent (fst (fst (scanAll P parent l k))) k'
    = (fst (fst (scanAll P parent l k)), k', evs)
    /\ forallb isConsoleError evs = true.
Proof.
  induction l as [|c l IH]; intros k k'; [exists []; split; reflexivity|].
  cbn [scanAll]. destruct (scanNode_again P c parent k k') as (e1' & H1 & Hc1).
  destruct (scanNode P parent c k) as [[c' k1] e1]. cbn [fst snd] in H1.
  destruct (IH k1 k') as (e2' & H2 & Hc2).
  destruct (scanAll P parent l k1) as [[r' k2] e2]. cbn [fst snd] in *.
  rewrite scanAll_app, H1, H2. exists (e1' ++ e2')%list.
  rewrite forallb_app, Hc1, Hc2. split; reflexivity.
Qed.

(** The events of a scan are events of setting elements up. *)
Lemma setup_events (P : Partial) self m k :
  forallb setupEvent (snd (setupSSEElement self m k)) = true
  /\ forallb setupEvent (snd (setupElement P self m k)) = true.
Proof.
  split.
  - unfold setupSSEElement. destruct (sseInitialized m); [reflexivity|].
    destruct (negb _); reflexivity.
  - unfold setupElement, setupInfiniteScroll. destruct (initialized m); [reflexivity|].
    destruct (hasAttribute self Attr.INFINITE_SCROLL).
    + destruct (scrollStopped m); [reflexivity|]. destruct (sentinelElement m); reflexivity.
    + destruct (getAttributeWithInheritance self Attr.DEBOUNCE) as [v|]; [|reflexivity].
      destruct (Js.parseInt (Some v)) as [|z]; [reflexivity|].
      destruct (0 <=? z); reflexivity.
Qed.

Lemma scanNode_events (P : Partial) n : forall parent k,
  forallb setupEvent (snd (scanNode P parent n k)) = true.
Proof.
  induction n as [d|i t a m cs IH] using Node_tree_ind; intros parent k; [reflexivity|].
  rewrite scanNode_elem. cbv zeta.
  assert (Hsetup : forallb setupEvent
                     (snd (if isDeclarative a
                           then (if hasAttr a Attr.SSE
                                 then setupSSEElement (mkElement i t a parent) m k
                                 else setupElement P (mkElement i t a parent) m k)
                           else (m, [], k, []))) = true).
  { destruct (setup_events P (mkElement i t a parent) m k) as [H1 H2].
    destruct (isDeclarative a); [|reflexivity]. destruct (hasAttr a Attr.SSE); assumption. }
  destruct (if isDeclarative a then _ else _) as [[[m' sentinel] next1] evs1].
  simpl in Hsetup.
  assert (Hall : forall k0,
             forallb setupEvent
               (snd (scanAll P (Some (mkElement i t a parent)) cs k0)) = true).
  { induction IH as [|c cs Hc _ IHcs]; intros k0; [reflexivity|].
    cbn [scanAll]. specialize (Hc (Some (mkElement i t a parent)) k0).
    destruct (scanNode P _ c k0) as [[c' k1] e1]. specialize (IHcs k1).
    destruct (scanAll P _ cs k1) as [[r' k2] e2]. simpl in *.
    rewrite forallb_app, Hc, IHcs. reflexivity. }
  specialize (Hall next1). destruct (scanAll P _ cs next1) as [[cs' next2] evs2].
  destruct (Dom.isTemplate t); simpl in *; rewrite forallb_app, Hsetup;
    [reflexivity | rewrite Hall; reflexivity].
Qed.

Lemma scanAll_events (P : Partial) parent l : forall k,
  forallb setupEvent (snd (scanAll P parent l k)) = true.
Proof.
  induction l as [|c l IH]; intros k; [reflexivity|].
  cbn [scanAll]. pose proof (scanNode_events P c parent k) as Hc.
  destruct (scanNode P parent c k) as [[c' k1] e1]. specialize (IH k1).
  destruct (scanAll P parent l k1) as [[r' k2] e2]. simpl in *.
  rewrite forallb_app, Hc, IH. reflexivity.
Qed.

Lemma parsesOf_app (e1 e2 : list Event) :
  parsesOf (e1 ++ e2) = (parsesOf e1 ++ parsesOf e2)%list.
Proof. apply omap_app. Qed.

Lemma setupEvent_parses (evs : list Event) :
  forallb setupEvent evs = true -> parsesOf evs = [].
Proof.
  induction evs as [|e evs IH]; [reflexivity|]. simpl. intros H.
  apply andb_true_iff in H. destruct H as [He H].
  destruct e; try discriminate; exact (IH H).
Qed.



(** ** The document under a swap *)

Lemma rewriteNode_elem i f j t a m cs :
  Dom.rewriteNode i f (Elem j t a m cs)
  = if Nat.eqb i j then f (Elem j t a m cs)
    else [Elem j t a m (Dom.rewriteForest i f cs)].
Proof.
  cbn [Dom.rewriteNode]. destruct (Nat.eqb i j); [reflexivity|].
  do 2 f_equal. induction cs as [|c cs IH]; [reflexivity|].
  cbn [Dom.rewriteForest]. rewrite IH. reflexivity.
Qed.

Lemma findInForest_app i l1 l2 :
  Dom.findInForest i (l1 ++ l2)
  = match Dom.findInForest i l1 with
    | Some x => Some x
    | None => Dom.findInForest i l2
    end.
Proof.
  induction l1 as [|c l1 IH]; [reflexivity|].
  cbn [app Dom.findInForest]. destruct (Dom.findNode i c); [reflexivity | exact IH].
Qed.

(** Rewriting at an identity that a tree does not have leaves the tree. *)
Lemma rewriteNode_absent i f n :
  Dom.findNode i n = None -> Dom.rewriteNode i f n = [n].
Proof.
  induction n as [d|j t a m cs IH] using Node_tree_ind; [reflexivity|].
  rewrite findNode_elem, rewriteNode_elem.
  destruct (Nat.eqb i j); [discriminate|]. intros Hcs. do 2 f_equal.
  induction IH as [|c cs Hc _ IHcs]; [reflexivity|].
  cbn [Dom.findInForest] in Hcs. cbn [Dom.rewriteForest].
  destruct (Dom.findNode i c) eqn:Hf; [discriminate|].
  rewrite (Hc eq_refl), (IHcs Hcs). reflexivity.
Qed.

Lemma rewriteForest_absent i f l :
  Dom.findInForest i l = None -> Dom.rewriteForest i f l = l.
Proof.
  induction l as [|c l IH]; [reflexivity|].
  cbn [Dom.findInForest Dom.rewriteForest].
  destruct (Dom.findNode i c) eqn:Hc; [discriminate|].
  intros Hl. rewrite (rewriteNode_absent i f c Hc), (IH Hl). reflexivity.
Qed.

(** The node found at an identity is an element of that identity. *)
Lemma findNode_isNode i n x : Dom.findNode i n = Some x -> Dom.isNode i x = true.
Proof.
  induction n as [d|j t a m cs IH] using Node_tree_ind; [discriminate|].
  rewrite findNode_elem. destruct (Nat.eqb i j) eqn:Hij.
  - intros [= <-]. exact Hij.
  - induction IH as [|c cs Hc _ IHcs]; [discriminate|].
    cbn [Dom.findInForest]. destruct (Dom.findNode i c) as [y|] eqn:Hf.
    + intros [= <-]. exact (Hc eq_refl).
    + exact IHcs.
Qed.

(** After the node of an identity is replaced by a node of the same
    identity, that node is the one found. *)
Lemma findNode_rewrite i (g : Node -> Node) n x :
  (forall y, Dom.isNode i y = true -> Dom.isNode i (g y) = true) ->
  Dom.findNode i n = Some x ->
  Dom.findInForest i (Dom.rewriteNode i (fun y => [g y]) n) = Some (g x).
Proof.
  intros Hg. induction n as [d|j t a m cs IH] using Node_tree_ind; [discriminate|].
  rewrite findNode_elem, rewriteNode_elem. destruct (Nat.eqb i j) eqn:Hij.
  - intros [= <-]. cbn [Dom.findInForest].
    assert (Hn : Dom.isNode i (g (Elem j t a m cs)) = true) by (apply Hg; exact Hij).
    destruct (g (Elem j t a m cs)) as [j' t' a' m' cs'|d]; [|discriminate].
    rewrite findNode_elem. cbn [Dom.isNode] in Hn. rewrite Hn. reflexivity.
  - intros Hcs. cbn [Dom.findInForest]. rewrite findNode_elem, Hij.
    assert (Hin : Dom.findInForest i (Dom.rewriteForest i (fun y => [g y]) cs)
                  = Some (g x)).
    { induction IH as [|c cs Hc _ IHcs]; [discriminate|].
      cbn [Dom.findInForest] in Hcs. cbn [Dom.rewriteForest].
      rewrite findInForest_app.
      destruct (Dom.findNode i c) as [y|] eqn:Hf.
      - injection Hcs as ->. rewrite (Hc eq_refl). reflexivity.
      - rewrite (rewriteNode_absent i _ c Hf). cbn [Dom.findInForest]. rewrite Hf.
        exact (IHcs Hcs). }
    rewrite Hin. reflexivity.
Qed.

Lemma findInForest_rewrite i (g : Node -> Node) l x :
  (forall y, Dom.isNode i y = true -> Dom.isNode i (g y) = true) ->
  Dom.findInForest i l = Some x ->
  Dom.findInForest i (Dom.rewriteForest i (fun y => [g y]) l) = Some (g x).
Proof.
  intros Hg. induction l as [|c l IH]; [discriminate|].
  cbn [Dom.findInForest Dom.rewriteForest]. rewrite findInForest_app.
  destruct (Dom.findNode i c) as [y|] eqn:Hf.
  - intros [= ->]. rewrite (findNode_rewrite i g c x Hg Hf). reflexivity.
  - intros Hl. rewrite (rewriteNode_absent i _ c Hf). cbn [Dom.findInForest].
    rewrite Hf. exact (IH Hl).
Qed.

Lemma isNode_setChildren i cs y :
  Dom.isNode i y = true -> Dom.isNode i (Dom.setChildren cs y) = true.
Proof. destruct y; [exact id | discriminate]. Qed.

Lemma isNode_setMarks i m y :
  Dom.isNode i y = true -> Dom.isNode i (Dom.setMarks m y) = true.
Proof. destruct y; [exact id | discriminate]. Qed.



(** A swap on [window] changes nothing of the document, and whenever it
    throws, it throws a [TypeError]. *)
Lemma performSwap_window (B : Browser) (P : Partial) (content option : string) (w : World) :
  let r := performSwap B P TWindow content option w in
  document (snd r) = document w
  /\ lastResponse (snd r) = lastResponse w
  /\ match fst r with
     | Throw e => Js.err_name e = "TypeError"
     | Ok _ => True
     end.
Proof.
  unfold performSwap, scanFragment. run_steps.
  destruct (Dom.instantiateAll (parseHTML B (Js.trim content)) (nextId w)) as [nodes k].
  run_steps. destruct (scanAll P None nodes k) as [[fragment k'] evs]. run_steps.
  destruct (String.eqb option "outerHTML"); [repeat split|].
  destruct (String.eqb option "innerHTML"); [repeat split|].
  destruct (Attr.includes _ option); repeat split.
Qed.



(** ** The body and the address of a request *)

Lemma effectless_weaken (p q : Event -> bool) {A} (m : M A) :
  (forall e, p e = true -> q e = true) -> effectless p m -> effectless q m.
Proof.
  intros Hpq H w. destruct (H w) as (evs & Hw & Hp). exists evs. split; [exact Hw|].
  apply forallb_forall. intros e He. apply Hpq.
  exact (proj1 (forallb_forall p evs) Hp e He).
Qed.

Lemma effectless_runner (finalHandler : M string) stack : forall index,
  effectless local finalHandler -> effectless local (runner stack index finalHandler).
Proof.
  induction stack as [|mw stack IH]; intros index Hfh; simpl; [exact Hfh|].
  apply effectless_bind; [apply effectless_emit; reflexivity|]. intros _.
  destruct mw; [apply IH, Hfh | apply effectless_ret | apply effectless_throw].
Qed.

Lemma traced_fetches (w : World) (evs : list Event) :
  forallb local evs = true ->
  fetchesOf (newEvents w (traced w evs)) = [] /\ netCalls (traced w evs) = netCalls w.
Proof.
  intros Hl. split; [|reflexivity].
  rewrite (newEvents_app w (traced w evs) evs eq_refl). apply local_no_fetches, Hl.
Qed.

(** X13.  An element whose method writes (POST, PUT, PATCH or DELETE),
    that has no x-json and that is neither a form nor inside one, has no
    body: [prepareRequestBody] throws whatever the kind of serialization
    is, and [performRequest] makes no call of [fetch] for it.  For a
    method that does not write, the same element has the body [null]. *)
Theorem prepareRequestBody_needs_form (B : Browser) (P : Partial) (el : Element)
    (serializeType : string) (paramsObject : Params) (w : World)
    (Hjson : Js.truthy (getAttribute el Attr.JSON) = false)
    (Hform : closestForm el = None) :
  (Attr.includes ["POST"; "PUT"; "PATCH"; "DELETE"] (getMethod el) = true ->
   (exists e, prepareRequestBody B (Some el) serializeType paramsObject w = (Throw e, w)
              /\ Js.err_name e = "Error")
   /\ (forall rp, element rp = Some el ->
         fetchesOf (newEvents w (snd (performRequest B P rp w))) = []
         /\ netCalls (snd (performRequest B P rp w)) = netCalls w))
  /\ (Attr.includes ["POST"; "PUT"; "PATCH"; "DELETE"] (getMethod el) = false ->
      prepareRequestBody B (Some el) serializeType paramsObject w = (Ok BodyNone, w)).
Proof.
  assert (Hshape : forall st po w0,
             prepareRequestBody B (Some el) st po w0
             = if Attr.includes ["POST"; "PUT"; "PATCH"; "DELETE"] (getMethod el)
               then (Throw (Js.newError
                              (if Attr.includes ["json"; "nested-json"; "xml"] st
                               then "Expected an HTMLFormElement for body serialization, but none found."
                               else "Expected an HTMLFormElement for FormData, but none found.")),
                     w0)
               else (Ok BodyNone, w0)).
  { intros st po w0. unfold prepareRequestBody. rewrite Hjson, Hform.
    destruct (Attr.includes ["json"; "nested-json"; "xml"] st);
      destruct (Attr.includes ["POST"; "PUT"; "PATCH"; "DELETE"] (getMethod el));
      reflexivity. }
  split.
  - intros Hwrite. split.
    + rewrite Hshape, Hwrite. eexists. split; reflexivity.
    + intros rp Hel.
      assert (Hquiet : effectless local (performRequest B P rp)).
      { unfold performRequest. apply effectless_bind.
        - apply (effectless_weaken reporting); [intros []; try discriminate; reflexivity|].
          apply effectless_runCallbacks_detached.
        - intros _. apply effectless_runner. intros w0. unfold finalHandler, bind.
          rewrite Hel, Hshape, Hwrite. exists []. rewrite traced_nil. auto. }
      destruct (Hquiet w) as (evs & -> & Hl). apply traced_fetches, Hl.
  - intros Hread. rewrite Hshape, Hread. reflexivity.
Qed.

(** A button [x-delete] outside any form: no body can be made. *)
Lemma prepareRequestBody_needs_form_witness :
  let B := Example.browser (fun _ => Example.respond [] "new") in
  let el := Example.trigger [("x-delete", "/item/1")] in
  exists e, prepareRequestBody B (Some el) "json" [] (Example.world [] None)
            = (Throw e, Example.world [] None)
            /\ Js.err_name e = "Error".
Proof.
  intros B el.
  exact (proj1 (proj1 (prepareRequestBody_needs_form B Example.engine el "json" []
                         (Example.world [] None) eq_refl eq_refl) eq_refl)).
Defined.

(** ** The serializer *)

Section Escape.

Import Serializer.

Lemma escapeChar_cases (c : ascii) :
  (special c = true
   /\ (c = "<"%char /\ escapeChar c = "&lt;"
       \/ c = ">"%char /\ escapeChar c = "&gt;"
       \/ c = "&"%char /\ escapeChar c = "&amp;"
       \/ c = "'"%char /\ escapeChar c = "&apos;"
       \/ c = ascii_of_nat 34 /\ escapeChar c = "&quot;"))
  \/ (special c = false /\ escapeChar c = String c EmptyString).
Proof.
  unfold special, escapeChar.
  destruct (Ascii.eqb c "<") eqn:H1;
    [apply Ascii.eqb_eq in H1; subst; left; split; [reflexivity | auto]|].
  destruct (Ascii.eqb c ">") eqn:H2;
    [apply Ascii.eqb_eq in H2; subst; left; split; [reflexivity | auto]|].
  destruct (Ascii.eqb c "&") eqn:H3;
    [apply Ascii.eqb_eq in H3; subst; left; split; [reflexivity | auto]|].
  destruct (Ascii.eqb c "'") eqn:H4;
    [apply Ascii.eqb_eq in H4; subst; left; split; [reflexivity | auto 6]|].
  destruct (Ascii.eqb c (ascii_of_nat 34)) eqn:H5;
    [apply Ascii.eqb_eq in H5; subst; left; split; [reflexivity | auto 7]|].
  right. split; reflexivity.
Qed.

Lemma special_amp (c : ascii) : special c = false -> c <> "&"%char.
Proof. intros H ->. discriminate. Qed.

(** The replacements form a code: no two of them begin a text alike. *)
Lemma escapeChar_prefix (c1 c2 : ascii) (s1 s2 : string) :
  escapeChar c1 +:+ s1 = escapeChar c2 +:+ s2 -> c1 = c2 /\ s1 = s2.
Proof.
  destruct (escapeChar_cases c1)
    as [[_ [[-> ->]|[[-> ->]|[[-> ->]|[[-> ->]|[-> ->]]]]]] | [Hn1 ->]];
    destruct (escapeChar_cases c2)
      as [[_ [[-> ->]|[[-> ->]|[[-> ->]|[[-> ->]|[-> ->]]]]]] | [Hn2 ->]];
    simpl; intros H; try discriminate H;
    try (injection H as H; split; [reflexivity | assumption]);
    try (injection H as Hc _; subst; discriminate);
    try (injection H as Hc _; exfalso;
         first [ exact (special_amp _ Hn1 (eq_sym Hc)) | exact (special_amp _ Hn2 Hc) ]).
  change (String c1 s1 = String c2 s2) in H. injection H as -> ->. split; reflexivity.
Qed.

Lemma escapeChar_nonempty (c : ascii) : exists x r, escapeChar c = String x r.
Proof.
  destruct (escapeChar_cases c)
    as [[_ [[_ ->]|[[_ ->]|[[_ ->]|[[_ ->]|[_ ->]]]]]] | [_ ->]]; eauto.
Qed.

Lemma escapeXml_injective_aux (a : string) : forall b,
  escapeXml a = escapeXml b -> a = b.
Proof.
  induction a as [|c a IH]; intros [|d b]; cbn [escapeXml].
  - reflexivity.
  - destruct (escapeChar_nonempty d) as (x & r & ->). discriminate.
  - destruct (escapeChar_nonempty c) as (x & r & ->). discriminate.
  - intros H. apply escapeChar_prefix in H. destruct H as [-> H].
    rewrite (IH b H). reflexivity.
Qed.

Lemma append_cons (c : ascii) (a b : string) : String c a +:+ b = String c (a +:+ b).
Proof. reflexivity. Qed.

Lemma append_assoc (a b c : string) : (a +:+ b) +:+ c = a +:+ (b +:+ c).
Proof.
  induction a as [|x a IH]; [reflexivity|]. rewrite !append_cons, IH. reflexivity.
Qed.

Lemma every_app p (a b : string) : every p (a +:+ b) = every p a && every p b.
Proof.
  induction a as [|c a IH]; [reflexivity|].
  rewrite append_cons. cbn [every]. rewrite IH, andb_assoc. reflexivity.
Qed.

Lemma escapeXml_app (a b : string) : escapeXml (a +:+ b) = escapeXml a +:+ escapeXml b.
Proof.
  induction a as [|c a IH]; [reflexivity|].
  rewrite append_cons. cbn [escapeXml]. rewrite IH, append_assoc. reflexivity.
Qed.

(** The replacement of a character holds no delimiter. *)
Lemma escapeChar_safe (c : ascii) : every (fun x => negb (delimiter x)) (escapeChar c) = true.
Proof.
  destruct (escapeChar_cases c)
    as [[_ [[_ ->]|[[_ ->]|[[_ ->]|[[_ ->]|[_ ->]]]]]] | [Hn ->]]; try reflexivity.
  cbn [every]. rewrite andb_true_r. unfold special in Hn. unfold delimiter.
  destruct (Ascii.eqb c "<"); [discriminate|].
  destruct (Ascii.eqb c ">"); [discriminate|].
  destruct (Ascii.eqb c "&"); [discriminate|].
  destruct (Ascii.eqb c "'"); [discriminate|].
  destruct (Ascii.eqb c (ascii_of_nat 34)); [discriminate | reflexivity].
Qed.

Lemma escapeXml_safe (s : string) : every (fun x => negb (delimiter x)) (escapeXml s) = true.
Proof.
  induction s as [|c s IH]; [reflexivity|].
  cbn [escapeXml]. rewrite every_app, escapeChar_safe, IH. reflexivity.
Qed.

Lemma escapeXml_plain (s : string) :
  every (fun x => negb (special x)) s = true -> escapeXml s = s.
Proof.
  induction s as [|c s IH]; [reflexivity|]. cbn [every escapeXml]. intros H.
  apply andb_true_iff in H. destruct H as [Hc Hs]. rewrite (IH Hs).
  destruct (escapeChar_cases c) as [[Hsp _] | [_ ->]]; [|reflexivity].
  rewrite Hsp in Hc. discriminate.
Qed.

End Escape.

(** X14.  [escapeXml] is a faithful encoding: no character [<], [>],
    ['] or double quote is left in its result; two texts that differ have
    results that differ; it is applied to a concatenation part by part;
    and a text without any of the five characters is its own result. *)
Theorem escapeXml_encoding :
  (forall s, Serializer.every (fun c => negb (Serializer.delimiter c))
               (Serializer.escapeXml s) = true)
  /\ (forall a b, Serializer.escapeXml a = Serializer.escapeXml b -> a = b)
  /\ (forall a b, Serializer.escapeXml (a +:+ b)
                  = Serializer.escapeXml a +:+ Serializer.escapeXml b)
  /\ (forall s, Serializer.every (fun c => negb (Serializer.special c)) s = true ->
                Serializer.escapeXml s = s).
Proof.
  split; [exact escapeXml_safe|]. split; [exact escapeXml_injective_aux|].
  split; [exact escapeXml_app | exact escapeXml_plain].
Qed.

Section Xml.

Import Serializer.

Lemma append_nil_r (a : string) : a +:+ "" = a.
Proof. induction a as [|c a IH]; [reflexivity|]. rewrite append_cons, IH. reflexivity. Qed.

Lemma appendEntries_strings (formData : list (string * FormDataEntryValue)) :
  forall xmlString,
    existsb isFile (map snd formData) = false ->
    appendEntries xmlString formData
    = Ok (xmlString +:+ String.concat "" (map entryXml formData)).
Proof.
  induction formData as [|[key [value|name]] rest IH]; intros xmlString Hf.
  - cbn. rewrite append_nil_r. reflexivity.
  - cbn [appendEntries]. rewrite (IH _ Hf). f_equal.
    assert (Hc : String.concat "" (map entryXml ((key, FString value) :: rest))
                 = entryXml (key, FString value) +:+ String.concat "" (map entryXml rest)).
    { cbn [map String.concat]. destruct (map entryXml rest); [|reflexivity].
      cbn [String.concat]. rewrite append_nil_r. reflexivity. }
    rewrite Hc. unfold entryXml. rewrite !append_assoc. reflexivity.
  - discriminate Hf.
Qed.

Lemma appendEntries_file (formData : list (string * FormDataEntryValue)) :
  forall xmlString,
    existsb isFile (map snd formData) = true ->
    appendEntries xmlString formData
    = Throw (Js.mkErr "TypeError" "unsafe.replace is not a function").
Proof.
  induction formData as [|[key [value|name]] rest IH]; intros xmlString Hf.
  - discriminate Hf.
  - cbn [appendEntries]. apply IH. exact Hf.
  - reflexivity.
Qed.

End Xml.

(** X15.  [serializeFormToXml] on a form without file input returns the
    declaration and one element [form] whose children are the entries in
    order, each value escaped; the keys are written as they are.  On a
    form with a file input it throws a [TypeError]: the value of the
    input is a [File], which has no method [replace]. *)
Theorem serializeFormToXml_result
    (formData : list (string * Serializer.FormDataEntryValue)) :
  (existsb Serializer.isFile (map snd formData) = false ->
   Serializer.serializeFormToXml formData
   = Ok (Serializer.declaration +:+ "<form>"
         +:+ String.concat "" (map entryXml formData) +:+ "</form>"))
  /\ (existsb Serializer.isFile (map snd formData) = true ->
      Serializer.serializeFormToXml formData
      = Throw (Js.mkErr "TypeError" "unsafe.replace is not a function")).
Proof.
  unfold Serializer.serializeFormToXml. split; intros Hf.
  - rewrite (appendEntries_strings formData _ Hf), !append_assoc. reflexivity.
  - rewrite (appendEntries_file formData _ Hf). reflexivity.
Qed.

(** A form with one text field whose value holds markup. *)
Lemma serializeFormToXml_result_witness :
  Serializer.serializeFormToXml [("title", Serializer.FString "a<b")]
  = Ok (Serializer.declaration +:+ "<form><title>a&lt;b</title></form>").
Proof.
  exact (proj1 (serializeFormToXml_result [("title", Serializer.FString "a<b")]) eq_refl).
Defined.

(** X16.  Parameters cannot be sent with a form that is serialized to
    XML: when the element has parameters, [prepareRequestBody] reads the
    serialized form with [JSON.parse], and the text that
    [serializeFormToXml] returns begins with [<], which no JSON text
    does; the function throws the [SyntaxError], and no body is made. *)
Theorem prepareRequestBody_xml_params (B : Browser) (el form : Element)
    (formData : list (string * Serializer.FormDataEntryValue)) (xml : string)
    (paramsObject : Params) (w : World)
    (Hjson : Js.truthy (getAttribute el Attr.JSON) = false)
    (Hform : closestForm el = Some form)
    (Hxml : Serializer.serializeFormToXml formData = Ok xml)
    (Hserializer : serializeForm B "xml" (nodeId form) = xml)
    (Hparse : forall s, Js.startsWith "<" s = true -> jsonParse B s = None)
    (Hparams : paramsObject <> []) :
  prepareRequestBody B (Some el) "xml" paramsObject w
  = (Throw (Js.mkErr "SyntaxError" "Unexpected token in JSON"), w).
Proof.
  assert (Hstart : Js.startsWith "<" xml = true).
  { unfold Serializer.serializeFormToXml in Hxml.
    destruct (existsb Serializer.isFile (map snd formData)) eqn:Hf.
    - rewrite (appendEntries_file formData _ Hf) in Hxml. discriminate.
    - rewrite (appendEntries_strings formData _ Hf) in Hxml.
      injection Hxml as <-. reflexivity. }
  unfold prepareRequestBody. rewrite Hjson, Hform. cbn [Attr.includes existsb String.eqb].
  cbn. rewrite Hserializer.
  destruct paramsObject as [|p ps]; [contradiction|].
  rewrite (Hparse xml Hstart). reflexivity.
Qed.

(** A form of one field, serialized to XML, with a parameter. *)
Lemma prepareRequestBody_xml_params_witness :
  let form := mkElement 5 "FORM" [("x-post", "/save"); ("x-serialize", "xml")]
                (Some Example.ancestors) in
  let formData := [("title", Serializer.FString "a<b")] in
  let xml := Serializer.declaration +:+ "<form><title>a&lt;b</title></form>" in
  let B := mkBrowser (fun _ => Example.unreachable) (fun _ => true) Example.select
             Example.globals Example.json (fun _ => "{}") (fun _ => "")
             (fun u => Ok u) Example.parse Example.parseDoc Example.print
             (fun _ => []) (fun _ _ => xml) in
  prepareRequestBody B (Some form) "xml" [("page", "2")] (Example.world [] None)
  = (Throw (Js.mkErr "SyntaxError" "Unexpected token in JSON"), Example.world [] None).
Proof.
  intros form formData xml B.
  refine (prepareRequestBody_xml_params B form form formData xml [("page", "2")]
            (Example.world [] None) eq_refl eq_refl eq_refl eq_refl _ _).
  - intros s Hs. cbn [jsonParse B]. unfold Example.json.
    destruct (String.eqb s "{}") eqn:He; [|reflexivity].
    apply String.eqb_eq in He. subst s. discriminate Hs.
  - discriminate.
Defined.

(** ** The registry of custom events *)

Section Registry.

Import Events.

Context {Options : Type}.
Context (stringify : Options -> option string).
Context (capture : Options -> bool).
Context (aborted : Options -> bool).

Lemma sameListener_spec type cb cap (x : string * nat * bool) :
  sameListener type cb cap x = true <-> x = (type, cb, cap).
Proof.
  destruct x as [[t c] p]. unfold sameListener.
  rewrite !andb_true_iff, String.eqb_eq, Nat.eqb_eq, Bool.eqb_true_iff.
  split; [intros [[-> ->] ->]; reflexivity | intros [= -> -> ->]; auto].
Qed.

Lemma in_removeEventListener type cb o target (x : string * nat * bool) :
  In x (removeEventListener capture type cb o target)
  <-> In x target /\ x <> (type, cb, capture o).
Proof.
  unfold removeEventListener. rewrite filter_In, negb_true_iff.
  split; intros [Hin Hne]; (split; [exact Hin|]).
  - intros ->. rewrite (proj2 (sameListener_spec type cb (capture o) _) eq_refl) in Hne.
    discriminate.
  - destruct (sameListener type cb (capture o) x) eqn:Hs; [|reflexivity].
    apply sameListener_spec in Hs. contradiction.
Qed.

Lemma in_addEventListener type cb o target (x : string * nat * bool) :
  In x (addEventListener capture aborted type cb o target) ->
  In x target \/ x = (type, cb, capture o).
Proof.
  unfold addEventListener. destruct (aborted o || existsb _ target); [auto|].
  rewrite in_app_iff. simpl. intros [H|[H|[]]]; auto.
Qed.

Lemma incl_addEventListener type cb o target (x : string * nat * bool) :
  In x target -> In x (addEventListener capture aborted type cb o target).
Proof.
  unfold addEventListener. destruct (aborted o || existsb _ target); [auto|].
  rewrite in_app_iff. auto.
Qed.

Lemma findIndex_splice (p : @Events.Registered Options -> bool) (l : list (@Events.Registered Options)) : forall index,
  findIndex p l = Some index ->
  exists l1 x l2, l = (l1 ++ x :: l2)%list /\ p x = true /\ splice index l = (l1 ++ l2)%list.
Proof.
  induction l as [|y l IH]; intros index; [discriminate|]. cbn [findIndex].
  destruct (p y) eqn:Hy.
  - intros [= <-]. exists [], y, l. auto.
  - destruct (findIndex p l) as [i|]; [|discriminate]. intros [= <-].
    destruct (IH i eq_refl) as (l1 & x & l2 & -> & Hx & Hs).
    exists (y :: l1), x, l2. cbn [splice app]. rewrite Hs. auto.
Qed.

Lemma findIndex_last (p : @Events.Registered Options -> bool) (l : list (@Events.Registered Options)) (x : @Events.Registered Options) :
  findIndex p l = None -> p x = true ->
  findIndex p (l ++ [x]) = Some (length l) /\ splice (length l) (l ++ [x]) = l.
Proof.
  intros Hl Hx. induction l as [|y l IH]; cbn [app findIndex length splice].
  - rewrite Hx. auto.
  - cbn [findIndex] in Hl. destruct (p y); [discriminate|].
    destruct (findIndex p l); [discriminate|].
    destruct (IH eq_refl) as [-> ->]. auto.
Qed.

Lemma includes_false (l : list string) (name : string) :
  Attr.includes l name = false -> ~ In name l.
Proof.
  unfold Attr.includes. intros H Hin.
  assert (existsb (String.eqb name) l = true)
    by (apply existsb_exists; exists name; split; [exact Hin | apply String.eqb_refl]).
  congruence.
Qed.

Lemma omap_none {A C} (f : A -> option C) (t : list A) :
  (forall x, In x t -> f x = None) -> omap f t = [].
Proof.
  induction t as [|x t IH]; intros Hall; [reflexivity|].
  cbn [omap list_omap]. rewrite (Hall x (or_introl eq_refl)).
  apply IH. intros y Hy. apply Hall. right. exact Hy.
Qed.

(** The registration of a listener keeps the record of the target. *)
Lemma recorded_event eventName cb o (st st' : @Events.State Options) :
  recorded capture st ->
  event capture aborted eventName cb o st = Ok st' ->
  recorded capture st'.
Proof.
  intros Hrec. unfold event.
  destruct (Attr.includes objectPrototype eventName); [discriminate|].
  intros [= <-] type c cap Hin. cbn [eventTarget eventListeners] in *.
  apply in_addEventListener in Hin. destruct Hin as [Hin | [= -> -> ->]].
  - destruct (Hrec type c cap Hin) as (l & listener & Hl & Hil & Hc & Hp).
    destruct (decide (eventName = type)) as [->|Hne].
    + rewrite lookup_insert_eq, Hl. cbn [default].
      exists (l ++ [mkRegistered cb o])%list, listener.
      rewrite in_app_iff. auto.
    + rewrite lookup_insert_ne by exact Hne. eauto.
  - rewrite lookup_insert_eq. eexists _, (mkRegistered cb o).
    split; [reflexivity|]. rewrite in_app_iff. simpl. auto.
Qed.

(** The removal of a listener keeps it, for options that
    [JSON.stringify] tells apart when their capture flags differ. *)
Lemma recorded_removeEvent eventName cb o (st st' : @Events.State Options) :
  (forall o1 o2, stringify o1 = stringify o2 -> capture o1 = capture o2) ->
  recorded capture st ->
  removeEvent stringify capture eventName cb o st = Ok st' ->
  recorded capture st'.
Proof.
  intros Hcap Hrec. unfold removeEvent.
  destruct (Attr.includes objectPrototype eventName); [discriminate|].
  intros [= <-] type c cap Hin. cbn [eventTarget eventListeners] in *.
  apply in_removeEventListener in Hin. destruct Hin as [Hin Hne].
  destruct (Hrec type c cap Hin) as (l & listener & Hl & Hil & Hc & Hp).
  destruct (decide (eventName = type)) as [->|Hnt].
  - rewrite Hl. destruct (findIndex (matches stringify cb o) l) as [index|] eqn:Hfind;
      [|eauto].
    destruct (findIndex_splice _ _ _ Hfind) as (l1 & x & l2 & -> & Hx & ->).
    assert (Hrest : In listener (l1 ++ l2)).
    { apply in_app_iff in Hil. apply in_app_iff.
      destruct Hil as [H|[H|H]]; [auto | | auto]. exfalso. subst x.
      unfold matches in Hx. apply andb_true_iff in Hx. destruct Hx as [Hcb Hstr].
      apply Nat.eqb_eq in Hcb. apply bool_decide_eq_true in Hstr.
      apply Hne. rewrite <- Hc, <- Hp, Hcb, (Hcap _ _ Hstr). reflexivity. }
    destruct (l1 ++ l2)%list as [|y r] eqn:Hs; [destruct Hrest|].
    rewrite lookup_insert_eq. exists (y :: r), listener. auto.
  - assert (Hother : forall m : gmap string (list (@Events.Registered Options)),
               (m = eventListeners st
                \/ (exists l', m = <[eventName := l']> (eventListeners st))
                \/ m = delete eventName (eventListeners st)) ->
               m !! type = Some l).
    { intros m [-> | [[l' ->] | ->]];
        [exact Hl | rewrite lookup_insert_ne by exact Hnt; exact Hl
        | rewrite lookup_delete_ne by exact Hnt; exact Hl]. }
    exists l, listener. split; [|auto]. apply Hother.
    destruct (eventListeners st !! eventName) as [l0|]; [|auto].
    destruct (findIndex (matches stringify cb o) l0) as [index|]; [|auto].
    destruct (splice index l0); eauto.
Qed.

Lemma in_removeAll eventName (l : list (@Events.Registered Options)) : forall target x,
  In x (fold_left (fun target listener =>
                     removeEventListener capture eventName (callback listener)
                                         (options listener) target) l target)
  <-> In x target
      /\ forall listener, In listener l ->
           x <> (eventName, callback listener, capture (options listener)).
Proof.
  induction l as [|y l IH]; intros target x; cbn [fold_left].
  - split; [intros H; split; [exact H | intros ? []] | intros [H _]; exact H].
  - rewrite IH, in_removeEventListener. split.
    + intros [[Hin Hy] Hl]. split; [exact Hin|]. intros listener [<-|H]; auto.
    + intros [Hin Hl]. split; [split; [exact Hin|]|]; intros; apply Hl; simpl; auto.
Qed.

(** The removal of all the listeners of an event keeps it too. *)
Lemma recorded_removeAllEvents eventName (st st' : @Events.State Options) :
  recorded capture st ->
  removeAllEvents capture eventName st = Ok st' ->
  recorded capture st'
  /\ eventListeners st' !! eventName = None
  /\ listenersFor eventName st' = [].
Proof.
  intros Hrec. unfold removeAllEvents.
  destruct (Attr.includes objectPrototype eventName); [discriminate|].
  destruct (eventListeners st !! eventName) as [l|] eqn:Hl.
  - intros [= <-]. cbn [eventTarget eventListeners].
    assert (Hgone : forall type cb cap,
               In (type, cb, cap)
                  (fold_left (fun target listener =>
                                removeEventListener capture eventName (callback listener)
                                                    (options listener) target)
                             l (eventTarget st)) ->
               type <> eventName /\ In (type, cb, cap) (eventTarget st)).
    { intros type cb cap Hin. apply in_removeAll in Hin. destruct Hin as [Hin Hno].
      split; [|exact Hin]. intros ->.
      destruct (Hrec eventName cb cap Hin) as (l0 & listener & Hl0 & Hil & Hc & Hp).
      rewrite Hl in Hl0. injection Hl0 as <-.
      apply (Hno listener Hil). rewrite Hc, Hp. reflexivity. }
    split; [|split].
    + intros type cb cap Hin. destruct (Hgone type cb cap Hin) as [Hne Hin0].
      destruct (Hrec type cb cap Hin0) as (l0 & listener & Hl0 & Hrest).
      exists l0, listener. cbn [eventListeners].
      rewrite lookup_delete_ne by congruence. auto.
    + apply lookup_delete_eq.
    + unfold listenersFor, heard. cbn [eventTarget].
      rewrite !omap_none; [reflexivity| |];
        intros [[t c] p] Hin; destruct (Hgone t c p Hin) as [Hne _];
        (destruct (String.eqb t eventName) eqn:He; [|reflexivity]);
        apply String.eqb_eq in He; contradiction.
  - intros [= <-]. split; [exact Hrec|]. split; [exact Hl|].
    unfold listenersFor, heard.
    rewrite !omap_none; [reflexivity| |];
      intros [[t c] p] Hin; (destruct (String.eqb t eventName) eqn:He; [|reflexivity]);
      apply String.eqb_eq in He; subst t;
      destruct (Hrec eventName c p Hin) as (l0 & _ & Hl0 & _); congruence.
Qed.

Lemma compact_steps (st st' : @Events.State Options) :
  compact st ->
  (forall eventName cb o, event capture aborted eventName cb o st = Ok st' -> compact st')
  /\ (forall eventName cb o,
        removeEvent stringify capture eventName cb o st = Ok st' -> compact st')
  /\ (forall eventName, removeAllEvents capture eventName st = Ok st' -> compact st').
Proof.
  intros Hc. split; [|split].
  - intros eventName cb o. unfold event.
    destruct (Attr.includes objectPrototype eventName); [discriminate|].
    intros [= <-] name l. cbn [eventListeners].
    destruct (decide (eventName = name)) as [->|Hne].
    + rewrite lookup_insert_eq. intros [= <-]. destruct (default [] _); discriminate.
    + rewrite lookup_insert_ne by exact Hne. apply Hc.
  - intros eventName cb o. unfold removeEvent.
    destruct (Attr.includes objectPrototype eventName); [discriminate|].
    intros [= <-] name l. cbn [eventListeners].
    destruct (eventListeners st !! eventName) as [l0|]; [|apply Hc].
    destruct (findIndex (matches stringify cb o) l0) as [index|]; [|apply Hc].
    destruct (splice index l0) as [|y r].
    + destruct (decide (eventName = name)) as [->|Hne].
      * rewrite lookup_delete_eq. discriminate.
      * rewrite lookup_delete_ne by exact Hne. apply Hc.
    + destruct (decide (eventName = name)) as [->|Hne].
      * rewrite lookup_insert_eq. intros [= <-]. discriminate.
      * rewrite lookup_insert_ne by exact Hne. apply Hc.
  - intros eventName. unfold removeAllEvents.
    destruct (Attr.includes objectPrototype eventName); [discriminate|].
    destruct (eventListeners st !! eventName) as [l0|]; [|intros [= <-]; exact Hc].
    intros [= <-] name l. cbn [eventListeners].
    destruct (decide (eventName = name)) as [->|Hne].
    + rewrite lookup_delete_eq. discriminate.
    + rewrite lookup_delete_ne by exact Hne. apply Hc.
Qed.

End Registry.

Section RegistryRoundTrip.

Import Events.

Context {Options : Type}.
Context (stringify : Options -> option string).
Context (capture : Options -> bool).
Context (aborted : Options -> bool).

Lemma removeEventListener_absent type cb o (target : list (string * nat * bool)) :
  ~ In (type, cb, capture o) target ->
  removeEventListener capture type cb o target = target.
Proof.
  intros Hno. unfold removeEventListener. induction target as [|x t IH]; [reflexivity|].
  cbn [List.filter].
  destruct (sameListener type cb (capture o) x) eqn:Hs.
  - apply sameListener_spec in Hs. subst x. exfalso. apply Hno. left. reflexivity.
  - cbn [negb]. rewrite IH; [reflexivity|]. intros H. apply Hno. right. exact H.
Qed.

Lemma remove_added type cb o (target : list (string * nat * bool)) :
  ~ In (type, cb, capture o) target ->
  removeEventListener capture type cb o (addEventListener capture aborted type cb o target)
  = target.
Proof.
  intros Hno. unfold addEventListener.
  destruct (aborted o || existsb _ target); [apply removeEventListener_absent, Hno|].
  unfold removeEventListener. rewrite List.filter_app.
  fold (removeEventListener capture type cb o target).
  rewrite (removeEventListener_absent _ _ _ _ Hno). cbn [List.filter].
  rewrite (proj2 (sameListener_spec type cb (capture o) _) eq_refl).
  apply app_nil_r.
Qed.

Lemma listenersFor_removeEventListener type cb o other
    (registry : gmap string (list (@Events.Registered Options)))
    (target : list (string * nat * bool)) :
  other <> type ->
  listenersFor other (mkState registry (removeEventListener capture type cb o target))
  = listenersFor other (mkState registry target).
Proof.
  intros Hne. unfold listenersFor. cbn [eventTarget].
  assert (Hphase : forall phase,
             heard other phase (removeEventListener capture type cb o target)
             = heard other phase target).
  { intros phase. unfold heard, removeEventListener.
    induction target as [|[[t c] p] target IH]; [reflexivity|].
    cbn [List.filter].
    destruct (sameListener type cb (capture o) (t, c, p)) eqn:Hs; cbn [negb].
    - apply sameListener_spec in Hs. injection Hs as -> -> ->.
      cbn [omap list_omap]. rewrite IH.
      destruct (String.eqb type other) eqn:He; [|reflexivity].
      apply String.eqb_eq in He. congruence.
    - cbn [omap list_omap]. rewrite IH. reflexivity. }
  rewrite !Hphase. reflexivity.
Qed.

Lemma listenersFor_removeAll eventName other
    (registry : gmap string (list (@Events.Registered Options)))
    (l : list (@Events.Registered Options)) : forall target,
  other <> eventName ->
  listenersFor other
    (mkState registry
       (fold_left (fun target listener =>
                     removeEventListener capture eventName (callback listener)
                                         (options listener) target) l target))
  = listenersFor other (mkState registry target).
Proof.
  induction l as [|y l IH]; intros target Hne; [reflexivity|].
  cbn [fold_left]. rewrite (IH _ Hne). apply listenersFor_removeEventListener, Hne.
Qed.

End RegistryRoundTrip.

(** X17.  The registry follows the event target: in every state that
    [event], [removeEvent] and [removeAllEvents] reach from the state of a
    new engine, every listener of the event target has an entry in the
    registry with its callback and its capture flag, and no event name is
    kept with an empty list.  For [removeEvent] this asks that
    [JSON.stringify] tells options apart when their capture flags
    differ. *)
Theorem registry_records_target {Options : Type} (stringify : Options -> option string)
    (capture aborted : Options -> bool)
    (Hcapture : forall o1 o2, stringify o1 = stringify o2 -> capture o1 = capture o2) :
  (Events.recorded capture (@Events.initial Options)
   /\ Events.compact (@Events.initial Options))
  /\ (forall (st st' : @Events.State Options),
        Events.recorded capture st -> Events.compact st ->
        (exists eventName cb o, Events.event capture aborted eventName cb o st = Ok st')
        \/ (exists eventName cb o,
              Events.removeEvent stringify capture eventName cb o st = Ok st')
        \/ (exists eventName, Events.removeAllEvents capture eventName st = Ok st') ->
        Events.recorded capture st' /\ Events.compact st').
Proof.
  split.
  - split; [intros type cb cap []|]. intros name l. unfold Events.initial.
    cbn [Events.eventListeners]. rewrite lookup_empty. discriminate.
  - intros st st' Hrec Hcompact Hstep.
    destruct (compact_steps stringify capture aborted st st' Hcompact) as (He & Hr & Ha).
    destruct Hstep as [(name & cb & o & H) | [(name & cb & o & H) | (name & H)]].
    + split; [exact (recorded_event capture aborted name cb o st st' Hrec H)
             | exact (He name cb o H)].
    + split; [exact (recorded_removeEvent stringify capture name cb o st st' Hcapture Hrec H)
             | exact (Hr name cb o H)].
    + split; [exact (proj1 (recorded_removeAllEvents capture name st st' Hrec H))
             | exact (Ha name H)].
Qed.

(** Options that are booleans: the capture flag itself. *)
Lemma registry_records_target_witness :
  let stringify := fun b : bool => Some (if b then "true" else "false") in
  let st := Events.mkState (<["saved" := [Events.mkRegistered 7 true]]> ∅)
                           [("saved", 7%nat, true)] in
  exists st', Events.removeEvent stringify id "saved" 7 true st = Ok st'
              /\ Events.recorded id st' /\ Events.compact st'.
Proof.
  intros stringify st. eexists. split; [reflexivity|].
  refine (proj2 (registry_records_target stringify id (fun _ => false) _) st _ _ _ _).
  - intros [] [] H; try reflexivity; discriminate H.
  - intros type cb cap [[= <- <- <-]|[]]. eexists _, _. split; [reflexivity|].
    simpl. auto.
  - intros name l. cbn [Events.eventListeners st].
    destruct (decide ("saved" = name)) as [<-|Hne].
    + rewrite lookup_insert_eq. intros [= <-]. discriminate.
    + rewrite lookup_insert_ne by exact Hne. rewrite lookup_empty. discriminate.
  - right. left. exists "saved", 7%nat, true. reflexivity.
Defined.

(** X18.  After [removeAllEvents(eventName)] in a state in which the
    registry records the listeners of the event target, the event has no
    entry in the registry and no listener on the event target, so that
    [dispatchEvent] reaches no callback for it; the listeners of every
    other event are reached as before. *)
Theorem removeAllEvents_silences {Options : Type} (capture : Options -> bool)
    (eventName : string) (st st' : @Events.State Options)
    (Hrecorded : Events.recorded capture st)
    (Hstep : Events.removeAllEvents capture eventName st = Ok st') :
  Events.eventListeners st' !! eventName = None
  /\ Events.listenersFor eventName st' = []
  /\ (forall other, other <> eventName ->
        Events.listenersFor other st' = Events.listenersFor other st
        /\ Events.eventListeners st' !! other = Events.eventListeners st !! other).
Proof.
  destruct (recorded_removeAllEvents capture eventName st st' Hrecorded Hstep)
    as (_ & Hnone & Hsilent).
  split; [exact Hnone|]. split; [exact Hsilent|].
  intros other Hne. revert Hstep. unfold Events.removeAllEvents.
  destruct (Attr.includes Events.objectPrototype eventName); [discriminate|].
  destruct (Events.eventListeners st !! eventName) as [l|]; intros [= <-];
    [|split; reflexivity].
  split.
  - rewrite (listenersFor_removeAll capture eventName other _ l _ Hne). reflexivity.
  - cbn [Events.eventListeners]. apply lookup_delete_ne. congruence.
Qed.

(** Two listeners of [saved] and one of [closed]: after the removal, only
    the latter is reached. *)
Lemma removeAllEvents_silences_witness :
  let st := Events.mkState
              (<["saved" := [Events.mkRegistered 7 false; Events.mkRegistered 8 true]]>
                 (<["closed" := [Events.mkRegistered 9 false]]> ∅))
              [("saved", 7%nat, false); ("closed", 9%nat, false); ("saved", 8%nat, true)] in
  exists st', Events.removeAllEvents id "saved" st = Ok st'
              /\ Events.listenersFor "saved" st' = []
              /\ Events.listenersFor "closed" st' = [9%nat].
Proof.
  intros st. eexists. split; [reflexivity|].
  match goal with
  | |- Events.listenersFor _ ?st' = _ /\ _ =>
      destruct (removeAllEvents_silences id "saved" st st') as (_ & Hs & Hother)
  end.
  - intros type cb cap [[= <- <- <-]|[[= <- <- <-]|[[= <- <- <-]|[]]]].
    + eexists _, (Events.mkRegistered 7 false). split; [reflexivity|]. simpl. auto.
    + eexists _, (Events.mkRegistered 9 false). split; [reflexivity|]. simpl. auto.
    + eexists _, (Events.mkRegistered 8 true). split; [reflexivity|]. simpl. auto.
  - reflexivity.
  - split; [exact Hs|]. rewrite (proj1 (Hother "closed" ltac:(discriminate))). reflexivity.
Defined.

(** X19.  [removeEvent] undoes [event]: when the registry has no entry
    that [removeEvent] would take for the listener, and the event target
    has no listener with its type, callback and capture flag, registering
    the listener and removing it leaves the registry and the event target
    exactly as they were.  The name of a property that objects inherit,
    such as [constructor], cannot be registered: [event] throws a
    [TypeError]. *)
Theorem event_removeEvent_round_trip {Options : Type}
    (stringify : Options -> option string) (capture aborted : Options -> bool)
    (eventName : string) (cb : nat) (o : Options) (st st1 : @Events.State Options)
    (Hcompact : Events.compact st)
    (Hnew : forall l, Events.eventListeners st !! eventName = Some l ->
                      Events.findIndex (Events.matches stringify cb o) l = None)
    (Hfree : ~ In (eventName, cb, capture o) (Events.eventTarget st))
    (Hevent : Events.event capture aborted eventName cb o st = Ok st1) :
  Events.removeEvent stringify capture eventName cb o st1 = Ok st
  /\ (forall name st0, In name Events.objectPrototype ->
        exists e, Events.event capture aborted name cb o st0 = Throw e
                  /\ Js.err_name e = "TypeError").
Proof.
  split.
  - revert Hevent. unfold Events.event, Events.removeEvent.
    destruct (Attr.includes Events.objectPrototype eventName); [discriminate|].
    intros [= <-]. cbn [Events.eventListeners Events.eventTarget].
    rewrite lookup_insert_eq, (remove_added capture aborted _ _ _ _ Hfree).
    assert (Hmatch : Events.matches stringify cb o (Events.mkRegistered cb o) = true).
    { unfold Events.matches. cbn [Events.callback Events.options].
      rewrite Nat.eqb_refl, bool_decide_eq_true_2; reflexivity. }
    destruct (Events.eventListeners st !! eventName) as [l|] eqn:Hl; cbn [from_option id].
    + destruct (findIndex_last _ l _ (Hnew l eq_refl) Hmatch) as [-> ->].
      destruct l as [|y r]; [exfalso; exact (Hcompact _ _ Hl eq_refl)|].
      rewrite insert_insert_eq, (insert_id _ _ _ Hl). destruct st; reflexivity.
    + cbn [app Events.findIndex]. rewrite Hmatch. cbn [Events.splice].
      rewrite (delete_insert_id _ _ _ Hl). destruct st; reflexivity.
  - intros name st0 Hin. unfold Events.event.
    destruct (Attr.includes Events.objectPrototype name) eqn:Hp.
    + eexists. split; reflexivity.
    + exfalso. exact (includes_false _ _ Hp Hin).
Qed.

(** A first listener of [saved] on an engine that listens to [closed]. *)
Lemma event_removeEvent_round_trip_witness :
  let stringify := fun b : bool => Some (if b then "true" else "false") in
  let st := Events.mkState (<["closed" := [Events.mkRegistered 9 false]]> ∅)
                           [("closed", 9%nat, false)] in
  exists st1, Events.event id (fun _ => false) "saved" 7 true st = Ok st1
              /\ Events.removeEvent stringify id "saved" 7 true st1 = Ok st.
Proof.
  intros stringify st. eexists. split; [reflexivity|].
  refine (proj1 (event_removeEvent_round_trip stringify id (fun _ => false) "saved" 7 true
                   st _ _ _ _ eq_refl)).
  - intros name l. cbn [Events.eventListeners st].
    destruct (decide ("closed" = name)) as [<-|Hne].
    + rewrite lookup_insert_eq. intros [= <-]. discriminate.
    + rewrite lookup_insert_ne by exact Hne. rewrite lookup_empty. discriminate.
  - intros l Hl. vm_compute in Hl. discriminate Hl.
  - intros [H|[]]. discriminate H.
Defined.

(** ** The text that a request returns *)

Section LastResponse.

Context (B : Browser) (P : Partial).

Lemma effectless_prepareRequestBody element serializeType paramsObject :
  effectless local (prepareRequestBody B element serializeType paramsObject).
Proof. unfold prepareRequestBody. effectless_tac. Qed.

Lemma effectless_runHooks_detached hookName element :
  effectless local (runHooks B P hookName element None).
Proof.
  apply (effectless_weaken reporting); [intros []; try discriminate; reflexivity|].
  apply effectless_runCallbacks_detached.
Qed.

(** When the final handler returns a text, it is the text of the answer
    to its last call of [fetch]. *)
Lemma finalHandler_returns rp w s w' :
  finalHandler B P rp w = (Ok s, w') ->
  exists c r, (netCalls w <= c)%nat /\ netCalls w' = S c /\ net B c = Resolved r
              /\ ok r = true /\ text r = Ok s.
Proof.
  unfold finalHandler. unfold bind at 1.
  destruct (effectless_prepareRequestBody (element rp)
              (Js.orElse (match element rp with
                          | Some el => getAttribute el Attr.SERIALIZE
                          | None => None
                          end) "json") (paramsObject rp) w) as (e1 & Hw1 & _).
  destruct (prepareRequestBody B _ _ _ w) as [[b|e] w1]; [|discriminate].
  cbn [snd] in Hw1. subst w1.
  unfold bind at 1, liftResult at 1.
  destruct (prepareRequestUrl B (url rp) (paramsObject rp)) as [u|e]; [|discriminate].
  unfold bind at 1, liftResult at 1.
  destruct (prepareRequestHeaders B P (element rp) (headers rp)) as [h|e]; [|discriminate].
  unfold bind at 1, tryCatch at 1.
  pose proof (performRequestCore_fst B (withUrlBodyHeaders rp u b h) (traced w e1)) as Hfst.
  pose proof (performRequestCore_snd B (withUrlBodyHeaders rp u b h) (traced w e1)) as Hsnd.
  destruct (performRequestCore B (withUrlBodyHeaders rp u b h) (traced w e1))
    as [[r|e] w2]; cbn [fst snd] in Hfst, Hsnd.
  - destruct (fst (attemptLoop B _ _ 0 (traced w e1))) as [[r0|]|e] eqn:Hloop;
      try discriminate Hfst.
    injection Hfst as <-.
    destruct (attemptLoop_returns B _ _ _ 0 (traced w e1) r eq_refl Hloop)
      as (Hok & c & Hle & Hnet & Hcalls).
    rewrite <- Hsnd in Hcalls.
    unfold bind at 1, setLastResponse at 1. unfold bind at 1.
    match goal with
    | |- context [runHooks B P "afterResponse" None None ?w3] =>
        destruct (effectless_runHooks_detached "afterResponse" None w3) as (e3 & Hw3 & _);
        destruct (runHooks B P "afterResponse" None None w3) as [[[]|e] w4];
        [|discriminate]
    end.
    cbn [snd] in Hw3. subst w4. unfold liftResult. intros [= Ht <-].
    exists c, r. cbn [traced lastResponse netCalls] in *. repeat split; assumption.
  - unfold bind, emit, throw. discriminate.
Qed.

End LastResponse.

(** X20.  In an engine without hook on [beforeRequest] and on
    [afterResponse], and whose middleware call [next] and return what it
    returns, when [performRequest] returns a text, at least one call of
    [fetch] has been made in the run, the last of them has been answered
    with an HTTP-success status, and the text returned is the text of that
    answer. *)
Theorem performRequest_returns_answer (B : Browser) (P : Partial) (rp : RequestParams)
    (w w' : World) (s : string)
    (Hmw : Forall (fun mw => mw = MwNext) (middleware P))
    (Hhooks : hooks P "beforeRequest" = [] /\ hooks P "afterResponse" = [])
    (Hret : performRequest B P rp w = (Ok s, w')) :
  exists c r, (netCalls w <= c)%nat /\ netCalls w' = S c /\ net B c = Resolved r
              /\ ok r = true /\ text r = Ok s.
Proof.
  revert Hret. unfold performRequest, bind.
  destruct (effectless_runHooks_detached B P "beforeRequest" None w) as (e1 & Hw1 & _).
  destruct (runHooks B P "beforeRequest" None None w) as [[[]|e] w1]; [|discriminate].
  cbn [snd] in Hw1. subst w1. unfold runMiddleware.
  rewrite <- (app_nil_r (middleware P)), (runner_next (middleware P) [] _ Hmw).
  cbn [runner]. rewrite traced_traced. intros Hfinal.
  destruct (finalHandler_returns B P rp _ s w' Hfinal) as (c & r & Hle & Hrest).
  exists c, r. cbn [traced netCalls] in Hle. auto.
Qed.

(** A server that answers [new]: the text returned is that of the answer
    to the one call of [fetch]. *)
Lemma performRequest_returns_answer_witness :
  let B := Example.browser (fun _ => Example.respond [] "new") in
  exists w' r,
    performRequest B Example.engine (Example.request Js.NaN (Js.Int 1))
                   (Example.world [] None) = (Ok "new", w')
    /\ netCalls w' = 1%nat /\ net B 0 = Resolved r /\ text r = Ok "new".
Proof.
  intros B. eexists _.
  destruct (performRequest_returns_answer B Example.engine
              (Example.request Js.NaN (Js.Int 1))
              (Example.world [] None) _ "new" (List.Forall_nil _)
              (conj eq_refl eq_refl) eq_refl)
    as (c & r & _ & Hcalls & Hnet & _ & Htext).
  injection Hcalls as <-.
  exists r. split; [reflexivity|]. split; [reflexivity|]. split; assumption.
Defined.

(** ** The end of an infinite scroll *)

Lemma findInForest_rewrite_inv i (g : Node -> Node) l n' :
  (forall y, Dom.isNode i y = true -> Dom.isNode i (g y) = true) ->
  Dom.findInForest i (Dom.rewriteForest i (fun y => [g y]) l) = Some n' ->
  exists x, Dom.findInForest i l = Some x /\ n' = g x.
Proof.
  intros Hg Hfound. destruct (Dom.findInForest i l) as [x|] eqn:Hl.
  - exists x. split; [reflexivity|].
    rewrite (findInForest_rewrite i g l x Hg Hl) in Hfound. congruence.
  - rewrite (rewriteForest_absent i _ l Hl) in Hfound. congruence.
Qed.

Lemma pruneForest_removes s l : Dom.findInForest s (Parsed.pruneForest s l) = None.
Proof.
  induction l as [|c l IH]; [reflexivity|]. cbn [Parsed.pruneForest].
  destruct (Dom.isNode s c) eqn:Hs; [exact IH|].
  cbn [Dom.findInForest]. rewrite IH.
  assert (Hc : Dom.findNode s (Parsed.pruneNode s c) = None); [|rewrite Hc; reflexivity].
  revert Hs. induction c as [d|j t a m cs IHc] using Node_tree_ind; [reflexivity|].
  cbn [Dom.isNode]. intros Hsj. rewrite pruneNode_elem, findNode_elem, Hsj.
  induction IHc as [|c0 cs Hc0 _ IHcs]; [reflexivity|].
  cbn [Parsed.pruneForest]. destruct (Dom.isNode s c0) eqn:Hs0; [exact IHcs|].
  cbn [Dom.findInForest]. rewrite (Hc0 eq_refl). exact IHcs.
Qed.

Lemma rewriteForest_marks_absent s i m l :
  Dom.findInForest s l = None ->
  Dom.findInForest s (Dom.rewriteForest i (fun y => [Dom.setMarks m y]) l) = None.
Proof.
  assert (Hnode : forall n, Dom.findNode s n = None ->
                    Dom.findInForest s (Dom.rewriteNode i (fun y => [Dom.setMarks m y]) n)
                    = None).
  { induction n as [d|j t a m0 cs IH] using Node_tree_ind; [reflexivity|].
    rewrite findNode_elem, rewriteNode_elem.
    destruct (Nat.eqb s j) eqn:Hsj; [discriminate|]. intros Hcs.
    destruct (Nat.eqb i j).
    - cbn [Dom.setMarks Dom.findInForest]. rewrite findNode_elem, Hsj, Hcs. reflexivity.
    - cbn [Dom.findInForest]. rewrite findNode_elem, Hsj.
      assert (Hin : Dom.findInForest s
                      (Dom.rewriteForest i (fun y => [Dom.setMarks m y]) cs) = None);
        [|rewrite Hin; reflexivity].
      induction IH as [|c cs Hc _ IHcs]; [reflexivity|].
      cbn [Dom.findInForest] in Hcs. cbn [Dom.rewriteForest]. rewrite findInForest_app.
      destruct (Dom.findNode s c) eqn:Hf; [discriminate|].
      rewrite (Hc eq_refl). exact (IHcs Hcs). }
  induction l as [|c l IH]; [reflexivity|].
  cbn [Dom.findInForest Dom.rewriteForest]. rewrite findInForest_app.
  destruct (Dom.findNode s c) eqn:Hf; [discriminate|].
  intros Hl. rewrite (Hnode c Hf). exact (IH Hl).
Qed.

(** X21.  [stopInfiniteScroll] is final for an element of the document:
    afterwards the element is marked as stopped, it has neither sentinel
    nor observer while it keeps its listeners, its sentinel is no longer
    in the document, and [setupInfiniteScroll] on it does nothing: it
    creates no sentinel and observes nothing. *)
Theorem stopInfiniteScroll_final (i : nat) (w : World) (n n' : Node) (self : Element)
    (k : nat)
    (Hbefore : Dom.findInForest i (document w) = Some n)
    (Hafter : Dom.findInForest i (document (snd (stopInfiniteScroll i w))) = Some n') :
  Dom.marksOf n'
  = mkMarks (initialized (Dom.marksOf n)) (listeners (Dom.marksOf n))
            (sseInitialized (Dom.marksOf n)) None false true
  /\ setupInfiniteScroll self (Dom.marksOf n') k = (Dom.marksOf n', [], k, [])
  /\ (forall s, sentinelElement (Dom.marksOf n) = Some s ->
        Dom.findInForest s (document (snd (stopInfiniteScroll i w))) = None).
Proof.
  revert Hafter. unfold stopInfiniteScroll. run_steps. rewrite Hbefore. run_steps.
  intros Hafter.
  apply findInForest_rewrite_inv in Hafter; [|intros y; apply isNode_setMarks].
  destruct Hafter as (x & Hx & ->).
  assert (Hmarks : forall d0, Dom.findInForest i d0 = Some x ->
                     Dom.marksOf (Dom.setMarks
                                    (mkMarks (initialized (Dom.marksOf n))
                                       (listeners (Dom.marksOf n))
                                       (sseInitialized (Dom.marksOf n)) None false true) x)
                     = mkMarks (initialized (Dom.marksOf n)) (listeners (Dom.marksOf n))
                               (sseInitialized (Dom.marksOf n)) None false true).
  { intros d0 Hd0. destruct x as [j t a m cs|d]; [reflexivity|]. exfalso.
    clear -Hd0. induction d0 as [|c d0 IH]; [discriminate|].
    cbn [Dom.findInForest] in Hd0. destruct (Dom.findNode i c) as [y|] eqn:Hf; [|auto].
    injection Hd0 as ->. apply findNode_isNode in Hf. discriminate. }
  rewrite (Hmarks _ Hx). split; [reflexivity|]. split; [reflexivity|].
  intros s Hs. rewrite Hs. apply rewriteForest_marks_absent, pruneForest_removes.
Qed.

(** A list that scrolls, with its sentinel after it. *)
Lemma stopInfiniteScroll_final_witness :
  let running := mkMarks true [] false (Some 4%nat) true false in
  let list := Elem 2 "UL" [("id", "x"); ("x-get", "/page"); ("x-infinite-scroll", "")]
                running [] in
  let w := mkWorld [Elem 0 "HTML" [] noMarks
                      [Elem 1 "BODY" [] noMarks [list; sentinelNode 4]]]
                   None 10 0 [] in
  exists n', Dom.findInForest 2 (document (snd (stopInfiniteScroll 2 w))) = Some n'
             /\ scrollStopped (Dom.marksOf n') = true
             /\ Dom.findInForest 4 (document (snd (stopInfiniteScroll 2 w))) = None.
Proof.
  intros running list w. eexists. split; [reflexivity|].
  destruct (stopInfiniteScroll_final 2 w list _ (Example.trigger []) 10 eq_refl eq_refl)
    as (Hmarks & _ & Hgone).
  split; [rewrite Hmarks; reflexivity | exact (Hgone 4%nat eq_refl)].
Defined.

(** ** The listener of an element *)

Lemma orElse_filled (v : option string) (d : string) : d <> "" -> Js.orElse v d <> "".
Proof.
  intros Hd. unfold Js.orElse. destruct v as [s|]; [|exact Hd].
  destruct (String.eqb s "") eqn:Hs; [exact Hd|]. apply String.eqb_neq. exact Hs.
Qed.

(** X22.  [setupElement] on an element that is not yet initialized and
    has no x-infinite-scroll attaches exactly one listener and marks the
    element; the event type of the listener is never empty (a form
    listens to [submit] and any other element to [click] when x-trigger
    gives nothing), and its delay is a valid x-debounce value of the
    element, or else the delay of the engine: it is never negative when
    the delay of the engine is not. *)
Theorem setupElement_listener (P : Partial) (self : Element) (m : Marks) (k : nat)
    (Hnew : initialized m = false)
    (Hplain : hasAttribute self Attr.INFINITE_SCROLL = false) :
  exists trigger delay evs,
    setupElement P self m k
    = (mkMarks true (listeners m ++ [mkListener trigger delay])%list (sseInitialized m)
               (sentinelElement m) (scrollObserver m) (scrollStopped m), [], k, evs)
    /\ trigger <> ""
    /\ trigger = (if String.eqb (tagName self) "FORM"
                  then Js.orElse (getAttribute self Attr.TRIGGER) "submit"
                  else Js.orElse (getAttributeWithInheritance self Attr.TRIGGER) "click")
    /\ (0 <= debounceTime P -> 0 <= delay)
    /\ (delay = debounceTime P
        \/ exists v, getAttributeWithInheritance self Attr.DEBOUNCE = Some v
                     /\ Js.parseInt (Some v) = Js.Int delay /\ evs = []).
Proof.
  unfold setupElement. rewrite Hnew, Hplain.
  assert (Htrigger : (if String.eqb (tagName self) "FORM"
                      then Js.orElse (getAttribute self Attr.TRIGGER) "submit"
                      else Js.orElse (getAttributeWithInheritance self Attr.TRIGGER) "click")
                     <> "").
  { destruct (String.eqb (tagName self) "FORM"); apply orElse_filled; discriminate. }
  destruct (getAttributeWithInheritance self Attr.DEBOUNCE) as [v|] eqn:Hv.
  - destruct (Js.parseInt (Some v)) as [|z] eqn:Hz;
      [eexists _, _, _; repeat split; [exact Htrigger | auto | auto]|].
    destruct (0 <=? z) eqn:Hpos.
    + eexists _, _, _. repeat split; [exact Htrigger | | eauto].
      intros _. apply Z.leb_le. exact Hpos.
    + eexists _, _, _. repeat split; [exact Htrigger | auto | auto].
  - eexists _, _, _. repeat split; [exact Htrigger | auto | auto].
Qed.

(** A form with [x-debounce="300"]: it listens to [submit], after 300
    milliseconds. *)
Lemma setupElement_listener_witness :
  let form := mkElement 5 "FORM" [("x-post", "/save"); ("x-debounce", "300")]
                (Some Example.ancestors) in
  exists trigger delay evs,
    setupElement Example.engine form noMarks 10
    = (mkMarks true [mkListener trigger delay] false None false false, [], 10%nat, evs)
    /\ trigger <> "" /\ 0 <= delay.
Proof.
  intros form.
  destruct (setupElement_listener Example.engine form noMarks 10 eq_refl eq_refl)
    as (trigger & delay & evs & Hrun & Hne & _ & Hpos & _).
  exists trigger, delay, evs. split; [exact Hrun|]. split; [exact Hne|].
  apply Hpos. discriminate.
Defined.

(** ** Debounced actions *)

Section Debounced.

Import Debounce.

Context {Args : Type}.

Lemma single_invoke (args : Args) (st : @Debounce.State Args) :
  single st ->
  pending (invoke args st) = [(nextTimer st, args)] /\ single (invoke args st).
Proof.
  intros Hs. unfold invoke.
  assert (Hclear : clearTimeout (timeout st) (pending st) = []).
  { destruct Hs as [-> | (id & a & -> & ->)].
    - destruct (timeout st); reflexivity.
    - cbn. rewrite Nat.eqb_refl. reflexivity. }
  rewrite Hclear. cbn. split; [reflexivity|]. right. eauto.
Qed.

Lemma single_elapse (id : nat) (st : @Debounce.State Args) :
  single st ->
  single (fst (elapse id st))
  /\ (snd (elapse id st) = [] /\ fst (elapse id st) = st
      \/ snd (elapse id st) = waiting st /\ pending (fst (elapse id st)) = []
         /\ exists args, pending st = [(id, args)]).
Proof.
  intros Hs. unfold elapse, waiting.
  destruct Hs as [Hp | (tid & a & Hp & Ht)]; rewrite Hp; cbn.
  - split; [left; exact Hp | left; auto].
  - destruct (Nat.eqb tid id) eqn:He; cbn.
    + apply Nat.eqb_eq in He. subst tid. rewrite Ht. cbn.
      split; [left; reflexivity|]. right. repeat split. eauto.
    + split; [right; eauto | left; auto].
Qed.

Lemma run_sublist (steps : list (@Debounce.Step Args)) : forall st,
  single st ->
  single (fst (run steps st))
  /\ snd (run steps st) `sublist_of` (waiting st ++ calls steps)%list.
Proof.
  induction steps as [|[args|id] rest IH]; intros st Hs.
  - cbn. split; [exact Hs | apply sublist_nil_l].
  - cbn [run]. destruct (single_invoke args st Hs) as [Hp Hs1].
    destruct (IH _ Hs1) as [Hs2 Hsub]. split; [exact Hs2|].
    unfold waiting in Hsub at 1. rewrite Hp in Hsub. cbn [map snd app] in Hsub.
    change (calls (Call args :: rest)) with (args :: calls rest).
    apply sublist_inserts_l. exact Hsub.
  - cbn [run]. destruct (single_elapse id st Hs) as [Hs1 Hout].
    destruct (elapse id st) as [st1 out1]. cbn [fst snd] in *.
    destruct (IH _ Hs1) as [Hs2 Hsub].
    destruct (run rest st1) as [st2 out2]. cbn [fst snd] in *.
    split; [exact Hs2|].
    change (calls (Elapse id :: rest)) with (calls rest).
    destruct Hout as [[-> ->] | (-> & Hp1 & _)].
    + exact Hsub.
    + unfold waiting in Hsub at 1. rewrite Hp1 in Hsub. cbn [map app] in Hsub.
      apply sublist_app; [reflexivity | exact Hsub].
Qed.

End Debounced.

(** X24.  A debounced function passes on only the latest call.  Through
    any sequence of calls and of timers that run, at most one timer of the
    function is pending; the arguments with which [func] is called are
    arguments of the calls, in their order, each call giving at most one
    call of [func]; a call cancels the timer of the call before it, and a
    call whose timer runs before the next call reaches [func] with its own
    arguments. *)
Theorem debounce_latest {Args : Type} (steps : list (@Debounce.Step Args)) :
  let st := fst (Debounce.run steps Debounce.initial) in
  (length (Debounce.pending st) <= 1)%nat
  /\ snd (Debounce.run steps Debounce.initial) `sublist_of` Debounce.calls steps
  /\ (forall first second,
        Debounce.waiting (Debounce.invoke second (Debounce.invoke first st)) = [second])
  /\ (forall args,
        snd (Debounce.elapse (Debounce.nextTimer st) (Debounce.invoke args st)) = [args]).
Proof.
  cbv zeta.
  destruct (run_sublist steps Debounce.initial (or_introl eq_refl)) as [Hs Hsub].
  split; [|split; [exact Hsub|split]].
  - destruct Hs as [-> | (id & a & -> & _)]; simpl; lia.
  - intros first second.
    destruct (single_invoke first _ Hs) as [_ Hs1].
    destruct (single_invoke second _ Hs1) as [Hp _].
    unfold Debounce.waiting. rewrite Hp. reflexivity.
  - intros args. destruct (single_invoke args _ Hs) as [Hp _].
    unfold Debounce.elapse. rewrite Hp. cbn. rewrite Nat.eqb_refl. reflexivity.
Qed.

(** ** Messages of an event source *)

Lemma swapsOf_app (e1 e2 : list Event) :
  swapsOf (e1 ++ e2) = (swapsOf e1 ++ swapsOf e2)%list.
Proof. apply omap_app. Qed.

Section SseFacts.

Context (B : Browser) (P : Partial).

Lemma quiet_handleError_detached error element :
  quiet (handleError B P error element None).
Proof.
  apply (effectless_only local), (effectless_weaken reporting);
    [intros []; try discriminate; reflexivity|].
  apply effectless_handleError_detached.
Qed.

Lemma quiet_dispatchCustomEvents events : quiet (dispatchCustomEvents events).
Proof.
  unfold dispatchCustomEvents. apply quiet_emitAll.
  induction (Js.splitComma events) as [|e l IH]; [reflexivity | exact IH].
Qed.

Lemma quiet_focusElement i : quiet (focusElement i).
Proof.
  unfold focusElement. apply quiet_bind.
  - intros w. exists []. split; [symmetry; apply app_nil_r | reflexivity].
  - intros tabindex. apply quiet_bind; [|intros _; apply quiet_emit; reflexivity].
    destruct tabindex; [apply quiet_ret | apply quiet_rewriteTarget].
Qed.

Lemma quiet_bodyContains i : quiet (bodyContains i).
Proof.
  unfold bodyContains. apply quiet_bind; [apply quiet_getWorld|]. intros w.
  destruct (Parsed.body (document w)); [apply quiet_ret | apply quiet_throw].
Qed.

(** What follows the swap in [handleSSEMessage] swaps nothing. *)
Lemma quiet_afterSwap (data : SseMessage) (element : nat) :
  quiet ((let focusEnabled := negb (bool_decide (xFocus data = Some "false")) in
          if autoFocus P && focusEnabled
          then do found' <- query B (textOf (xTarget data));
               focusElement (match found' with Some t => t | None => element end)
          else ret tt);;;
         scanForElements P CDocument;;;
         (if Js.truthy (xEvent data)
          then dispatchCustomEvents (Js.toString (xEvent data))
          else ret tt);;;
         emit (EvDispatch "sseContentReplaced")).
Proof.
  apply quiet_bind.
  - cbv zeta. destruct (autoFocus P && _); [|apply quiet_ret].
    apply quiet_bind; [apply quiet_query|]. intros found. apply quiet_focusElement.
  - intros _. apply quiet_bind; [apply quiet_scanForElements|]. intros _.
    apply quiet_bind; [|intros _; apply quiet_emit; reflexivity].
    destruct (Js.truthy (xEvent data)); [apply quiet_dispatchCustomEvents | apply quiet_ret].
Qed.

End SseFacts.



(** ** Navigation in the history *)

Section PopStateFacts.

Context (B : Browser) (P : Partial).

(** Once the state names an element of the document, [handlePopState]
    does not reload. *)
Lemma handlePopState_restoring s t w :
  History.xPartial s = true ->
  Js.truthy (History.partialId s) = true ->
  Js.truthy (History.url s) = true ->
  Dom.getElementById (Js.toString (History.partialId s)) (document w) = Some t ->
  handlePopState B P (Some s) w
  = (do self <- liveElement t;
     do requestParams <- extractRequestParams B P self;
     do self <- currentElement self;
     tryCatch (handlePopStateTry B P s (restoring s self requestParams))
              (fun error => handleError B P error (Some t) None);;;
     ret Stay) w.
Proof.
  intros Hx Hp Hu Ht. unfold handlePopState. rewrite Hx, Hp, Hu. cbn [negb orb].
  unfold bind at 1, getWorld at 1. rewrite Ht. reflexivity.
Qed.

Lemma restorable_some s t d :
  restorable d (Some s) = Some t ->
  History.xPartial s = true /\ Js.truthy (History.partialId s) = true
  /\ Js.truthy (History.url s) = true
  /\ Dom.getElementById (Js.toString (History.partialId s)) d = Some t.
Proof.
  unfold restorable.
  destruct (History.xPartial s), (Js.truthy (History.partialId s)),
    (Js.truthy (History.url s)); cbn [andb]; try discriminate.
  auto.
Qed.

End PopStateFacts.

(** X26.  [handlePopState] reloads the page exactly when it cannot
    restore the state: there is no state, the state is not one of the
    engine, it lacks the identifier or the address, or the document has
    no element with the identifier.  It then only warns on the console:
    it sends no request and leaves the document as it is.  When it can
    restore the state it never reloads; if the callback [onError] does
    not throw, the failures of the request and of the response are
    caught, so that it returns unless reading the descriptor of the
    element throws. *)
Theorem handlePopState_reload (B : Browser) (P : Partial)
    (state : option History.State) (w : World) :
  let r := handlePopState B P state w in
  (fst r = Ok Reload <-> restorable (document w) state = None)
  /\ (restorable (document w) state = None ->
      exists evs, snd r = traced w evs /\ forallb isConsoleWarn evs = true)
  /\ (forall t, restorable (document w) state = Some t ->
      (forall e, onError P <> Some (Throws e)) ->
      fst r = Ok Stay
      \/ exists e,
           fst r = Throw e
           /\ fst (extractRequestParams B P (elementAt t (document w)) w) = Throw e).
Proof.
  cbv zeta.
  assert (Hsome : forall s t, restorable (document w) (Some s) = Some t ->
            (fst (handlePopState B P (Some s) w) <> Ok Reload)
            /\ ((forall e, onError P <> Some (Throws e)) ->
                fst (handlePopState B P (Some s) w) = Ok Stay
                \/ exists e,
                     fst (handlePopState B P (Some s) w) = Throw e
                     /\ fst (extractRequestParams B P (elementAt t (document w)) w)
                        = Throw e)).
  { intros s t Hr. apply restorable_some in Hr as (Hx & Hp & Hu & Ht).
    rewrite (handlePopState_restoring B P s t w Hx Hp Hu Ht).
    match goal with
    | |- context [fst ?x] => set (r := x); assert (Hr : r = x) by reflexivity; clearbody r
    end.
    unfold bind at 1, liveElement at 1 in Hr.
    unfold bind at 1 in Hr.
    destruct (extractRequestParams B P (elementAt t (document w)) w) as [[rp|e] w1];
      cbn [fst].
    2:{ subst r. split; [discriminate|]. intros _. right. exists e. auto. }
    unfold bind, tryCatch, ret, currentElement in Hr.
    destruct (handlePopStateTry B P s _ w1) as [[[]|e] w2].
    - subst r. cbn [fst]. split; [discriminate | auto].
    - split.
      + subst r. destruct (handleError B P e (Some t) None w2) as [[[]|e'] w3]; discriminate.
      + intros Hcb. subst r.
        destruct (okOnly_handleError B P e (Some t) None Hcb w2) as ([] & w3 & evs & -> & _).
        left. reflexivity. }
  assert (Hnone : restorable (document w) state = None ->
            fst (handlePopState B P state w) = Ok Reload
            /\ exists evs, snd (handlePopState B P state w) = traced w evs
                           /\ forallb isConsoleWarn evs = true).
  { destruct state as [s|]; [|intros _; split; [reflexivity|];
                              exists []; rewrite traced_nil; auto].
    unfold restorable, handlePopState.
    destruct (History.xPartial s); cbn [andb];
      [|intros _; split; [reflexivity|]; exists []; rewrite traced_nil; auto].
    destruct (Js.truthy (History.partialId s)); cbn [andb negb orb];
      [|intros _; split; [reflexivity|]; eexists [_]; split; reflexivity].
    destruct (Js.truthy (History.url s)); cbn [andb negb orb];
      [|intros _; split; [reflexivity|]; eexists [_]; split; reflexivity].
    intros Hn. unfold bind, getWorld. cbv beta iota. rewrite Hn.
    split; [reflexivity|]. eexists [_]. split; reflexivity. }
  split; [|split].
  - split.
    + intros Hr. destruct (restorable (document w) state) as [t|] eqn:Hres; [|reflexivity].
      destruct state as [s|]; [|discriminate Hres].
      destruct (Hsome s t Hres) as [Hne _]. contradiction.
    + intros Hn. apply Hnone, Hn.
  - intros Hn. apply Hnone, Hn.
  - intros t Hr Hcb. destruct state as [s|]; [|discriminate Hr].
    apply (Hsome s t Hr), Hcb.
Qed.

Lemma handlePopState_reload_witness :
  let B := Example.browser (fun _ => Example.unreachable) in
  let w := Example.world [("x-get", "/a")] None in
  let lost := Some (History.mkState true (Some "gone") (Some "/a") None (Js.Int 1)) in
  let kept := Some (History.mkState true (Some "x") (Some "/a") None (Js.Int 1)) in
  (exists evs, snd (handlePopState B Example.engine lost w) = traced w evs
               /\ forallb isConsoleWarn evs = true)
  /\ fst (handlePopState B Example.engine kept w) = Ok Stay.
Proof.
  cbv zeta. split.
  - apply (handlePopState_reload (Example.browser (fun _ => Example.unreachable))
             Example.engine
             (Some (History.mkState true (Some "gone") (Some "/a") None (Js.Int 1)))
             (Example.world [("x-get", "/a")] None)).
    reflexivity.
  - destruct (handlePopState_reload (Example.browser (fun _ => Example.unreachable))
                Example.engine
                (Some (History.mkState true (Some "x") (Some "/a") None (Js.Int 1)))
                (Example.world [("x-get", "/a")] None)) as (_ & _ & H).
    destruct (H 2%nat) as [Hs | (e & _ & He)];
      [reflexivity | intros e; discriminate | exact Hs
      | vm_compute in He; discriminate He].
Defined.

Lemma elementIn_nodeId n : forall i parent e,
  Dom.elementIn i parent n = Some e -> nodeId e = i.
Proof.
  induction n as [d|j t a m cs IH] using Node_tree_ind; intros i parent e; [discriminate|].
  cbn [Dom.elementIn]. destruct (Nat.eqb i j) eqn:Hij.
  - intros [= <-]. apply Nat.eqb_eq in Hij. symmetry. exact Hij.
  - clear Hij. induction IH as [|c cs Hc _ IHcs]; [discriminate|].
    destruct (Dom.elementIn i (Some (mkElement j t a parent)) c) as [x|] eqn:Hx.
    + intros [= <-]. exact (Hc _ _ _ Hx).
    + exact IHcs.
Qed.

Lemma elementOf_nodeId d : forall i e, Dom.elementOf i d = Some e -> nodeId e = i.
Proof.
  induction d as [|c d IH]; intros i e; [discriminate|]. cbn [Dom.elementOf].
  destruct (Dom.elementIn i None c) as [x|] eqn:Hx.
  - intros [= <-]. exact (elementIn_nodeId _ _ _ _ Hx).
  - apply IH.
Qed.

(** The element that the document gives for an identity is the element
    as it is in the document. *)
Lemma current_elementAt d i : Dom.current d (elementAt i d) = elementAt i d.
Proof.
  unfold elementAt, Dom.current.
  destruct (Dom.elementOf i d) as [e|] eqn:He; cbn [default from_option id].
  - rewrite (elementOf_nodeId _ _ _ He), He. reflexivity.
  - cbn [nodeId]. rewrite He. reflexivity.
Qed.

Section PopStateRequest.

Context (B : Browser) (P : Partial).

(** The descriptor of an element without parameters, whose target
    selector is valid, is read without an event. *)
Lemma extractRequestParams_plain (el : Element) (w : World) target :
  querySelector B (document w) (targetSelectorOf el) = Ok target ->
  Js.truthy (getAttributeWithInheritance el Attr.PARAMS) = false ->
  exists rp, extractRequestParams B P el w = (Ok rp, w) /\ paramsObject rp = [].
Proof.
  intros Hsel Hparams. unfold extractRequestParams. rewrite targetSelector_agrees.
  unfold bind at 1, query at 1. rewrite Hsel.
  unfold bind at 1.
  assert (Hid : exists i, (match target with
                           | Some t => liveAttribute t "id"
                           | None => ret None
                           end) w = (Ok i, w)) by (destruct target; eexists; reflexivity).
  destruct Hid as [i ->]. rewrite Hparams. eexists. split; reflexivity.
Qed.

Lemma grows_liveElement i : grows (liveElement i).
Proof. intros w. apply extends_refl. Qed.

Lemma fetchesFirst_handlePopStateTry s rp u n :
  onError P = None ->
  Forall (fun mw => mw = MwNext) (middleware P) ->
  sendable B P rp -> url rp = Some u -> paramsObject rp = [] ->
  maxRetries rp = Js.Int n -> 0 <= n ->
  fetchesFirst u (handlePopStateTry B P s rp).
Proof.
  intros Hnone Hmw Hs Hurl Hparams Hn Hpos. unfold handlePopStateTry.
  apply fetchesFirst_bind; [apply (fetchesFirst_performRequest B P rp u n); assumption|].
  intros responseText. apply grows_bind; [apply grows_query|]. intros [t|];
    [|apply grows_emit].
  apply grows_bind.
  - destruct (Js.truthy _); [apply grows_rewriteTarget | apply grows_ret].
  - intros _. apply grows_bind; [apply grows_liveElement|]. intros self.
    apply grows_bind; [apply grows_processResponse|]. intros _.
    destruct (autoFocus P); [apply grows_emit | apply grows_ret].
Qed.

End PopStateRequest.

(** X27.  The request by which [handlePopState] restores a state goes to
    the address of the state, not to the address that the element
    declares: for a state that names an element of the document whose
    configuration is valid (a target selector that the browser accepts, no
    parameters, a body and headers that can be built), with middleware
    that call on and leave the descriptor as it is, no hook on
    [beforeRequest], no callback [onError] and a number of retries that is
    not negative, the first call of [fetch] is for the address of the
    state. *)
Theorem handlePopState_request (B : Browser) (P : Partial) (s : History.State)
    (w : World) (t : nat) (u : string) (n : Z) (target : option nat)
    (Hnone : onError P = None)
    (Hmw : Forall (fun mw => mw = MwNext) (middleware P))
    (Hhooks : hooks P "beforeRequest" = [])
    (Hres : restorable (document w) (Some s) = Some t)
    (Hurl : History.url s = Some u)
    (Hn : History.maxRetries s = Js.Int n)
    (Hpos : 0 <= n)
    (Hsel : querySelector B (document w) (targetSelectorOf (elementAt t (document w)))
            = Ok target)
    (Hparams : Js.truthy (getAttributeWithInheritance (elementAt t (document w))
                            Attr.PARAMS) = false)
    (Hsend : forall rp, element rp = Some (elementAt t (document w)) ->
                        paramsObject rp = [] -> sendable B P rp) :
  head (fetchesOf (newEvents w (snd (handlePopState B P (Some s) w)))) = Some u.
Proof.
  apply restorable_some in Hres as (Hx & Hp & Hu & Ht).
  rewrite (handlePopState_restoring B P s t w Hx Hp Hu Ht).
  unfold bind at 1, liveElement at 1. unfold bind at 1.
  destruct (extractRequestParams_plain B P _ w target Hsel Hparams) as (rp & -> & Hempty).
  unfold bind at 1, currentElement at 1. rewrite current_elementAt.
  assert (Hff : fetchesFirst u
                  (tryCatch (handlePopStateTry B P s
                               (restoring s (elementAt t (document w)) rp))
                            (fun error => handleError B P error (Some t) None);;;
                   ret Stay)).
  { apply fetchesFirst_bind; [|intros _; apply grows_ret].
    apply fetchesFirst_tryCatch; [|intros e; apply grows_handleError].
    apply (fetchesFirst_handlePopStateTry B P s _ u n); try assumption.
    apply Hsend; [reflexivity | exact Hempty]. }
  destruct (Hff w) as (evs & Htrace & Hfirst).
  rewrite (newEvents_app _ _ _ Htrace). exact Hfirst.
Qed.

Lemma handlePopState_request_witness :
  let B := Example.browser (fun _ => Example.respond [] (Example.print Example.paragraph)) in
  let w := Example.world [("x-get", "/a")] None in
  let s := History.mkState true (Some "x") (Some "/back") None (Js.Int 1) in
  head (fetchesOf (newEvents w (snd (handlePopState B Example.engine (Some s) w))))
  = Some "/back".
Proof.
  intros B w s.
  refine (handlePopState_request B Example.engine s w 2%nat "/back" 1 (Some 2%nat)
            eq_refl (List.Forall_nil _) eq_refl eq_refl eq_refl eq_refl _ eq_refl
            eq_refl _).
  - discriminate.
  - intros rp Hel Hparams. unfold sendable. rewrite Hel, Hparams. split.
    + intros w0. exists BodyNone. reflexivity.
    + eexists. reflexivity.
Defined.

(** ** The handlers of a failure, in full *)

Section Failures.

Context (B : Browser) (P : Partial).

Lemma fallback_notice w message t error :
  bind (emit (EvConsoleError message)) (fun _ => setInnerHTML B t (errorNotice error)) w
  = (Ok tt, fallback B w message (Some t) error).
Proof.
  unfold fallback. run_steps.
  destruct (Dom.instantiateAll (parseHTML B (errorNotice error)) (nextId w)) as [nodes k].
  run_steps. rewrite <- app_assoc. reflexivity.
Qed.

Lemma called w e (cb : Callback) :
  bind (emit e) (fun _ => call cb) w = (returned (Some cb), traced w [e]).
Proof. destruct cb; reflexivity. Qed.

(** What [handleError] does, in each of its cases. *)
Lemma handleError_cases error element target w :
  handleError B P error element target w
  = match onError P with
    | Some cb => (returned (Some cb), traced w [EvOnError error element])
    | None =>
        (Ok tt, fallback B w ("Error: " +:+ Js.err_message error) (targetNode target) error)
    end.
Proof.
  unfold handleError. destruct (onError P) as [cb|]; [apply called|].
  destruct target as [[t|]|]; [apply fallback_notice | reflexivity..].
Qed.

End Failures.



(** ** Out-of-band fragments in the reconciler *)

Section Fragments.

Context (B : Browser) (P : Partial).

Lemma quiet_determineTarget selector targetElement :
  quiet (determineTarget B selector targetElement).
Proof.
  unfold determineTarget. destruct (Js.truthy selector); [|apply quiet_ret].
  apply quiet_bind; [apply quiet_query|]. intros found.
  apply quiet_bind; [apply quiet_getWorld|]. intros w.
  destruct (match found with Some el => Some el | None => _ end); [apply quiet_ret|].
  destruct (String.eqb _ "root"); [apply quiet_ret|].
  apply quiet_bind; [apply quiet_emit; reflexivity | intros _; apply quiet_ret].
Qed.

Lemma quiet_handleResponseEvents : quiet handleResponseEvents.
Proof.
  unfold handleResponseEvents. apply quiet_bind; [apply quiet_getWorld|]. intros w.
  destruct (lastResponse w) as [r|]; [|apply quiet_ret].
  apply quiet_emitAll.
  induction (headerNames (resHeaders r)) as [|name hs IH]; [reflexivity|].
  cbn [flat_map]. rewrite forallb_app, IH.
  destruct (Js.startsWith "x-event-" (Js.toLowerCase name)); reflexivity.
Qed.

Lemma quiet_stopInfiniteScroll i : quiet (stopInfiniteScroll i).
Proof.
  unfold stopInfiniteScroll. apply quiet_bind; [apply quiet_getWorld|]. intros w.
  destruct (Dom.findInForest i (document w)); [apply quiet_setDocument | apply quiet_ret].
Qed.

Lemma quiet_runHooks hookName element target :
  quiet (runHooks B P hookName element target).
Proof.
  intros w. destruct (still_runHooks B P hookName element target w) as (evs & H & Hs).
  exists evs. split; [exact H | apply still_local, Hs].
Qed.

(** What follows the out-of-band swaps in [processResponse] swaps nothing. *)
Lemma quiet_afterOob (infiniteScrollAction : option string) (targetElement : nat)
    (element : Element) :
  quiet (handleResponseEvents;;;
         (if bool_decide (infiniteScrollAction = Some "stop")
             && hasAttribute element Attr.INFINITE_SCROLL
          then stopInfiniteScroll (nodeId element)
          else ret tt);;;
         runHooks B P "afterSettle" (Some (nodeId element)) (Some (TNode targetElement))).
Proof.
  apply quiet_bind; [apply quiet_handleResponseEvents|]. intros _.
  apply quiet_bind; [|intros _; apply quiet_runHooks].
  destruct (_ && _); [apply quiet_stopInfiniteScroll | apply quiet_ret].
Qed.

(** The swaps of a run of [handleOobSwapping]: those of its first element,
    then those of the others. *)
Lemma handleOobSwapping_cons oobElement rest w w1 :
  oobSwap B P oobElement w = (Ok tt, w1) ->
  swapsOf (newEvents w (snd (handleOobSwapping B P (oobElement :: rest) w)))
  = (oobSwapOf B P oobElement (document w)
     ++ swapsOf (newEvents w1 (snd (handleOobSwapping B P rest w1))))%list.
Proof.
  intros Hfirst. cbn [handleOobSwapping]. unfold bind.
  destruct (oobSwap_swaps B P oobElement w) as (e1 & H1 & Hs1).
  rewrite Hfirst in *. cbn [snd] in H1.
  destruct (grows_handleOobSwapping B P rest w1) as [e2 H2].
  rewrite (newEvents_app w1 _ e2 H2).
  erewrite (newEvents_app w _ (e1 ++ e2)%list);
    [|rewrite H2, H1, app_assoc; reflexivity].
  rewrite swapsOf_app, Hs1. reflexivity.
Qed.

(** A run of [processResponse] that returns has made the primary swap,
    with the content of the response, and then the swaps of the
    out-of-band elements of the response, and no other. *)
Lemma processResponse_swaps responseText targetElement element w w' :
  processResponse B P responseText targetElement element w = (Ok tt, w') ->
  exists content primary w1,
    primaryContent B responseText (nextId w) = Some content
    /\ snd (fst primary) = serialize B content
    /\ swapsOf (newEvents w w1) = [primary]
    /\ swapsOf (newEvents w w')
       = primary :: swapsOf (newEvents w1
                               (snd (handleOobSwapping B P
                                       (snd (parsedResponse B responseText (nextId w)))
                                       w1))).
Proof.
  unfold primaryContent, parsedResponse, processResponse, parseFromString.
  unfold bind at 1, emit at 1.
  unfold bind at 1, bind at 1, getWorld at 1. cbn [nextId].
  destruct (Dom.instantiateAll (parseDocument B responseText) (nextId w)) as [nodes k].
  unfold bind at 1, setNextId at 1, ret at 1. cbn [fst].
  destruct (Parsed.extractOob nodes) as [doc oobElements]. cbn [fst snd].
  unfold bind at 1, getWorld at 1. cbn [lastResponse].
  destruct (lastResponse w) as [response|]; [|discriminate].
  set (w0 := mkWorld _ _ _ _ _).
  assert (H0 : trace w0 = (trace w ++ [EvDispatch "beforeUpdate"])%list) by reflexivity.
  clearbody w0.
  unfold bind at 1.
  destruct (quiet_determineTarget (headersGet (resHeaders response) "X-Target")
              targetElement w0) as (et & Ht & Hlt).
  destruct (determineTarget B _ targetElement w0) as [[final|e] wt]; [|discriminate].
  cbn [snd] in Ht.
  destruct (Parsed.body doc) as [b|]; [|discriminate].
  unfold bind at 1, ret at 1. unfold bind at 1, getWorld at 1. unfold bind at 1.
  match goal with
  | |- context [performSwap B P final ?c ?o wt] =>
      set (content := c); set (option := o);
      destruct (performSwap_one_swap B P final content option wt) as (es & Hs & Hss);
      destruct (performSwap B P final content option wt) as [[[]|e] ws]
  end; [|discriminate].
  cbn [snd] in Hs. unfold settle.
  unfold bind at 1, emit at 1.
  set (wa := mkWorld _ _ _ _ _).
  assert (Ha : trace wa = (trace ws ++ [EvDispatch "afterUpdate"])%list) by reflexivity.
  clearbody wa.
  unfold bind at 1, getWorld at 1. unfold bind at 1.
  destruct (quiet_scanForElements P (containerOf (document wt) (document wa) final) wa)
    as (ec & Hc & Hlc).
  destruct (scanForElements P (containerOf (document wt) (document wa) final) wa)
    as [[[]|e] w1]; [|discriminate].
  cbn [snd] in Hc.
  unfold bind at 1.
  destruct (grows_handleOobSwapping B P oobElements w1) as [eo Ho].
  destruct (handleOobSwapping B P oobElements w1) as [[[]|e] w2] eqn:Hoob;
    [|discriminate].
  cbn [snd] in Ho.
  match goal with
  | |- ?rest w2 = _ -> _ =>
      destruct (quiet_afterOob (headersGet (resHeaders response) "X-Infinite-Scroll")
                  targetElement element w2) as (er & Hr & Hlr)
  end.
  intros Hrest. rewrite Hrest in Hr. cbn [snd] in Hr.
  exists (map Dom.erase (Dom.childrenOf b)), (final, content, option), w1.
  split; [reflexivity|]. split; [reflexivity|].
  set (pre := (([EvDispatch "beforeUpdate"] ++ et) ++ es
               ++ ([EvDispatch "afterUpdate"] ++ ec))%list).
  assert (H1 : trace w1 = (trace w ++ pre)%list).
  { unfold pre. rewrite Hc, Ha, Hs, Ht, H0, <- !app_assoc. reflexivity. }
  assert (Hfirst : swapsOf pre = [(final, content, option)]).
  { unfold pre.
    rewrite !swapsOf_app, Hss, (local_no_swaps _ Hlt), (local_no_swaps _ Hlc).
    reflexivity. }
  clearbody pre.
  split.
  - rewrite (newEvents_app _ _ _ H1). exact Hfirst.
  - rewrite Hoob. cbn [snd]. rewrite (newEvents_app w1 w2 eo Ho).
    rewrite (newEvents_app w w' (pre ++ eo ++ er)%list);
      [|rewrite Hr, Ho, H1, <- !app_assoc; reflexivity].
    rewrite !swapsOf_app, Hfirst, (local_no_swaps _ Hlr), app_nil_r.
    reflexivity.
Qed.

End Fragments.

(** Each [removeChild] detaches at most one element. *)
Lemma removeAll_length (ids : list nat) : forall st : list Node * list Node,
  (length (snd (fold_left (fun st i => Parsed.removeChild i st) ids st))
   <= length (snd st) + length ids)%nat.
Proof.
  induction ids as [|i ids IH]; intros [doc detached]; cbn [fold_left length snd]; [lia|].
  etransitivity; [apply IH|]. unfold Parsed.removeChild.
  destruct (Dom.findInForest i (doc ++ detached)); cbn [snd]; [|lia].
  rewrite length_app, length_map. cbn [length]. lia.
Qed.



